(** * fileseq: frame ranges, frame sets and their textual form

    A shallow embedding of [src/fileseq/all.py] (the [FrameSet] class and the
    module-level helpers it relies on) together with the properties stated
    about it.  Python integers are unbounded and are modelled by [Z]; the
    built-in [xrange] takes C [long]s only and raises [OverflowError] beyond
    them, on a platform whose C [long] has 64 bits.  Python 2 byte strings
    are modelled by [list ascii]; a [frozenset] of frames is a [gset Z]; a
    [tuple] of frames is a [list Z]. *)

From Stdlib Require Import ZArith Ascii String DecimalString DecimalZ.
From stdpp Require Import gmap list sorting.

Local Open Scope Z_scope.

Abbreviation text := (list ascii).

(** String literals are written ["..."] in [string_scope] and turned into
    [text] by [T]. *)
Definition T (s : string) : text := list_ascii_of_string s.

(** ** Python built-ins used by the module *)

Module Py.

(** What a call can do: return a value, return the [NotImplemented]
    singleton, or raise. *)
Inductive exn :=
| ParseException (msg : text)
| TypeError
| ValueError
| OverflowError
| AttributeError.

Inductive outcome (A : Type) :=
| Returned (a : A)
| NotImplemented
| Raised (e : exn).
Arguments Returned {A} a.
Arguments NotImplemented {A}.
Arguments Raised {A} e.

Definition bind {A B} (m : outcome A) (k : A -> outcome B) : outcome B :=
  match m with
  | Returned a => k a
  | NotImplemented => NotImplemented
  | Raised e => Raised e
  end.

(** [str(n)] for an integer [n]: decimal digits, ["-"] in front of a
    negative number. *)
Definition str_int (n : Z) : text :=
  T (NilZero.string_of_int (Z.to_int n)).

(** [str(None)]. *)
Definition str_opt (n : option Z) : text :=
  match n with
  | Some z => str_int z
  | None => T "None"
  end.

(** [s.zfill(width)]: zeros are added on the left up to [width]
    characters; a leading sign stays in front. *)
Definition zfill (s : text) (width : Z) : text :=
  if Z.of_nat (length s) >=? width then s
  else
    let fill := Z.to_nat (width - Z.of_nat (length s)) in
    match s with
    | c :: rest =>
        if (Ascii.eqb c "+" || Ascii.eqb c "-")%bool
        then c :: repeat "0"%char fill ++ rest
        else repeat "0"%char fill ++ s
    | [] => repeat "0"%char fill
    end.

Definition is_digit (c : ascii) : bool :=
  (48 <=? nat_of_ascii c)%nat && (nat_of_ascii c <=? 57)%nat.

Arguments is_digit : simpl never.

Definition digit_val (c : ascii) : Z := Z.of_nat (nat_of_ascii c) - 48.

(** [int(s)] on a string of decimal digits with an optional ["-"]. *)
Definition int_digits (s : text) : Z :=
  fold_left (fun acc c => 10 * acc + digit_val c) s 0.

Definition int (s : text) : Z :=
  match s with
  | c :: rest => if Ascii.eqb c "-" then - int_digits rest else int_digits s
  | [] => 0
  end.

(** [s.split(sep)] for a one-character separator. *)
Fixpoint split (sep : ascii) (s : text) : list text :=
  match s with
  | [] => [[]]
  | c :: rest =>
      if Ascii.eqb c sep then [] :: split sep rest
      else match split sep rest with
           | p :: ps => (c :: p) :: ps
           | [] => [[c]]
           end
  end.

(** [sep.join(parts)]. *)
Fixpoint join (sep : text) (parts : list text) : text :=
  match parts with
  | [] => []
  | [p] => p
  | p :: ps => p ++ sep ++ join sep ps
  end.

(** [s.translate(None, deletechars)]. *)
Definition translate_delete (deletechars : text) (s : text) : text :=
  filter (fun c => c ∉ deletechars) s.

(** [sys.maxint] and [-sys.maxint - 1]: the greatest and the least C
    [long], of 64 bits. *)
Definition LONG_MAX : Z := 9223372036854775807.
Definition LONG_MIN : Z := -9223372036854775808.

(** An integer that converts to a C [long]. *)
Definition fits_long (n : Z) : bool := (LONG_MIN <=? n) && (n <=? LONG_MAX).

(** [get_len_of_range(lo, hi, step)] of [Objects/rangeobject.c]: how many
    items the range has, computed without overflow. *)
Definition get_len_of_range (lo hi step : Z) : Z :=
  if (0 <? step) && (lo <? hi) then 1 + (hi - 1 - lo) / step
  else if (step <? 0) && (hi <? lo) then 1 + (lo - 1 - hi) / (0 - step)
  else 0.

(** The items of a range, as a list. *)
Definition xrange_len (start stop step : Z) : nat :=
  if 0 <? step then
    if start <? stop then Z.to_nat ((stop - start - 1) / step + 1) else 0%nat
  else
    if stop <? start then Z.to_nat ((start - stop - 1) / (- step) + 1) else 0%nat.

Definition xrange_list (start stop step : Z) : list Z :=
  map (fun i => start + Z.of_nat i * step) (seq 0 (xrange_len start stop step)).

(** [xrange(start, stop, step)] ([range_new] of [Objects/rangeobject.c]),
    as the list it iterates over.  The three arguments are converted to C
    [long]s first, which raises [OverflowError] for one that does not fit;
    then a zero step raises [ValueError]; then a range of more than
    [LONG_MAX] items raises [OverflowError]. *)
Definition xrange (start stop step : Z) : outcome (list Z) :=
  if negb (fits_long start && fits_long stop && fits_long step)
  then Raised OverflowError
  else if step =? 0 then Raised ValueError
  else if LONG_MAX <? get_len_of_range start stop step
  then Raised OverflowError
  else Returned (xrange_list start stop step).

(** [sorted(frames)] on integers. *)
Definition sorted (l : list Z) : list Z := merge_sort Z.le l.

End Py.

Import Py.

(** ** The interpreter's [hash] *)

(** The built-in [hash] on the three kinds of values [FrameSet] hashes. *)
Class PyHash := {
  hash_str : text -> Z;
  hash_frozenset : gset Z -> Z;
  hash_tuple : list Z -> Z
}.

(** CPython 2.7 on a platform whose C [long] has 64 bits, without hash
    randomisation (the default): [Objects/intobject.c],
    [Objects/longobject.c], [Objects/stringobject.c],
    [Objects/tupleobject.c] and [Objects/setobject.c]. *)
Module CPython27.

(** A C [long] after an overflow. *)
Definition wrap_long (x : Z) : Z := (x + 2 ^ 63) mod 2 ^ 64 - 2 ^ 63.

(** [int_hash] and [long_hash]: the number itself while it fits a C
    [long], its absolute value folded modulo [2^64 - 1] with the sign put
    back beyond that; -1, which reports an error, becomes -2. *)
Definition hash_int (n : Z) : Z :=
  let m := Z.abs n mod (2 ^ 64 - 1) in
  let x := if (m =? 0) && negb (n =? 0) then 2 ^ 64 - 1 else m in
  let h := wrap_long (x * Z.sgn n) in
  if h =? -1 then -2 else h.

(** [string_hash] *)
Definition string_hash (s : text) : Z :=
  match s with
  | [] => 0
  | c0 :: _ =>
      let x0 := Z.shiftl (Z.of_nat (nat_of_ascii c0)) 7 in
      let x := fold_left
                 (fun x c => Z.lxor (wrap_long (1000003 * x))
                                    (Z.of_nat (nat_of_ascii c)))
                 s x0 in
      let x := Z.lxor x (Z.of_nat (length s)) in
      if x =? -1 then -2 else x
  end.

(** [tuplehash]: the loop over the items, then the final addition. *)
Fixpoint tuplehash_loop (x mult : Z) (items : list Z) : Z :=
  match items with
  | [] => x
  | v :: rest =>
      let len := Z.of_nat (length rest) in
      let y := hash_int v in
      let x := wrap_long (Z.lxor x y * mult) in
      let mult := wrap_long (mult + (82520 + len + len)) in
      tuplehash_loop x mult rest
  end.

Definition tuplehash (items : list Z) : Z :=
  let x := wrap_long (tuplehash_loop 3430008 1000003 items + 97531) in
  if x =? -1 then -2 else x.

(** [frozenset_hash]: the entries are combined with xor, so the order
    in which the set is walked does not matter. *)
Definition frozenset_hash (s : gset Z) : Z :=
  let hash := wrap_long (1927868237 * (Z.of_nat (size s) + 1)) in
  let hash :=
    fold_left
      (fun hash v =>
         let h := hash_int v in
         Z.lxor hash
           (wrap_long
              (Z.lxor (Z.lxor h (wrap_long (Z.shiftl h 16))) 89869747
               * 3644798167)))
      (elements s) hash in
  let hash := wrap_long (hash * 69069 + 907133923) in
  if hash =? -1 then 590923713 else hash.

Definition hash : PyHash :=
  {| hash_str := string_hash;
     hash_frozenset := frozenset_hash;
     hash_tuple := tuplehash |}.

End CPython27.

(** ** Module-level helpers *)

(** [_PADDING = {"#": 4, "@": 1}]; only its keys are used here. *)
Definition _PADDING_keys : text := T "#@".

(** [xfrange(start, stop, step=1)] *)
Definition xfrange (start stop step : Z) : outcome (list Z) :=
  if start <=? stop
  then xrange start (stop + 1) (Z.abs step)
  else xrange start (stop - 1) (- Z.abs step).

(** [unique(seen, *iterables)]: the items not yet seen, in order, and the
    set [seen] as it is once the generator has been run to its end. *)
Fixpoint unique (seen : gset Z) (l : list Z) : list Z * gset Z :=
  match l with
  | [] => ([], seen)
  | i :: rest =>
      if bool_decide (i ∈ seen) then unique seen rest
      else let '(out, seen') := unique ({[i]} ∪ seen) rest in (i :: out, seen')
  end.

(** [pad(number, width=0)], for an integer (or [None]) and for a string. *)
Definition pad (number : option Z) (width : Z) : text :=
  zfill (str_opt number) width.

Definition pad_str (number : text) (width : Z) : text :=
  zfill number width.

(** ** The run compressor *)

(** [FrameSet._build_frange_part(start, stop, stride, zfill=0)] *)
Definition _build_frange_part
    (start stop stride : option Z) (zfill : Z) : text :=
  match stop with
  | None => []
  | Some _ =>
      let pad_start := pad start zfill in
      let pad_stop := pad stop zfill in
      match stride with
      | None => pad_start
      | Some d =>
          if bool_decide (start = stop) then pad_start
          else if Z.abs d =? 1 then pad_start ++ T "-" ++ pad_stop
          else pad_start ++ T "-" ++ pad_stop ++ T "x" ++ str_int d
      end
  end.

(** The local variables of [FrameSet.framesToFrameRanges]. *)
Record run_state := RunState {
  curr_start : option Z;
  curr_stride : option Z;
  curr_frame : option Z;
  last_frame : option Z;
  curr_count : nat
}.

Definition run_init : run_state :=
  RunState None None None None 0.

(** One iteration of the [for curr_frame in frames] loop: the next state
    and the tokens yielded in this iteration.  [last_frame] is set whenever
    [curr_start] is (lemma [run_last_frame_set]), so the fallback in
    [default] is never taken. *)
Definition run_step (zfill : Z) (st : run_state) (f : Z)
    : run_state * list text :=
  match curr_start st with
  | None =>
      (RunState (Some f) (curr_stride st) (Some f) (Some f)
                (curr_count st + 1), [])
  | Some s =>
      let l := default s (last_frame st) in
      let stride := default (Z.abs (f - s)) (curr_stride st) in
      let new_stride := Z.abs (f - l) in
      if stride =? new_stride then
        (RunState (Some s) (Some stride) (Some f) (Some f)
                  (curr_count st + 1), [])
      else if (curr_count st =? 2)%nat then
        (RunState (last_frame st) (Some new_stride) (Some f) (Some f)
                  (curr_count st),
         [_build_frange_part (Some s) (Some s) None zfill])
      else
        (RunState (Some f) None (Some f) (Some f) 1,
         [_build_frange_part (Some s) (last_frame st) (Some stride) zfill])
  end.

(** The whole loop: final state and everything yielded so far. *)
Fixpoint run_loop (zfill : Z) (st : run_state) (frames : list Z)
    : run_state * list text :=
  match frames with
  | [] => (st, [])
  | f :: rest =>
      let '(st1, out1) := run_step zfill st f in
      let '(st2, out2) := run_loop zfill st1 rest in
      (st2, out1 ++ out2)
  end.

(** The code after the loop. *)
Definition run_flush (zfill : Z) (st : run_state) : list text :=
  if (curr_count st =? 2)%nat then
    [_build_frange_part (curr_start st) (curr_start st) None zfill;
     _build_frange_part (curr_frame st) (curr_frame st) None zfill]
  else
    [_build_frange_part (curr_start st) (curr_frame st) (curr_stride st) zfill].

(** [FrameSet.framesToFrameRanges(frames, zfill=0)], as the list of the
    strings the generator yields. *)
Definition framesToFrameRanges (frames : list Z) (zfill : Z) : list text :=
  let '(st, out) := run_loop zfill run_init frames in
  out ++ run_flush zfill st.

(** [FrameSet.framesToFrameRange(frames, sort=True, zfill=0, compress=False)] *)
Definition framesToFrameRange
    (frames : list Z) (sort : bool) (zfill : Z) (compress : bool) : text :=
  let frames := if compress then fst (unique ∅ frames) else frames in
  match frames with
  | [] => []
  | [f] => pad (Some f) zfill
  | _ =>
      let frames := if sort then sorted frames else frames in
      join (T ",") (framesToFrameRanges frames zfill)
  end.

(** ** The range-part parser *)

(** The longest run of decimal digits at the front of [s], and what follows. *)
Fixpoint span_digits (s : text) : text * text :=
  match s with
  | c :: rest =>
      if is_digit c then let '(ds, r) := span_digits rest in (c :: ds, r)
      else ([], s)
  | [] => ([], [])
  end.

(** [\d+] at the front of [s]. *)
Definition re_digits (s : text) : option (text * text) :=
  match span_digits s with
  | ([], _) => None
  | (ds, r) => Some (ds, r)
  end.

(** [\-?\d+] at the front of [s]. *)
Definition re_int (s : text) : option (text * text) :=
  match s with
  | c :: rest =>
      if Ascii.eqb c "-" then
        match re_digits rest with
        | Some (ds, r) => Some (c :: ds, r)
        | None => None
        end
      else re_digits s
  | [] => None
  end.

(** [$]: the end of the string, or just before a newline that ends it. *)
Definition re_at_end (s : text) : bool :=
  match s with
  | [] => true
  | [c] => Ascii.eqb c "010"
  | _ => false
  end.

Definition is_modifier (c : ascii) : bool :=
  (Ascii.eqb c ":" || Ascii.eqb c "x" || Ascii.eqb c "y")%bool.

Arguments is_modifier : simpl never.

(** The groups of a match of [_RANGE_RE]. *)
Record range_groups := RangeGroups {
  g_start : text;
  g_end : option text;
  g_modifier : option ascii;
  g_chunk : option text
}.

Definition _RANGE_RE_pattern : text :=
  T "^(\-?\d+)(?:\-(\-?\d+)(?:([:xy]{1})(\d+))?)?$".

(** [_RANGE_RE.match(s)].  Every repetition is tried longest first and each
    optional group is tried before its absence; a shorter run of digits
    leaves a digit where none of ["-"], a modifier or the end can match, so
    only the longest runs appear below. *)
Definition _RANGE_RE_match (s : text) : option range_groups :=
  match re_int s with
  | None => None
  | Some (g1, r1) =>
      let with_end :=
        match r1 with
        | c :: r2 =>
            if Ascii.eqb c "-" then
              match re_int r2 with
              | Some (g2, r3) =>
                  let with_modifier :=
                    match r3 with
                    | m :: r4 =>
                        if is_modifier m then
                          match re_digits r4 with
                          | Some (g4, r5) =>
                              if re_at_end r5
                              then Some (RangeGroups g1 (Some g2) (Some m) (Some g4))
                              else None
                          | None => None
                          end
                        else None
                    | [] => None
                    end in
                  match with_modifier with
                  | Some g => Some g
                  | None =>
                      if re_at_end r3
                      then Some (RangeGroups g1 (Some g2) None None)
                      else None
                  end
              | None => None
              end
            else None
        | [] => None
        end in
      match with_end with
      | Some g => Some g
      | None =>
          if re_at_end r1 then Some (RangeGroups g1 None None None) else None
      end
  end.

Definition dquote : ascii := "034".

Definition msg_no_match (frange : text) : text :=
  T "Could not parse " ++ [dquote] ++ frange ++ [dquote]
    ++ T ": did not match " ++ _RANGE_RE_pattern.

Definition msg_zero_chunk (frange : text) : text :=
  T "Could not parse " ++ [dquote] ++ frange ++ [dquote]
    ++ T ": chunk cannot be 0".

(** [FrameSet._parse_frange_part(frange)] *)
Definition _parse_frange_part (frange : text)
    : outcome (Z * Z * option ascii * Z) :=
  match _RANGE_RE_match frange with
  | None => Raised (ParseException (msg_no_match frange))
  | Some g =>
      let start := int (g_start g) in
      let end_ := match g_end g with Some e => int e | None => start end in
      let chunk := match g_chunk g with Some c => Z.abs (int c) | None => 1 end in
      if chunk =? 0 then Raised (ParseException (msg_zero_chunk frange))
      else Returned (start, end_, g_modifier g, chunk)
  end.

(** ** The frame set *)

Record FrameSet := mkFrameSet {
  _frange : text;
  _items : gset Z;
  _order : list Z
}.

(** The three statements every branch of the constructor ends with:
    [frames = [f for f in frames if f not in items]],
    [order.extend(frames)], [items.update(frames)]. *)
Definition extend_new (st : gset Z * list Z) (frames : list Z)
    : gset Z * list Z :=
  let '(items, order) := st in
  let frames := filter (fun f => f ∉ items) frames in
  (items ∪ list_to_set frames, order ++ frames).

(** The body of [for stagger in xrange(chunk, 0, -1)]. *)
Fixpoint stagger_loop (start end_ : Z) (staggers : list Z)
    (st : gset Z * list Z) : outcome (gset Z * list Z) :=
  match staggers with
  | [] => Returned st
  | stagger :: rest =>
      bind (xfrange start end_ stagger) (fun frames =>
      stagger_loop start end_ rest (extend_new st frames))
  end.

(** The body of [for part in self._frange.split(",")]. *)
Definition init_part (st : gset Z * list Z) (part : text)
    : outcome (gset Z * list Z) :=
  match part with
  | [] => Returned st
  | _ =>
      bind (_parse_frange_part part) (fun '(start, end_, modifier, chunk) =>
      if bool_decide (modifier = Some "x"%char) then
        bind (xfrange start end_ chunk) (fun frames =>
        Returned (extend_new st frames))
      else if bool_decide (modifier = Some ":"%char) then
        bind (xrange chunk 0 (-1)) (fun staggers =>
        stagger_loop start end_ staggers st)
      else if bool_decide (modifier = Some "y"%char) then
        bind (xfrange start end_ chunk) (fun skipped =>
        let not_good : gset Z := list_to_set skipped in
        bind (xfrange start end_ 1) (fun frames =>
        let frames := filter (fun f => f ∉ not_good) frames in
        Returned (extend_new st frames)))
      else
        bind (xfrange start end_ (if start <? end_ then 1 else -1))
          (fun frames => Returned (extend_new st frames)))
  end.

Fixpoint init_parts (st : gset Z * list Z) (parts : list text)
    : outcome (gset Z * list Z) :=
  match parts with
  | [] => Returned st
  | part :: rest => bind (init_part st part) (fun st' => init_parts st' rest)
  end.

(** [FrameSet.__init__(self, frange)] for a string argument: the new
    instance, or the exception that leaves the caller without one. *)
Definition FrameSet_init (frange : text) : outcome FrameSet :=
  let frange := translate_delete _PADDING_keys frange in
  match frange with
  | [] => Returned (mkFrameSet frange ∅ [])
  | _ =>
      bind (init_parts (∅, []) (split "," frange)) (fun '(items, order) =>
      Returned (mkFrameSet frange items order))
  end.

(** [FrameSet.__init__(self, frange)] when [frange] is itself a
    [FrameSet]: the three slots are copied. *)
Definition FrameSet_init_copy (frange : FrameSet) : FrameSet :=
  mkFrameSet (_frange frange) (_items frange) (_order frange).

(** [FrameSet.from_iterable(frames, sort=False)] *)
Definition from_iterable (frames : list Z) (sort : bool) : FrameSet :=
  let '(order, items) := unique ∅ (if sort then sorted frames else frames) in
  mkFrameSet (framesToFrameRange order false 0 false) items order.

(** An argument handed to a comparison or to a set operation: a
    [FrameSet], some other object with [__iter__] that yields integers
    (given by the sequence it yields), or an object without [__iter__]
    that cannot be iterated at all, such as an integer or [None]. *)
Inductive operand :=
| OFrameSet (fs : FrameSet)
| OIterable (frames : list Z)
| OOther.

(** [FrameSet._cast_to_frameset(other)] *)
Definition _cast_to_frameset (other : operand) : outcome FrameSet :=
  match other with
  | OFrameSet fs => Returned fs
  | OIterable frames => Returned (from_iterable frames false)
  | OOther => NotImplemented
  end.

(** [set(other)], as [map(set, other)] applies it to each argument:
    a [FrameSet] iterates over its [order]. *)
Definition py_set (other : operand) : outcome (gset Z) :=
  match other with
  | OFrameSet fs => Returned (list_to_set (_order fs))
  | OIterable frames => Returned (list_to_set frames)
  | OOther => Raised TypeError
  end.

Fixpoint map_set (others : list operand) : outcome (list (gset Z)) :=
  match others with
  | [] => Returned []
  | o :: rest =>
      bind (py_set o) (fun s =>
      bind (map_set rest) (fun ss => Returned (s :: ss)))
  end.

(** Comparison of two tuples of integers, as [<] on tuples does it. *)
Fixpoint tuple_lt (a b : list Z) : bool :=
  match a, b with
  | [], [] => false
  | [], _ :: _ => true
  | _ :: _, [] => false
  | x :: a', y :: b' =>
      if x =? y then tuple_lt a' b' else x <? y
  end.

Definition tuple_gt (a b : list Z) : bool := tuple_lt b a.

(** A [frozenset] handed to [from_iterable(..., sort=True)]: the order in
    which the set is iterated does not survive [sorted]. *)
Definition from_frozenset (s : gset Z) : FrameSet :=
  from_iterable (elements s) true.

Section Methods.
Context `{PyHash}.

(** [FrameSet.__hash__] *)
Definition FrameSet___hash__ (self : FrameSet) : Z :=
  Z.lor (Z.lor (hash_str (_frange self)) (hash_frozenset (_items self)))
        (hash_tuple (_order self)).

(** [FrameSet.__eq__] *)
Definition FrameSet___eq__ (self : FrameSet) (other : operand)
    : outcome bool :=
  let other :=
    match other with
    | OFrameSet fs => Returned fs
    | OIterable frames => Returned (from_iterable frames false)
    | OOther => NotImplemented
    end in
  bind other (fun other =>
  let this := Z.lor (hash_frozenset (_items self)) (hash_tuple (_order self)) in
  let that := Z.lor (hash_frozenset (_items other)) (hash_tuple (_order other)) in
  Returned (this =? that)).
End Methods.

(** [FrameSet.__lt__] *)
Definition FrameSet___lt__ (self : FrameSet) (other : operand) : outcome bool :=
  bind (_cast_to_frameset other) (fun other =>
  Returned (bool_decide (_items self ⊂ _items other)
            || (bool_decide (_items self = _items other)
                && tuple_lt (_order self) (_order other)))).

(** [FrameSet.__le__] *)
Definition FrameSet___le__ (self : FrameSet) (other : operand) : outcome bool :=
  bind (_cast_to_frameset other) (fun other =>
  Returned (bool_decide (_items self ⊆ _items other))).

(** [FrameSet.__ge__] *)
Definition FrameSet___ge__ (self : FrameSet) (other : operand) : outcome bool :=
  bind (_cast_to_frameset other) (fun other =>
  Returned (bool_decide (_items other ⊆ _items self))).

(** [FrameSet.__gt__] *)
Definition FrameSet___gt__ (self : FrameSet) (other : operand) : outcome bool :=
  bind (_cast_to_frameset other) (fun other =>
  Returned (bool_decide (_items other ⊂ _items self)
            || (bool_decide (_items self = _items other)
                && tuple_gt (_order self) (_order other)))).

(** [FrameSet.__and__] (and [__rand__]) *)
Definition FrameSet___and__ (self : FrameSet) (other : operand)
    : outcome FrameSet :=
  bind (_cast_to_frameset other) (fun other =>
  Returned (from_frozenset (_items self ∩ _items other))).

Definition FrameSet___rand__ := FrameSet___and__.

(** [FrameSet.__sub__] *)
Definition FrameSet___sub__ (self : FrameSet) (other : operand)
    : outcome FrameSet :=
  bind (_cast_to_frameset other) (fun other =>
  Returned (from_frozenset (_items self ∖ _items other))).

(** [FrameSet.__rsub__] *)
Definition FrameSet___rsub__ (self : FrameSet) (other : operand)
    : outcome FrameSet :=
  bind (_cast_to_frameset other) (fun other =>
  Returned (from_frozenset (_items other ∖ _items self))).

(** [FrameSet.__or__] (and [__ror__]) *)
Definition FrameSet___or__ (self : FrameSet) (other : operand)
    : outcome FrameSet :=
  bind (_cast_to_frameset other) (fun other =>
  Returned (from_frozenset (_items self ∪ _items other))).

Definition FrameSet___ror__ := FrameSet___or__.

(** [FrameSet.__xor__] (and [__rxor__]) *)
Definition FrameSet___xor__ (self : FrameSet) (other : operand)
    : outcome FrameSet :=
  bind (_cast_to_frameset other) (fun other =>
  Returned (from_frozenset
              ((_items self ∖ _items other) ∪ (_items other ∖ _items self)))).

Definition FrameSet___rxor__ := FrameSet___xor__.

(** [FrameSet.isdisjoint] *)
Definition isdisjoint (self : FrameSet) (other : operand) : outcome bool :=
  bind (_cast_to_frameset other) (fun other =>
  Returned (bool_decide (_items self ## _items other))).

(** [FrameSet.issubset] *)
Definition issubset (self : FrameSet) (other : operand) : outcome bool :=
  bind (_cast_to_frameset other) (fun other =>
  Returned (bool_decide (_items self ⊆ _items other))).

(** [FrameSet.issuperset] *)
Definition issuperset (self : FrameSet) (other : operand) : outcome bool :=
  bind (_cast_to_frameset other) (fun other =>
  Returned (bool_decide (_items other ⊆ _items self))).

(** [FrameSet.union(self, *other)] *)
Definition union (self : FrameSet) (other : list operand) : outcome FrameSet :=
  bind (map_set other) (fun sets =>
  Returned (from_frozenset (foldl (∪) (_items self) sets))).

(** [FrameSet.intersection(self, *other)] *)
Definition intersection (self : FrameSet) (other : list operand)
    : outcome FrameSet :=
  bind (map_set other) (fun sets =>
  Returned (from_frozenset (foldl (∩) (_items self) sets))).

(** [FrameSet.difference(self, *other)] *)
Definition difference (self : FrameSet) (other : list operand)
    : outcome FrameSet :=
  bind (map_set other) (fun sets =>
  Returned (from_frozenset (foldl (∖) (_items self) sets))).

(** [FrameSet.symmetric_difference(self, other)] *)
Definition symmetric_difference (self : FrameSet) (other : operand)
    : outcome FrameSet :=
  bind (_cast_to_frameset other) (fun other =>
  Returned (from_frozenset
              ((_items self ∖ _items other) ∪ (_items other ∖ _items self)))).

(** [FrameSet.normalize] *)
Definition normalize (self : FrameSet) : outcome FrameSet :=
  FrameSet_init (framesToFrameRange (elements (_items self)) true 0 false).

(** [FrameSet.copy] *)
Definition copy (self : FrameSet) : outcome FrameSet :=
  FrameSet_init (_frange self).

(** [FrameSet.isFrameRange(frange)] *)
Fixpoint isFrameRange_parts (parts : list text) : bool :=
  match parts with
  | [] => true
  | part :: rest =>
      match part with
      | [] => isFrameRange_parts rest
      | _ =>
          match _parse_frange_part part with
          | Raised (ParseException _) => false
          | _ => isFrameRange_parts rest
          end
      end
  end.

Definition isFrameRange (frange : text) : bool :=
  let frange := translate_delete _PADDING_keys frange in
  match frange with
  | [] => true
  | _ => isFrameRange_parts (split "," frange)
  end.

(** ** The padding formatter *)

(** [(\-?)(\d+)] at the front of [s]: the sign group (possibly empty),
    the digits, and what follows. *)
Definition re_sign_digits (s : text) : option (text * text * text) :=
  match s with
  | c :: rest =>
      if Ascii.eqb c "-" then
        match re_digits rest with
        | Some (ds, r) => Some ([c], ds, r)
        | None => None
        end
      else
        match re_digits s with
        | Some (ds, r) => Some ([], ds, r)
        | None => None
        end
  | [] => None
  end.

(** [_PAD_RE] matched at the front of [s]: the seven groups
    ([None] for a group that took no part) and the rest of the string. *)
Definition _PAD_RE_match (s : text) : option (list (option text) * text) :=
  match re_sign_digits s with
  | None => None
  | Some (s1, d1, r1) =>
      let alone := Some ([Some s1; Some d1; None; None; None; None; None], r1) in
      match r1 with
      | c :: r2 =>
          if Ascii.eqb c "-" then
            match re_sign_digits r2 with
            | Some (s2, d2, r3) =>
                let range :=
                  Some ([Some s1; Some d1; Some [c]; Some s2; Some d2;
                         None; None], r3) in
                match r3 with
                | m :: r4 =>
                    if is_modifier m then
                      match re_digits r4 with
                      | Some (d3, r5) =>
                          Some ([Some s1; Some d1; Some [c]; Some s2; Some d2;
                                 Some [m]; Some d3], r5)
                      | None => range
                      end
                    else range
                | [] => range
                end
            | None => alone
            end
          else alone
      | [] => alone
      end
  end.

(** Truth of a group: it took part in the match and is not empty. *)
Definition truthy (g : option text) : bool :=
  match g with
  | Some (_ :: _) => true
  | _ => false
  end.

(** The inner function [_do_pad(match)] of [padFrameRange]. *)
Definition _do_pad (zfill : Z) (groups : list (option text)) : text :=
  let result := groups in
  let result :=
    match result !! 1%nat with
    | Some (Some d) => <[1%nat := Some (pad_str d zfill)]> result
    | _ => result
    end in
  let result :=
    match result !! 4%nat with
    | Some (Some d) =>
        if truthy (Some d) then <[4%nat := Some (pad_str d zfill)]> result
        else result
    | _ => result
    end in
  concat (omap (fun i => if truthy i then i else None) result).

(** [_PAD_RE.sub(_do_pad, frange)]: matches are looked for from left to
    right, each one is replaced, and the search goes on after it.  A match
    of [_PAD_RE] holds at least one digit, so [fuel] needs to be no more
    than the length of the string. *)
Fixpoint sub_loop (fuel : nat) (zfill : Z) (s : text) : text :=
  match fuel with
  | O => s
  | S fuel' =>
      match s with
      | [] => []
      | c :: rest =>
          match _PAD_RE_match s with
          | Some (groups, r) => _do_pad zfill groups ++ sub_loop fuel' zfill r
          | None => c :: sub_loop fuel' zfill rest
          end
      end
  end.

(** [FrameSet.padFrameRange(frange, zfill)] *)
Definition padFrameRange (frange : text) (zfill : Z) : text :=
  sub_loop (length frange) zfill frange.

(** [FrameSet.frameRange(self, zfill=0)] *)
Definition frameRange (self : FrameSet) (zfill : Z) : text :=
  padFrameRange (_frange self) zfill.

(** ** Instances and references

    Where identity matters an instance of [FrameSet] lives in a heap and
    is known by its address.  An instance has the three slots of
    [__slots__]; [cls.__new__(cls)] leaves them unset, and reading a slot
    that is unset raises [AttributeError].  A slot holds an immutable
    value (a string, a [frozenset], a [tuple]). *)
Record instance := mkInstance {
  slot_frange : option text;
  slot_items : option (gset Z);
  slot_order : option (list Z)
}.

Abbreviation heap := (list instance).

(** A piece of code as it runs on a heap: what it returns or raises, and
    the heap it leaves; what was written before an exception stays. *)
Definition prog (A : Type) : Type := heap -> outcome A * heap.

(** What can be handed to the constructor: a string, or a [FrameSet]
    (known by its address). *)
Inductive init_arg :=
| ArgStr (frange : text)
| ArgFrameSet (frange : nat).

(** What can be handed to a comparison or to a set operation: a
    [FrameSet], some other object with [__iter__] that yields integers, or
    an object without [__iter__]. *)
Inductive value :=
| VFrameSet (a : nat)
| VIterable (frames : list Z)
| VOther.

Module Heap.

Definition ret {A} (a : A) : prog A := fun h => (Returned a, h).

Definition raise {A} (e : exn) : prog A := fun h => (Raised e, h).

(** A computation on local variables only. *)
Definition lift {A} (o : outcome A) : prog A := fun h => (o, h).

Definition bind {A B} (m : prog A) (k : A -> prog B) : prog B :=
  fun h =>
    match m h with
    | (Returned a, h') => k a h'
    | (NotImplemented, h') => (NotImplemented, h')
    | (Raised e, h') => (Raised e, h')
    end.

Notation "x <- m ;; k" := (bind m (fun x => k))
  (at level 20, m at level 99, k at level 200, only parsing).
Notation "m ;; k" := (bind m (fun _ => k))
  (at level 100, k at level 200, only parsing, right associativity).

(** [cls.__new__(cls)]: a new instance at the next free address. *)
Definition __new__ : prog nat :=
  fun h => (Returned (length h), h ++ [mkInstance None None None]).

(** [self._frange = v], [self._items = v], [self._order = v] (also as
    [setattr(self, attr, v)]): the slot is overwritten in place. *)
Definition set_frange (self : nat) (v : text) : prog unit :=
  fun h =>
    (Returned tt,
     alter (fun i => mkInstance (Some v) (slot_items i) (slot_order i)) self h).

Definition set_items (self : nat) (v : gset Z) : prog unit :=
  fun h =>
    (Returned tt,
     alter (fun i => mkInstance (slot_frange i) (Some v) (slot_order i)) self h).

Definition set_order (self : nat) (v : list Z) : prog unit :=
  fun h =>
    (Returned tt,
     alter (fun i => mkInstance (slot_frange i) (slot_items i) (Some v)) self h).

(** [self._frange], [self._items], [self._order] (also through the
    properties [frange], [items], [order] and as [getattr(self, attr)]). *)
Definition getattr {A} (slot : instance -> option A) (self : nat) : prog A :=
  fun h =>
    match h !! self with
    | Some i =>
        match slot i with
        | Some v => (Returned v, h)
        | None => (Raised AttributeError, h)
        end
    | None => (Raised AttributeError, h)
    end.

Definition get_frange := getattr slot_frange.
Definition get_items := getattr slot_items.
Definition get_order := getattr slot_order.

(** [FrameSet.__init__(self, frange)].  The loop over the clauses works
    on the local variables [items] and [order]; the slots [_items] and
    [_order] are assigned after it, the slot [_frange] before it. *)
Definition FrameSet___init__ (self : nat) (frange : init_arg) : prog unit :=
  match frange with
  | ArgFrameSet frange =>
      v <- get_frange frange;; set_frange self v;;
      v <- get_items frange;; set_items self v;;
      v <- get_order frange;; set_order self v
  | ArgStr frange =>
      set_frange self (translate_delete _PADDING_keys frange);;
      stripped <- get_frange self;;
      match stripped with
      | [] => set_items self ∅;; set_order self []
      | _ =>
          st <- lift (init_parts (∅, []) (split "," stripped));;
          set_items self st.1;; set_order self st.2
      end
  end.

(** The call [FrameSet(frange)]: a new instance is made and initialized,
    and its address is the value of the call. *)
Definition construct (frange : init_arg) : prog nat :=
  self <- __new__;; FrameSet___init__ self frange;; ret self.

(** [FrameSet.from_iterable(frames, sort=False)] *)
Definition from_iterable (frames : list Z) (sort : bool) : prog nat :=
  self <- __new__;;
  let '(order, items) := unique ∅ (if sort then sorted frames else frames) in
  set_order self order;;
  set_items self items;;
  kept <- get_order self;;
  set_frange self (framesToFrameRange kept false 0 false);;
  ret self.

(** [FrameSet._cast_to_frameset(other)] *)
Definition _cast_to_frameset (other : value) : prog nat :=
  match other with
  | VFrameSet a => ret a
  | VIterable frames => from_iterable frames false
  | VOther => lift NotImplemented
  end.

(** [set(other)]: a [FrameSet] is iterated through [__iter__], which
    reads its order. *)
Definition py_set (other : value) : prog (gset Z) :=
  match other with
  | VFrameSet a => order <- get_order a;; ret (list_to_set order)
  | VIterable frames => ret (list_to_set frames)
  | VOther => raise TypeError
  end.

Fixpoint map_set (others : list value) : prog (list (gset Z)) :=
  match others with
  | [] => ret []
  | o :: rest => s <- py_set o;; ss <- map_set rest;; ret (s :: ss)
  end.

(** [FrameSet.__and__] (and [__rand__]) *)
Definition FrameSet___and__ (self : nat) (other : value) : prog nat :=
  other <- _cast_to_frameset other;;
  a <- get_items self;; b <- get_items other;;
  from_iterable (elements (a ∩ b)) true.

Definition FrameSet___rand__ := FrameSet___and__.

(** [FrameSet.__sub__] *)
Definition FrameSet___sub__ (self : nat) (other : value) : prog nat :=
  other <- _cast_to_frameset other;;
  a <- get_items self;; b <- get_items other;;
  from_iterable (elements (a ∖ b)) true.

(** [FrameSet.__rsub__] *)
Definition FrameSet___rsub__ (self : nat) (other : value) : prog nat :=
  other <- _cast_to_frameset other;;
  b <- get_items other;; a <- get_items self;;
  from_iterable (elements (b ∖ a)) true.

(** [FrameSet.__or__] (and [__ror__]) *)
Definition FrameSet___or__ (self : nat) (other : value) : prog nat :=
  other <- _cast_to_frameset other;;
  a <- get_items self;; b <- get_items other;;
  from_iterable (elements (a ∪ b)) true.

Definition FrameSet___ror__ := FrameSet___or__.

(** [FrameSet.__xor__] (and [__rxor__]) *)
Definition FrameSet___xor__ (self : nat) (other : value) : prog nat :=
  other <- _cast_to_frameset other;;
  a <- get_items self;; b <- get_items other;;
  from_iterable (elements ((a ∖ b) ∪ (b ∖ a))) true.

Definition FrameSet___rxor__ := FrameSet___xor__.

(** [FrameSet.union(self, *other)] *)
Definition union (self : nat) (other : list value) : prog nat :=
  a <- get_items self;; sets <- map_set other;;
  from_iterable (elements (foldl (∪) a sets)) true.

(** [FrameSet.intersection(self, *other)] *)
Definition intersection (self : nat) (other : list value) : prog nat :=
  a <- get_items self;; sets <- map_set other;;
  from_iterable (elements (foldl (∩) a sets)) true.

(** [FrameSet.difference(self, *other)] *)
Definition difference (self : nat) (other : list value) : prog nat :=
  a <- get_items self;; sets <- map_set other;;
  from_iterable (elements (foldl (∖) a sets)) true.

(** [FrameSet.symmetric_difference(self, other)] *)
Definition symmetric_difference (self : nat) (other : value) : prog nat :=
  other <- _cast_to_frameset other;;
  a <- get_items self;; b <- get_items other;;
  from_iterable (elements ((a ∖ b) ∪ (b ∖ a))) true.

(** [FrameSet.normalize] *)
Definition normalize (self : nat) : prog nat :=
  items <- get_items self;;
  construct (ArgStr (framesToFrameRange (elements items) true 0 false)).

(** [FrameSet.copy]: [FrameSet(str(self))] *)
Definition copy (self : nat) : prog nat :=
  frange <- get_frange self;; construct (ArgStr frange).

End Heap.

(** * Vocabulary of the properties *)

(** A run with stride [d]: neighbouring frames are [d] apart. *)
Fixpoint stride_run (d : Z) (run : list Z) : Prop :=
  match run with
  | x :: ((y :: _) as rest) => Z.abs (y - x) = d /\ stride_run d rest
  | _ => True
  end.

(** A single-frame token. *)
Definition single_token (zfill : Z) (f : Z) : text :=
  _build_frange_part (Some f) (Some f) None zfill.

(** What a yielded token can be, for the input [frames]: the token of
    one input frame, or the token of at least three neighbouring input
    frames that share a stride. *)
Inductive token_of (zfill : Z) (frames : list Z) : text -> Prop :=
| token_single f :
    f ∈ frames -> token_of zfill frames (single_token zfill f)
| token_run pre run post d s l :
    frames = pre ++ run ++ post ->
    (3 <= length run)%nat ->
    head run = Some s -> last run = Some l ->
    stride_run d run ->
    token_of zfill frames
      (_build_frange_part (Some s) (Some l) (Some d) zfill).

(** The state of the loop after the frames [seen]: the open run is the
    last [curr_count] frames seen. *)
Definition run_inv (st : run_state) (seen : list Z) : Prop :=
  match curr_start st with
  | None => seen = [] /\ st = run_init
  | Some s =>
      exists pre run,
        seen = pre ++ run /\ length run = curr_count st /\
        head run = Some s /\ last run = last_frame st /\
        curr_frame st = last_frame st /\
        match curr_stride st with
        | None => curr_count st = 1%nat
        | Some d => (2 <= curr_count st)%nat /\ stride_run d run
        end
  end.

(** The frames from [start] to [stop] in steps of magnitude [|step|],
    towards [stop]. *)
Definition x_run (start stop step : Z) : list Z :=
  map (fun i => if start <=? stop
                then start + Z.of_nat i * Z.abs step
                else start - Z.of_nat i * Z.abs step)
      (seq 0 (Z.to_nat (Z.abs (stop - start) / Z.abs step + 1))).

Definition order_of (o : outcome FrameSet) : option (list Z) :=
  match o with Returned fs => Some (_order fs) | _ => None end.

Definition items_of (o : outcome FrameSet) : option (gset Z) :=
  match o with Returned fs => Some (_items fs) | _ => None end.

(** The strides a staggered clause goes through: [chunk], [chunk - 1],
    ..., [1]. *)
Definition staggers (chunk : Z) : list Z :=
  map (fun i => chunk - Z.of_nat i) (seq 0 (Z.to_nat chunk)).

(** The batches of frames a parsed clause hands to the constructor, one
    after the other. *)
Definition clause_batches
    (start end_ : Z) (modifier : option ascii) (chunk : Z) : list (list Z) :=
  if bool_decide (modifier = Some "x"%char) then [x_run start end_ chunk]
  else if bool_decide (modifier = Some ":"%char) then
    map (x_run start end_) (staggers chunk)
  else if bool_decide (modifier = Some "y"%char) then
    [filter (fun f => f ∉ (list_to_set (x_run start end_ chunk) : gset Z))
            (x_run start end_ 1)]
  else [x_run start end_ 1].

(** The invariant of the data model: the members are the frames of the
    order, each of which occurs once. *)
Definition state_valid (st : gset Z * list Z) : Prop :=
  st.1 = list_to_set st.2 /\ NoDup st.2.

Definition FrameSet_valid (fs : FrameSet) : Prop :=
  _items fs = list_to_set (_order fs) /\
  NoDup (_order fs) /\
  length (_order fs) = size (_items fs).

(** A clause the range-part parser rejects: [_RANGE_RE] does not match
    it, or its chunk is zero. *)
Definition rejected (part : text) : Prop :=
  part <> [] /\
  (_RANGE_RE_match part = None \/
   exists g c, _RANGE_RE_match part = Some g /\ g_chunk g = Some c /\ int c = 0).

(** A clause the range-part parser lets through: an empty one, which is
    skipped before it, or one it returns a result for. *)
Definition accepted_clause (part : text) : Prop :=
  part = [] \/ exists r, _parse_frange_part part = Returned r.

(** ** Frames within the range of a C [long] *)

(** An integer that converts to a C [long]. *)
Definition in_long (n : Z) : Prop := LONG_MIN <= n <= LONG_MAX.

(** The arguments [xfrange(start, stop, step)] hands to [xrange] convert
    to C [long]s: [start], the frame after [stop], and the step with the
    sign of the direction. *)
Definition xfrange_args_fit (start stop step : Z) : Prop :=
  in_long start /\
  (if start <=? stop
   then in_long (stop + 1) /\ in_long (Z.abs step)
   else in_long (stop - 1) /\ in_long (- Z.abs step)).

(** They do, and the run from [start] to [stop] has no more than
    [LONG_MAX] frames. *)
Definition run_fits (start stop step : Z) : Prop :=
  xfrange_args_fit start stop step /\
  Z.abs (stop - start) / Z.abs step + 1 <= LONG_MAX.

(** The same for every run a parsed clause asks for: the run of the
    chunk for [x]; the runs of the chunk and of stride 1, between which
    the others lie, and the chunk itself for [:]; the run of the chunk and
    the full run for [y]; the full run without a modifier. *)
Definition clause_fits
    (start end_ : Z) (modifier : option ascii) (chunk : Z) : Prop :=
  if bool_decide (modifier = Some "x"%char) then run_fits start end_ chunk
  else if bool_decide (modifier = Some ":"%char) then
    in_long chunk /\ run_fits start end_ chunk /\ run_fits start end_ 1
  else if bool_decide (modifier = Some "y"%char) then
    run_fits start end_ chunk /\ run_fits start end_ 1
  else run_fits start end_ 1.

(** A clause the constructor takes: an empty one, which it skips, or one
    the range-part parser reads and whose runs fit. *)
Definition taken (part : text) : Prop :=
  part = [] \/
  exists start end_ modifier chunk,
    _parse_frange_part part = Returned (start, end_, modifier, chunk) /\
    clause_fits start end_ modifier chunk.

(** A clause the range-part parser reads and one of whose runs does not
    fit. *)
Definition overflowing (part : text) : Prop :=
  exists start end_ modifier chunk,
    _parse_frange_part part = Returned (start, end_, modifier, chunk) /\
    ~ clause_fits start end_ modifier chunk.

(** A frame whose two neighbours convert to a C [long] as well. *)
Definition frame_fits (f : Z) : Prop := LONG_MIN < f < LONG_MAX.

(** ** The grammar of the specification

    Section 4.1 of the specification:
    [clause := INT ( '-' INT ( MODIFIER UINT )? )?] with
    [MODIFIER := 'x' | 'y' | ':'], where [INT] allows a leading [-].  A
    clause stands for [(start, end, modifier, chunk)], [end] being [start]
    and [chunk] being 1 where they are absent. *)
Definition UINT (s : text) : Prop :=
  s <> [] /\ Forall (fun c => is_digit c = true) s.

Definition INT (s : text) : Prop :=
  UINT s \/ exists ds, s = "-"%char :: ds /\ UINT ds.

Definition MODIFIER (m : ascii) : Prop :=
  m = "x"%char \/ m = "y"%char \/ m = ":"%char.

Inductive spec_clause : text -> Z * Z * option ascii * Z -> Prop :=
| spec_single a :
    INT a -> spec_clause a (int a, int a, None, 1)
| spec_range a b :
    INT a -> INT b ->
    spec_clause (a ++ "-"%char :: b) (int a, int b, None, 1)
| spec_modified a b m c :
    INT a -> INT b -> MODIFIER m -> UINT c ->
    spec_clause (a ++ "-"%char :: b ++ m :: c) (int a, int b, Some m, int c).

(** [MalformedRange] of the specification: a clause, other than an empty
    one from a stray comma, that fails the grammar or whose chunk is
    zero. *)
Definition spec_malformed (part : text) : Prop :=
  part <> [] /\ forall r, spec_clause part r -> r.2 = 0.

(** A clause of the grammar whose chunk is not zero and whose runs fit,
    or an empty clause. *)
Definition spec_taken (part : text) : Prop :=
  part = [] \/
  exists start end_ modifier chunk,
    spec_clause part (start, end_, modifier, chunk) /\ chunk <> 0 /\
    clause_fits start end_ modifier chunk.

Definition newline : ascii := "010".

(** ** Instances in a heap *)

(** The instance whose slots hold a frame set. *)
Definition instance_of (fs : FrameSet) : instance :=
  mkInstance (Some (_frange fs)) (Some (_items fs)) (Some (_order fs)).

(** The operand a value stands for in a heap. *)
Definition operand_in (h : heap) (v : value) (o : operand) : Prop :=
  match v, o with
  | VFrameSet a, OFrameSet fs => h !! a = Some (instance_of fs)
  | VIterable frames, OIterable frames' => frames = frames'
  | VOther, OOther => True
  | _, _ => False
  end.

(** A call that leaves every instance of the heap [h] as it was, raises
    what [expected] raises, and whose result, where [expected] is a frame
    set, is the address of a new instance that holds this frame set. *)
Definition returns_new (h : heap) (expected : outcome FrameSet)
    (res : outcome nat * heap) : Prop :=
  (forall a i, h !! a = Some i -> res.2 !! a = Some i) /\
  match expected, res.1 with
  | Returned fs, Returned a =>
      h !! a = None /\ res.2 !! a = Some (instance_of fs)
  | NotImplemented, NotImplemented => True
  | Raised e, Raised e' => e = e'
  | _, _ => False
  end.

(** The clauses of a range string, once the padding characters are gone. *)
Definition clauses (frange : text) : list text :=
  split "," (translate_delete _PADDING_keys frange).

Definition is_padding_char (c : ascii) : Prop := c = "#"%char \/ c = "@"%char.

(** Strictly ascending order of a tuple of frames. *)
Definition ascending (l : list Z) : Prop := StronglySorted Z.lt l.

(** The set an argument of a set operation stands for. *)
Definition operand_set (o : operand) : option (gset Z) :=
  match o with
  | OFrameSet fs => Some (list_to_set (_order fs))
  | OIterable frames => Some (list_to_set frames)
  | OOther => None
  end.

(** ** What padding a range string means

    A literal integer is padded by zero-filling its digits; a sign stays
    in front and does not count towards the width. *)
Definition pad_literal (zfill : Z) (lit : text) : text :=
  match lit with
  | c :: ds => if Ascii.eqb c "-" then c :: Py.zfill ds zfill
               else Py.zfill lit zfill
  | [] => []
  end.

(** The modifier and the chunk of a clause, as written. *)
Definition modifier_text (g : range_groups) : text :=
  match g_modifier g, g_chunk g with
  | Some m, Some c => m :: c
  | _, _ => []
  end.

(** The text the groups of a clause span. *)
Definition clause_body (g : range_groups) : text :=
  g_start g ++
  match g_end g with
  | Some e => T "-" ++ e ++ modifier_text g
  | None => []
  end.

(** A clause with its two frame numbers padded and everything else (the
    separator, the modifier, the chunk, whatever follows the groups) as it
    was. *)
Definition pad_part (zfill : Z) (part : text) : text :=
  match _RANGE_RE_match part with
  | None => part
  | Some g =>
      pad_literal zfill (g_start g) ++
      match g_end g with
      | Some e => T "-" ++ pad_literal zfill e ++ modifier_text g
      | None => []
      end ++
      drop (length (clause_body g)) part
  end.

(** What may follow a clause in a range string: nothing, or a comma. *)
Definition after_ok (after : text) : Prop :=
  after = [] \/ exists rest, after = ","%char :: rest.

(** Where a run of digits stops. *)
Definition stops (s : text) : Prop :=
  match s with
  | [] => True
  | c :: _ => is_digit c = false
  end.

(** A literal integer split into its sign and its digits. *)
Definition literal (sg ds : text) : Prop :=
  (sg = [] \/ sg = T "-") /\ ds <> [] /\
  Forall (fun c => is_digit c = true) ds.

(** The three forms of a clause [_RANGE_RE] matches, with the groups of
    the match and the optional final newline the match leaves out. *)
Inductive clause_shape : text -> range_groups -> text -> Prop :=
| shape_single sg1 d1 nl :
    literal sg1 d1 -> re_at_end nl = true ->
    clause_shape (sg1 ++ d1 ++ nl)
                 (RangeGroups (sg1 ++ d1) None None None) nl
| shape_range sg1 d1 sg2 d2 nl :
    literal sg1 d1 -> literal sg2 d2 -> re_at_end nl = true ->
    clause_shape (sg1 ++ d1 ++ "-"%char :: sg2 ++ d2 ++ nl)
                 (RangeGroups (sg1 ++ d1) (Some (sg2 ++ d2)) None None) nl
| shape_modified sg1 d1 sg2 d2 m d3 nl :
    literal sg1 d1 -> literal sg2 d2 -> is_modifier m = true ->
    literal [] d3 -> re_at_end nl = true ->
    clause_shape (sg1 ++ d1 ++ "-"%char :: sg2 ++ d2 ++ m :: d3 ++ nl)
                 (RangeGroups (sg1 ++ d1) (Some (sg2 ++ d2)) (Some m) (Some d3))
                 nl.

(** The characters a clause is made of. *)
Definition clause_char (c : ascii) : Prop :=
  is_digit c = true \/ c = "-"%char \/ is_modifier c = true.

(** A token of the run compressor as the parser sees it: a clause of the
    grammar without a final newline and with a chunk that is not zero. *)
Definition parsable_token (tok : text) : Prop :=
  exists g, clause_shape tok g [] /\
            forall c, g_chunk g = Some c -> int c <> 0.

(** * More of the module: frame sets *)

(** ** Reading a frame set *)

(** What indexing a tuple and searching it can do besides returning:
    [IndexError] out of [tuple[i]], [ValueError] out of [tuple.index(x)]. *)
Inductive lookup (A : Type) :=
| Found (a : A)
| IndexError
| ValueError_not_in_tuple.
Arguments Found {A} a.
Arguments IndexError {A}.
Arguments ValueError_not_in_tuple {A}.

(** [t[i]] on a tuple: a negative index counts from the end. *)
Definition tuple_getitem (t : list Z) (i : Z) : lookup Z :=
  let n := Z.of_nat (length t) in
  let i' := if i <? 0 then i + n else i in
  if (i' <? 0) || (n <=? i') then IndexError
  else match t !! Z.to_nat i' with
       | Some x => Found x
       | None => IndexError
       end.

(** [t.index(x)]: the position of the first occurrence. *)
Fixpoint tuple_index (t : list Z) (x : Z) : lookup Z :=
  match t with
  | [] => ValueError_not_in_tuple
  | y :: rest =>
      if y =? x then Found 0
      else match tuple_index rest x with
           | Found i => Found (i + 1)
           | e => e
           end
  end.

(** [FrameSet.index(self, frame)] *)
Definition FrameSet_index (self : FrameSet) (frame : Z) : lookup Z :=
  tuple_index (_order self) frame.

(** [FrameSet.frame(self, index)] and [FrameSet.__getitem__] *)
Definition FrameSet_frame (self : FrameSet) (index : Z) : lookup Z :=
  tuple_getitem (_order self) index.

Definition FrameSet___getitem__ := FrameSet_frame.

(** [FrameSet.__contains__] and [FrameSet.hasFrame] *)
Definition FrameSet___contains__ (self : FrameSet) (item : Z) : bool :=
  bool_decide (item ∈ _items self).

Definition hasFrame (self : FrameSet) (frame : Z) : bool :=
  FrameSet___contains__ self frame.

(** [FrameSet.start] and [FrameSet.end] *)
Definition FrameSet_start (self : FrameSet) : lookup Z :=
  tuple_getitem (_order self) 0.

Definition FrameSet_end (self : FrameSet) : lookup Z :=
  tuple_getitem (_order self) (-1).

(** [FrameSet.__len__] *)
Definition FrameSet___len__ (self : FrameSet) : Z :=
  Z.of_nat (length (_order self)).

(** [FrameSet.__iter__] and [FrameSet.__reversed__], as the lists they
    yield. *)
Definition FrameSet___iter__ (self : FrameSet) : list Z := _order self.

Definition FrameSet___reversed__ (self : FrameSet) : list Z :=
  reverse (_order self).

(** ** The inverted range *)

(** The loop of [FrameSet.invertedFrameRange] over the neighbours of the
    sorted frames: [result += xrange(frame + 1, next_frame)] wherever the
    two are not one apart; the first [xrange] that raises ends it. *)
Fixpoint inverted_frames (frames : list Z) : outcome (list Z) :=
  match frames with
  | frame :: ((next_frame :: _) as rest) =>
      bind (if negb (next_frame - frame =? 1)
            then xrange (frame + 1) next_frame 1
            else Returned [])
           (fun gap =>
      bind (inverted_frames rest) (fun result => Returned (gap ++ result)))
  | _ => Returned []
  end.

(** [FrameSet.invertedFrameRange(self, zfill=0)] *)
Definition invertedFrameRange (self : FrameSet) (zfill : Z) : outcome text :=
  bind (inverted_frames (sorted (elements (_items self)))) (fun result =>
  match result with
  | [] => Returned []
  | _ => Returned (framesToFrameRange result false zfill false)
  end).

(** ** Pickling *)

(** A dictionary handed to [__setstate__], as far as the code looks at
    it: the values, if any, under the keys [__frange], [__set] and
    [__list] (a string and two iterables of frames, as the first
    generation of pickles stored them) and under the names of the slots. *)
Record state_dict := mkStateDict {
  key___frange : option text;
  key___set : option (list Z);
  key___list : option (list Z);
  key__frange : option text;
  key__items : option (gset Z);
  key__order : option (list Z)
}.

(** The states [FrameSet.__setstate__] tells apart: a tuple (of
    strings), a string, a dictionary, and anything else. *)
Inductive state :=
| StateTuple (items : list text)
| StateString (s : text)
| StateDict (d : state_dict)
| StateOther.

(** What [__setstate__] can do: return, raise an exception of the
    constructor or its own [ValueError], raise [IndexError] out of
    [state[0]], or raise [KeyError] out of [state[k]]. *)
Inductive unpickling :=
| Unpickled
| UnpicklingRaised (e : exn)
| UnpicklingIndexError
| UnpicklingKeyError (key : text).

(** How a call of [__init__] ends ([NotImplemented] would be a value
    returned; [__init__] never gives it). *)
Definition unpickling_of (res : outcome unit * heap) : unpickling * heap :=
  match res with
  | (Raised e, h) => (UnpicklingRaised e, h)
  | (_, h) => (Unpickled, h)
  end.

(** [FrameSet.__getstate__]: the tuple [(self.frange, )]. *)
Definition FrameSet___getstate__ (self : nat) : prog state :=
  Heap.bind (Heap.get_frange self) (fun frange =>
  Heap.ret (StateTuple [frange])).

(** [FrameSet.__setstate__(self, state)]: the receiver is initialized in
    place. *)
Definition FrameSet___setstate__ (self : nat) (state : state) (h : heap)
    : unpickling * heap :=
  match state with
  | StateTuple [] => (UnpicklingIndexError, h)
  | StateTuple (first :: _) =>
      unpickling_of (Heap.FrameSet___init__ self (ArgStr first) h)
  | StateString s =>
      unpickling_of (Heap.FrameSet___init__ self (ArgStr s) h)
  | StateDict d =>
      match key___frange d, key___set d, key___list d with
      | Some frange, Some set_, Some list_ =>
          unpickling_of
            (Heap.bind (Heap.set_frange self frange) (fun _ =>
             Heap.bind (Heap.set_items self (list_to_set set_)) (fun _ =>
             Heap.set_order self list_)) h)
      | _, _, _ =>
          match key__frange d with
          | None => (UnpicklingKeyError (T "_frange"), h)
          | Some v =>
              let h := (Heap.set_frange self v h).2 in
              match key__items d with
              | None => (UnpicklingKeyError (T "_items"), h)
              | Some v =>
                  let h := (Heap.set_items self v h).2 in
                  match key__order d with
                  | None => (UnpicklingKeyError (T "_order"), h)
                  | Some v => (Unpickled, (Heap.set_order self v h).2)
                  end
              end
          end
      end
  | StateOther => (UnpicklingRaised ValueError, h)
  end.

(** * Vocabulary of the further properties of frame sets *)

(** The frames a token of the run compressor stands for: one frame, or
    at least three frames of one stride. *)
Inductive run_token (zfill : Z) : list Z -> text -> Prop :=
| run_token_single f :
    run_token zfill [f] (single_token zfill f)
| run_token_run run d s l :
    (3 <= length run)%nat ->
    head run = Some s -> last run = Some l ->
    stride_run d run ->
    run_token zfill run (_build_frange_part (Some s) (Some l) (Some d) zfill).

(** The state of the compressor's loop after the frames [seen], with the
    tokens [out] yielded so far: the tokens stand for runs that make up
    [seen] up to the open run, which is the last [curr_count] frames. *)
Definition run_cover (zfill : Z) (st : run_state) (seen : list Z)
    (out : list text) : Prop :=
  match curr_start st with
  | None => seen = [] /\ out = [] /\ st = run_init
  | Some s =>
      exists runs run,
        Forall2 (run_token zfill) runs out /\
        seen = concat runs ++ run /\ length run = curr_count st /\
        head run = Some s /\ last run = last_frame st /\
        curr_frame st = last_frame st /\
        match curr_stride st with
        | None => curr_count st = 1%nat
        | Some d => (2 <= curr_count st)%nat /\ stride_run d run
        end
  end.

(** What the constructor makes of a clause: the clause is read, its runs
    fit and its batches are these. *)
Definition clause_reads (tok : text) (batches : list (list Z)) : Prop :=
  tok <> [] /\
  exists start end_ modifier chunk,
    _parse_frange_part tok = Returned (start, end_, modifier, chunk) /\
    clause_fits start end_ modifier chunk /\
    clause_batches start end_ modifier chunk = batches.

(** The frames strictly between the least and the greatest member that
    are not members. *)
Definition is_gap (items : gset Z) (x : Z) : Prop :=
  (x ∉ items) /\ (exists a, a ∈ items /\ a < x) /\ (exists b, b ∈ items /\ x < b).


(** The groups of a clause once its two frame numbers are padded. *)
Definition pad_groups (zfill : Z) (g : range_groups) : range_groups :=
  RangeGroups (pad_literal zfill (g_start g))
              (option_map (pad_literal zfill) (g_end g))
              (g_modifier g) (g_chunk g).

(** A character that is neither the comma nor a padding character. *)
Definition plain_char (c : ascii) : Prop :=
  c <> ","%char /\ c ∉ _PADDING_keys.

(** An empty clause, or a clause of the grammar of [_RANGE_RE]. *)
Definition shaped (part : text) : Prop :=
  part = [] \/ exists g nl, clause_shape part g nl.

(** A state of the run compressor over frames none of which is negative:
    the frames and the stride it holds are not negative, and the frame
    variables are set together. *)
Definition nonneg_state (st : run_state) : Prop :=
  (forall x, curr_start st = Some x -> 0 <= x) /\
  (forall x, last_frame st = Some x -> 0 <= x) /\
  (forall x, curr_frame st = Some x -> 0 <= x) /\
  (forall d, curr_stride st = Some d -> 0 <= d) /\
  (curr_frame st <> None -> curr_start st <> None) /\
  (curr_start st <> None -> last_frame st <> None).

(** * More of the module: file sequences *)

(** [_PADDING = {"#": 4, "@": 1}]: the width a padding character stands
    for; [None] where the dictionary has no such key. *)
Definition _PADDING (c : ascii) : option Z :=
  if Ascii.eqb c "#" then Some 4
  else if Ascii.eqb c "@" then Some 1
  else None.

(** What the code of a file sequence can do besides returning: raise one
    of the exceptions of the frame-set code, or [KeyError] out of
    [_PADDING[c]]. *)
Inductive attempt (A : Type) :=
| Done (a : A)
| Fails (e : exn)
| KeyError (key : ascii).
Arguments Done {A} a.
Arguments Fails {A} e.
Arguments KeyError {A} key.

(** [sum([_PADDING[c] for c in padding])]: the list is built from left to
    right, so the first character that is no key raises. *)
Fixpoint padding_sum (padding : text) : attempt Z :=
  match padding with
  | [] => Done 0
  | c :: rest =>
      match _PADDING c with
      | None => KeyError c
      | Some w =>
          match padding_sum rest with
          | Done n => Done (w + n)
          | e => e
          end
      end
  end.

(** [getPaddingChars(num)]; [/] and [%] on integers round towards minus
    infinity, and a string times a negative number is empty. *)
Definition getPaddingChars (num : Z) : text :=
  if num =? 0 then T "@"
  else if num mod 4 =? 0 then repeat "#"%char (Z.to_nat (num / 4))
  else repeat "@"%char (Z.to_nat num).

(** The character classes of [_SPLITTER_RE]: [[\:xy\-0-9,]] and
    [[\#\@]]. *)
Definition is_range_char (c : ascii) : bool :=
  (Ascii.eqb c ":" || Ascii.eqb c "x" || Ascii.eqb c "y" || Ascii.eqb c "-"
   || is_digit c || Ascii.eqb c ",")%bool.

Definition is_pad_char (c : ascii) : bool :=
  (Ascii.eqb c "#" || Ascii.eqb c "@")%bool.

(** The longest prefix of characters of a class, and what follows. *)
Fixpoint span (p : ascii -> bool) (s : text) : text * text :=
  match s with
  | c :: rest =>
      if p c then let '(taken, r) := span p rest in (c :: taken, r)
      else ([], s)
  | [] => ([], [])
  end.

(** [_SPLITTER_RE] (a group of any number of range characters, then a
    group of one or more padding characters) matched at the front of [s]:
    the two groups and the rest.  Both groups are greedy; giving back
    characters of the first cannot make the second match, since the
    character that would follow is one of the first class. *)
Definition _SPLITTER_RE_match (s : text) : option (text * text * text) :=
  let '(g1, r1) := span is_range_char s in
  let '(g2, r2) := span is_pad_char r1 in
  match g2 with
  | [] => None
  | _ => Some (g1, g2, r2)
  end.

(** [_SPLITTER_RE.split(sequence, 1)]: the leftmost match splits the
    string into what precedes it, its two groups and what follows; [None]
    stands for the one-element list returned when nothing matches. *)
Fixpoint _SPLITTER_RE_split (s : text) : option (text * text * text * text) :=
  match _SPLITTER_RE_match s with
  | Some (g1, g2, r) => Some ([], g1, g2, r)
  | None =>
      match s with
      | [] => None
      | c :: rest =>
          match _SPLITTER_RE_split rest with
          | Some (before, g1, g2, r) => Some (c :: before, g1, g2, r)
          | None => None
          end
      end
  end.

(** [s.rfind(c)]: the position of the last [c] in [s], -1 if there is
    none. *)
Fixpoint rfind_from (c : ascii) (s : text) (i found : Z) : Z :=
  match s with
  | [] => found
  | d :: rest => rfind_from c rest (i + 1) (if Ascii.eqb d c then i else found)
  end.

Definition rfind (c : ascii) (s : text) : Z := rfind_from c s 0 (-1).

(** [s.rstrip(c)] *)
Fixpoint lstrip (c : ascii) (s : text) : text :=
  match s with
  | d :: rest => if Ascii.eqb d c then lstrip c rest else s
  | [] => []
  end.

Definition rstrip (c : ascii) (s : text) : text :=
  reverse (lstrip c (reverse s)).

(** [os.path.split(p)] of [posixpath]: the part up to the last slash,
    without its trailing slashes unless it is made of slashes only, and
    the part after the last slash. *)
Definition os_path_split (p : text) : text * text :=
  let i := Z.to_nat (rfind "/" p + 1) in
  let head := take i p in
  let tail := drop i p in
  let head :=
    if (negb (bool_decide (head = [])) && negb (forallb (Ascii.eqb "/") head))%bool
    then rstrip "/" head
    else head in
  (head, tail).

(** [os.path.splitext(p)] of [posixpath]: the extension starts at the
    last dot, provided the dot comes after the last slash and some
    character between the two is not a dot. *)
Definition os_path_splitext (p : text) : text * text :=
  let sepIndex := rfind "/" p in
  let dotIndex := rfind "." p in
  if sepIndex <? dotIndex then
    if forallb (Ascii.eqb ".")
         (take (Z.to_nat (dotIndex - (sepIndex + 1)))
               (drop (Z.to_nat (sepIndex + 1)) p))
    then (p, [])
    else (take (Z.to_nat dotIndex) p, drop (Z.to_nat dotIndex) p)
  else (p, []).

(** The private attributes of a [FileSequence]. *)
Record FileSequence := mkFileSequence {
  __dir : text;
  __basename : text;
  __frameSet : option FrameSet;
  __padding : text;
  __ext : text;
  __zfill : Z
}.

Definition msg_failed (sequence : text) : text :=
  T "Failed to parse FileSequence: " ++ sequence.

(** [FileSequence.__init__(self, sequence)] on a POSIX system
    ([os.sep] is the slash). *)
Definition FileSequence_init (sequence : text) : attempt FileSequence :=
  let parts :=
    match _SPLITTER_RE_split sequence with
    | Some parts => Done parts
    | None =>
        if existsb (fun placeholder => bool_decide (placeholder ∈ sequence))
                   _PADDING_keys
        then Fails (ParseException (msg_failed sequence))
        else
          let '(filename, extension) := os_path_splitext sequence in
          Done (filename, [], [], extension)
    end in
  match parts with
  | Done (filename, frame_ids, padding, extension) =>
      let '(directory, basename) := os_path_split filename in
      let dir :=
        match directory with
        | [] => []
        | _ => directory ++ T "/"
        end in
      let frameSet :=
        match frame_ids with
        | [] => Returned None
        | _ => bind (FrameSet_init frame_ids) (fun fs => Returned (Some fs))
        end in
      match frameSet with
      | Returned frameSet =>
          match padding_sum padding with
          | Done zfill =>
              Done (mkFileSequence dir basename frameSet padding extension zfill)
          | Fails e => Fails e
          | KeyError key => KeyError key
          end
      | Raised e => Fails e
      | NotImplemented => Fails TypeError (* not an outcome of [FrameSet_init] *)
      end
  | Fails e => Fails e
  | KeyError key => KeyError key
  end.

(** [FrameSet.__str__] *)
Definition FrameSet___str__ (self : FrameSet) : text := _frange self.

(** [FileSequence.__str__]; [self.__frameSet or ''] is the empty string
    for [None] and for a frame set without frames. *)
Definition FileSequence___str__ (self : FileSequence) : text :=
  __dir self ++ __basename self ++
  match __frameSet self with
  | Some fs => if FrameSet___len__ fs =? 0 then [] else FrameSet___str__ fs
  | None => []
  end ++ __padding self ++ __ext self.

(** [FileSequence.frame(self, frame)] for an integer [frame]. *)
Definition FileSequence_frame (self : FileSequence) (frame : Z) : text :=
  let zframe := zfill (str_int frame) (__zfill self) in
  let zframe := if __zfill self =? 0 then [] else zframe in
  __dir self ++ __basename self ++ zframe ++ __ext self.

(** [FileSequence.index(self, idx)] and [FileSequence.__getitem__] *)
Definition FileSequence_index (self : FileSequence) (idx : Z) : lookup text :=
  match __frameSet self with
  | None => Found (FileSequence___str__ self)
  | Some fs =>
      match FrameSet___getitem__ fs idx with
      | Found f => Found (FileSequence_frame self f)
      | IndexError => IndexError
      | ValueError_not_in_tuple => ValueError_not_in_tuple
      end
  end.

Definition FileSequence___getitem__ := FileSequence_index.

(** [FileSequence.__iter__], as the list it yields. *)
Definition FileSequence___iter__ (self : FileSequence) : list text :=
  match __frameSet self with
  | None => [FileSequence___str__ self]
  | Some fs =>
      if __zfill self =? 0 then [FileSequence___str__ self]
      else map (FileSequence_frame self) (FrameSet___iter__ fs)
  end.

(** [FileSequence.__len__] *)
Definition FileSequence___len__ (self : FileSequence) : Z :=
  match __frameSet self with
  | None => 1
  | Some fs => if __zfill self =? 0 then 1 else FrameSet___len__ fs
  end.

(** [FileSequence.start] and [FileSequence.end] *)
Definition FileSequence_start (self : FileSequence) : lookup Z :=
  match __frameSet self with
  | None => Found 0
  | Some fs => FrameSet_start fs
  end.

Definition FileSequence_end (self : FileSequence) : lookup Z :=
  match __frameSet self with
  | None => Found 0
  | Some fs => FrameSet_end fs
  end.

(** [FileSequence.frameRange] and [FileSequence.invertedFrameRange] *)
Definition FileSequence_frameRange (self : FileSequence) : text :=
  match __frameSet self with
  | Some fs => frameRange fs (__zfill self)
  | None => []
  end.

Definition FileSequence_invertedFrameRange (self : FileSequence)
    : outcome text :=
  match __frameSet self with
  | Some fs => invertedFrameRange fs (__zfill self)
  | None => Returned []
  end.

(** [FileSequence.setPadding(self, padding)]: the sequence as it is
    after a call that returns. *)
Definition FileSequence_setPadding (self : FileSequence) (padding : text)
    : attempt FileSequence :=
  match padding_sum padding with
  | Done zfill =>
      Done (mkFileSequence (__dir self) (__basename self) (__frameSet self)
                           padding (__ext self) zfill)
  | Fails e => Fails e
  | KeyError key => KeyError key
  end.

(** [FileSequence.split(self)]: the loop over the clauses of the padded
    range, which builds one sequence for each; the first constructor that
    raises ends it. *)
Fixpoint split_pieces (self : FileSequence) (range_list : list text)
    : attempt (list FileSequence) :=
  match range_list with
  | [] => Done []
  | frange :: rest =>
      match FileSequence_init (__dir self ++ __basename self ++ frange
                               ++ __padding self ++ __ext self) with
      | Done seq =>
          match split_pieces self rest with
          | Done result => Done (seq :: result)
          | e => e
          end
      | Fails e => Fails e
      | KeyError key => KeyError key
      end
  end.

Definition FileSequence_split (self : FileSequence)
    : attempt (list FileSequence) :=
  split_pieces self (split "," (FileSequence_frameRange self)).

(** * Vocabulary of the properties of file sequences *)

(** The frames of a file sequence: those of its frame set, none without
    one. *)
Definition FileSequence_frames (self : FileSequence) : gset Z :=
  match __frameSet self with
  | Some fs => _items fs
  | None => ∅
  end.

(** A way to cut a string in four for [_SPLITTER_RE]: a part without
    padding characters that does not end in a range character, range
    characters, at least one padding character, and a rest that does not
    begin with a padding character. *)
Definition splits_at (before g1 g2 r : text) : Prop :=
  Forall (fun c => is_pad_char c = false) before /\
  match last before with Some c => is_range_char c = false | None => True end /\
  Forall (fun c => is_range_char c = true) g1 /\
  Forall (fun c => is_pad_char c = true) g2 /\ g2 <> [] /\
  match r with [] => True | c :: _ => is_pad_char c = false end.

(** How often a character occurs in a string. *)
Definition count_char (c : ascii) (s : text) : Z :=
  Z.of_nat (length (filter (fun d => d = c) s)).

(** The directory attribute the constructor derives from the part of the
    string before the frame range. *)
Definition directory_of (filename : text) : text :=
  match (os_path_split filename).1 with
  | [] => []
  | directory => directory ++ T "/"
  end.

(** A name that does not end in a range character. *)
Definition ends_plain (name : text) : Prop :=
  match last name with Some c => is_range_char c = false | None => True end.

(** What the constructor leaves in a file sequence, for a string with
    padding characters: the name is free of padding characters and does
    not end in a range character, the padding is a run of padding
    characters, the extension does not begin with one, the width is the
    sum over the padding, and the frame set, if there is one, was built
    from a run of range characters. *)
Definition built_with_padding (seq : FileSequence) : Prop :=
  Forall (fun c => is_pad_char c = false) (__dir seq ++ __basename seq) /\
  ends_plain (__dir seq ++ __basename seq) /\
  __padding seq <> [] /\
  Forall (fun c => is_pad_char c = true) (__padding seq) /\
  match __ext seq with [] => True | c :: _ => is_pad_char c = false end /\
  __zfill seq
  = 4 * count_char "#" (__padding seq) + count_char "@" (__padding seq) /\
  match __frameSet seq with
  | None => True
  | Some fs =>
      Forall (fun c => is_range_char c = true) (_frange fs) /\
      FrameSet_init (_frange fs) = Returned fs
  end.

(** The same for a string without padding characters. *)
Definition built_solitary (seq : FileSequence) : Prop :=
  Forall (fun c => is_pad_char c = false)
         (__dir seq ++ __basename seq ++ __ext seq) /\
  __padding seq = [] /\ __frameSet seq = None /\ __zfill seq = 0.

(** ** The grammar of the specification and the pattern of the code *)

(** What the groups of a match stand for: the start, the end (the start
    where it is absent), the modifier and the chunk (1 where it is
    absent). *)
Definition clause_value (g : range_groups) : Z * Z * option ascii * Z :=
  (int (g_start g),
   match g_end g with Some e => int e | None => int (g_start g) end,
   g_modifier g,
   match g_chunk g with Some c => int c | None => 1 end).
(** * Properties *)

(** ** The run compressor *)

Section RunCompressor.
Variable zfill : Z.

Lemma run_loop_snoc st frames f :
  run_loop zfill st (frames ++ [f]) =
  let '(st1, out1) := run_loop zfill st frames in
  let '(st2, out2) := run_step zfill st1 f in
  (st2, out1 ++ out2).
Proof.
  revert st. induction frames as [|g frames IH]; intros st; simpl.
  - destruct (run_step zfill st f) as [st2 out2]. by rewrite app_nil_r.
  - destruct (run_step zfill st g) as [st1 out1]. rewrite IH.
    destruct (run_loop zfill st1 frames) as [st2 out2].
    destruct (run_step zfill st2 f) as [st3 out3]. by rewrite app_assoc.
Qed.

Lemma stride_run_snoc d run l f :
  stride_run d run -> last run = Some l -> Z.abs (f - l) = d ->
  stride_run d (run ++ [f]).
Proof.
  induction run as [|x [|y rest] IH]; simpl; intros Hr Hl Hd.
  - done.
  - injection Hl as ->. done.
  - destruct Hr as [Hxy Hr]. split; [done|]. apply IH; done.
Qed.

Lemma token_of_mono frames f tok :
  token_of zfill frames tok -> token_of zfill (frames ++ [f]) tok.
Proof.
  intros [g Hg | pre run post d s l -> Hlen Hh Hl Hr].
  - apply token_single. set_solver.
  - apply (token_run _ _ pre run (post ++ [f])); try done.
    by rewrite <- !app_assoc.
Qed.

Lemma run_last_frame_set st seen :
  run_inv st seen -> is_Some (curr_start st) -> is_Some (last_frame st).
Proof.
  unfold run_inv. intros Hinv [s Hs]. rewrite Hs in Hinv.
  destruct Hinv as (pre & run & _ & Hlen & Hh & Hl & _).
  rewrite <- Hl. destruct run as [|x run]; [done|].
  rewrite last_cons. destruct (last run); eauto.
Qed.

Lemma run_step_inv st seen f st' out :
  run_inv st seen -> run_step zfill st f = (st', out) ->
  run_inv st' (seen ++ [f]) /\ Forall (token_of zfill (seen ++ [f])) out.
Proof.
  unfold run_inv, run_step. intros Hinv Hstep.
  destruct (curr_start st) as [s|] eqn:Hs.
  - destruct Hinv as (pre & run & -> & Hlen & Hh & Hl & Hcf & Hstr).
    destruct (last_frame st) as [l|] eqn:Hlast; simpl in Hstep.
    2:{ destruct run; simpl in *; [done|]. rewrite last_cons in Hl.
        destruct (last run); done. }
    destruct (curr_stride st) as [d|] eqn:Hd; simpl in Hstep.
    + destruct Hstr as [Hc Hstr].
      destruct (Z.eqb_spec d (Z.abs (f - l))) as [Heq|Hne].
      * injection Hstep as <- <-. simpl. split; [|done].
        exists pre, (run ++ [f]). rewrite length_app, last_snoc. simpl.
        repeat split;
          first [ done | lia | by rewrite <- !app_assoc
                | by destruct run | by apply (stride_run_snoc _ _ l) ].
      * destruct (Nat.eqb_spec (curr_count st) 2) as [H2|H2].
        -- injection Hstep as <- <-. simpl.
           destruct run as [|a [|b [|c run]]]; simpl in Hlen; try lia.
           simpl in Hh, Hl. injection Hh as ->. injection Hl as ->.
           split.
           ++ exists (pre ++ [s]), [l; f]. simpl.
              repeat split; first [done | lia | by rewrite <- !app_assoc].
           ++ constructor; [|done]. apply token_single.
              clear. set_solver.
        -- injection Hstep as <- <-. simpl. split.
           ++ exists (pre ++ run), [f]. simpl.
              repeat split; first [done | by rewrite <- !app_assoc].
           ++ constructor; [|done].
              apply (token_run _ _ pre run [f] d s l);
                first [done | lia | by rewrite <- !app_assoc].
    + destruct run as [|a [|b run]]; simpl in Hlen; try lia.
      simpl in Hh, Hl. injection Hh as ->. injection Hl as ->.
      rewrite Z.eqb_refl in Hstep. injection Hstep as <- <-. simpl.
      split; [|done]. exists pre, [l; f]. simpl.
      repeat split; first [done | lia | by rewrite <- !app_assoc].
  - destruct Hinv as [-> ->]. simpl in Hstep. injection Hstep as <- <-.
    simpl. split; [|done]. exists [], [f]. simpl. repeat split; done.
Qed.

Lemma run_loop_inv frames st out :
  run_loop zfill run_init frames = (st, out) ->
  run_inv st frames /\ Forall (token_of zfill frames) out.
Proof.
  revert st out. induction frames as [|f frames IH] using rev_ind;
    intros st out Hloop.
  - simpl in Hloop. injection Hloop as <- <-. split; [|done]. by split.
  - rewrite run_loop_snoc in Hloop.
    destruct (run_loop zfill run_init frames) as [st1 out1].
    destruct (run_step zfill st1 f) as [st2 out2] eqn:Hstep.
    injection Hloop as <- <-.
    destruct (IH _ _ eq_refl) as [Hinv Htok].
    destruct (run_step_inv _ _ _ _ _ Hinv Hstep) as [Hinv' Htok'].
    split; [done|]. apply Forall_app. split; [|done].
    eapply Forall_impl; [exact Htok|]. intros tok. apply token_of_mono.
Qed.

(** The end of the input with two frames in the open run: both are
    flushed on their own. *)
Lemma run_flush_pair frames st out :
  run_loop zfill run_init frames = (st, out) ->
  curr_count st = 2%nat ->
  exists pre a b,
    frames = pre ++ [a; b] /\
    framesToFrameRanges frames zfill = out ++ [single_token zfill a; single_token zfill b].
Proof.
  intros Hloop Hc. destruct (run_loop_inv _ _ _ Hloop) as [Hinv _].
  unfold framesToFrameRanges. rewrite Hloop.
  unfold run_flush. rewrite Hc. simpl.
  unfold run_inv in Hinv. destruct (curr_start st) as [s|].
  - destruct Hinv as (pre & run & -> & Hlen & Hh & Hl & Hcf & _).
    rewrite Hc in Hlen. destruct run as [|a [|b [|c run]]]; try done.
    simpl in Hh, Hl. injection Hh as ->. rewrite Hcf, <- Hl.
    by exists pre, s, b.
  - destruct Hinv as [_ ->]. done.
Qed.

(** Every token the generator yields for a non-empty input. *)
Lemma framesToFrameRanges_tokens frames :
  frames <> [] ->
  Forall (token_of zfill frames) (framesToFrameRanges frames zfill).
Proof.
  intros Hne. unfold framesToFrameRanges.
  destruct (run_loop zfill run_init frames) as [st out] eqn:Hloop.
  destruct (run_loop_inv _ _ _ Hloop) as [Hinv Htok].
  apply Forall_app. split; [done|].
  unfold run_inv in Hinv. destruct (curr_start st) as [s|] eqn:Hs.
  2:{ by destruct Hinv as [-> _]. }
  destruct Hinv as (pre & run & -> & Hlen & Hh & Hl & Hcf & Hstr).
  unfold run_flush. rewrite Hs, Hcf, <- Hl.
  destruct (Nat.eqb_spec (curr_count st) 2) as [H2|H2].
  - destruct run as [|a [|b [|c run]]]; simpl in Hlen; try lia.
    simpl in Hh. injection Hh as ->. simpl last.
    repeat (constructor; [apply token_single; set_solver|]).
    constructor.
  - destruct (curr_stride st) as [d|].
    + destruct Hstr as [Hc Hstr].
      destruct (last run) as [l|] eqn:Hlast.
      2:{ destruct run; [simpl in *; lia|]. rewrite last_cons in Hlast.
          destruct (last run); done. }
      constructor; [|constructor].
      apply (token_run _ _ pre run [] d s l);
        first [done | lia | by rewrite app_nil_r].
    + destruct run as [|a [|b run]]; simpl in Hlen; try lia.
      simpl in Hh. injection Hh as ->. simpl last.
      constructor; [apply token_single; set_solver|constructor].
Qed.

End RunCompressor.

Lemma single_token_pad zfill f : single_token zfill f = pad (Some f) zfill.
Proof. reflexivity. Qed.

Lemma framesToFrameRange_two zfill a b :
  framesToFrameRange [a; b] false zfill false =
  pad (Some a) zfill ++ T "," ++ pad (Some b) zfill.
Proof.
  unfold framesToFrameRange, framesToFrameRanges. simpl.
  unfold run_step. simpl. rewrite Z.eqb_refl. reflexivity.
Qed.

(** ** The sequence expander *)

Lemma fits_long_spec n : fits_long n = true <-> in_long n.
Proof.
  unfold fits_long, in_long. rewrite andb_true_iff, !Z.leb_le. done.
Qed.

Lemma in_long_dec n : in_long n \/ ~ in_long n.
Proof. unfold in_long. lia. Qed.

Lemma xfrange_args_fit_dec start stop step :
  xfrange_args_fit start stop step \/ ~ xfrange_args_fit start stop step.
Proof.
  unfold xfrange_args_fit, in_long. destruct (start <=? stop); lia.
Qed.

Lemma run_fits_dec start stop step :
  run_fits start stop step \/ ~ run_fits start stop step.
Proof.
  unfold run_fits.
  destruct (xfrange_args_fit_dec start stop step) as [Ha|Ha]; [|tauto].
  destruct (Z.le_gt_cases (Z.abs (stop - start) / Z.abs step + 1) LONG_MAX);
    [by left|right]. intros [_ ?]. lia.
Qed.

(** The arguments [xfrange] hands to [xrange]. *)
Lemma xfrange_xrange start stop step :
  xfrange start stop step =
  xrange start (if start <=? stop then stop + 1 else stop - 1)
         (if start <=? stop then Z.abs step else - Z.abs step).
Proof. unfold xfrange. by destruct (start <=? stop). Qed.

Lemma xfrange_args_fit_spec start stop step :
  fits_long start
  && fits_long (if start <=? stop then stop + 1 else stop - 1)
  && fits_long (if start <=? stop then Z.abs step else - Z.abs step) = true
  <-> xfrange_args_fit start stop step.
Proof.
  unfold xfrange_args_fit. rewrite !andb_true_iff, !fits_long_spec.
  destruct (start <=? stop); tauto.
Qed.

(** How many frames a run has, as [xrange] counts them. *)
Lemma get_len_of_range_run start stop step :
  step <> 0 ->
  get_len_of_range start (if start <=? stop then stop + 1 else stop - 1)
                   (if start <=? stop then Z.abs step else - Z.abs step)
  = Z.abs (stop - start) / Z.abs step + 1.
Proof.
  intros Hstep. unfold get_len_of_range.
  destruct (Z.leb_spec start stop) as [Hle|Hgt].
  - destruct (Z.ltb_spec 0 (Z.abs step)); [|lia].
    destruct (Z.ltb_spec start (stop + 1)); [|lia]. simpl.
    rewrite (Z.abs_eq (stop - start)) by lia.
    replace (stop + 1 - 1 - start) with (stop - start) by lia. lia.
  - destruct (Z.ltb_spec 0 (- Z.abs step)); [lia|].
    destruct (Z.ltb_spec (- Z.abs step) 0); [|lia].
    destruct (Z.ltb_spec (stop - 1) start); [|lia]. simpl.
    rewrite (Z.abs_neq (stop - start)) by lia.
    replace (start - 1 - (stop - 1)) with (- (stop - start)) by lia.
    replace (0 - - Z.abs step) with (Z.abs step) by lia. lia.
Qed.

Lemma xrange_list_run start stop step :
  step <> 0 ->
  xrange_list start (if start <=? stop then stop + 1 else stop - 1)
              (if start <=? stop then Z.abs step else - Z.abs step)
  = x_run start stop step.
Proof.
  intros Hstep. unfold x_run, xrange_list, xrange_len.
  destruct (Z.leb_spec start stop) as [Hle|Hgt].
  - destruct (Z.ltb_spec 0 (Z.abs step)); [|lia].
    destruct (Z.ltb_spec start (stop + 1)); [|lia].
    replace (stop + 1 - start - 1) with (stop - start) by lia.
    rewrite (Z.abs_eq (stop - start)) by lia. reflexivity.
  - destruct (Z.ltb_spec 0 (- Z.abs step)); [lia|].
    destruct (Z.ltb_spec (stop - 1) start); [|lia].
    replace (start - (stop - 1) - 1) with (start - stop) by lia.
    rewrite Z.opp_involutive.
    rewrite (Z.abs_neq (stop - start)) by lia.
    replace (- (stop - start)) with (start - stop) by lia.
    apply map_ext. intros i. lia.
Qed.

Lemma xfrange_step_nonzero start stop step :
  step <> 0 ->
  ((if start <=? stop then Z.abs step else - Z.abs step) =? 0) = false.
Proof. intros Hstep. destruct (start <=? stop); lia. Qed.

(** [xfrange] on arguments one of which does not convert to a C [long]. *)
Lemma xfrange_args_overflow start stop step :
  ~ xfrange_args_fit start stop step ->
  xfrange start stop step = Raised OverflowError.
Proof.
  intros Hfit. rewrite xfrange_xrange. unfold xrange.
  rewrite <- xfrange_args_fit_spec in Hfit.
  by apply not_true_is_false in Hfit as ->.
Qed.

Lemma xfrange_zero start stop :
  xfrange_args_fit start stop 0 -> xfrange start stop 0 = Raised ValueError.
Proof.
  intros Hfit. rewrite xfrange_xrange. unfold xrange.
  apply xfrange_args_fit_spec in Hfit as ->. simpl negb. cbv iota.
  by destruct (start <=? stop).
Qed.


(** [xfrange] on a run that fits. *)
Lemma xfrange_run start stop step :
  step <> 0 -> run_fits start stop step ->
  xfrange start stop step = Returned (x_run start stop step).
Proof.
  intros Hstep [Hfit Hlen]. rewrite xfrange_xrange. unfold xrange.
  apply xfrange_args_fit_spec in Hfit as ->. simpl negb. cbv iota.
  rewrite get_len_of_range_run, xrange_list_run by done.
  rewrite xfrange_step_nonzero by done.
  by destruct (Z.ltb_spec LONG_MAX (Z.abs (stop - start) / Z.abs step + 1));
    [lia|].
Qed.

(** [xfrange] on a run that does not fit. *)
Lemma xfrange_overflow start stop step :
  step <> 0 -> ~ run_fits start stop step ->
  xfrange start stop step = Raised OverflowError.
Proof.
  intros Hstep Hfit.
  destruct (xfrange_args_fit_dec start stop step) as [Ha|Ha];
    [|by apply xfrange_args_overflow].
  rewrite xfrange_xrange. unfold xrange.
  apply xfrange_args_fit_spec in Ha as Hb. rewrite Hb. simpl negb. cbv iota.
  rewrite get_len_of_range_run by done.
  rewrite xfrange_step_nonzero by done.
  destruct (Z.ltb_spec LONG_MAX (Z.abs (stop - start) / Z.abs step + 1));
    [done|].
  destruct Hfit. by split.
Qed.

Lemma run_fits_opp start stop step :
  run_fits start stop (- step) <-> run_fits start stop step.
Proof. unfold run_fits, xfrange_args_fit. by rewrite Z.abs_opp. Qed.

(** Between two strides that fit every stride fits. *)
Lemma run_fits_between start stop chunk s :
  run_fits start stop chunk -> run_fits start stop 1 -> 0 < s <= chunk ->
  run_fits start stop s.
Proof.
  unfold run_fits, xfrange_args_fit, in_long.
  intros [(Hs & Ha) Hc] [(_ & Ha1) Hc1] Hrange. change (Z.abs 1) with 1 in *.
  rewrite Z.div_1_r in Hc1.
  assert (Hdiv : Z.abs (stop - start) / Z.abs s <= Z.abs (stop - start)).
  { rewrite <- (Z.div_1_r (Z.abs (stop - start))) at 2.
    apply Z.div_le_compat_l; lia. }
  split; [split; [done|]|lia].
  destruct (start <=? stop); unfold LONG_MIN, LONG_MAX in *; lia.
Qed.

Lemma xfrange_sign start stop step :
  xfrange start stop (- step) = xfrange start stop step.
Proof. unfold xfrange. by rewrite Z.abs_opp. Qed.

Lemma x_run_NoDup start stop step : step <> 0 -> NoDup (x_run start stop step).
Proof.
  intros Hstep. unfold x_run. apply NoDup_fmap_2_strong; [|apply NoDup_seq].
  intros i j _ _. destruct (start <=? stop); nia.
Qed.

(** Every frame of a run lies between [start] and [stop]. *)
Lemma x_run_bounds start stop step f :
  step <> 0 -> f ∈ x_run start stop step ->
  Z.min start stop <= f <= Z.max start stop.
Proof.
  intros Hstep. unfold x_run. rewrite list_elem_of_fmap.
  intros (i & -> & Hi). apply elem_of_seq in Hi.
  assert (Hq : Z.of_nat i <= Z.abs (stop - start) / Z.abs step).
  { assert (0 <= Z.abs (stop - start) / Z.abs step)
      by (apply Z.div_pos; lia). lia. }
  assert (Hm : Z.abs step * (Z.abs (stop - start) / Z.abs step)
               <= Z.abs (stop - start))
    by (apply Z.mul_div_le; lia).
  destruct (Z.leb_spec start stop); nia.
Qed.

(** A run of step 1 starts at [start] and ends at [stop]. *)
Lemma x_run_ends start stop :
  head (x_run start stop 1) = Some start /\
  last (x_run start stop 1) = Some stop.
Proof.
  unfold x_run. change (Z.abs 1) with 1. rewrite Z.div_1_r.
  assert (Hn : Z.to_nat (Z.abs (stop - start) + 1)
               = S (Z.to_nat (Z.abs (stop - start)))) by lia.
  rewrite Hn. split.
  - simpl. f_equal. destruct (start <=? stop); lia.
  - rewrite seq_S, map_app. simpl. rewrite last_snoc. f_equal.
    destruct (Z.leb_spec start stop); lia.
Qed.

(** ** The constructor *)

Lemma unique_spec seen l out seen' :
  unique seen l = (out, seen') ->
  seen' = seen ∪ list_to_set l /\
  seen' = seen ∪ list_to_set out /\
  NoDup out /\
  (forall x, x ∈ out -> x ∉ seen).
Proof.
  revert seen out seen'. induction l as [|i l IH]; intros seen out seen'; simpl.
  - intros [= <- <-]. repeat split; [set_solver.. | constructor | set_solver].
  - case_bool_decide as Hin.
    + intros Hu. destruct (IH _ _ _ Hu) as (H1 & H2 & H3 & H4).
      repeat split; [set_solver | done | done | done].
    + destruct (unique ({[i]} ∪ seen) l) as [out1 seen1] eqn:Hu.
      intros [= <- <-]. destruct (IH _ _ _ Hu) as (H1 & H2 & H3 & H4).
      repeat split; [set_solver | set_solver | | ].
      * constructor; [|done]. intros Hi. apply H4 in Hi. set_solver.
      * intros x [->|Hx]%elem_of_cons; [done|]. apply H4 in Hx. set_solver.
Qed.

Lemma unique_NoDup seen l :
  NoDup l -> (forall x, x ∈ l -> x ∉ seen) ->
  unique seen l = (l, seen ∪ list_to_set l).
Proof.
  revert seen. induction l as [|i l IH]; intros seen Hnd Hnew; simpl.
  - f_equal. set_solver.
  - apply NoDup_cons in Hnd as [Hi Hnd].
    rewrite bool_decide_false by (apply Hnew; set_solver).
    rewrite IH; [f_equal; set_solver | done |].
    intros x Hx. specialize (Hnew x). set_solver.
Qed.

Lemma NoDup_size_list_to_set (l : list Z) :
  NoDup l -> length l = size (list_to_set l : gset Z).
Proof. intros Hnd. by rewrite size_list_to_set. Qed.

Lemma state_valid_FrameSet frange items order :
  state_valid (items, order) -> FrameSet_valid (mkFrameSet frange items order).
Proof.
  intros [Hi Hnd]. simpl in *. subst items. repeat split; simpl; try done.
  by apply NoDup_size_list_to_set.
Qed.

Lemma extend_new_valid st frames :
  state_valid st -> NoDup frames -> state_valid (extend_new st frames).
Proof.
  destruct st as [items order]. intros [Hi Hnd] Hf. simpl in *. subst items.
  split; simpl.
  - rewrite list_to_set_app_L. done.
  - apply NoDup_app. repeat split; [done | | by apply NoDup_filter].
    intros x Hx Hx'. apply list_elem_of_filter in Hx' as [Hnew _].
    apply Hnew. set_solver.
Qed.

Lemma foldl_extend_new_valid st batches :
  state_valid st -> Forall NoDup batches ->
  state_valid (foldl extend_new st batches).
Proof.
  revert st. induction batches as [|b batches IH]; intros st Hst Hb; simpl.
  - done.
  - apply Forall_cons in Hb as [Hb Hbs]. apply IH; [|done].
    by apply extend_new_valid.
Qed.

Lemma x_run_opp start stop step : x_run start stop (- step) = x_run start stop step.
Proof. unfold x_run. by rewrite Z.abs_opp. Qed.

Lemma staggers_nonzero chunk : Forall (fun s => s <> 0) (staggers chunk).
Proof.
  unfold staggers. apply Forall_forall. intros s.
  rewrite list_elem_of_fmap. intros (i & -> & Hi%elem_of_seq). lia.
Qed.

Lemma in_long_small n : -1 <= n <= 1 -> fits_long n = true.
Proof. intros Hn. apply fits_long_spec. unfold in_long, LONG_MIN, LONG_MAX. lia. Qed.

Lemma xrange_staggers chunk :
  in_long chunk -> xrange chunk 0 (-1) = Returned (staggers chunk).
Proof.
  intros Hc. unfold xrange.
  rewrite (proj2 (fits_long_spec chunk) Hc), !in_long_small by lia.
  simpl negb. cbv iota. change (-1 =? 0) with false. cbv iota.
  assert (Hlen : (LONG_MAX <? get_len_of_range chunk 0 (-1)) = false).
  { unfold get_len_of_range. change (0 <? -1) with false.
    change (-1 <? 0) with true. cbn [andb].
    destruct (Z.ltb_spec 0 chunk); [|unfold LONG_MAX; lia].
    change (0 - -1) with 1. rewrite Z.div_1_r. unfold in_long in Hc. lia. }
  rewrite Hlen. f_equal.
  unfold xrange_list, xrange_len, staggers. simpl.
  destruct (Z.ltb_spec 0 chunk) as [Hpos|Hneg].
  - replace (Z.to_nat ((chunk - 0 - 1) / - -1 + 1)) with (Z.to_nat chunk).
    + apply map_ext. intros i. lia.
    + change (- -1) with 1. rewrite Z.div_1_r. lia.
  - replace (Z.to_nat chunk) with 0%nat by lia. done.
Qed.

Lemma xrange_staggers_overflow chunk :
  ~ in_long chunk -> xrange chunk 0 (-1) = Raised OverflowError.
Proof.
  intros Hc. unfold xrange. rewrite <- fits_long_spec in Hc.
  by apply not_true_is_false in Hc as ->.
Qed.

Lemma stagger_loop_spec start end_ strides st :
  Forall (fun s => s <> 0) strides ->
  Forall (run_fits start end_) strides ->
  stagger_loop start end_ strides st =
  Returned (foldl extend_new st (map (x_run start end_) strides)).
Proof.
  revert st. induction strides as [|s strides IH]; intros st Hs Hfit; simpl.
  - done.
  - apply Forall_cons in Hs as [Hs Hss]. apply Forall_cons in Hfit as [Hf Hfs].
    rewrite xfrange_run by done. simpl. by apply IH.
Qed.

Lemma stagger_loop_overflow start end_ strides st :
  Forall (fun s => s <> 0) strides ->
  Exists (fun s => ~ run_fits start end_ s) strides ->
  stagger_loop start end_ strides st = Raised OverflowError.
Proof.
  revert st. induction strides as [|s strides IH]; intros st Hs Hbad.
  - by apply Exists_nil in Hbad.
  - apply Forall_cons in Hs as [Hs Hss]. simpl.
    destruct (run_fits_dec start end_ s) as [Hf|Hf].
    + rewrite xfrange_run by done. simpl. apply IH; [done|].
      by apply Exists_cons in Hbad as [?|?].
    + by rewrite xfrange_overflow.
Qed.

Lemma staggers_one chunk : 0 < chunk -> 1 ∈ staggers chunk.
Proof.
  intros Hc. unfold staggers. apply list_elem_of_fmap.
  exists (Z.to_nat (chunk - 1)). split; [lia|]. apply elem_of_seq. lia.
Qed.

Lemma staggers_chunk chunk : 0 < chunk -> chunk ∈ staggers chunk.
Proof.
  intros Hc. unfold staggers. apply list_elem_of_fmap.
  exists 0%nat. split; [lia|]. apply elem_of_seq. lia.
Qed.

Lemma staggers_range chunk s : s ∈ staggers chunk -> 0 < s <= chunk.
Proof.
  unfold staggers. rewrite list_elem_of_fmap.
  intros (i & -> & Hi%elem_of_seq). lia.
Qed.

(** The strides of a staggered clause fit when the widest and the
    narrowest do. *)
Lemma staggers_fit start end_ chunk :
  0 < chunk ->
  Forall (run_fits start end_) (staggers chunk) <->
  run_fits start end_ chunk /\ run_fits start end_ 1.
Proof.
  intros Hc. rewrite Forall_forall. split.
  - intros Hall. split; apply Hall; [by apply staggers_chunk|by apply staggers_one].
  - intros [Hw Hn] s Hs%staggers_range. by apply (run_fits_between _ _ chunk).
Qed.

Lemma clause_batches_NoDup start end_ modifier chunk :
  chunk <> 0 -> Forall NoDup (clause_batches start end_ modifier chunk).
Proof.
  intros Hc. unfold clause_batches. repeat case_bool_decide.
  - repeat constructor. by apply x_run_NoDup.
  - apply Forall_fmap. eapply Forall_impl; [apply staggers_nonzero|].
    intros s Hs. by apply x_run_NoDup.
  - repeat constructor. apply NoDup_filter. by apply x_run_NoDup.
  - repeat constructor. by apply x_run_NoDup.
Qed.

Lemma clause_fits_dec start end_ modifier chunk :
  clause_fits start end_ modifier chunk \/
  ~ clause_fits start end_ modifier chunk.
Proof.
  unfold clause_fits.
  destruct (run_fits_dec start end_ chunk), (run_fits_dec start end_ 1),
    (in_long_dec chunk); repeat case_bool_decide; tauto.
Qed.

(** What the range-part parser does with a clause. *)
Lemma _parse_frange_part_cases part :
  (exists start end_ modifier chunk,
      _parse_frange_part part = Returned (start, end_, modifier, chunk) /\
      0 < chunk) \/
  (_parse_frange_part part = Raised (ParseException (msg_no_match part)) /\
   _RANGE_RE_match part = None) \/
  (_parse_frange_part part = Raised (ParseException (msg_zero_chunk part)) /\
   exists g c, _RANGE_RE_match part = Some g /\ g_chunk g = Some c /\ int c = 0).
Proof.
  unfold _parse_frange_part. destruct (_RANGE_RE_match part) as [g|].
  2:{ right. left. done. }
  destruct (g_chunk g) as [c|] eqn:Hc.
  - destruct (Z.eqb_spec (Z.abs (int c)) 0) as [H0|H0].
    + right. right. split; [done|]. exists g, c. repeat split; [done|lia].
    + left. eexists _, _, _, _. split; [done|lia].
  - left. eexists _, _, _, _. split; [done|lia].
Qed.

Lemma _parse_frange_part_chunk part start end_ modifier chunk :
  _parse_frange_part part = Returned (start, end_, modifier, chunk) ->
  0 < chunk.
Proof.
  intros Hp. destruct (_parse_frange_part_cases part)
    as [(a & b & m & c & Hp' & Hc) | [[Hp' _] | [Hp' _]]]; congruence.
Qed.

Lemma _parse_frange_part_nonempty part r :
  _parse_frange_part part = Returned r -> part <> [].
Proof. by intros Hp ->. Qed.

(** A clause that is read and whose runs fit adds its batches. *)
Lemma init_part_spec st part start end_ modifier chunk :
  _parse_frange_part part = Returned (start, end_, modifier, chunk) ->
  clause_fits start end_ modifier chunk ->
  init_part st part =
  Returned (foldl extend_new st (clause_batches start end_ modifier chunk)).
Proof.
  intros Hparse Hfit.
  pose proof (_parse_frange_part_chunk _ _ _ _ _ Hparse) as Hc.
  pose proof (_parse_frange_part_nonempty _ _ Hparse) as Hne.
  unfold init_part, clause_batches. unfold clause_fits in Hfit.
  destruct part as [|c0 part]; [done|]. rewrite Hparse. cbn [bind].
  repeat case_bool_decide.
  - rewrite xfrange_run by (done || lia). done.
  - destruct Hfit as (Hl & Hw & Hn). rewrite xrange_staggers by done.
    cbn [bind]. apply stagger_loop_spec; [apply staggers_nonzero|].
    by apply staggers_fit.
  - destruct Hfit as [Hw Hn]. rewrite !xfrange_run by (done || lia). done.
  - destruct (start <? end_).
    + rewrite xfrange_run by (done || lia). done.
    + rewrite xfrange_run by (try apply run_fits_opp; done || lia).
      replace (x_run start end_ (-1)) with (x_run start end_ 1)
        by exact (eq_sym (x_run_opp start end_ 1)).
      done.
Qed.

(** A clause that is read and one of whose runs does not fit raises
    [OverflowError]. *)
Lemma init_part_overflow st part start end_ modifier chunk :
  _parse_frange_part part = Returned (start, end_, modifier, chunk) ->
  ~ clause_fits start end_ modifier chunk ->
  init_part st part = Raised OverflowError.
Proof.
  intros Hparse Hfit.
  pose proof (_parse_frange_part_chunk _ _ _ _ _ Hparse) as Hc.
  pose proof (_parse_frange_part_nonempty _ _ Hparse) as Hne.
  unfold init_part. unfold clause_fits in Hfit.
  destruct part as [|c0 part]; [done|]. rewrite Hparse. cbn [bind].
  repeat case_bool_decide.
  - rewrite xfrange_overflow by (done || lia). done.
  - destruct (in_long_dec chunk) as [Hl|Hl];
      [|by rewrite xrange_staggers_overflow].
    rewrite xrange_staggers by done. cbn [bind].
    apply stagger_loop_overflow; [apply staggers_nonzero|].
    apply Exists_exists.
    destruct (run_fits_dec start end_ chunk) as [Hw|Hw].
    + exists 1. split; [by apply staggers_one|tauto].
    + exists chunk. split; [by apply staggers_chunk|done].
  - destruct (run_fits_dec start end_ chunk) as [Hw|Hw].
    + rewrite (xfrange_run start end_ chunk) by (done || lia). cbn [bind].
      rewrite xfrange_overflow by (done || tauto). done.
    + rewrite xfrange_overflow by (done || lia). done.
  - destruct (start <? end_).
    + rewrite xfrange_overflow by (done || lia). done.
    + rewrite xfrange_overflow by (rewrite ?run_fits_opp; done || lia). done.
Qed.

Lemma taken_not_rejected part : taken part -> ~ rejected part.
Proof.
  intros [-> | (a & b & m & c & Hp & _)] [Hne Hbad]; [done|].
  unfold _parse_frange_part in Hp.
  destruct Hbad as [Hb | (g & cz & Hb & Hg & Hz)]; rewrite Hb in Hp; [done|].
  rewrite Hg, Hz in Hp. done.
Qed.

Lemma overflowing_not_taken part : overflowing part -> ~ taken part.
Proof.
  intros (a & b & m & c & Hp & Hfit) [-> | (a' & b' & m' & c' & Hp' & Hfit')].
  - done.
  - rewrite Hp in Hp'. injection Hp' as <- <- <- <-. done.
Qed.

Lemma overflowing_not_rejected part : overflowing part -> ~ rejected part.
Proof.
  intros (a & b & m & c & Hp & _) [Hne Hbad].
  unfold _parse_frange_part in Hp.
  destruct Hbad as [Hb | (g & cz & Hb & Hg & Hz)]; rewrite Hb in Hp; [done|].
  rewrite Hg, Hz in Hp. done.
Qed.

(** A clause is taken, rejected or overflowing. *)
Lemma clause_cases part : taken part \/ rejected part \/ overflowing part.
Proof.
  destruct part as [|c0 part]; [left; by left|].
  destruct (_parse_frange_part_cases (c0 :: part))
    as [(a & b & m & c & Hp & Hc) | [[Hp Hm] | [Hp Hm]]].
  - destruct (clause_fits_dec a b m c) as [Hfit|Hfit].
    + left. right. by exists a, b, m, c.
    + right. right. by exists a, b, m, c.
  - right. left. split; [done|by left].
  - right. left. split; [done|by right].
Qed.

Lemma init_part_rejected st part :
  rejected part ->
  exists msg, init_part st part = Raised (ParseException msg) /\
              _parse_frange_part part = Raised (ParseException msg) /\
              (msg = msg_no_match part \/ msg = msg_zero_chunk part).
Proof.
  intros [Hne Hbad]. unfold init_part. destruct part as [|c0 part]; [done|].
  destruct (_parse_frange_part_cases (c0 :: part))
    as [(a & b & m & c & Hp & Hc) | [[Hp Hm] | [Hp Hm]]].
  - exfalso. unfold _parse_frange_part in Hp.
    destruct Hbad as [Hb | (g & cz & Hb & Hg & Hz)]; rewrite Hb in Hp; [done|].
    rewrite Hg, Hz in Hp. done.
  - rewrite Hp. eauto.
  - rewrite Hp. eauto.
Qed.

Lemma init_part_taken st part :
  taken part -> state_valid st ->
  exists st', init_part st part = Returned st' /\ state_valid st'.
Proof.
  intros [-> | (a & b & m & c & Hp & Hfit)] Hst; [by exists st|].
  pose proof (_parse_frange_part_chunk _ _ _ _ _ Hp) as Hc.
  eexists. split; [by eapply init_part_spec|].
  apply foldl_extend_new_valid; [done|]. apply clause_batches_NoDup. lia.
Qed.

Lemma init_part_overflowing st part :
  overflowing part -> init_part st part = Raised OverflowError.
Proof.
  intros (a & b & m & c & Hp & Hfit). by eapply init_part_overflow.
Qed.

Lemma rejected_dec part : rejected part \/ ~ rejected part.
Proof.
  destruct (clause_cases part) as [Ht | [Hr | Ho]]; [right|by left|right].
  - by apply taken_not_rejected.
  - by apply overflowing_not_rejected.
Qed.

(** The loop over the clauses stops at the first clause that is not
    taken, with [ParseException] when the parser rejects it and with
    [OverflowError] when one of its runs does not fit, and otherwise keeps
    the invariant. *)
Lemma init_parts_cases st parts :
  state_valid st ->
  (Forall taken parts /\
   exists st', init_parts st parts = Returned st' /\ state_valid st') \/
  (exists good bad rest,
      parts = good ++ bad :: rest /\ Forall taken good /\
      ((rejected bad /\
        exists msg,
          init_parts st parts = Raised (ParseException msg) /\
          _parse_frange_part bad = Raised (ParseException msg) /\
          (msg = msg_no_match bad \/ msg = msg_zero_chunk bad)) \/
       (overflowing bad /\ init_parts st parts = Raised OverflowError))).
Proof.
  revert st. induction parts as [|p parts IH]; intros st Hst.
  - left. split; [done|]. by exists st.
  - destruct (clause_cases p) as [Ht | [Hr | Ho]].
    + destruct (init_part_taken st p Ht Hst) as (st1 & Hi & Hst1).
      destruct (IH st1 Hst1) as [[Hall (st2 & Hr & Hst2)] |
        (good & bad & rest & -> & Hg & Hbad)].
      * left. split; [by constructor|]. exists st2. simpl. by rewrite Hi.
      * right. exists (p :: good), bad, rest. simpl. rewrite Hi. simpl.
        split; [done|]. split; [by constructor|]. done.
    + right. destruct (init_part_rejected st p Hr) as (msg & Hi & Hp & Hm).
      exists [], p, parts. simpl. rewrite Hi. simpl.
      split; [done|]. split; [constructor|]. left. split; [done|]. eauto.
    + right. exists [], p, parts. simpl.
      rewrite (init_part_overflowing st p Ho). simpl.
      split; [done|]. split; [constructor|]. by right.
Qed.

Lemma FrameSet_init_cases s :
  (Forall taken (clauses s) /\
   exists fs, FrameSet_init s = Returned fs /\ FrameSet_valid fs /\
              _frange fs = translate_delete _PADDING_keys s) \/
  (exists good bad rest,
      clauses s = good ++ bad :: rest /\ Forall taken good /\
      ((rejected bad /\
        exists msg,
          FrameSet_init s = Raised (ParseException msg) /\
          _parse_frange_part bad = Raised (ParseException msg) /\
          (msg = msg_no_match bad \/ msg = msg_zero_chunk bad)) \/
       (overflowing bad /\ FrameSet_init s = Raised OverflowError))).
Proof.
  unfold FrameSet_init, clauses.
  destruct (translate_delete _PADDING_keys s) as [|c fr] eqn:Hfr.
  - left. split.
    + simpl. constructor; [by left|done].
    + eexists. split; [done|]. split; [|done].
      apply state_valid_FrameSet. split; [set_solver|constructor].
  - assert (Hempty : state_valid (∅, [])) by (split; [set_solver|constructor]).
    destruct (init_parts_cases (∅, []) (split "," (c :: fr)) Hempty)
      as [[Hall ([items order] & Hr & Hst)] |
          (good & bad & rest & Hsplit & Hg &
           [(Hb & msg & Hr & Hp & Hm) | (Hb & Hr)])].
    + left. split; [done|]. rewrite Hr. simpl. eexists. split; [done|].
      split; [|done]. by apply state_valid_FrameSet.
    + right. exists good, bad, rest. rewrite Hr. simpl.
      split; [done|]. split; [done|]. left. split; [done|]. eauto.
    + right. exists good, bad, rest. rewrite Hr. simpl.
      split; [done|]. split; [done|]. by right.
Qed.

Lemma FrameSet_init_valid s fs :
  FrameSet_init s = Returned fs -> FrameSet_valid fs.
Proof.
  intros Hr. destruct (FrameSet_init_cases s)
    as [[_ (fs' & Hr' & Hv & _)] |
        (good & bad & rest & _ & _ & [(_ & msg & Hr' & _) | (_ & Hr')])];
    congruence.
Qed.

(** The constructor returns exactly when it takes every clause. *)
Lemma FrameSet_init_returns_iff s :
  (exists fs, FrameSet_init s = Returned fs) <-> Forall taken (clauses s).
Proof.
  destruct (FrameSet_init_cases s) as [[Hall (fs & Hfs & _)] |
    (good & bad & rest & Hcl & Hg & Hbad)].
  - split; [done|]. intros _. by exists fs.
  - split.
    + intros [fs Hfs].
      destruct Hbad as [(_ & msg & Hr & _) | (_ & Hr)]; congruence.
    + rewrite Hcl. intros Hall. apply Forall_app in Hall as [_ Hall].
      apply Forall_cons in Hall as [Ht _]. exfalso.
      destruct Hbad as [(Hb & _) | (Hb & _)].
      * by apply (taken_not_rejected bad).
      * by apply (overflowing_not_taken bad).
Qed.

Lemma FrameSet_init_returned s fs :
  FrameSet_init s = Returned fs ->
  Forall taken (clauses s) /\ FrameSet_valid fs /\
  _frange fs = translate_delete _PADDING_keys s.
Proof.
  intros Hr. destruct (FrameSet_init_cases s)
    as [[Hall (fs' & Hr' & Hv & Hf)] |
        (good & bad & rest & _ & _ & [(_ & msg & Hr' & _) | (_ & Hr')])];
    [|congruence..].
  rewrite Hr in Hr'. injection Hr' as <-. done.
Qed.

(** The constructor raises nothing but [ParseException] and
    [OverflowError], and never gives [NotImplemented]. *)
Lemma FrameSet_init_raised s e :
  FrameSet_init s = Raised e ->
  (exists msg, e = ParseException msg) \/ e = OverflowError.
Proof.
  intros Hr. destruct (FrameSet_init_cases s)
    as [[Hall (fs' & Hr' & Hv & Hf)] |
        (good & bad & rest & _ & _ & [(_ & msg & Hr' & _) | (_ & Hr')])];
    [congruence|left|right]; rewrite Hr in Hr'; injection Hr' as ->; eauto.
Qed.

Lemma FrameSet_init_implemented s : FrameSet_init s <> NotImplemented.
Proof.
  intros Hr. destruct (FrameSet_init_cases s)
    as [[Hall (fs' & Hr' & Hv & Hf)] |
        (good & bad & rest & _ & _ & [(_ & msg & Hr' & _) | (_ & Hr')])];
    congruence.
Qed.

(** ** Padding characters *)

Lemma is_padding_char_keys c : is_padding_char c <-> c ∈ _PADDING_keys.
Proof.
  unfold is_padding_char, _PADDING_keys. simpl. set_solver.
Qed.

Lemma translate_delete_idem d s :
  translate_delete d (translate_delete d s) = translate_delete d s.
Proof.
  unfold translate_delete. induction s as [|c s IH]; [done|].
  rewrite filter_cons. case_decide as Hc; [|done].
  rewrite filter_cons. rewrite decide_True by done. by rewrite IH.
Qed.

Lemma translate_delete_padding p :
  Forall is_padding_char p -> translate_delete _PADDING_keys p = [].
Proof.
  unfold translate_delete. induction 1 as [|c p Hc _ IH]; [done|].
  rewrite filter_cons. rewrite decide_False; [done|].
  intros Hn. apply Hn. by apply is_padding_char_keys.
Qed.

Lemma translate_delete_insert s1 p s2 :
  Forall is_padding_char p ->
  translate_delete _PADDING_keys (s1 ++ p ++ s2) =
  translate_delete _PADDING_keys (s1 ++ s2).
Proof.
  intros Hp. unfold translate_delete. rewrite !filter_app.
  fold (translate_delete _PADDING_keys p).
  by rewrite translate_delete_padding.
Qed.

Lemma FrameSet_init_stripped s s' :
  translate_delete _PADDING_keys s = translate_delete _PADDING_keys s' ->
  FrameSet_init s = FrameSet_init s'.
Proof. unfold FrameSet_init. by intros ->. Qed.

Lemma isFrameRange_stripped s s' :
  translate_delete _PADDING_keys s = translate_delete _PADDING_keys s' ->
  isFrameRange s = isFrameRange s'.
Proof. unfold isFrameRange. by intros ->. Qed.

(** ** Building from an iterable *)

Lemma from_iterable_valid frames sort : FrameSet_valid (from_iterable frames sort).
Proof.
  unfold from_iterable.
  destruct (unique ∅ (if sort then sorted frames else frames))
    as [order items] eqn:Hu.
  destruct (unique_spec _ _ _ _ Hu) as (_ & Hitems & Hnd & _).
  apply state_valid_FrameSet. split; simpl; [set_solver|done].
Qed.

Lemma from_iterable_items frames sort :
  _items (from_iterable frames sort) = list_to_set frames.
Proof.
  unfold from_iterable.
  destruct (unique ∅ (if sort then sorted frames else frames))
    as [order items] eqn:Hu.
  destruct (unique_spec _ _ _ _ Hu) as (Hitems & _). simpl. rewrite Hitems.
  destruct sort; [|set_solver].
  unfold sorted. apply set_eq. intros x.
  rewrite elem_of_union, !elem_of_list_to_set.
  rewrite (merge_sort_Permutation Z.le frames). set_solver.
Qed.

Lemma StronglySorted_le_lt (l : list Z) :
  StronglySorted Z.le l -> NoDup l -> StronglySorted Z.lt l.
Proof.
  induction 1 as [|x l Hs IH Hall]; intros Hnd; [constructor|].
  apply NoDup_cons in Hnd as [Hx Hnd]. constructor; [by apply IH|].
  apply Forall_forall. intros y Hy.
  rewrite Forall_forall in Hall. specialize (Hall y Hy).
  assert (x <> y) by (intros ->; done). lia.
Qed.

Lemma sorted_elements_ascending (s : gset Z) : ascending (sorted (elements s)).
Proof.
  unfold ascending, sorted. apply StronglySorted_le_lt.
  - apply StronglySorted_merge_sort; apply _.
  - rewrite merge_sort_Permutation. apply NoDup_elements.
Qed.

Lemma ascending_NoDup l : ascending l -> NoDup l.
Proof.
  induction 1 as [|x l Hs IH Hall]; constructor; [|done].
  intros Hx. rewrite Forall_forall in Hall. specialize (Hall x Hx). lia.
Qed.

(** A frozenset turned into a frame set: the same members, in ascending
    order. *)
Lemma from_frozenset_spec (s : gset Z) :
  _items (from_frozenset s) = s /\
  _order (from_frozenset s) = sorted (elements s) /\
  ascending (_order (from_frozenset s)).
Proof.
  assert (Hasc := sorted_elements_ascending s).
  unfold from_frozenset, from_iterable.
  rewrite unique_NoDup; [|by apply ascending_NoDup|set_solver]. simpl.
  split; [|done]. unfold sorted. apply set_eq. intros x.
  rewrite elem_of_union, elem_of_list_to_set.
  rewrite (merge_sort_Permutation Z.le (elements s)), elem_of_elements.
  set_solver.
Qed.

Lemma from_frozenset_valid s : FrameSet_valid (from_frozenset s).
Proof. apply from_iterable_valid. Qed.

Lemma map_set_cases others :
  (Forall (fun o => o <> OOther) others /\
   exists sets, map_set others = Returned sets /\
                Forall2 (fun o s => operand_set o = Some s) others sets) \/
  (OOther ∈ others /\ map_set others = Raised TypeError).
Proof.
  induction others as [|o others IH]; simpl.
  - left. split; [done|]. exists []. split; [done|constructor].
  - destruct o as [fs|frames|]; simpl.
    + destruct IH as [[Hall (sets & -> & Hs)] | [Hin ->]]; simpl.
      * left. split; [by constructor|]. eexists. split; [done|].
        by constructor.
      * right. split; [set_solver|done].
    + destruct IH as [[Hall (sets & -> & Hs)] | [Hin ->]]; simpl.
      * left. split; [by constructor|]. eexists. split; [done|].
        by constructor.
      * right. split; [set_solver|done].
    + right. split; [set_solver|done].
Qed.

(** ** Set operations and comparisons *)

Lemma Forall2_operand_set_singleton fs sets :
  Forall2 (fun o s => operand_set o = Some s) [OFrameSet fs] sets ->
  sets = [list_to_set (_order fs)].
Proof.
  intros Hs. inversion Hs as [|o s os ss Ho Hrest]; subst.
  inversion Hrest; subst. simpl in Ho. congruence.
Qed.

Lemma union_pair A B :
  union A [OFrameSet B] =
  Returned (from_frozenset (_items A ∪ list_to_set (_order B))).
Proof. reflexivity. Qed.

Lemma intersection_pair A B :
  intersection A [OFrameSet B] =
  Returned (from_frozenset (_items A ∩ list_to_set (_order B))).
Proof. reflexivity. Qed.

Lemma difference_pair A B :
  difference A [OFrameSet B] =
  Returned (from_frozenset (_items A ∖ list_to_set (_order B))).
Proof. reflexivity. Qed.

Lemma variadic_result (op : gset Z -> gset Z -> gset Z) self others R :
  bind (map_set others) (fun sets =>
    Returned (from_frozenset (foldl op (_items self) sets))) = Returned R ->
  exists s, R = from_frozenset s.
Proof.
  destruct (map_set others) as [sets| |e]; simpl; [|done..].
  intros [= <-]. eauto.
Qed.

Lemma cast_result (f : FrameSet -> gset Z) other R :
  bind (_cast_to_frameset other) (fun other =>
    Returned (from_frozenset (f other))) = Returned R ->
  exists s, R = from_frozenset s.
Proof.
  destruct (_cast_to_frameset other) as [fs| |e]; simpl; [|done..].
  intros [= <-]. eauto.
Qed.

Lemma eq_same_content `{PyHash} A B :
  _items A = _items B -> _order A = _order B ->
  FrameSet___eq__ A (OFrameSet B) = Returned true.
Proof.
  intros Hi Ho. unfold FrameSet___eq__. simpl. rewrite Hi, Ho.
  by rewrite Z.eqb_refl.
Qed.

Lemma Returned_order s fs l :
  FrameSet_init s = Returned fs -> order_of (FrameSet_init s) = Some l ->
  _order fs = l.
Proof. intros ->. simpl. congruence. Qed.

(** ** Staggered clauses *)

Lemma unique_app seen l1 l2 :
  unique seen (l1 ++ l2) =
  let '(o1, s1) := unique seen l1 in
  let '(o2, s2) := unique s1 l2 in
  (o1 ++ o2, s2).
Proof.
  revert seen. induction l1 as [|i l1 IH]; intros seen; simpl.
  - by destruct (unique seen l2).
  - case_bool_decide; [apply IH|]. rewrite IH.
    destruct (unique ({[i]} ∪ seen) l1) as [o1 s1].
    by destruct (unique s1 l2).
Qed.

Lemma filter_not_elem_ext (s1 s2 : gset Z) (l : list Z) :
  (forall x, x ∈ l -> (x ∉ s1 <-> x ∉ s2)) ->
  filter (fun f => f ∉ s1) l = filter (fun f => f ∉ s2) l.
Proof.
  induction l as [|x l IH]; intros Hext; [done|].
  rewrite !filter_cons. rewrite IH by (intros y Hy; apply Hext; set_solver).
  destruct (decide (x ∉ s1)) as [H1|H1], (decide (x ∉ s2)) as [H2|H2];
    try done; exfalso; specialize (Hext x); set_solver.
Qed.

Lemma unique_filter seen l :
  NoDup l ->
  unique seen l = (filter (fun f => f ∉ seen) l, seen ∪ list_to_set l).
Proof.
  revert seen. induction l as [|i l IH]; intros seen Hnd; simpl.
  - f_equal. set_solver.
  - apply NoDup_cons in Hnd as [Hi Hnd]. rewrite filter_cons.
    case_bool_decide as Hin.
    + rewrite decide_False by (intros Hn; by apply Hn).
      rewrite IH by done. f_equal. set_solver.
    + rewrite decide_True by done. rewrite IH by done.
      f_equal; [|set_solver]. f_equal.
      apply filter_not_elem_ext. intros x Hx. set_solver.
Qed.

(** Batches handed to the constructor one after the other add up to the
    frames of their concatenation in order of first occurrence. *)
Lemma foldl_extend_new_unique items order batches :
  Forall NoDup batches ->
  foldl extend_new (items, order) batches =
  (items ∪ list_to_set (concat batches),
   order ++ (unique items (concat batches)).1).
Proof.
  revert items order. induction batches as [|b batches IH];
    intros items order Hnd; simpl.
  - rewrite app_nil_r. f_equal. set_solver.
  - apply Forall_cons in Hnd as [Hb Hbs]. rewrite IH by done.
    rewrite unique_app, (unique_filter items b) by done.
    assert (Hset : items ∪ list_to_set (filter (fun f => f ∉ items) b)
                   = items ∪ list_to_set b).
    { apply set_eq. intros x.
      rewrite !elem_of_union, !elem_of_list_to_set, list_elem_of_filter.
      destruct (decide (x ∈ items)); set_solver. }
    rewrite Hset.
    destruct (unique (items ∪ list_to_set b) (concat batches)) as [o2 s2].
    simpl. rewrite <- app_assoc. f_equal. set_solver.
Qed.

(** ** Instances in a heap *)

Lemma alter_at {A} (f : A -> A) (l : list A) i x :
  l !! i = Some x -> alter f i l = <[i := f x]> l.
Proof.
  revert i. induction l as [|y l IH]; intros [|i] Hx; simplify_eq/=; [done|].
  f_equal. by apply IH.
Qed.

Lemma insert_new {A} (l : list A) (x y : A) :
  <[length l := y]> (l ++ [x]) = l ++ [y].
Proof. induction l as [|z l IH]; simpl; [done|]. by rewrite IH. Qed.

Lemma lookup_new {A} (l : list A) (x : A) : (l ++ [x]) !! length l = Some x.
Proof. by apply list_lookup_middle. Qed.

Lemma set_frange_at self v h i :
  h !! self = Some i ->
  Heap.set_frange self v h =
  (Returned tt, <[self := mkInstance (Some v) (slot_items i) (slot_order i)]> h).
Proof. intros Hi. unfold Heap.set_frange. by rewrite (alter_at _ _ _ _ Hi). Qed.

Lemma set_items_at self v h i :
  h !! self = Some i ->
  Heap.set_items self v h =
  (Returned tt, <[self := mkInstance (slot_frange i) (Some v) (slot_order i)]> h).
Proof. intros Hi. unfold Heap.set_items. by rewrite (alter_at _ _ _ _ Hi). Qed.

Lemma set_order_at self v h i :
  h !! self = Some i ->
  Heap.set_order self v h =
  (Returned tt, <[self := mkInstance (slot_frange i) (slot_items i) (Some v)]> h).
Proof. intros Hi. unfold Heap.set_order. by rewrite (alter_at _ _ _ _ Hi). Qed.

Lemma getattr_at {A} (slot : instance -> option A) self h i v :
  h !! self = Some i -> slot i = Some v ->
  Heap.getattr slot self h = (Returned v, h).
Proof. intros Hi Hv. unfold Heap.getattr. by rewrite Hi, Hv. Qed.

Lemma get_frange_at self h i v :
  h !! self = Some i -> slot_frange i = Some v ->
  Heap.get_frange self h = (Returned v, h).
Proof. apply getattr_at. Qed.

Lemma get_items_at self h i v :
  h !! self = Some i -> slot_items i = Some v ->
  Heap.get_items self h = (Returned v, h).
Proof. apply getattr_at. Qed.

Lemma get_order_at self h i v :
  h !! self = Some i -> slot_order i = Some v ->
  Heap.get_order self h = (Returned v, h).
Proof. apply getattr_at. Qed.

Lemma lookup_insert_at {A} (l : list A) i x y :
  l !! i = Some x -> <[i := y]> l !! i = Some y.
Proof. intros Hx. apply list_lookup_insert_eq. by eapply lookup_lt_Some. Qed.

(** [__init__] with a string, on an instance that exists: it is
    overwritten in place; when the string does not parse, the range string
    has been overwritten and the two other slots are as they were. *)
Lemma init_str_at self s h i :
  h !! self = Some i ->
  Heap.FrameSet___init__ self (ArgStr s) h =
  match FrameSet_init s with
  | Returned fs => (Returned tt, <[self := instance_of fs]> h)
  | NotImplemented =>
      (NotImplemented,
       <[self := mkInstance (Some (translate_delete _PADDING_keys s))
                            (slot_items i) (slot_order i)]> h)
  | Raised e =>
      (Raised e,
       <[self := mkInstance (Some (translate_delete _PADDING_keys s))
                            (slot_items i) (slot_order i)]> h)
  end.
Proof.
  intros Hi. unfold Heap.FrameSet___init__, Heap.bind, FrameSet_init.
  rewrite (set_frange_at _ _ _ _ Hi).
  set (i1 := mkInstance _ (slot_items i) (slot_order i)).
  pose proof (lookup_insert_at h self i i1 Hi) as H1.
  rewrite (get_frange_at _ _ i1 _ H1 eq_refl).
  destruct (translate_delete _PADDING_keys s) as [|c fr] eqn:Hs.
  - rewrite (set_items_at _ _ _ _ H1). cbn [slot_frange slot_order i1].
    set (i2 := mkInstance _ _ _).
    pose proof (lookup_insert_at _ self i1 i2 H1) as H2.
    rewrite (set_order_at _ _ _ _ H2). by rewrite !list_insert_insert_eq.
  - unfold Heap.lift.
    destruct (init_parts (∅, []) (split "," (c :: fr)))
      as [[items order]| |e]; cbn [bind]; [|done..].
    rewrite (set_items_at _ _ _ _ H1). cbn [slot_frange slot_order i1].
    set (i2 := mkInstance _ _ _).
    pose proof (lookup_insert_at _ self i1 i2 H1) as H2.
    rewrite (set_order_at _ _ _ _ H2). by rewrite !list_insert_insert_eq.
Qed.

(** The call [FrameSet(s)]: the new instance is the last of the heap; when
    the string does not parse, the call raises and what it leaves behind
    is an instance with its range string only, of which no address is
    returned. *)
Lemma construct_str s h :
  Heap.construct (ArgStr s) h =
  match FrameSet_init s with
  | Returned fs => (Returned (length h), h ++ [instance_of fs])
  | NotImplemented =>
      (NotImplemented,
       h ++ [mkInstance (Some (translate_delete _PADDING_keys s)) None None])
  | Raised e =>
      (Raised e,
       h ++ [mkInstance (Some (translate_delete _PADDING_keys s)) None None])
  end.
Proof.
  unfold Heap.construct, Heap.bind, Heap.__new__.
  rewrite (init_str_at _ s _ _ (lookup_new h _)).
  destruct (FrameSet_init s) as [fs| |e]; by rewrite insert_new.
Qed.

(** The call [FrameSet(other)] on a frame set. *)
Lemma construct_copy a fs h :
  h !! a = Some (instance_of fs) ->
  Heap.construct (ArgFrameSet a) h =
  (Returned (length h), h ++ [instance_of (FrameSet_init_copy fs)]).
Proof.
  intros Ha. unfold Heap.construct, Heap.bind, Heap.__new__,
    Heap.FrameSet___init__, Heap.bind, Heap.ret.
  pose proof (lookup_app_l_Some h [mkInstance None None None] a _ Ha) as H0.
  rewrite (get_frange_at _ _ _ _ H0 eq_refl).
  rewrite (set_frange_at _ _ _ _ (lookup_new h _)), insert_new.
  cbn [slot_frange slot_items slot_order].
  pose proof (lookup_app_l_Some h
                [mkInstance (Some (_frange fs)) None None] a _ Ha) as H1.
  rewrite (get_items_at _ _ _ _ H1 eq_refl).
  rewrite (set_items_at _ _ _ _ (lookup_new h _)), insert_new.
  cbn [slot_frange slot_items slot_order].
  pose proof (lookup_app_l_Some h
                [mkInstance (Some (_frange fs)) (Some (_items fs)) None]
                a _ Ha) as H2.
  rewrite (get_order_at _ _ _ _ H2 eq_refl).
  rewrite (set_order_at _ _ _ _ (lookup_new h _)), insert_new. done.
Qed.

Lemma from_iterable_heap frames sort h :
  Heap.from_iterable frames sort h =
  (Returned (length h), h ++ [instance_of (from_iterable frames sort)]).
Proof.
  unfold Heap.from_iterable, from_iterable, Heap.bind, Heap.__new__, Heap.ret.
  destruct (unique ∅ (if sort then sorted frames else frames))
    as [order items].
  rewrite (set_order_at _ _ _ _ (lookup_new h _)), insert_new.
  cbn [slot_frange slot_items slot_order].
  rewrite (set_items_at _ _ _ _ (lookup_new h _)), insert_new.
  cbn [slot_frange slot_items slot_order].
  rewrite (get_order_at _ _ _ order
             (lookup_new h (mkInstance None (Some items) (Some order)))
             eq_refl).
  rewrite (set_frange_at _ _ _ _ (lookup_new h _)), insert_new. done.
Qed.

Lemma returns_new_last h tmp fs :
  returns_new h (Returned fs)
    (Returned (length (h ++ tmp)), (h ++ tmp) ++ [instance_of fs]).
Proof.
  split; cbn [fst snd].
  - intros a i Ha. rewrite <- app_assoc. by apply lookup_app_l_Some.
  - split; [|apply lookup_new].
    apply lookup_ge_None_2. rewrite length_app. lia.
Qed.

Lemma returns_new_raised h tmp e :
  returns_new h (Raised e) (Raised e, h ++ tmp).
Proof.
  split; cbn [fst snd]; [|done]. intros a i Ha. by apply lookup_app_l_Some.
Qed.

Lemma returns_new_not_implemented h tmp :
  returns_new h NotImplemented (NotImplemented, h ++ tmp).
Proof.
  split; cbn [fst snd]; [|done]. intros a i Ha. by apply lookup_app_l_Some.
Qed.

(** [_cast_to_frameset]: an operand that is a frame set is returned as it
    is, an iterable becomes a new instance, anything else gives
    [NotImplemented]. *)
Lemma cast_heap h other o :
  operand_in h other o ->
  exists tmp,
    match _cast_to_frameset o with
    | Returned B =>
        exists b, Heap._cast_to_frameset other h = (Returned b, h ++ tmp) /\
                  (h ++ tmp) !! b = Some (instance_of B)
    | NotImplemented =>
        Heap._cast_to_frameset other h = (NotImplemented, h ++ tmp)
    | Raised e => False
    end.
Proof.
  destruct other as [b|frames|], o as [B|frames'|]; simpl; try done.
  - intros Hb. exists []. exists b. by rewrite app_nil_r.
  - intros <-. eexists [_], _. split; [apply from_iterable_heap|].
    apply lookup_new.
  - intros _. exists []. by rewrite app_nil_r.
Qed.

(** A binary operation: the operand is cast, the members of both are
    read, and the result is built from a set of them. *)
Lemma binary_heap (f : gset Z -> gset Z -> gset Z) self fs other o h :
  h !! self = Some (instance_of fs) -> operand_in h other o ->
  returns_new h
    (bind (_cast_to_frameset o) (fun B =>
       Returned (from_frozenset (f (_items fs) (_items B)))))
    (Heap.bind (Heap._cast_to_frameset other) (fun b =>
     Heap.bind (Heap.get_items self) (fun x =>
     Heap.bind (Heap.get_items b) (fun y =>
     Heap.from_iterable (elements (f x y)) true))) h).
Proof.
  intros Hself Hother. destruct (cast_heap h other o Hother) as [tmp Hcast].
  unfold Heap.bind at 1.
  destruct (_cast_to_frameset o) as [B| |e]; [|by rewrite Hcast;
    apply returns_new_not_implemented|done].
  destruct Hcast as (b & -> & Hb). unfold Heap.bind.
  rewrite (get_items_at _ _ _ _ (lookup_app_l_Some _ tmp _ _ Hself) eq_refl).
  rewrite (get_items_at _ _ _ _ Hb eq_refl).
  rewrite from_iterable_heap. apply returns_new_last.
Qed.

(** The same with the operand read first, as [__rsub__] does. *)
Lemma binary_heap_reflected (f : gset Z -> gset Z -> gset Z) self fs other o h :
  h !! self = Some (instance_of fs) -> operand_in h other o ->
  returns_new h
    (bind (_cast_to_frameset o) (fun B =>
       Returned (from_frozenset (f (_items B) (_items fs)))))
    (Heap.bind (Heap._cast_to_frameset other) (fun b =>
     Heap.bind (Heap.get_items b) (fun y =>
     Heap.bind (Heap.get_items self) (fun x =>
     Heap.from_iterable (elements (f y x)) true))) h).
Proof.
  intros Hself Hother. destruct (cast_heap h other o Hother) as [tmp Hcast].
  unfold Heap.bind at 1.
  destruct (_cast_to_frameset o) as [B| |e]; [|by rewrite Hcast;
    apply returns_new_not_implemented|done].
  destruct Hcast as (b & -> & Hb). unfold Heap.bind.
  rewrite (get_items_at _ _ _ _ Hb eq_refl).
  rewrite (get_items_at _ _ _ _ (lookup_app_l_Some _ tmp _ _ Hself) eq_refl).
  rewrite from_iterable_heap. apply returns_new_last.
Qed.

Lemma py_set_heap h other o :
  operand_in h other o ->
  Heap.py_set other h =
  (match py_set o with
   | Returned s => Returned s
   | NotImplemented => NotImplemented
   | Raised e => Raised e
   end, h).
Proof.
  destruct other as [b|frames|], o as [B|frames'|]; simpl; try done.
  - intros Hb. unfold Heap.bind.
    by rewrite (get_order_at _ _ _ _ Hb eq_refl).
  - by intros <-.
Qed.

Lemma map_set_heap h others os :
  Forall2 (operand_in h) others os ->
  Heap.map_set others h =
  (match map_set os with
   | Returned sets => Returned sets
   | NotImplemented => NotImplemented
   | Raised e => Raised e
   end, h).
Proof.
  induction 1 as [|other o others os Ho _ IH]; [done|].
  cbn [Heap.map_set map_set]. unfold Heap.bind at 1.
  rewrite (py_set_heap h other o Ho).
  destruct (py_set o) as [s| |e]; cbn [bind]; [|done..].
  unfold Heap.bind. rewrite IH. by destruct (map_set os) as [ss| |e].
Qed.

(** A variadic operation: the members of the receiver and the sets of the
    operands are read, and the result is built from a set of them. *)
Lemma variadic_heap (f : gset Z -> gset Z -> gset Z) self fs others os h :
  h !! self = Some (instance_of fs) -> Forall2 (operand_in h) others os ->
  returns_new h
    (bind (map_set os) (fun sets =>
       Returned (from_frozenset (foldl f (_items fs) sets))))
    (Heap.bind (Heap.get_items self) (fun a =>
     Heap.bind (Heap.map_set others) (fun sets =>
     Heap.from_iterable (elements (foldl f a sets)) true)) h).
Proof.
  intros Hself Hothers. unfold Heap.bind.
  rewrite (get_items_at _ _ _ _ Hself eq_refl).
  rewrite (map_set_heap h others os Hothers).
  destruct (map_set os) as [sets| |e]; cbn [bind].
  - rewrite from_iterable_heap. rewrite <- (app_nil_r h) at 2 3.
    apply returns_new_last.
  - rewrite <- (app_nil_r h) at 2. apply returns_new_not_implemented.
  - rewrite <- (app_nil_r h) at 2. apply returns_new_raised.
Qed.

Lemma construct_str_new s h :
  returns_new h (FrameSet_init s) (Heap.construct (ArgStr s) h).
Proof.
  rewrite construct_str. destruct (FrameSet_init s) as [fs| |e].
  - rewrite <- (app_nil_r h) at 2 3. apply returns_new_last.
  - apply returns_new_not_implemented.
  - apply returns_new_raised.
Qed.

Lemma normalize_heap self fs h :
  h !! self = Some (instance_of fs) ->
  returns_new h (normalize fs) (Heap.normalize self h).
Proof.
  intros Hself. unfold Heap.normalize, Heap.bind.
  rewrite (get_items_at _ _ _ _ Hself eq_refl). apply construct_str_new.
Qed.

Lemma copy_heap self fs h :
  h !! self = Some (instance_of fs) ->
  returns_new h (copy fs) (Heap.copy self h).
Proof.
  intros Hself. unfold Heap.copy, Heap.bind.
  rewrite (get_frange_at _ _ _ _ Hself eq_refl). apply construct_str_new.
Qed.

(** ** Malformed ranges *)

Lemma variadic_no_parse_error (op : gset Z -> gset Z -> gset Z) self others msg :
  bind (map_set others) (fun sets =>
    Returned (from_frozenset (foldl op (_items self) sets)))
  <> Raised (ParseException msg).
Proof.
  destruct (map_set_cases others) as [[_ (sets & -> & _)] | [_ ->]]; done.
Qed.

Lemma cast_no_parse_error {A} (k : FrameSet -> A) other msg :
  bind (_cast_to_frameset other) (fun other => Returned (k other))
  <> Raised (ParseException msg).
Proof. by destruct other. Qed.

(** ** The padding formatter *)

Lemma span_digits_spec s ds r :
  span_digits s = (ds, r) ->
  s = ds ++ r /\ Forall (fun c => is_digit c = true) ds /\ stops r.
Proof.
  revert ds r. induction s as [|c s IH]; intros ds r; simpl.
  - intros [= <- <-]. done.
  - destruct (is_digit c) eqn:Hc.
    + destruct (span_digits s) as [ds' r'] eqn:Hs. intros [= <- <-].
      destruct (IH _ _ eq_refl) as (-> & Hds & Hr).
      split; [done|]. split; [by constructor|done].
    + intros [= <- <-]. done.
Qed.

Lemma span_digits_app ds r :
  Forall (fun c => is_digit c = true) ds -> stops r ->
  span_digits (ds ++ r) = (ds, r).
Proof.
  intros Hds Hr. induction Hds as [|c ds Hc _ IH]; simpl.
  - destruct r as [|c r]; [done|]. simpl in *. by rewrite Hr.
  - by rewrite Hc, IH.
Qed.

Lemma re_digits_spec s ds r :
  re_digits s = Some (ds, r) ->
  s = ds ++ r /\ ds <> [] /\ Forall (fun c => is_digit c = true) ds /\ stops r.
Proof.
  unfold re_digits. destruct (span_digits s) as [ds' r'] eqn:Hs.
  apply span_digits_spec in Hs as (-> & Hds & Hr).
  destruct ds' as [|c ds']; [done|]. intros [= <- <-]. done.
Qed.

Lemma re_digits_app ds r :
  ds <> [] -> Forall (fun c => is_digit c = true) ds -> stops r ->
  re_digits (ds ++ r) = Some (ds, r).
Proof.
  intros Hne Hds Hr. unfold re_digits. rewrite span_digits_app by done.
  by destruct ds.
Qed.

(** A literal integer: an optional sign and at least one digit. *)
Lemma re_int_spec s t r :
  re_int s = Some (t, r) ->
  exists sg ds,
    t = sg ++ ds /\ s = sg ++ ds ++ r /\ (sg = [] \/ sg = T "-") /\
    ds <> [] /\ Forall (fun c => is_digit c = true) ds /\ stops r.
Proof.
  unfold re_int. destruct s as [|c s]; [done|].
  destruct (Ascii.eqb_spec c "-") as [->|Hc].
  - destruct (re_digits s) as [[ds r']|] eqn:Hd; [|done]. intros [= <- <-].
    apply re_digits_spec in Hd as (-> & Hne & Hds & Hr).
    exists (T "-"), ds. repeat split; try done. by right.
  - intros Hd. apply re_digits_spec in Hd as (-> & Hne & Hds & Hr).
    exists [], t. repeat split; try done. by left.
Qed.

Lemma digit_not_minus c : is_digit c = true -> c <> "-"%char.
Proof. intros Hc ->. done. Qed.

Lemma re_sign_digits_app sg ds r :
  (sg = [] \/ sg = T "-") -> ds <> [] ->
  Forall (fun c => is_digit c = true) ds -> stops r ->
  re_sign_digits (sg ++ ds ++ r) = Some (sg, ds, r).
Proof.
  intros [-> | ->] Hne Hds Hr; simpl.
  - destruct ds as [|c ds]; [done|]. simpl.
    apply Forall_cons in Hds as Hds'. destruct Hds' as [Hc _].
    destruct (Ascii.eqb_spec c "-") as [->|_]; [done|].
    change (c :: ds ++ r) with ((c :: ds) ++ r).
    by rewrite re_digits_app.
  - by rewrite re_digits_app.
Qed.

(** What can follow the groups of a clause that is part of a range
    string: the optional final newline, then the end or a comma. *)
Lemma tail_cases nl after :
  re_at_end nl = true -> after_ok after ->
  nl ++ after = [] \/
  exists c rest, nl ++ after = c :: rest /\
                 is_digit c = false /\ is_modifier c = false /\
                 Ascii.eqb c "-" = false.
Proof.
  intros Hnl Hafter. destruct nl as [|c [|c' nl]]; simpl in *; [| |done].
  - destruct Hafter as [-> | [rest ->]]; [by left|].
    right. by exists ","%char, rest.
  - apply Ascii.eqb_eq in Hnl as ->. right. by eexists _, _.
Qed.

Lemma tail_stops nl after :
  re_at_end nl = true -> after_ok after -> stops (nl ++ after).
Proof.
  intros Hnl Hafter.
  destruct (tail_cases nl after Hnl Hafter) as [-> | (c & rest & -> & Hc & _)];
    done.
Qed.

Lemma concat_truthy (l : list (option text)) :
  concat (omap (fun i => if truthy i then i else None) l) =
  concat (map (default []) l).
Proof.
  induction l as [|[[|c t]|] l IH]; cbn; [done|..]; by rewrite <- IH.
Qed.

Lemma pad_literal_sign zfill sg ds :
  (sg = [] \/ sg = T "-") -> ds <> [] ->
  Forall (fun c => is_digit c = true) ds ->
  pad_literal zfill (sg ++ ds) = sg ++ pad_str ds zfill.
Proof.
  intros [-> | ->] Hne Hds; simpl; [|done].
  destruct ds as [|c ds]; [done|]. simpl.
  apply Forall_cons in Hds as [Hc _].
  destruct (Ascii.eqb_spec c "-") as [->|_]; [|done].
  by apply digit_not_minus in Hc.
Qed.

Lemma re_int_literal s t r :
  re_int s = Some (t, r) ->
  exists sg ds, t = sg ++ ds /\ s = sg ++ ds ++ r /\ literal sg ds /\ stops r.
Proof.
  intros Hs. apply re_int_spec in Hs as (sg & ds & -> & -> & Hsg & Hne & Hds & Hr).
  by exists sg, ds.
Qed.

Lemma re_digits_literal s ds r :
  re_digits s = Some (ds, r) -> s = ds ++ r /\ literal [] ds /\ stops r.
Proof.
  intros Hs. apply re_digits_spec in Hs as (-> & Hne & Hds & Hr).
  repeat split; try done. by left.
Qed.

Lemma re_at_end_cases nl : re_at_end nl = true -> nl = [] \/ nl = ["010"%char].
Proof.
  destruct nl as [|c [|c' nl]]; simpl; [by left| |done].
  intros ->%Ascii.eqb_eq. by right.
Qed.

(** Every clause [_RANGE_RE] matches has one of the three shapes. *)
Lemma range_match_shape part g :
  _RANGE_RE_match part = Some g -> exists nl, clause_shape part g nl.
Proof.
  unfold _RANGE_RE_match.
  destruct (re_int part) as [[g1 r1]|] eqn:H1; [|done].
  apply re_int_literal in H1 as (sg1 & d1 & -> & -> & Hl1 & Hr1).
  assert (Hsingle : forall g,
    (if re_at_end r1 then Some (RangeGroups (sg1 ++ d1) None None None) else None)
    = Some g -> exists nl, clause_shape (sg1 ++ d1 ++ r1) g nl).
  { intros g0. destruct (re_at_end r1) eqn:Hend; [|done]. intros [= <-].
    exists r1. by constructor. }
  destruct r1 as [|c r2]; [apply Hsingle|].
  destruct (Ascii.eqb_spec c "-") as [->|Hc]; [|apply Hsingle].
  destruct (re_int r2) as [[g2 r3]|] eqn:H2; [|apply Hsingle].
  apply re_int_literal in H2 as (sg2 & d2 & -> & -> & Hl2 & Hr3).
  assert (Hrange : forall g,
    (if re_at_end r3
     then Some (RangeGroups (sg1 ++ d1) (Some (sg2 ++ d2)) None None) else None)
    = Some g ->
    exists nl, clause_shape (sg1 ++ d1 ++ "-"%char :: sg2 ++ d2 ++ r3) g nl).
  { intros g0. destruct (re_at_end r3) eqn:Hend; [|done]. intros [= <-].
    exists r3. by constructor. }
  assert (Hfail : forall g,
    match
      (if re_at_end r3
       then Some (RangeGroups (sg1 ++ d1) (Some (sg2 ++ d2)) None None)
       else None)
    with
    | Some g' => Some g'
    | None =>
        if re_at_end ("-"%char :: sg2 ++ d2 ++ r3)
        then Some (RangeGroups (sg1 ++ d1) None None None) else None
    end = Some g ->
    exists nl, clause_shape (sg1 ++ d1 ++ "-"%char :: sg2 ++ d2 ++ r3) g nl).
  { intros g0. destruct (re_at_end r3) eqn:Hend.
    - intros [= <-]. exists r3. by constructor.
    - destruct Hl2 as (Hsg & Hne & _).
      destruct Hsg as [-> | ->], d2 as [|? [|? ?]], r3; done. }
  destruct r3 as [|m r4]; [apply Hfail|].
  destruct (is_modifier m) eqn:Hm; [|apply Hfail].
  destruct (re_digits r4) as [[g4 r5]|] eqn:H4; [|apply Hfail].
  apply re_digits_literal in H4 as (-> & Hl4 & Hr5).
  destruct (re_at_end r5) eqn:Hend; [|apply Hfail].
  intros [= <-]. exists r5. by constructor.
Qed.

Lemma clause_shape_body part g nl :
  clause_shape part g nl ->
  part = clause_body g ++ nl /\ re_at_end nl = true.
Proof.
  intros [sg1 d1 nl' _ Hnl | sg1 d1 sg2 d2 nl' _ _ Hnl
          | sg1 d1 sg2 d2 m d3 nl' _ _ _ _ Hnl];
    (split; [|done]); unfold clause_body, modifier_text; simpl;
    repeat (rewrite <- app_assoc || rewrite app_nil_r || simpl); done.
Qed.

Lemma pad_part_shape zfill part g nl :
  _RANGE_RE_match part = Some g -> clause_shape part g nl ->
  pad_part zfill part =
  pad_literal zfill (g_start g) ++
  match g_end g with
  | Some e => T "-" ++ pad_literal zfill e ++ modifier_text g
  | None => []
  end ++ nl.
Proof.
  intros Hm Hs. unfold pad_part. rewrite Hm.
  apply clause_shape_body in Hs as [Hpart _].
  rewrite Hpart at 1. by rewrite drop_app_length.
Qed.

Lemma modifier_not_digit m : is_modifier m = true -> is_digit m = false.
Proof.
  destruct m as [[] [] [] [] [] [] [] []]; vm_compute; congruence.
Qed.

Lemma re_sign_digits_literal sg ds r :
  literal sg ds -> stops r ->
  re_sign_digits (sg ++ ds ++ r) = Some (sg, ds, r).
Proof. intros (Hsg & Hne & Hds) Hr. by apply re_sign_digits_app. Qed.

Lemma pad_literal_literal zfill sg ds :
  literal sg ds -> pad_literal zfill (sg ++ ds) = sg ++ pad_str ds zfill.
Proof. intros (Hsg & Hne & Hds). by apply pad_literal_sign. Qed.

(** [_PAD_RE] at the start of a clause takes the clause without its final
    newline, and [_do_pad] pads its two frame numbers. *)
Lemma pad_match_clause zfill part g nl after :
  clause_shape part g nl -> after_ok after ->
  exists groups,
    _PAD_RE_match (part ++ after) = Some (groups, nl ++ after) /\
    _do_pad zfill groups =
    pad_literal zfill (g_start g) ++
    match g_end g with
    | Some e => T "-" ++ pad_literal zfill e ++ modifier_text g
    | None => []
    end.
Proof.
  intros Hshape Hafter.
  destruct Hshape as [sg1 d1 nl Hl1 Hnl | sg1 d1 sg2 d2 nl Hl1 Hl2 Hnl
                     | sg1 d1 sg2 d2 m d3 nl Hl1 Hl2 Hm Hl3 Hnl];
    unfold _PAD_RE_match; simpl g_start; simpl g_end;
    unfold modifier_text; simpl g_modifier; simpl g_chunk.
  - rewrite <- !app_assoc.
    rewrite (re_sign_digits_literal sg1 d1 (nl ++ after))
      by (try done; by apply tail_stops).
    eexists. split.
    + destruct (tail_cases nl after Hnl Hafter)
        as [-> | (c & rest & -> & _ & _ & ->)]; reflexivity.
    + unfold _do_pad. rewrite concat_truthy. cbn.
      rewrite pad_literal_literal by done. by rewrite !app_nil_r.
  - replace ((sg1 ++ d1 ++ "-"%char :: sg2 ++ d2 ++ nl) ++ after)
      with (sg1 ++ d1 ++ "-"%char :: sg2 ++ d2 ++ (nl ++ after))
      by (by repeat (rewrite <- app_assoc || simpl)).
    rewrite (re_sign_digits_literal sg1 d1) by done.
    rewrite Ascii.eqb_refl.
    rewrite (re_sign_digits_literal sg2 d2 (nl ++ after))
      by (try done; by apply tail_stops).
    eexists. split.
    + destruct (tail_cases nl after Hnl Hafter)
        as [-> | (c & rest & -> & _ & -> & _)]; reflexivity.
    + destruct Hl2 as (Hsg2 & Hne2 & Hds2).
      unfold _do_pad. rewrite concat_truthy. cbn.
      destruct d2 as [|c2 d2]; [done|]. cbn.
      rewrite !pad_literal_sign by (try done; apply Hl1).
      rewrite !app_nil_r. by rewrite <- !app_assoc.
  - replace ((sg1 ++ d1 ++ "-"%char :: sg2 ++ d2 ++ m :: d3 ++ nl) ++ after)
      with (sg1 ++ d1 ++ "-"%char :: sg2 ++ d2 ++ m :: d3 ++ (nl ++ after))
      by (by repeat (rewrite <- app_assoc || simpl)).
    rewrite (re_sign_digits_literal sg1 d1) by done.
    rewrite Ascii.eqb_refl.
    rewrite (re_sign_digits_literal sg2 d2)
      by (try done; simpl; by apply modifier_not_digit).
    rewrite Hm.
    destruct Hl3 as (_ & Hne3 & Hds3).
    rewrite (re_digits_app d3 (nl ++ after)) by (try done; by apply tail_stops).
    eexists. split; [reflexivity|].
    destruct Hl2 as (Hsg2 & Hne2 & Hds2).
    unfold _do_pad. rewrite concat_truthy. cbn.
    destruct d2 as [|c2 d2]; [done|]. cbn.
    rewrite !pad_literal_sign by (try done; apply Hl1).
    rewrite !app_nil_r. by rewrite <- !app_assoc.
Qed.

Lemma re_sign_digits_length s sg ds r :
  re_sign_digits s = Some (sg, ds, r) -> (length r < length s)%nat.
Proof.
  unfold re_sign_digits. destruct s as [|c s]; [done|].
  destruct (Ascii.eqb c "-").
  - destruct (re_digits s) as [[ds' r']|] eqn:Hd; [|done]. intros [= <- <- <-].
    apply re_digits_spec in Hd as (-> & _). rewrite length_cons, length_app. lia.
  - destruct (re_digits (c :: s)) as [[ds' r']|] eqn:Hd; [|done].
    intros [= <- <- <-]. apply re_digits_spec in Hd as (Hs & Hne & _).
    rewrite Hs, length_app. destruct ds'; [done|]. simpl. lia.
Qed.

Lemma re_digits_length s ds r :
  re_digits s = Some (ds, r) -> (length r <= length s)%nat.
Proof.
  intros Hd. apply re_digits_spec in Hd as (-> & _). rewrite length_app. lia.
Qed.

(** A match of [_PAD_RE] is never empty. *)
Lemma _PAD_RE_match_shorter s groups r :
  _PAD_RE_match s = Some (groups, r) -> (length r < length s)%nat.
Proof.
  unfold _PAD_RE_match.
  destruct (re_sign_digits s) as [[[s1 d1] r1]|] eqn:H1; [|done].
  apply re_sign_digits_length in H1.
  destruct r1 as [|c r2]; [intros [= <- <-]; done|].
  destruct (Ascii.eqb c "-"); [|intros [= <- <-]; done].
  destruct (re_sign_digits r2) as [[[s2 d2] r3]|] eqn:H2;
    [|intros [= <- <-]; done].
  apply re_sign_digits_length in H2. simpl in H1.
  destruct r3 as [|m r4]; [intros [= <- <-]; simpl; lia|].
  destruct (is_modifier m); [|intros [= <- <-]; simpl in *; lia].
  destruct (re_digits r4) as [[d3 r5]|] eqn:H3;
    [|intros [= <- <-]; simpl in *; lia].
  apply re_digits_length in H3. intros [= <- <-]. simpl in *. lia.
Qed.

(** More fuel than the length of the string changes nothing. *)
Lemma sub_loop_fuel zfill n fuel1 fuel2 s :
  (length s <= n)%nat -> (length s <= fuel1)%nat -> (length s <= fuel2)%nat ->
  sub_loop fuel1 zfill s = sub_loop fuel2 zfill s.
Proof.
  revert fuel1 fuel2 s. induction n as [|n IH]; intros fuel1 fuel2 s Hn H1 H2.
  - destruct s; [|simpl in Hn; lia]. by destruct fuel1, fuel2.
  - destruct s as [|c s]; [by destruct fuel1, fuel2|].
    destruct fuel1 as [|fuel1]; [simpl in H1; lia|].
    destruct fuel2 as [|fuel2]; [simpl in H2; lia|].
    simpl in *.
    destruct (_PAD_RE_match (c :: s)) as [[groups r]|] eqn:Hm.
    + apply _PAD_RE_match_shorter in Hm. simpl in Hm.
      f_equal. apply IH; lia.
    + f_equal. apply IH; lia.
Qed.

Lemma padFrameRange_nil zfill : padFrameRange [] zfill = [].
Proof. reflexivity. Qed.

Lemma padFrameRange_match zfill s groups r :
  _PAD_RE_match s = Some (groups, r) ->
  padFrameRange s zfill = _do_pad zfill groups ++ padFrameRange r zfill.
Proof.
  intros Hm. unfold padFrameRange. destruct s as [|c s]; [done|].
  simpl length. cbn [sub_loop]. rewrite Hm. f_equal.
  apply _PAD_RE_match_shorter in Hm. simpl in Hm.
  apply (sub_loop_fuel zfill (length s)); lia.
Qed.

Lemma padFrameRange_skip zfill c s :
  _PAD_RE_match (c :: s) = None ->
  padFrameRange (c :: s) zfill = c :: padFrameRange s zfill.
Proof.
  intros Hm. unfold padFrameRange. simpl length. cbn [sub_loop].
  by rewrite Hm.
Qed.

Lemma padFrameRange_comma zfill s :
  padFrameRange (","%char :: s) zfill = ","%char :: padFrameRange s zfill.
Proof. by apply padFrameRange_skip. Qed.

Lemma padFrameRange_tail zfill nl after :
  re_at_end nl = true ->
  padFrameRange (nl ++ after) zfill = nl ++ padFrameRange after zfill.
Proof.
  intros [-> | ->]%re_at_end_cases; [done|]. by apply padFrameRange_skip.
Qed.

(** One clause of a range string and what follows it. *)
Lemma padFrameRange_clause zfill part after :
  ~ rejected part -> after_ok after ->
  padFrameRange (part ++ after) zfill =
  pad_part zfill part ++ padFrameRange after zfill.
Proof.
  intros Hgood Hafter. destruct part as [|c0 part]; [done|].
  destruct (_RANGE_RE_match (c0 :: part)) as [g|] eqn:Hm.
  2:{ destruct Hgood. split; [done|by left]. }
  destruct (range_match_shape _ _ Hm) as [nl Hshape].
  destruct (pad_match_clause zfill _ _ _ after Hshape Hafter)
    as (groups & Hpad & Hdo).
  rewrite (padFrameRange_match _ _ _ _ Hpad), Hdo.
  rewrite (pad_part_shape zfill _ _ _ Hm Hshape).
  apply clause_shape_body in Hshape as [_ Hnl].
  rewrite padFrameRange_tail by done.
  by repeat (rewrite <- app_assoc || simpl).
Qed.

Lemma join_cons_cons sep p q ps :
  join sep (p :: q :: ps) = p ++ sep ++ join sep (q :: ps).
Proof. reflexivity. Qed.

Lemma padFrameRange_join zfill parts :
  Forall (fun p => ~ rejected p) parts ->
  padFrameRange (join (T ",") parts) zfill =
  join (T ",") (map (pad_part zfill) parts).
Proof.
  induction parts as [|p [|q ps] IH]; intros Hall.
  - done.
  - apply Forall_cons in Hall as [Hp _]. simpl.
    rewrite <- (app_nil_r p) at 1.
    rewrite padFrameRange_clause by (try done; by left).
    by rewrite padFrameRange_nil, app_nil_r.
  - apply Forall_cons in Hall as [Hp Hall].
    rewrite join_cons_cons. simpl map. rewrite join_cons_cons.
    rewrite padFrameRange_clause by (try done; right; by eexists).
    f_equal. simpl. rewrite padFrameRange_comma. f_equal. by apply IH.
Qed.

Lemma split_nonempty sep s : split sep s <> [].
Proof.
  destruct s as [|c s]; simpl; [done|].
  destruct (Ascii.eqb c sep); [done|]. by destruct (split sep s).
Qed.

Lemma join_split s : join (T ",") (split "," s) = s.
Proof.
  induction s as [|c s IH]; [done|]. simpl.
  pose proof (split_nonempty "," s) as Hne.
  destruct (split "," s) as [|p ps] eqn:Hs; [done|].
  destruct (Ascii.eqb_spec c ",") as [->|Hc].
  - rewrite <- IH. reflexivity.
  - rewrite <- IH. by destruct ps.
Qed.

Lemma accepted_not_malformed part : accepted_clause part -> ~ rejected part.
Proof.
  intros [-> | [r Hr]] [Hne Hbad]; [done|].
  unfold _parse_frange_part in Hr.
  destruct Hbad as [Hb | (g & cz & Hb & Hg & Hz)]; rewrite Hb in Hr; [done|].
  rewrite Hg, Hz in Hr. done.
Qed.

Lemma FrameSet_init_frange s fs :
  FrameSet_init s = Returned fs ->
  _frange fs = translate_delete _PADDING_keys s /\
  Forall (fun p => ~ rejected p) (clauses s).
Proof.
  intros Hr. apply FrameSet_init_returned in Hr as (Hall & _ & Hf).
  split; [done|]. eapply Forall_impl; [exact Hall|].
  intros p. apply taken_not_rejected.
Qed.

(** ** What the run compressor writes, the parser reads *)

Lemma uint_digits d :
  Forall (fun c => is_digit c = true)
         (T (NilEmpty.string_of_uint d)).
Proof. induction d; simpl; constructor; done. Qed.

Lemma int_digits_acc d acc :
  fold_left (fun acc c => 10 * acc + digit_val c)
            (T (NilEmpty.string_of_uint d)) (Z.pos acc)
  = Z.pos (Pos.of_uint_acc d acc).
Proof.
  revert acc. induction d; intros acc;
    cbn [NilEmpty.string_of_uint T list_ascii_of_string fold_left
         Pos.of_uint_acc]; [done|..];
    fold (T (NilEmpty.string_of_uint d)); rewrite <- IHd; f_equal;
    match goal with
    | |- context [digit_val ?c] =>
        let v := eval vm_compute in (digit_val c) in
        change (digit_val c) with v
    end; lia.
Qed.

Lemma int_digits_uint d :
  int_digits (T (NilEmpty.string_of_uint d)) = Z.of_uint d.
Proof.
  unfold int_digits, Z.of_uint.
  induction d;
    cbn [NilEmpty.string_of_uint T list_ascii_of_string fold_left Pos.of_uint];
    [done | exact IHd | ..];
    fold (T (NilEmpty.string_of_uint d));
    match goal with
    | |- context [digit_val ?c] =>
        let v := eval vm_compute in (10 * 0 + digit_val c) in
        change (10 * 0 + digit_val c) with v
    end;
    match goal with
    | |- fold_left _ _ (Z.pos ?k) = _ => by rewrite int_digits_acc
    end.
Qed.

Lemma nilzero_uint d :
  T (NilZero.string_of_uint d) <> [] /\
  Forall (fun c => is_digit c = true) (T (NilZero.string_of_uint d)) /\
  int_digits (T (NilZero.string_of_uint d)) = Z.of_uint d.
Proof.
  destruct d; try (split; [done|]; split;
    [apply (uint_digits (_ _)) | apply (int_digits_uint (_ _))]).
  split; [done|]. split; [by repeat constructor|done].
Qed.

(** [str] of an integer is a literal: a sign for a negative number, then
    digits, and [int] reads the number back. *)
Lemma str_int_literal z :
  exists sg ds,
    str_int z = sg ++ ds /\ literal sg ds /\
    (0 <= z -> sg = []) /\ int (str_int z) = z.
Proof.
  unfold str_int.
  pose proof (DecimalZ.of_to z) as Hz.
  destruct (Z.to_int z) as [d|d] eqn:Hd; simpl in Hz.
  - destruct (nilzero_uint d) as (Hne & Hds & Hint).
    exists [], (T (NilZero.string_of_uint d)). simpl.
    split; [done|]. split; [by repeat split; [left|..]|]. split; [done|].
    unfold int. destruct (T (NilZero.string_of_uint d)) as [|c ds] eqn:Hs;
      [done|].
    apply Forall_cons in Hds as Hds'. destruct Hds' as [Hc _].
    destruct (Ascii.eqb_spec c "-") as [->|_];
      [by apply digit_not_minus in Hc|]. congruence.
  - destruct (nilzero_uint d) as (Hne & Hds & Hint).
    exists (T "-"), (T (NilZero.string_of_uint d)). simpl.
    split; [done|]. split; [by repeat split; [right|..]|]. split.
    + intros Hpos. destruct z; simpl in Hd; try done; lia.
    + rewrite Hint. done.
Qed.

Lemma re_int_app sg ds r :
  literal sg ds -> stops r -> re_int (sg ++ ds ++ r) = Some (sg ++ ds, r).
Proof.
  intros ([-> | ->] & Hne & Hds) Hr; simpl.
  - destruct ds as [|c ds]; [done|]. simpl.
    apply Forall_cons in Hds as Hds'. destruct Hds' as [Hc _].
    destruct (Ascii.eqb_spec c "-") as [->|_];
      [by apply digit_not_minus in Hc|].
    change (c :: ds ++ r) with ((c :: ds) ++ r). by rewrite re_digits_app.
  - by rewrite re_digits_app.
Qed.

Lemma at_end_stops nl : re_at_end nl = true -> stops nl.
Proof. by intros [-> | ->]%re_at_end_cases. Qed.

(** [_RANGE_RE] matches every clause of the three shapes. *)
Lemma range_match_of_shape part g nl :
  clause_shape part g nl -> _RANGE_RE_match part = Some g.
Proof.
  intros [sg1 d1 nl' Hl1 Hnl | sg1 d1 sg2 d2 nl' Hl1 Hl2 Hnl
          | sg1 d1 sg2 d2 m d3 nl' Hl1 Hl2 Hm Hl3 Hnl];
    unfold _RANGE_RE_match.
  - rewrite re_int_app by (try done; by apply at_end_stops).
    rewrite Hnl.
    by apply re_at_end_cases in Hnl as [-> | ->].
  - rewrite re_int_app by done. rewrite Ascii.eqb_refl.
    rewrite re_int_app by (try done; by apply at_end_stops).
    rewrite Hnl.
    by apply re_at_end_cases in Hnl as [-> | ->].
  - rewrite re_int_app by done. rewrite Ascii.eqb_refl.
    rewrite re_int_app by (try done; simpl; by apply modifier_not_digit).
    rewrite Hm. destruct Hl3 as (_ & Hne3 & Hds3).
    rewrite re_digits_app
      by (try done; by apply at_end_stops).
    by rewrite Hnl.
Qed.

Lemma literal_chars sg ds : literal sg ds -> Forall clause_char (sg ++ ds).
Proof.
  intros ([-> | ->] & _ & Hds); simpl.
  - eapply Forall_impl; [exact Hds|]. intros c Hc. by left.
  - constructor; [right; by left|].
    eapply Forall_impl; [exact Hds|]. intros c Hc. by left.
Qed.

Lemma clause_shape_chars part g :
  clause_shape part g [] -> Forall clause_char part.
Proof.
  intros Hs. inversion Hs as [sg1 d1 nl' Hl1 Hnl | sg1 d1 sg2 d2 nl' Hl1 Hl2 Hnl
          | sg1 d1 sg2 d2 m d3 nl' Hl1 Hl2 Hm Hl3 Hnl]; subst.
  - rewrite app_nil_r. by apply literal_chars.
  - rewrite app_nil_r, app_assoc. apply Forall_app. split;
      [by apply literal_chars|].
    constructor; [right; by left|]. by apply literal_chars.
  - rewrite app_nil_r, app_assoc. apply Forall_app. split;
      [by apply literal_chars|].
    constructor; [right; by left|].
    rewrite app_assoc. apply Forall_app. split; [by apply literal_chars|].
    constructor; [right; by right|].
    by apply (literal_chars [] d3).
Qed.

Lemma clause_char_not_comma c : clause_char c -> c <> ","%char.
Proof. intros [Hc | [-> | Hc]] Heq; subst; done. Qed.

Lemma clause_char_not_padding c : clause_char c -> c ∉ _PADDING_keys.
Proof.
  intros Hc Hin. apply is_padding_char_keys in Hin as [-> | ->];
    by destruct Hc as [Hc | [Hc | Hc]].
Qed.

Lemma parsable_not_malformed tok : parsable_token tok -> ~ rejected tok.
Proof.
  intros (g & Hshape & Hchunk) [_ Hbad].
  apply range_match_of_shape in Hshape.
  destruct Hbad as [Hb | (g' & c & Hb & Hc & Hz)]; [congruence|].
  rewrite Hshape in Hb. injection Hb as <-. by apply (Hchunk c).
Qed.

Lemma zfill_zero s : zfill s 0 = s.
Proof.
  unfold zfill. destruct (Z.geb_spec (Z.of_nat (length s)) 0); [done|lia].
Qed.

Lemma str_int_parsable z : parsable_token (str_int z).
Proof.
  destruct (str_int_literal z) as (sg & ds & Hs & Hl & _).
  exists (RangeGroups (str_int z) None None None). split; [|done].
  rewrite Hs. rewrite <- (app_nil_r (sg ++ ds)) at 1. rewrite <- app_assoc.
  by constructor.
Qed.

Lemma ascending_app l1 l2 :
  ascending (l1 ++ l2) -> ascending l1 /\ ascending l2.
Proof.
  unfold ascending. induction l1 as [|x l1 IH]; simpl; intros Hs.
  - split; [constructor|done].
  - apply StronglySorted_inv in Hs as [Hs Hx].
    destruct (IH Hs) as [H1 H2]. split; [|done].
    constructor; [done|]. by apply Forall_app in Hx as [? _].
Qed.

Lemma ascending_run d run s l :
  ascending run -> stride_run d run -> (3 <= length run)%nat ->
  head run = Some s -> last run = Some l ->
  s < l /\ 0 < d.
Proof.
  intros Hasc Hr Hlen Hh Hl.
  destruct run as [|x [|y run]]; simpl in Hlen; try lia.
  simpl in Hh. injection Hh as ->. destruct Hr as [Hd _].
  apply StronglySorted_inv in Hasc as [Hasc Hall].
  rewrite last_cons_cons in Hl. apply last_Some_elem_of in Hl.
  rewrite Forall_forall in Hall. split; [by apply Hall|].
  assert (s < y) by (apply Hall; set_solver). lia.
Qed.

(** Every token yielded for frames in ascending order is a clause the
    parser takes. *)
Lemma token_parsable frames tok :
  ascending frames -> token_of 0 frames tok -> parsable_token tok.
Proof.
  intros Hasc [f Hf | pre run post d s l -> Hlen Hh Hl Hr].
  - unfold single_token, _build_frange_part, pad. simpl.
    rewrite zfill_zero. apply str_int_parsable.
  - apply ascending_app in Hasc as [_ Hasc].
    apply ascending_app in Hasc as [Hasc _].
    destruct (ascending_run d run s l Hasc Hr Hlen Hh Hl) as [Hsl Hd].
    unfold _build_frange_part, pad. simpl. rewrite !zfill_zero.
    rewrite bool_decide_false by (intros [= ->]; lia).
    destruct (str_int_literal s) as (sg1 & d1 & Hs1 & Hl1 & _).
    destruct (str_int_literal l) as (sg2 & d2 & Hs2 & Hl2 & _).
    destruct (str_int_literal d) as (sg3 & d3 & Hs3 & Hl3 & Hsg3 & Hint).
    rewrite (Hsg3 ltac:(lia)) in *. simpl in Hs3.
    destruct (Z.eqb_spec (Z.abs d) 1) as [H1|H1].
    + exists (RangeGroups (str_int s) (Some (str_int l)) None None).
      split; [|done]. rewrite Hs1, Hs2. simpl.
      rewrite <- (app_nil_r d2) at 1. rewrite <- !app_assoc.
      by constructor.
    + exists (RangeGroups (str_int s) (Some (str_int l)) (Some "x"%char)
                          (Some (str_int d))).
      split.
      * rewrite Hs1, Hs2, Hs3. simpl.
        rewrite <- (app_nil_r d3) at 1. rewrite <- !app_assoc.
        by constructor.
      * simpl. intros c [= <-]. rewrite Hint. lia.
Qed.

Lemma split_no_comma p :
  Forall (fun c => c <> ","%char) p -> split "," p = [p].
Proof.
  induction 1 as [|c p Hc _ IH]; simpl; [done|].
  destruct (Ascii.eqb_spec c ",") as [->|_]; [done|]. by rewrite IH.
Qed.

Lemma split_app_comma p rest :
  Forall (fun c => c <> ","%char) p ->
  split "," (p ++ ","%char :: rest) = p :: split "," rest.
Proof.
  induction 1 as [|c p Hc _ IH]; simpl; [done|].
  destruct (Ascii.eqb_spec c ",") as [->|_]; [done|]. by rewrite IH.
Qed.

Lemma split_join parts :
  parts <> [] -> Forall (Forall (fun c => c <> ","%char)) parts ->
  split "," (join (T ",") parts) = parts.
Proof.
  induction parts as [|p [|q ps] IH]; intros Hne Hall; [done|..].
  - apply Forall_cons in Hall as [Hp _]. simpl. by apply split_no_comma.
  - apply Forall_cons in Hall as [Hp Hall]. rewrite join_cons_cons.
    change (T "," ++ join (T ",") (q :: ps))
      with (","%char :: join (T ",") (q :: ps)).
    rewrite split_app_comma by done. f_equal. by apply IH.
Qed.

Lemma translate_delete_id d s :
  Forall (fun c => c ∉ d) s -> translate_delete d s = s.
Proof.
  unfold translate_delete. induction 1 as [|c s Hc _ IH]; [done|].
  rewrite filter_cons, decide_True by done. by rewrite IH.
Qed.

Lemma join_chars (P : ascii -> Prop) parts :
  P ","%char -> Forall (Forall P) parts -> Forall P (join (T ",") parts).
Proof.
  intros Hcomma. induction parts as [|p [|q ps] IH]; intros Hall; [done|..].
  - by apply Forall_cons in Hall as [Hp _].
  - apply Forall_cons in Hall as [Hp Hall]. rewrite join_cons_cons.
    apply Forall_app. split; [done|]. constructor; [done|]. by apply IH.
Qed.

Lemma parsable_chars tok : parsable_token tok -> Forall clause_char tok.
Proof. intros (g & Hshape & _). by eapply clause_shape_chars. Qed.

(** A comma-joined string of such tokens is a range string of which the
    clauses are the tokens, and in which the parser rejects no clause: the
    constructor returns, or a run does not fit and it raises
    [OverflowError]. *)
Lemma FrameSet_init_tokens toks :
  toks <> [] -> Forall parsable_token toks ->
  clauses (join (T ",") toks) = toks /\
  translate_delete _PADDING_keys (join (T ",") toks) = join (T ",") toks /\
  ((exists fs, FrameSet_init (join (T ",") toks) = Returned fs /\
               FrameSet_valid fs /\ _frange fs = join (T ",") toks) \/
   FrameSet_init (join (T ",") toks) = Raised OverflowError).
Proof.
  intros Hne Hall.
  assert (Hstrip : translate_delete _PADDING_keys (join (T ",") toks)
                   = join (T ",") toks).
  { apply translate_delete_id.
    apply (join_chars (fun c => c ∉ _PADDING_keys)).
    - intros Hin. by apply is_padding_char_keys in Hin as [? | ?].
    - eapply Forall_impl; [exact Hall|]. intros tok Htok.
      eapply Forall_impl; [by apply parsable_chars|].
      apply clause_char_not_padding. }
  assert (Hclauses : clauses (join (T ",") toks) = toks).
  { unfold clauses. rewrite Hstrip. apply split_join; [done|].
    eapply Forall_impl; [exact Hall|]. intros tok Htok.
    eapply Forall_impl; [by apply parsable_chars|].
    apply clause_char_not_comma. }
  split; [done|]. split; [done|].
  destruct (FrameSet_init_cases (join (T ",") toks))
    as [[_ (fs & Hr & Hv & Hf)] |
        (good & bad & rest & Hs & _ & [(Hb & _) | (_ & Hr)])].
  - left. exists fs. by rewrite Hf, Hstrip.
  - exfalso. rewrite Hclauses in Hs. rewrite Forall_forall in Hall.
    apply (parsable_not_malformed bad); [|done].
    apply Hall. rewrite Hs. set_solver.
  - by right.
Qed.

Lemma framesToFrameRanges_nonempty frames zfill :
  framesToFrameRanges frames zfill <> [].
Proof.
  unfold framesToFrameRanges.
  destruct (run_loop zfill run_init frames) as [st out].
  unfold run_flush. destruct (curr_count st =? 2)%nat; by destruct out.
Qed.

(** [normalize] returns a frame set that satisfies the invariant, or a
    run it wrote does not fit and it raises [OverflowError]. *)
Lemma normalize_outcome self :
  (exists fs, normalize self = Returned fs /\ FrameSet_valid fs) \/
  normalize self = Raised OverflowError.
Proof.
  unfold normalize, framesToFrameRange.
  assert (Hasc := sorted_elements_ascending (_items self)).
  assert (Hperm : sorted (elements (_items self)) ≡ₚ elements (_items self))
    by apply merge_sort_Permutation.
  destruct (elements (_items self)) as [|f [|f2 rest]] eqn:He.
  - left. eexists. split; [reflexivity|].
    apply state_valid_FrameSet. split; [set_solver|constructor].
  - destruct (FrameSet_init_tokens [pad (Some f) 0])
      as (_ & _ & [(fs & Hr & Hv & _) | Hr]).
    + done.
    + constructor; [|done]. unfold pad. simpl. rewrite zfill_zero.
      apply str_int_parsable.
    + left. by exists fs.
    + by right.
  - destruct (FrameSet_init_tokens
                (framesToFrameRanges (sorted (f :: f2 :: rest)) 0))
      as (_ & _ & [(fs & Hr & Hv & _) | Hr]).
    + apply framesToFrameRanges_nonempty.
    + eapply Forall_impl.
      * apply framesToFrameRanges_tokens. intros Hnil.
        rewrite Hnil in Hperm. by apply Permutation_nil_cons in Hperm.
      * intros tok. by apply token_parsable.
    + left. by exists fs.
    + by right.
Qed.

(** * Further properties *)

(** ** The tokens of the run compressor make up its input *)

Lemma concat_snoc {A} (ls : list (list A)) (l : list A) :
  concat (ls ++ [l]) = concat ls ++ l.
Proof. by rewrite concat_app, (concat_cons l), concat_nil, app_nil_r. Qed.

Lemma run_step_cover zfill st seen out f st' out' :
  run_cover zfill st seen out -> run_step zfill st f = (st', out') ->
  run_cover zfill st' (seen ++ [f]) (out ++ out').
Proof.
  unfold run_cover, run_step. intros Hinv Hstep.
  destruct (curr_start st) as [s|] eqn:Hs.
  - destruct Hinv as (runs & run & Hruns & -> & Hlen & Hh & Hl & Hcf & Hstr).
    destruct (last_frame st) as [l|] eqn:Hlast; simpl in Hstep.
    2:{ destruct run; simpl in *; [done|]. rewrite last_cons in Hl.
        destruct (last run); done. }
    destruct (curr_stride st) as [d|] eqn:Hd; simpl in Hstep.
    + destruct Hstr as [Hc Hstr].
      destruct (Z.eqb_spec d (Z.abs (f - l))) as [Heq|Hne].
      * injection Hstep as <- <-. simpl. rewrite app_nil_r.
        exists runs, (run ++ [f]). rewrite length_app, last_snoc. simpl.
        repeat split;
          first [ done | lia | by rewrite <- !app_assoc
                | by destruct run | by apply (stride_run_snoc _ _ l) ].
      * destruct (Nat.eqb_spec (curr_count st) 2) as [H2|H2].
        -- injection Hstep as <- <-. simpl.
           destruct run as [|a [|b [|c run]]]; simpl in Hlen; try lia.
           simpl in Hh, Hl. injection Hh as ->. injection Hl as ->.
           exists (runs ++ [[s]]), [l; f]. simpl.
           split; [apply Forall2_app; [done|]; repeat constructor|].
           rewrite concat_snoc.
           repeat split; first [done | lia | by rewrite <- !app_assoc].
        -- injection Hstep as <- <-. simpl.
           exists (runs ++ [run]), [f]. simpl.
           split.
           { apply Forall2_app; [done|]. constructor; [|constructor].
             apply run_token_run; first [done | lia]. }
           rewrite concat_snoc.
           repeat split; first [done | by rewrite <- !app_assoc].
    + destruct run as [|a [|b run]]; simpl in Hlen; try lia.
      simpl in Hh, Hl. injection Hh as ->. injection Hl as ->.
      rewrite Z.eqb_refl in Hstep. injection Hstep as <- <-. simpl.
      rewrite app_nil_r. exists runs, [l; f]. simpl.
      repeat split; first [done | lia | by rewrite <- !app_assoc].
  - destruct Hinv as (-> & -> & ->). simpl in Hstep. injection Hstep as <- <-.
    simpl. exists [], [f]. simpl. repeat split; first [done | constructor].
Qed.

Lemma run_loop_cover zfill frames st out :
  run_loop zfill run_init frames = (st, out) ->
  run_cover zfill st frames out.
Proof.
  revert st out. induction frames as [|f frames IH] using rev_ind;
    intros st out Hloop.
  - simpl in Hloop. injection Hloop as <- <-. by repeat split.
  - rewrite run_loop_snoc in Hloop.
    destruct (run_loop zfill run_init frames) as [st1 out1].
    destruct (run_step zfill st1 f) as [st2 out2] eqn:Hstep.
    injection Hloop as <- <-.
    eapply run_step_cover; [by apply IH|done].
Qed.

(** The tokens yielded for a non-empty input stand for runs that,
    one after the other, are the input. *)
Lemma framesToFrameRanges_cover zfill frames :
  frames <> [] ->
  exists runs,
    Forall2 (run_token zfill) runs (framesToFrameRanges frames zfill) /\
    concat runs = frames.
Proof.
  intros Hne. unfold framesToFrameRanges.
  destruct (run_loop zfill run_init frames) as [st out] eqn:Hloop.
  apply run_loop_cover in Hloop. unfold run_cover in Hloop.
  destruct (curr_start st) as [s|] eqn:Hs.
  2:{ by destruct Hloop as [-> _]. }
  destruct Hloop as (runs & run & Hruns & -> & Hlen & Hh & Hl & Hcf & Hstr).
  unfold run_flush. rewrite Hs, Hcf, <- Hl.
  destruct (Nat.eqb_spec (curr_count st) 2) as [H2|H2].
  - destruct run as [|a [|b [|c run]]]; simpl in Hlen; try lia.
    simpl in Hh. injection Hh as ->. simpl last.
    exists (runs ++ [[s]; [b]]). split.
    + apply Forall2_app; [done|]. repeat constructor.
    + by rewrite concat_app.
  - destruct (curr_stride st) as [d|].
    + destruct Hstr as [Hc Hstr].
      destruct (last run) as [l|] eqn:Hlast.
      2:{ apply last_None in Hlast as ->. simpl in Hlen. lia. }
      exists (runs ++ [run]). split; [|by rewrite concat_snoc].
      apply Forall2_app; [done|]. constructor; [|constructor].
      apply run_token_run; first [done | lia].
    + destruct run as [|a [|b run]]; simpl in Hlen; try lia.
      simpl in Hh. injection Hh as ->. simpl last.
      exists (runs ++ [[s]]). split; [|by rewrite concat_snoc].
      apply Forall2_app; [done|]. repeat constructor.
Qed.

(** ** Padded numbers read back *)

Lemma int_digits_zeros k ds :
  int_digits (repeat "0"%char k ++ ds) = int_digits ds.
Proof.
  unfold int_digits. rewrite fold_left_app. f_equal.
  induction k as [|k IH]; [done|]. simpl. exact IH.
Qed.

Lemma zeros_digits k : Forall (fun c => is_digit c = true) (repeat "0"%char k).
Proof. induction k; simpl; by constructor. Qed.

Lemma int_unsigned ds :
  ds <> [] -> Forall (fun c => is_digit c = true) ds -> int ds = int_digits ds.
Proof.
  intros Hne Hds. destruct ds as [|c ds]; [done|]. unfold int.
  apply Forall_cons in Hds as [Hc _].
  destruct (Ascii.eqb_spec c "-") as [->|_]; [by apply digit_not_minus in Hc|done].
Qed.

Lemma digit_not_plus c : is_digit c = true -> Ascii.eqb c "+" = false.
Proof.
  intros Hc. destruct (Ascii.eqb_spec c "+") as [->|_]; [done|done].
Qed.

(** [pad] of an integer is a literal that [int] reads back as the
    integer, whatever the width. *)
Lemma pad_literal_form f width :
  exists sg ds,
    pad (Some f) width = sg ++ ds /\ literal sg ds /\ int (sg ++ ds) = f.
Proof.
  destruct (str_int_literal f) as (sg & ds & Hs & Hl & _ & Hint).
  unfold pad. simpl str_opt. rewrite Hs in *. unfold zfill.
  destruct (Z.of_nat (length (sg ++ ds)) >=? width); [by exists sg, ds|].
  set (k := Z.to_nat (width - Z.of_nat (length (sg ++ ds)))).
  destruct Hl as ([-> | ->] & Hne & Hds).
  - simpl in *. destruct ds as [|c ds]; [done|].
    apply Forall_cons in Hds as Hds'. destruct Hds' as [Hc _].
    rewrite (digit_not_plus c Hc).
    destruct (Ascii.eqb_spec c "-") as [->|_];
      [by apply digit_not_minus in Hc|]. simpl orb. cbv iota.
    exists [], (repeat "0"%char k ++ c :: ds). simpl.
    split; [done|]. split.
    + split; [by left|]. split; [by destruct k|].
      apply Forall_app. split; [apply zeros_digits|done].
    + rewrite int_unsigned in Hint by done.
      rewrite int_unsigned.
      * by rewrite int_digits_zeros.
      * by destruct k.
      * apply Forall_app. split; [apply zeros_digits|done].
  - simpl in *. exists (T "-"), (repeat "0"%char k ++ ds). simpl.
    split; [done|]. split.
    + split; [by right|]. split; [by destruct k, ds|].
      apply Forall_app. split; [apply zeros_digits|done].
    + by rewrite int_digits_zeros.
Qed.

(** ** Runs of one stride are what the expander yields *)

Lemma stride_run_progression x y rest d :
  NoDup (x :: y :: rest) -> stride_run d (x :: y :: rest) ->
  x :: y :: rest =
  map (fun i => x + Z.of_nat i * (y - x)) (seq 0 (S (S (length rest)))).
Proof.
  revert x y. induction rest as [|z rest IH]; intros x y Hnd Hr.
  - simpl. f_equal; [lia|]. f_equal. lia.
  - assert (Hz : z - y = y - x).
    { destruct Hr as (Hxy & Hyz & _).
      apply NoDup_cons in Hnd as [Hx _].
      assert (z <> x) by (intros ->; apply Hx; set_solver). lia. }
    assert (Hnd' : NoDup (y :: z :: rest)) by (by apply NoDup_cons in Hnd as [_ ?]).
    destruct Hr as [_ Hr]. specialize (IH y z Hnd' Hr).
    change (seq 0 (S (S (length (z :: rest)))))
      with (0%nat :: seq 1 (S (S (length rest)))).
    rewrite <- seq_shift, map_cons, map_map. f_equal; [lia|].
    rewrite IH. apply map_ext. intros i. lia.
Qed.

Lemma last_map_seq (f : nat -> Z) n :
  last (map f (seq 0 (S n))) = Some (f n).
Proof. rewrite seq_S, map_app. simpl. by rewrite last_snoc. Qed.

Lemma progression_x_run x delta n :
  delta <> 0 ->
  map (fun i => x + Z.of_nat i * delta) (seq 0 (S n)) =
  x_run x (x + Z.of_nat n * delta) (Z.abs delta).
Proof.
  intros Hd. unfold x_run. rewrite Z.abs_idemp.
  replace (x + Z.of_nat n * delta - x) with (Z.of_nat n * delta) by lia.
  rewrite Z.abs_mul, (Z.abs_eq (Z.of_nat n)) by lia.
  rewrite Z.div_mul by lia.
  replace (Z.to_nat (Z.of_nat n + 1)) with (S n) by lia.
  apply map_ext_in. intros i Hi%in_seq.
  destruct (Z.leb_spec x (x + Z.of_nat n * delta)); nia.
Qed.

(** A duplicate-free run of at least two frames with one stride goes one
    way, so it is the run the expander yields from its first to its last
    frame. *)
Lemma stride_run_x_run d run s l :
  NoDup run -> stride_run d run -> (2 <= length run)%nat ->
  head run = Some s -> last run = Some l ->
  run = x_run s l d /\ s <> l /\ 0 < d.
Proof.
  intros Hnd Hr Hlen Hh Hl.
  destruct run as [|x [|y rest]]; simpl in Hlen; try lia.
  simpl in Hh. injection Hh as ->.
  assert (Hxy : y <> s).
  { intros ->. apply NoDup_cons in Hnd as [Hx _]. apply Hx. set_solver. }
  assert (Hd : Z.abs (y - s) = d) by apply Hr.
  pose proof (stride_run_progression s y rest d Hnd Hr) as Hprog.
  rewrite Hprog in Hl. rewrite last_map_seq in Hl. injection Hl as <-.
  split; [|split; [|lia]].
  - rewrite Hprog at 1. rewrite progression_x_run by lia. by rewrite Hd.
  - intros Heq.
    assert (Z.of_nat (S (length rest)) * (y - s) = 0) by lia. nia.
Qed.

(** ** Runs that fit *)

Lemma x_run_length start stop step :
  step <> 0 ->
  Z.of_nat (length (x_run start stop step))
  = Z.abs (stop - start) / Z.abs step + 1.
Proof.
  intros Hstep. unfold x_run. rewrite length_map, length_seq.
  assert (0 <= Z.abs (stop - start) / Z.abs step)
    by (apply Z.div_pos; lia).
  lia.
Qed.

Lemma clause_fits_plain start end_ chunk :
  clause_fits start end_ None chunk <-> run_fits start end_ 1.
Proof. unfold clause_fits. by repeat case_bool_decide. Qed.

Lemma clause_fits_x start end_ chunk :
  clause_fits start end_ (Some "x"%char) chunk <-> run_fits start end_ chunk.
Proof. unfold clause_fits. by repeat case_bool_decide. Qed.

(** A frame that is not one of the two ends of the C long fits as a run of
    its own. *)
Lemma frame_fits_single f : frame_fits f -> run_fits f f 1.
Proof.
  unfold frame_fits, run_fits, xfrange_args_fit, in_long.
  rewrite Z.leb_refl, Z.sub_diag. change (Z.abs 0 / Z.abs 1 + 1) with 1.
  change (Z.abs 1) with 1. unfold LONG_MIN, LONG_MAX. lia.
Qed.

(** A run of at least three such frames fits when it is no longer than
    the greatest C long. *)
Lemma frame_fits_run s l d :
  d <> 0 -> (3 <= length (x_run s l d))%nat ->
  frame_fits s -> frame_fits l ->
  Z.of_nat (length (x_run s l d)) <= LONG_MAX ->
  run_fits s l d.
Proof.
  intros Hd Hlen Hs Hl Hmax. rewrite x_run_length in Hmax by done.
  assert (Hq : 2 <= Z.abs (l - s) / Z.abs d).
  { pose proof (x_run_length s l d Hd). lia. }
  assert (Hm : Z.abs d * (Z.abs (l - s) / Z.abs d) <= Z.abs (l - s))
    by (apply Z.mul_div_le; lia).
  unfold frame_fits, run_fits, xfrange_args_fit, in_long in *.
  unfold LONG_MIN, LONG_MAX in *.
  split; [|done]. split; [lia|].
  destruct (Z.leb_spec s l); lia.
Qed.

(** ** What the run compressor writes, the constructor reads back *)

Lemma x_run_single f : x_run f f 1 = [f].
Proof.
  unfold x_run. rewrite Z.sub_diag, Z.leb_refl. simpl. f_equal. lia.
Qed.

Lemma literal_nonempty sg ds : literal sg ds -> sg ++ ds <> [].
Proof. intros (_ & Hne & _). by destruct sg, ds. Qed.

(** The token of a single frame is read as that frame. *)
Lemma single_token_reads zfill f :
  frame_fits f ->
  clause_reads (single_token zfill f) [[f]] /\
  parsable_token (single_token zfill f).
Proof.
  intros Hfit. rewrite single_token_pad.
  destruct (pad_literal_form f zfill) as (sg & ds & -> & Hl & Hint).
  assert (Hshape : clause_shape (sg ++ ds)
                     (RangeGroups (sg ++ ds) None None None) []).
  { rewrite <- (app_nil_r (sg ++ ds)) at 1. rewrite <- app_assoc.
    by apply (shape_single sg ds []). }
  split; [|by eexists].
  split; [by apply literal_nonempty|].
  exists f, f, None, 1. unfold _parse_frange_part.
  rewrite (range_match_of_shape _ _ _ Hshape). simpl. rewrite Hint.
  split; [done|]. split; [by apply clause_fits_plain, frame_fits_single|].
  unfold clause_batches. simpl. by rewrite x_run_single.
Qed.

(** The token of a duplicate-free run is read as that run. *)
Lemma run_token_reads zfill run tok :
  NoDup run -> Forall frame_fits run -> Z.of_nat (length run) <= LONG_MAX ->
  run_token zfill run tok ->
  clause_reads tok [run] /\ parsable_token tok.
Proof.
  intros Hnd Hfits Hmax Htok. revert Hnd Hfits Hmax.
  destruct Htok as [f | run d s l Hlen Hh Hl Hr]; intros Hnd Hfits Hmax;
    [apply Forall_cons in Hfits as [? _]; by apply single_token_reads|].
  destruct (stride_run_x_run d run s l Hnd Hr ltac:(lia) Hh Hl)
    as (Hrun & Hsl & Hd).
  assert (Hfit : run_fits s l d).
  { rewrite Forall_forall in Hfits. rewrite Hrun in Hlen, Hmax.
    apply frame_fits_run; [lia|done| | |done]; apply Hfits.
    - by apply head_Some_elem_of.
    - by apply last_Some_elem_of. }
  unfold _build_frange_part.
  rewrite bool_decide_false by congruence.
  destruct (pad_literal_form s zfill) as (sg1 & d1 & -> & Hl1 & Hint1).
  destruct (pad_literal_form l zfill) as (sg2 & d2 & -> & Hl2 & Hint2).
  destruct (str_int_literal d) as (sg3 & d3 & Hs3 & Hl3 & Hsg3 & Hint3).
  rewrite (Hsg3 ltac:(lia)) in *. simpl in Hs3.
  destruct (Z.eqb_spec (Z.abs d) 1) as [H1|H1].
  - assert (Hshape : clause_shape ((sg1 ++ d1) ++ T "-" ++ sg2 ++ d2)
             (RangeGroups (sg1 ++ d1) (Some (sg2 ++ d2)) None None) []).
    { rewrite <- (app_nil_r d2) at 1. rewrite <- !app_assoc.
      by apply (shape_range sg1 d1 sg2 d2 []). }
    split; [|by eexists].
    split; [by destruct sg1, d1|].
    exists s, l, None, 1. unfold _parse_frange_part.
    rewrite (range_match_of_shape _ _ _ Hshape). simpl.
    rewrite Hint1, Hint2. split; [done|].
    replace d with 1 in * by lia. split; [by apply clause_fits_plain|].
    unfold clause_batches. simpl. by rewrite Hrun.
  - assert (Hshape : clause_shape
             ((sg1 ++ d1) ++ T "-" ++ (sg2 ++ d2) ++ T "x" ++ str_int d)
             (RangeGroups (sg1 ++ d1) (Some (sg2 ++ d2)) (Some "x"%char)
                          (Some (str_int d))) []).
    { rewrite Hs3. rewrite <- (app_nil_r d3) at 1. rewrite <- !app_assoc.
      by apply (shape_modified sg1 d1 sg2 d2 "x"%char d3 []). }
    split.
    + split; [by destruct sg1, d1|].
      exists s, l, (Some "x"%char), d. unfold _parse_frange_part.
      rewrite (range_match_of_shape _ _ _ Hshape). simpl.
      rewrite Hint1, Hint2, Hint3.
      destruct (Z.eqb_spec (Z.abs d) 0); [lia|].
      rewrite (Z.abs_eq d) by lia. split; [done|].
      split; [by apply clause_fits_x|].
      unfold clause_batches. simpl. by rewrite <- Hrun.
    + eexists. split; [exact Hshape|]. simpl. intros c [= <-].
      rewrite Hint3. lia.
Qed.

Lemma NoDup_concat_inv (runs : list (list Z)) :
  NoDup (concat runs) -> Forall NoDup runs.
Proof.
  induction runs as [|r runs IH]; simpl; intros Hnd; [done|].
  apply NoDup_app in Hnd as (Hr & _ & Hrest). constructor; auto.
Qed.

Lemma init_parts_reads st toks bs :
  Forall2 clause_reads toks bs ->
  init_parts st toks = Returned (foldl extend_new st (concat bs)).
Proof.
  intros Hall. revert st. induction Hall as [|tok b toks bs Hread _ IH];
    intros st; [done|].
  destruct Hread as (Hne & start & end_ & modifier & chunk & Hp & Hfit & <-).
  simpl. rewrite (init_part_spec st tok start end_ modifier chunk) by done.
  simpl. rewrite IH. by rewrite foldl_app.
Qed.

(** The constructor in terms of the clauses of its argument. *)
Lemma FrameSet_init_clauses s :
  FrameSet_init s =
  bind (init_parts (∅, []) (clauses s)) (fun '(items, order) =>
  Returned (mkFrameSet (translate_delete _PADDING_keys s) items order)).
Proof.
  unfold FrameSet_init, clauses.
  by destruct (translate_delete _PADDING_keys s).
Qed.

(** Tokens that stand for the runs of a duplicate-free list of frames,
    joined by commas, are read by the constructor as that list. *)
Lemma FrameSet_init_runs zfill runs toks :
  toks <> [] -> NoDup (concat runs) ->
  Forall frame_fits (concat runs) ->
  Z.of_nat (length (concat runs)) <= LONG_MAX ->
  Forall2 (run_token zfill) runs toks ->
  FrameSet_init (join (T ",") toks) =
  Returned (mkFrameSet (join (T ",") toks)
                       (list_to_set (concat runs)) (concat runs)).
Proof.
  intros Hne Hnd Hfits Hmax Hall.
  assert (Hruns := NoDup_concat_inv runs Hnd).
  assert (Hreads : Forall2 clause_reads toks (map (fun r => [r]) runs) /\
                   Forall parsable_token toks).
  { clear Hne Hnd. induction Hall as [|r tok runs toks Htok _ IH];
      [by split; constructor|].
    apply Forall_cons in Hruns as [Hr Hruns].
    simpl in Hfits, Hmax. apply Forall_app in Hfits as [Hfr Hfits].
    rewrite length_app in Hmax.
    destruct (run_token_reads zfill r tok Hr Hfr ltac:(lia) Htok)
      as [Hread Hpars].
    destruct (IH Hfits ltac:(lia) Hruns) as [IH1 IH2]. split; by constructor. }
  destruct Hreads as [Hreads Hpars].
  destruct (FrameSet_init_tokens toks Hne Hpars) as (Hclauses & Hstrip & _).
  rewrite FrameSet_init_clauses, Hclauses, Hstrip.
  rewrite (init_parts_reads _ _ _ Hreads).
  assert (Hc : concat (map (fun r : list Z => [r]) runs) = runs).
  { clear. induction runs; simpl; by rewrite ?IHruns. }
  rewrite Hc, foldl_extend_new_unique by done.
  rewrite unique_NoDup by (try done; set_solver). simpl.
  f_equal. f_equal. set_solver.
Qed.

Lemma framesToFrameRange_runs zfill frames :
  frames <> [] ->
  exists runs toks,
    framesToFrameRange frames false zfill false = join (T ",") toks /\
    toks <> [] /\ Forall2 (run_token zfill) runs toks /\
    concat runs = frames.
Proof.
  intros Hne. destruct frames as [|f [|g rest]]; [done|..].
  - exists [[f]], [single_token zfill f]. repeat split; [done|].
    repeat constructor.
  - destruct (framesToFrameRanges_cover zfill (f :: g :: rest))
      as (runs & Hruns & Hc); [done|].
    exists runs, (framesToFrameRanges (f :: g :: rest) zfill).
    repeat split; [apply framesToFrameRanges_nonempty | done | done].
Qed.

(** Sorting first is the same as handing over the sorted frames. *)
Lemma framesToFrameRange_sorted frames zfill :
  framesToFrameRange frames true zfill false =
  framesToFrameRange (sorted frames) false zfill false.
Proof.
  assert (Hperm : sorted frames ≡ₚ frames) by apply merge_sort_Permutation.
  destruct frames as [|f [|g rest]]; [done..|].
  apply Permutation_length in Hperm.
  unfold framesToFrameRange.
  by destruct (sorted (f :: g :: rest)) as [|x [|y r]].
Qed.

Lemma sorted_NoDup frames : NoDup frames -> NoDup (sorted frames).
Proof. intros Hnd. unfold sorted. by rewrite merge_sort_Permutation. Qed.

Lemma sorted_set (frames : list Z) :
  list_to_set (sorted frames) =@{gset Z} list_to_set frames.
Proof.
  apply set_eq. intros x. rewrite !elem_of_list_to_set. unfold sorted.
  by rewrite merge_sort_Permutation.
Qed.

(** The round trip on duplicate-free frames, in the order given. *)
Lemma FrameSet_init_compressed zfill frames :
  NoDup frames -> Forall frame_fits frames ->
  Z.of_nat (length frames) <= LONG_MAX ->
  FrameSet_init (framesToFrameRange frames false zfill false) =
  Returned (mkFrameSet (framesToFrameRange frames false zfill false)
                       (list_to_set frames) frames).
Proof.
  intros Hnd Hfits Hmax. destruct (decide (frames = [])) as [->|Hne].
  { unfold framesToFrameRange. simpl. by unfold FrameSet_init. }
  destruct (framesToFrameRange_runs zfill frames Hne)
    as (runs & toks & -> & Hne' & Hruns & <-).
  by apply (FrameSet_init_runs zfill).
Qed.

Lemma from_iterable_eq (frames : list Z) (sort : bool) :
  exists order,
    NoDup order /\
    order = (unique (∅ : gset Z) (if sort then sorted frames else frames)).1 /\
    from_iterable frames sort =
    mkFrameSet (framesToFrameRange order false 0 false)
               (list_to_set order) order.
Proof.
  unfold from_iterable.
  destruct (unique ∅ (if sort then sorted frames else frames))
    as [order items] eqn:Hu.
  destruct (unique_spec _ _ _ _ Hu) as (_ & Hitems & Hnd & _).
  exists order. split; [done|]. split; [done|].
  f_equal. rewrite Hitems. set_solver.
Qed.

Lemma from_frozenset_eq (s : gset Z) :
  from_frozenset s =
  mkFrameSet (framesToFrameRange (sorted (elements s)) false 0 false)
             s (sorted (elements s)).
Proof.
  destruct (from_frozenset_spec s) as (Hi & Ho & _).
  destruct (from_frozenset s) as [frange items order] eqn:Hfs.
  simpl in Hi, Ho. subst items order.
  unfold from_frozenset, from_iterable in Hfs.
  rewrite unique_NoDup in Hfs;
    [| apply ascending_NoDup, sorted_elements_ascending | set_solver].
  by injection Hfs as <- _.
Qed.

(** Parsing the sorted compression of a set whose members fit gives the
    frame set a set operation builds from it. *)
Lemma FrameSet_init_frozenset (s : gset Z) :
  set_Forall frame_fits s -> Z.of_nat (size s) <= LONG_MAX ->
  FrameSet_init (framesToFrameRange (elements s) true 0 false)
  = Returned (from_frozenset s).
Proof.
  intros Hfits Hmax. rewrite from_frozenset_eq, framesToFrameRange_sorted.
  rewrite FrameSet_init_compressed.
  - f_equal. f_equal. rewrite sorted_set. apply list_to_set_elements_L.
  - apply ascending_NoDup, sorted_elements_ascending.
  - apply Forall_forall. intros x Hx. apply Hfits.
    unfold sorted in Hx. rewrite merge_sort_Permutation in Hx.
    by apply elem_of_elements.
  - unfold sorted. by rewrite merge_sort_Permutation.
Qed.

Lemma normalize_fits self :
  set_Forall frame_fits (_items self) ->
  Z.of_nat (size (_items self)) <= LONG_MAX ->
  normalize self = Returned (from_frozenset (_items self)).
Proof. apply FrameSet_init_frozenset. Qed.

(** ** The inverted range *)

Lemma xrange_list_step1 a b :
  xrange_list a b 1 = map (fun i => a + Z.of_nat i) (seq 0 (Z.to_nat (b - a))).
Proof.
  unfold xrange_list, xrange_len. simpl.
  destruct (Z.ltb_spec a b).
  - rewrite Z.div_1_r. replace (Z.to_nat (b - a - 1 + 1)) with (Z.to_nat (b - a))
      by lia.
    apply map_ext. intros i. lia.
  - replace (Z.to_nat (b - a)) with 0%nat by lia. done.
Qed.

Lemma count_up_ascending c s n :
  ascending (map (fun i => c + Z.of_nat i) (seq s n)).
Proof.
  unfold ascending. revert s. induction n as [|n IH]; intros s; simpl;
    constructor; [apply IH|].
  apply Forall_forall. intros x Hx. apply list_elem_of_In in Hx.
  apply in_map_iff in Hx as (i & <- & Hi%in_seq). lia.
Qed.

Lemma count_up_elem c n x :
  x ∈ map (fun i => c + Z.of_nat i) (seq 0 n) <-> c <= x < c + Z.of_nat n.
Proof.
  rewrite list_elem_of_In, in_map_iff. split.
  - intros (i & <- & Hi%in_seq). lia.
  - intros Hx. exists (Z.to_nat (x - c)). rewrite in_seq. lia.
Qed.

(** [xrange] with the step left out, between two C longs that are no
    further apart than the greatest C long. *)
Lemma xrange_step1 a b :
  in_long a -> in_long b -> b - a <= LONG_MAX ->
  xrange a b 1 = Returned (xrange_list a b 1).
Proof.
  intros Ha Hb Hd. unfold xrange.
  rewrite (proj2 (fits_long_spec a) Ha), (proj2 (fits_long_spec b) Hb).
  rewrite in_long_small by lia. simpl negb. cbv iota.
  change (1 =? 0) with false. cbv iota.
  assert (Hlen : (LONG_MAX <? get_len_of_range a b 1) = false).
  { unfold get_len_of_range. change (0 <? 1) with true. cbn [andb].
    destruct (Z.ltb_spec a b); [|done].
    rewrite Z.div_1_r. apply Z.ltb_ge. unfold LONG_MAX in *. lia. }
  by rewrite Hlen.
Qed.

(** The frames added for two neighbours: those strictly between them. *)
Lemma gap_spec a b :
  a < b -> in_long a -> in_long b -> b - a <= LONG_MAX ->
  exists gap,
    (if negb (b - a =? 1) then xrange (a + 1) b 1 else Returned []) =
    Returned gap /\
    ascending gap /\ (forall x, x ∈ gap <-> a < x < b) /\
    Z.of_nat (length gap) = b - a - 1.
Proof.
  intros Hab Ha Hb Hd. destruct (Z.eqb_spec (b - a) 1) as [H1|H1]; simpl.
  - exists []. split; [done|]. split; [constructor|]. split; [|simpl; lia].
    intros x. split; [by intros ?%elem_of_nil|lia].
  - exists (xrange_list (a + 1) b 1). split.
    + apply xrange_step1; [|done|lia].
      unfold in_long, LONG_MIN, LONG_MAX in *. lia.
    + rewrite xrange_list_step1. split; [apply count_up_ascending|].
      split; [|rewrite length_map, length_seq; lia].
      intros x. rewrite count_up_elem. lia.
Qed.

(** On C longs in ascending order that are no further apart than the
    greatest C long the loop collects, in ascending order, the frames that
    are missing between the first and the last; with the frames handed
    over they are as many as there are integers from the first to the
    last. *)
Lemma inverted_frames_spec frames :
  ascending frames -> Forall in_long frames ->
  (forall a b, a ∈ frames -> b ∈ frames -> b - a <= LONG_MAX) ->
  exists result,
    inverted_frames frames = Returned result /\
    ascending result /\
    (forall x, x ∈ result <->
               (x ∉ frames) /\ (exists a, a ∈ frames /\ a < x) /\
               (exists b, b ∈ frames /\ x < b)) /\
    (forall a b, head frames = Some a -> last frames = Some b ->
                 Z.of_nat (length result) + Z.of_nat (length frames)
                 = b - a + 1).
Proof.
  induction frames as [|a [|b rest] IH]; intros Hasc Hlong Hnear.
  - exists []. split; [done|]. split; [constructor|]. split; [|done].
    intros x. split; [by intros ?%elem_of_nil|].
    intros (_ & (a & Ha & _) & _). by apply elem_of_nil in Ha.
  - exists []. split; [done|]. split; [constructor|]. split.
    + intros x. split; [by intros ?%elem_of_nil|].
      intros (_ & (a' & Ha & ?) & (b' & Hb & ?)).
      apply list_elem_of_singleton in Ha, Hb. lia.
    + intros a' b' [= <-] [= <-]. simpl. lia.
  - apply StronglySorted_inv in Hasc as [Hasc Hall].
    apply Forall_cons in Hlong as [Hla Hlong].
    destruct (IH Hasc Hlong) as (result & Hresult & IHasc & IHelem & IHlen).
    { intros x y Hx Hy. apply Hnear; by right. }
    clear IH.
    rewrite Forall_forall in Hall.
    assert (Hab : a < b) by (apply Hall; set_solver).
    destruct (gap_spec a b Hab Hla) as (gap & Hgap & Hgasc & Hgelem & Hglen).
    { by apply Forall_cons in Hlong as [? _]. }
    { apply Hnear; set_solver. }
    assert (Hrest : forall y, y ∈ rest -> b < y).
    { intros y Hy. apply StronglySorted_inv in Hasc as [_ Hb].
      rewrite Forall_forall in Hb. by apply Hb. }
    exists (gap ++ result). split.
    { change (inverted_frames (a :: b :: rest))
        with (bind (if negb (b - a =? 1) then xrange (a + 1) b 1
                    else Returned [])
                (fun gap => bind (inverted_frames (b :: rest))
                   (fun result => Returned (gap ++ result)))).
      rewrite Hgap. cbn [bind]. by rewrite Hresult. }
    split; [|split].
    3:{ intros a' t [= <-] Ht. rewrite last_cons_cons in Ht.
        specialize (IHlen b t eq_refl Ht).
        rewrite length_app. cbn [length] in *. lia. }
    + apply StronglySorted_app_2; [|done..].
      intros x1 x2 H1%Hgelem H2%IHelem.
      destruct H2 as (_ & (a' & Ha' & ?) & _).
      apply elem_of_cons in Ha' as [->|Ha']; [lia|].
      apply Hrest in Ha'. lia.
    + intros x. rewrite elem_of_app, Hgelem, IHelem. split.
      * intros [Hx | (Hnot & (a' & Ha' & Hlo) & (b' & Hb' & Hhi))].
        -- split; [|split; [exists a|exists b]; split; (set_solver || lia)].
           intros [->|[->|Hin%Hrest]%elem_of_cons]%elem_of_cons; lia.
        -- assert (b <= a') by
             (apply elem_of_cons in Ha' as [->|Ha'%Hrest]; lia).
           split; [|split; [exists a'|exists b']; split; (set_solver || lia)].
           intros [->|Hin]%elem_of_cons; [lia|done].
      * intros (Hnot & (a' & Ha' & Hlo) & (b' & Hb' & Hhi)).
        destruct (Z.lt_trichotomy x b) as [Hlt | [-> | Hgt]].
        -- left. split; [|done].
           apply elem_of_cons in Ha' as [->|[->|Ha'%Hrest]%elem_of_cons]; lia.
        -- exfalso. apply Hnot. set_solver.
        -- right. split; [set_solver|]. split.
           ++ exists b. split; [set_solver|done].
           ++ exists b'. split; [|done].
              apply elem_of_cons in Hb' as [->|Hb']; [lia|done].
Qed.

Lemma sorted_elements_elem (s : gset Z) x : x ∈ sorted (elements s) <-> x ∈ s.
Proof.
  unfold sorted. by rewrite merge_sort_Permutation, elem_of_elements.
Qed.

(** The loop never raises anything but [OverflowError]. *)
Lemma inverted_frames_outcome frames :
  (exists result, inverted_frames frames = Returned result) \/
  inverted_frames frames = Raised OverflowError.
Proof.
  induction frames as [|a [|b rest] IH]; [left; by eexists..|].
  change (inverted_frames (a :: b :: rest))
    with (bind (if negb (b - a =? 1) then xrange (a + 1) b 1
                else Returned [])
            (fun gap => bind (inverted_frames (b :: rest))
               (fun result => Returned (gap ++ result)))).
  assert (Hgap : (exists gap, (if negb (b - a =? 1) then xrange (a + 1) b 1
                               else Returned []) = Returned gap) \/
                 (if negb (b - a =? 1) then xrange (a + 1) b 1
                  else Returned []) = Raised OverflowError).
  { destruct (negb (b - a =? 1)); [|left; by eexists].
    unfold xrange. change (1 =? 0) with false.
    repeat match goal with |- context [if ?c then _ else _] => destruct c end;
      (by right) || (left; by eexists). }
  destruct Hgap as [[gap ->] | ->]; [|by right]. cbn [bind].
  destruct IH as [[result ->] | ->]; [left; by eexists|by right].
Qed.

(** The frames of the inverted range are the gaps of the frame set, when
    its members are C longs that are no further apart than the greatest
    C long. *)
Lemma inverted_frames_gaps (s : gset Z) :
  set_Forall in_long s ->
  (forall a b, a ∈ s -> b ∈ s -> b - a <= LONG_MAX) ->
  exists result,
    inverted_frames (sorted (elements s)) = Returned result /\
    ascending result /\ (forall x, x ∈ result <-> is_gap s x) /\
    Forall frame_fits result /\ Z.of_nat (length result) <= LONG_MAX.
Proof.
  intros Hlong Hnear.
  destruct (inverted_frames_spec _ (sorted_elements_ascending s))
    as (result & Hr & Hasc & He & Hlen).
  { apply Forall_forall. intros x Hx%sorted_elements_elem. by apply Hlong. }
  { intros a b Ha%sorted_elements_elem Hb%sorted_elements_elem.
    by apply Hnear. }
  assert (Hgap : forall x, x ∈ result <-> is_gap s x).
  { intros x. rewrite He. unfold is_gap. rewrite sorted_elements_elem.
    split; intros (Hn & (a & Ha & ?) & (b & Hb & ?));
      (split; [done|]); split; eexists; (split; [|eassumption]);
      by apply sorted_elements_elem. }
  exists result. split; [done|]. split; [done|]. split; [done|]. split.
  - apply Forall_forall. intros x (_ & (a & Ha & ?) & (b & Hb & ?))%Hgap.
    apply Hlong in Ha, Hb. unfold frame_fits, in_long in *. lia.
  - destruct (sorted (elements s)) as [|a rest] eqn:Hs.
    { simpl in Hr. injection Hr as <-. simpl. unfold LONG_MAX. lia. }
    destruct (last (a :: rest)) as [b|] eqn:Hl;
      [|by apply last_None in Hl].
    specialize (Hlen a b eq_refl eq_refl).
    assert (b - a <= LONG_MAX).
    { apply Hnear; apply sorted_elements_elem; rewrite Hs; [by left|].
      by apply last_Some_elem_of. }
    simpl in Hlen. lia.
Qed.

(** ** Reading frames by position *)

Lemma tuple_getitem_in_range (t : list Z) i :
  0 <= i < Z.of_nat (length t) ->
  exists x, t !! Z.to_nat i = Some x /\ tuple_getitem t i = Found x.
Proof.
  intros Hi. unfold tuple_getitem.
  destruct (Z.ltb_spec i 0); [lia|].
  destruct (Z.ltb_spec i 0); [lia|].
  destruct (Z.leb_spec (Z.of_nat (length t)) i); [lia|]. simpl.
  destruct (t !! Z.to_nat i) as [x|] eqn:Hx; [by exists x|].
  apply lookup_ge_None in Hx. lia.
Qed.

Lemma tuple_getitem_negative (t : list Z) i :
  - Z.of_nat (length t) <= i < 0 ->
  tuple_getitem t i = tuple_getitem t (i + Z.of_nat (length t)).
Proof.
  intros Hi. unfold tuple_getitem. cbv zeta.
  assert ((i <? 0) = true) as -> by lia.
  assert ((i + Z.of_nat (length t) <? 0) = false) as Hpos by lia.
  by rewrite !Hpos.
Qed.

Lemma tuple_getitem_out_of_range (t : list Z) i :
  tuple_getitem t i = IndexError <->
  i < - Z.of_nat (length t) \/ Z.of_nat (length t) <= i.
Proof.
  split.
  - intros Herr.
    destruct (Z.lt_ge_cases i (- Z.of_nat (length t))); [by left|].
    destruct (Z.lt_ge_cases i (Z.of_nat (length t))); [|by right].
    exfalso. destruct (Z.lt_ge_cases i 0).
    + rewrite tuple_getitem_negative in Herr by lia.
      destruct (tuple_getitem_in_range t (i + Z.of_nat (length t)))
        as (x & _ & Hx); [lia|congruence].
    + destruct (tuple_getitem_in_range t i) as (x & _ & Hx); [lia|congruence].
  - unfold tuple_getitem. intros [Hlo | Hhi].
    + destruct (Z.ltb_spec i 0); [|lia].
      by destruct (Z.ltb_spec (i + Z.of_nat (length t)) 0); [|lia].
    + destruct (Z.ltb_spec i 0); [lia|].
      destruct (Z.ltb_spec i 0); [lia|].
      by destruct (Z.leb_spec (Z.of_nat (length t)) i); [|lia].
Qed.

Lemma tuple_getitem_never_value_error (t : list Z) i :
  tuple_getitem t i <> ValueError_not_in_tuple.
Proof.
  unfold tuple_getitem. destruct (_ || _); [done|]. by destruct (t !! _).
Qed.

(** [tuple.index] finds the first position of a frame that occurs. *)
Lemma tuple_index_found (t : list Z) x :
  x ∈ t ->
  exists i, tuple_index t x = Found (Z.of_nat i) /\ t !! i = Some x /\
            forall j, (j < i)%nat -> t !! j <> Some x.
Proof.
  induction t as [|y t IH]; intros Hx; [by apply elem_of_nil in Hx|].
  simpl. destruct (Z.eqb_spec y x) as [->|Hne].
  - exists 0%nat. split; [done|]. split; [done|]. intros j Hj. lia.
  - apply elem_of_cons in Hx as [->|Hx]; [done|].
    destruct (IH Hx) as (i & -> & Hi & Hfirst). exists (S i).
    split; [f_equal; lia|]. split; [done|].
    intros [|j] Hj; simpl; [congruence|]. apply Hfirst. lia.
Qed.

Lemma tuple_index_missing (t : list Z) x :
  x ∉ t -> tuple_index t x = ValueError_not_in_tuple.
Proof.
  induction t as [|y t IH]; intros Hx; [done|]. simpl.
  destruct (Z.eqb_spec y x) as [->|Hne]; [set_solver|].
  rewrite IH; [done|set_solver].
Qed.

Lemma NoDup_lookup_first (t : list Z) i x :
  NoDup t -> t !! i = Some x ->
  forall j, t !! j = Some x -> j = i.
Proof. intros Hnd Hi j Hj. by eapply NoDup_lookup. Qed.

(** ** Which strings the constructor accepts *)

Lemma first_failure_unique {A} (P : A -> Prop) l1 x1 r1 l2 x2 r2 :
  l1 ++ x1 :: r1 = l2 ++ x2 :: r2 ->
  Forall P l1 -> ~ P x1 -> Forall P l2 -> ~ P x2 ->
  l1 = l2 /\ x1 = x2 /\ r1 = r2.
Proof.
  revert l2. induction l1 as [|y l1 IH]; intros [|z l2] Heq H1 Hx1 H2 Hx2;
    simpl in Heq; injection Heq as -> Heq.
  - done.
  - by apply Forall_cons in H2 as [? _].
  - by apply Forall_cons in H1 as [? _].
  - apply Forall_cons in H1 as [_ H1]. apply Forall_cons in H2 as [_ H2].
    destruct (IH l2 Heq H1 Hx1 H2 Hx2) as (-> & -> & ->). done.
Qed.

(** The constructor raises [ParseException] exactly when the first clause
    it does not take is one the parser rejects. *)
Lemma FrameSet_init_raises_iff s :
  (exists msg, FrameSet_init s = Raised (ParseException msg)) <->
  exists good bad rest,
    clauses s = good ++ bad :: rest /\ Forall taken good /\ rejected bad.
Proof.
  destruct (FrameSet_init_cases s) as [[Hall (fs & Hfs & _)] |
    (good & bad & rest & Hcl & Hg & Hbad)].
  - split; [intros [msg Hmsg]; congruence|].
    intros (good & bad & rest & Hcl & _ & Hb). rewrite Hcl in Hall.
    apply Forall_app in Hall as [_ Hall].
    apply Forall_cons in Hall as [Ht _]. by apply taken_not_rejected in Ht.
  - destruct Hbad as [(Hb & msg & Hr & _) | (Hb & Hr)].
    + split; [|by eauto]. intros _. by exists good, bad, rest.
    + split; [intros [msg Hmsg]; congruence|].
      intros (good' & bad' & rest' & Hcl' & Hg' & Hb'). rewrite Hcl in Hcl'.
      destruct (first_failure_unique taken _ _ _ _ _ _ Hcl' Hg) as (_ & <- & _);
        [by apply overflowing_not_taken| done | |].
      * intros Ht. by apply taken_not_rejected in Ht.
      * by apply overflowing_not_rejected in Hb.
Qed.

(** The constructor raises [OverflowError] exactly when the first clause
    it does not take is one of which a run does not fit. *)
Lemma FrameSet_init_overflows_iff s :
  FrameSet_init s = Raised OverflowError <->
  exists good bad rest,
    clauses s = good ++ bad :: rest /\ Forall taken good /\ overflowing bad.
Proof.
  destruct (FrameSet_init_cases s) as [[Hall (fs & Hfs & _)] |
    (good & bad & rest & Hcl & Hg & Hbad)].
  - split; [congruence|].
    intros (good & bad & rest & Hcl & _ & Hb). rewrite Hcl in Hall.
    apply Forall_app in Hall as [_ Hall].
    apply Forall_cons in Hall as [Ht _]. by apply overflowing_not_taken in Hb.
  - destruct Hbad as [(Hb & msg & Hr & _) | (Hb & Hr)].
    + split; [congruence|].
      intros (good' & bad' & rest' & Hcl' & Hg' & Hb'). rewrite Hcl in Hcl'.
      destruct (first_failure_unique taken _ _ _ _ _ _ Hcl' Hg) as (_ & <- & _);
        [ | done | by apply overflowing_not_taken |].
      * intros Ht. by apply taken_not_rejected in Ht.
      * by apply overflowing_not_rejected in Hb'.
    + split; [|done]. intros _. by exists good, bad, rest.
Qed.

Lemma isFrameRange_parts_spec parts :
  isFrameRange_parts parts = true <-> Forall (fun p => ~ rejected p) parts.
Proof.
  induction parts as [|p parts IH]; simpl; [done|].
  rewrite Forall_cons, <- IH. destruct p as [|c0 p].
  - split; [|tauto]. intros Hrest. split; [|done]. by intros [? _].
  - destruct (_parse_frange_part_cases (c0 :: p))
      as [(a & b & m & c & Hp & Hc) | [[Hp Hm] | [Hp Hm]]]; rewrite Hp.
    + split; [|tauto]. intros Hrest. split; [|done].
      intros [_ Hbad]. unfold _parse_frange_part in Hp.
      destruct Hbad as [Hb | (g & cz & Hb & Hg & Hz)]; rewrite Hb in Hp;
        [done|]. rewrite Hg, Hz in Hp. done.
    + split; [done|]. intros [Hgood _]. destruct Hgood. split; [done|by left].
    + split; [done|]. intros [Hgood _]. destruct Hgood. split; [done|by right].
Qed.

Lemma isFrameRange_spec s :
  isFrameRange s = true <-> Forall (fun p => ~ rejected p) (clauses s).
Proof.
  unfold isFrameRange, clauses.
  destruct (translate_delete _PADDING_keys s) as [|c0 r] eqn:Hs.
  - split; [|done]. intros _. simpl. constructor; [|done]. by intros [? _].
  - apply isFrameRange_parts_spec.
Qed.

(** ** Range strings joined by a comma *)

Lemma split_app_sep (x y : text) :
  split "," (x ++ ","%char :: y) = split "," x ++ split "," y.
Proof.
  induction x as [|c x IH]; simpl; [done|].
  destruct (Ascii.eqb_spec c ",") as [->|Hc]; [by rewrite IH|].
  rewrite IH. destruct (split "," x) as [|p ps] eqn:Hx; [|done].
  by destruct (split_nonempty "," x).
Qed.

Lemma clauses_comma a b :
  clauses (a ++ T "," ++ b) = clauses a ++ clauses b.
Proof.
  unfold clauses, translate_delete. rewrite !filter_app.
  change (filter (fun c => c ∉ _PADDING_keys) (T ","))
    with [","%char]. simpl. apply split_app_sep.
Qed.

Lemma init_parts_app st parts1 parts2 :
  init_parts st (parts1 ++ parts2) =
  bind (init_parts st parts1) (fun st' => init_parts st' parts2).
Proof.
  revert st. induction parts1 as [|p parts1 IH]; intros st; simpl; [done|].
  destruct (init_part st p) as [st1| |e]; simpl; [apply IH|done..].
Qed.

(** The clauses of an accepted string add their batches of frames to
    whatever state the loop starts from. *)
Lemma init_parts_batches parts :
  Forall taken parts ->
  exists batches, Forall NoDup batches /\
    forall st, init_parts st parts = Returned (foldl extend_new st batches).
Proof.
  induction 1 as [|p parts Hp _ (batches & Hnd & IH)].
  - by exists [].
  - destruct Hp as [-> | (a & b & m & c & Hparse & Hfit)].
    + exists batches. split; [done|]. intros st. simpl. apply IH.
    + pose proof (_parse_frange_part_chunk _ _ _ _ _ Hparse) as Hc.
      exists (clause_batches a b m c ++ batches). split.
      { apply Forall_app. split; [|done]. apply clause_batches_NoDup. lia. }
      intros st. cbn [init_parts].
      rewrite (init_part_spec st _ a b m c) by done.
      cbn [bind]. by rewrite IH, foldl_app.
Qed.

(** Starting [unique] from a larger set of seen frames removes from its
    yield the frames of the difference. *)
Lemma unique_seen_filter (s t : gset Z) l :
  (unique (s ∪ t) l).1 = filter (fun f => f ∉ s) (unique t l).1.
Proof.
  revert s t. induction l as [|i l IH]; intros s t; simpl; [done|].
  destruct (decide (i ∈ t)) as [Hit|Hit].
  - rewrite !bool_decide_true by set_solver. apply IH.
  - rewrite (bool_decide_false (i ∈ t)) by done.
    destruct (unique ({[i]} ∪ t) l) as [o1 s1] eqn:Hu1. simpl.
    assert (Ho1 : o1 = (unique ({[i]} ∪ t) l).1) by (by rewrite Hu1).
    destruct (decide (i ∈ s)) as [His|His].
    + rewrite bool_decide_true by set_solver.
      rewrite filter_cons, decide_False by (intros Hn; by apply Hn).
      rewrite Ho1, <- IH. f_equal. f_equal. set_solver.
    + rewrite bool_decide_false by set_solver.
      destruct (unique ({[i]} ∪ (s ∪ t)) l) as [o2 s2] eqn:Hu2. simpl.
      rewrite filter_cons, decide_True by done. f_equal.
      rewrite Ho1, <- IH.
      replace (s ∪ ({[i]} ∪ t)) with ({[i]} ∪ (s ∪ t)) by set_solver.
      by rewrite Hu2.
Qed.

Lemma unique_seen (seen : gset Z) l :
  (unique seen l).2 = seen ∪ list_to_set l.
Proof.
  destruct (unique seen l) as [o s] eqn:Hu.
  by destruct (unique_spec _ _ _ _ Hu) as (-> & _).
Qed.

Lemma FrameSet_init_batches s :
  Forall taken (clauses s) ->
  exists batches, Forall NoDup batches /\
    (forall st, init_parts st (clauses s)
                = Returned (foldl extend_new st batches)) /\
    FrameSet_init s =
    Returned (mkFrameSet (translate_delete _PADDING_keys s)
                         (list_to_set (concat batches))
                         (unique ∅ (concat batches)).1).
Proof.
  intros Hall. destruct (init_parts_batches _ Hall) as (batches & Hnd & Hrun).
  exists batches. split; [done|]. split; [done|].
  rewrite FrameSet_init_clauses, Hrun, foldl_extend_new_unique by done.
  simpl. f_equal. f_equal. set_solver.
Qed.

(** ** Comparison of orders *)

Lemma tuple_lt_irrefl a : tuple_lt a a = false.
Proof.
  induction a as [|x a IH]; simpl; [done|]. by rewrite Z.eqb_refl.
Qed.

Lemma tuple_lt_asym a b : tuple_lt a b = true -> tuple_lt b a = false.
Proof.
  revert b. induction a as [|x a IH]; intros [|y b]; simpl; try done.
  destruct (Z.eqb_spec x y) as [->|Hne].
  - rewrite Z.eqb_refl. apply IH.
  - destruct (Z.eqb_spec y x) as [->|_]; [done|]. lia.
Qed.

Lemma tuple_lt_trans a b c :
  tuple_lt a b = true -> tuple_lt b c = true -> tuple_lt a c = true.
Proof.
  revert b c. induction a as [|x a IH]; intros [|y b] [|z c]; simpl; try done.
  destruct (Z.eqb_spec x y) as [->|Hxy].
  - destruct (Z.eqb_spec y z) as [->|Hyz]; [apply IH|done].
  - destruct (Z.eqb_spec y z) as [->|Hyz].
    + destruct (Z.eqb_spec x z); [done|]. by intros ? _.
    + destruct (Z.eqb_spec x z) as [->|Hxz]; lia.
Qed.

Lemma tuple_lt_total a b :
  a <> b -> tuple_lt a b = true \/ tuple_lt b a = true.
Proof.
  revert b. induction a as [|x a IH]; intros [|y b] Hne; simpl;
    [done|by left|by right|].
  destruct (Z.eqb_spec x y) as [->|Hxy].
  - rewrite Z.eqb_refl. apply IH. congruence.
  - destruct (Z.eqb_spec y x) as [->|_]; [done|]. lia.
Qed.

(** ** Zero filling *)

Lemma zfill_short s width :
  width <= Z.of_nat (length s) -> zfill s width = s.
Proof.
  intros Hw. unfold zfill.
  by destruct (Z.geb_spec (Z.of_nat (length s)) width); [|lia].
Qed.

Lemma zfill_length s width :
  Z.of_nat (length (zfill s width)) = Z.max (Z.of_nat (length s)) width.
Proof.
  unfold zfill. destruct (Z.geb_spec (Z.of_nat (length s)) width); [lia|].
  destruct s as [|c rest].
  - rewrite repeat_length. simpl in *. lia.
  - destruct (Ascii.eqb c "+" || Ascii.eqb c "-")%bool; simpl in *;
      rewrite length_app, repeat_length; simpl; lia.
Qed.

Lemma zfill_long s width :
  Z.of_nat (length s) < width ->
  zfill s width =
  match s with
  | c :: rest =>
      if (Ascii.eqb c "+" || Ascii.eqb c "-")%bool
      then c :: repeat "0"%char (Z.to_nat (width - Z.of_nat (length s))) ++ rest
      else repeat "0"%char (Z.to_nat (width - Z.of_nat (length s))) ++ s
  | [] => repeat "0"%char (Z.to_nat (width - Z.of_nat (length s)))
  end.
Proof.
  intros Hw. unfold zfill.
  by destruct (Z.geb_spec (Z.of_nat (length s)) width); [lia|].
Qed.

Lemma zfill_zfill s w1 w2 :
  zfill (zfill s w1) w2 = zfill s (Z.max w1 w2).
Proof.
  destruct (Z.le_gt_cases w1 (Z.of_nat (length s))) as [H1|H1].
  { rewrite (zfill_short s w1) by done.
    destruct (Z.le_gt_cases w2 w1).
    - rewrite !zfill_short by lia. done.
    - by rewrite Z.max_r by lia. }
  destruct (Z.le_gt_cases w2 w1) as [H2|H2].
  { rewrite Z.max_l by lia. apply zfill_short. rewrite zfill_length. lia. }
  rewrite Z.max_r by lia.
  assert (Hl : Z.of_nat (length (zfill s w1)) = w1)
    by (rewrite zfill_length; lia).
  rewrite (zfill_long (zfill s w1) w2) by lia. rewrite Hl.
  rewrite (zfill_long s w1), (zfill_long s w2) by lia.
  set (n := length s) in *.
  assert (Hk : exists k1, Z.to_nat (w1 - Z.of_nat n) = S k1 /\
    Z.to_nat (w2 - Z.of_nat n) = (Z.to_nat (w2 - w1) + S k1)%nat).
  { exists (pred (Z.to_nat (w1 - Z.of_nat n))). lia. }
  destruct Hk as (k1 & -> & ->). rewrite repeat_app.
  destruct s as [|c rest].
  - simpl. done.
  - destruct (Ascii.eqb c "+" || Ascii.eqb c "-")%bool eqn:Hsign.
    + rewrite Hsign. by rewrite <- app_assoc.
    + simpl. by rewrite <- app_assoc.
Qed.

(** ** The padding formatter at a width that adds nothing *)

Lemma re_sign_digits_spec s sg ds r :
  re_sign_digits s = Some (sg, ds, r) -> s = sg ++ ds ++ r /\ ds <> [].
Proof.
  unfold re_sign_digits. destruct s as [|c s]; [done|].
  destruct (Ascii.eqb_spec c "-") as [->|_].
  - destruct (re_digits s) as [[ds' r']|] eqn:Hd; [|done]. intros [= <- <- <-].
    apply re_digits_spec in Hd as (-> & Hne & _). done.
  - destruct (re_digits (c :: s)) as [[ds' r']|] eqn:Hd; [|done].
    intros [= <- <- <-]. apply re_digits_spec in Hd as (-> & Hne & _). done.
Qed.

Lemma pad_str_short d width :
  d <> [] -> width <= 1 -> pad_str d width = d.
Proof.
  intros Hne Hw. apply zfill_short. destruct d; [done|]. simpl. lia.
Qed.

Lemma _do_pad_alone width s1 d1 :
  d1 <> [] -> width <= 1 ->
  _do_pad width [Some s1; Some d1; None; None; None; None; None] = s1 ++ d1.
Proof.
  intros Hd Hw. unfold _do_pad. simpl. rewrite pad_str_short by done.
  destruct s1, d1; simpl; try done; by rewrite ?app_nil_r.
Qed.

Lemma _do_pad_range width s1 d1 c s2 d2 :
  d1 <> [] -> d2 <> [] -> width <= 1 ->
  _do_pad width [Some s1; Some d1; Some [c]; Some s2; Some d2; None; None]
  = s1 ++ d1 ++ c :: s2 ++ d2.
Proof.
  intros Hd1 Hd2 Hw. unfold _do_pad. simpl.
  rewrite (pad_str_short d1) by done. destruct d2 as [|x d2]; [done|].
  simpl. rewrite (pad_str_short (x :: d2)) by done.
  destruct s1, d1, s2; simpl; try done;
    rewrite ?app_nil_r, <- ?app_assoc; done.
Qed.

Lemma _do_pad_modified width s1 d1 c s2 d2 m d3 :
  d1 <> [] -> d2 <> [] -> d3 <> [] -> width <= 1 ->
  _do_pad width [Some s1; Some d1; Some [c]; Some s2; Some d2;
                 Some [m]; Some d3]
  = s1 ++ d1 ++ c :: s2 ++ d2 ++ m :: d3.
Proof.
  intros Hd1 Hd2 Hd3 Hw. unfold _do_pad. simpl.
  rewrite (pad_str_short d1) by done. destruct d2 as [|x d2]; [done|].
  simpl. rewrite (pad_str_short (x :: d2)) by done.
  destruct s1, d1, s2, d3; simpl; try done;
    rewrite ?app_nil_r, <- ?app_assoc; simpl;
    rewrite ?app_nil_r, <- ?app_assoc; done.
Qed.

Lemma _PAD_RE_match_unchanged width s groups r :
  width <= 1 -> _PAD_RE_match s = Some (groups, r) ->
  _do_pad width groups ++ r = s.
Proof.
  intros Hw. unfold _PAD_RE_match.
  destruct (re_sign_digits s) as [[[s1 d1] r1]|] eqn:H1; [|done].
  apply re_sign_digits_spec in H1 as [-> Hd1].
  assert (Halone : forall gr,
    Some ([Some s1; Some d1; None; None; None; None; None], r1) = Some gr ->
    _do_pad width gr.1 ++ gr.2 = s1 ++ d1 ++ r1).
  { intros gr [= <-]. simpl. rewrite _do_pad_alone by done.
    by rewrite <- app_assoc. }
  destruct r1 as [|c r2]; [intros Hm; exact (Halone _ Hm)|].
  destruct (Ascii.eqb_spec c "-") as [->|_]; [|intros Hm; exact (Halone _ Hm)].
  destruct (re_sign_digits r2) as [[[s2 d2] r3]|] eqn:H2;
    [|intros Hm; exact (Halone _ Hm)].
  apply re_sign_digits_spec in H2 as [-> Hd2].
  assert (Hrange : forall gr,
    Some ([Some s1; Some d1; Some ["-"%char]; Some s2; Some d2; None; None],
          r3) = Some gr ->
    _do_pad width gr.1 ++ gr.2 = s1 ++ d1 ++ "-"%char :: s2 ++ d2 ++ r3).
  { intros gr [= <-]. simpl. rewrite _do_pad_range by done.
    repeat (progress (rewrite <- ?app_assoc; simpl)). done. }
  destruct r3 as [|m r4]; [intros Hm; exact (Hrange _ Hm)|].
  destruct (is_modifier m); [|intros Hm; exact (Hrange _ Hm)].
  destruct (re_digits r4) as [[d3 r5]|] eqn:H3;
    [|intros Hm; exact (Hrange _ Hm)].
  apply re_digits_spec in H3 as (-> & Hd3 & _). intros [= <- <-].
  rewrite _do_pad_modified by done.
  repeat (progress (rewrite <- ?app_assoc; simpl)). done.
Qed.

Lemma sub_loop_unchanged fuel width s :
  width <= 1 -> sub_loop fuel width s = s.
Proof.
  intros Hw. revert s. induction fuel as [|fuel IH]; intros s; [done|].
  destruct s as [|c s]; [done|]. cbn [sub_loop].
  destruct (_PAD_RE_match (c :: s)) as [[groups r]|] eqn:Hm.
  - rewrite IH. by apply _PAD_RE_match_unchanged.
  - by rewrite IH.
Qed.

(** ** Padding a range string the constructor accepts *)

Lemma zfill_digits ds width :
  ds <> [] -> Forall (fun c => is_digit c = true) ds ->
  exists k, zfill ds width = repeat "0"%char k ++ ds.
Proof.
  intros Hne Hds. destruct (Z.le_gt_cases width (Z.of_nat (length ds))).
  - exists 0%nat. by rewrite zfill_short.
  - rewrite zfill_long by lia. destruct ds as [|c ds]; [done|].
    apply Forall_cons in Hds as [Hc _]. rewrite (digit_not_plus c Hc).
    destruct (Ascii.eqb_spec c "-") as [->|_];
      [by apply digit_not_minus in Hc|]. simpl. eauto.
Qed.

Lemma literal_zfill sg ds width :
  literal sg ds ->
  literal sg (zfill ds width) /\
  int (sg ++ zfill ds width) = int (sg ++ ds).
Proof.
  intros (Hsg & Hne & Hds).
  destruct (zfill_digits ds width Hne Hds) as [k ->].
  assert (Hds' : Forall (fun c => is_digit c = true)
                        (repeat "0"%char k ++ ds))
    by (apply Forall_app; split; [apply zeros_digits|done]).
  assert (Hne' : repeat "0"%char k ++ ds <> [])
    by (destruct k, ds; done).
  split; [done|]. destruct Hsg as [-> | ->]; simpl.
  - change (int (repeat "0"%char k ++ ds) = int ds).
    rewrite !int_unsigned by done. apply int_digits_zeros.
  - by rewrite int_digits_zeros.
Qed.

Lemma clause_shape_padded zfill part g nl :
  clause_shape part g nl ->
  clause_shape (pad_part zfill part) (pad_groups zfill g) nl.
Proof.
  intros Hshape. pose proof (range_match_of_shape _ _ _ Hshape) as Hm.
  rewrite (pad_part_shape zfill _ _ _ Hm Hshape). unfold pad_groups.
  destruct Hshape as [sg1 d1 nl Hl1 Hnl | sg1 d1 sg2 d2 nl Hl1 Hl2 Hnl
          | sg1 d1 sg2 d2 m d3 nl Hl1 Hl2 Hmod Hl3 Hnl];
    cbn [g_start g_end g_modifier g_chunk option_map modifier_text];
    rewrite ?pad_literal_literal by done; unfold pad_str.
  - rewrite <- app_assoc. simpl. constructor; [|done].
    by apply literal_zfill.
  - repeat (progress (rewrite <- ?app_assoc; simpl)).
    apply (shape_range sg1 (Py.zfill d1 zfill) sg2 (Py.zfill d2 zfill) nl);
      [by apply literal_zfill..|done].
  - repeat (progress (rewrite <- ?app_assoc; simpl)).
    apply (shape_modified sg1 (Py.zfill d1 zfill) sg2 (Py.zfill d2 zfill)
             m d3 nl); [by apply literal_zfill..|done|done|done].
Qed.

Lemma pad_groups_reads zfill part g nl :
  clause_shape part g nl ->
  int (g_start (pad_groups zfill g)) = int (g_start g) /\
  match g_end (pad_groups zfill g), g_end g with
  | Some e', Some e => int e' = int e
  | None, None => True
  | _, _ => False
  end.
Proof.
  intros [sg1 d1 nl' Hl1 Hnl | sg1 d1 sg2 d2 nl' Hl1 Hl2 Hnl
          | sg1 d1 sg2 d2 m d3 nl' Hl1 Hl2 Hmod Hl3 Hnl];
    unfold pad_groups; cbn [g_start g_end option_map];
    rewrite ?pad_literal_literal by done; unfold pad_str;
    (split; [|try done]); by apply literal_zfill.
Qed.

Lemma clause_shape_nonempty part g nl : clause_shape part g nl -> part <> [].
Proof.
  intros [sg1 d1 nl' Hl1 Hnl | sg1 d1 sg2 d2 nl' Hl1 Hl2 Hnl
          | sg1 d1 sg2 d2 m d3 nl' Hl1 Hl2 Hmod Hl3 Hnl];
    destruct Hl1 as (_ & Hne & _); by destruct sg1, d1.
Qed.

(** The parser reads a padded clause as it reads the clause. *)
Lemma _parse_frange_part_padded zfill part r :
  _parse_frange_part part = Returned r ->
  pad_part zfill part <> [] /\
  _parse_frange_part (pad_part zfill part) = Returned r.
Proof.
  intros Hparse. unfold _parse_frange_part in Hparse.
  destruct (_RANGE_RE_match part) as [g|] eqn:Hm; [|done].
  destruct (range_match_shape _ _ Hm) as [nl Hshape].
  pose proof (clause_shape_padded zfill _ _ _ Hshape) as Hshape'.
  split; [by eapply clause_shape_nonempty|].
  unfold _parse_frange_part.
  rewrite (range_match_of_shape _ _ _ Hshape').
  destruct (pad_groups_reads zfill _ _ _ Hshape) as [Hstart Hend].
  rewrite Hstart. unfold pad_groups in *.
  cbn [g_start g_end g_chunk g_modifier] in *.
  destruct (_ =? 0); [done|].
  destruct (g_end g) as [e|]; cbn [option_map] in *;
    [rewrite Hend|]; exact Hparse.
Qed.

Lemma init_part_padded zfill st part :
  ~ rejected part -> init_part st (pad_part zfill part) = init_part st part.
Proof.
  intros Hgood. destruct part as [|c0 part]; [done|].
  destruct (_parse_frange_part_cases (c0 :: part))
    as [(a & b & m & c & Hp & Hc) | [[Hp Hm] | [Hp Hm]]].
  - destruct (_parse_frange_part_padded zfill _ _ Hp) as [Hne Hp'].
    unfold init_part. rewrite Hp.
    destruct (pad_part zfill (c0 :: part)); [done|]. by rewrite Hp'.
  - destruct Hgood. split; [done|by left].
  - destruct Hgood. split; [done|by right].
Qed.

Lemma init_parts_padded zfill st parts :
  Forall (fun p => ~ rejected p) parts ->
  init_parts st (map (pad_part zfill) parts) = init_parts st parts.
Proof.
  intros Hall. revert st. induction Hall as [|p parts Hp _ IH]; intros st;
    [done|].
  simpl. rewrite init_part_padded by done.
  destruct (init_part st p) as [st'| |e]; simpl; [apply IH|done..].
Qed.

Lemma pad_part_not_malformed zfill part :
  ~ rejected part -> ~ rejected (pad_part zfill part).
Proof.
  intros Hgood. destruct part as [|c0 part]; [by intros [? _]|].
  destruct (_parse_frange_part_cases (c0 :: part))
    as [(a & b & m & c & Hp & Hc) | [[Hp Hm] | [Hp Hm]]].
  - destruct (_parse_frange_part_padded zfill _ _ Hp) as [Hne Hp'].
    apply accepted_not_malformed. right. eauto.
  - destruct Hgood. split; [done|by left].
  - destruct Hgood. split; [done|by right].
Qed.

Lemma clause_char_plain c : clause_char c -> plain_char c.
Proof.
  intros Hc. split.
  - intros ->. by destruct Hc as [? | [? | ?]].
  - intros Hin. apply is_padding_char_keys in Hin as [-> | ->];
      by destruct Hc as [? | [? | ?]].
Qed.

Lemma newline_plain nl : re_at_end nl = true -> Forall plain_char nl.
Proof.
  intros [-> | ->]%re_at_end_cases; [done|]. constructor; [|done].
  split; [done|]. intros Hin. by apply is_padding_char_keys in Hin as [? | ?].
Qed.

Lemma literal_plain sg ds : literal sg ds -> Forall plain_char (sg ++ ds).
Proof.
  intros Hl. eapply Forall_impl; [by apply literal_chars|].
  apply clause_char_plain.
Qed.

Lemma literal_plain_parts sg ds :
  literal sg ds -> Forall plain_char sg /\ Forall plain_char ds.
Proof. intros Hl%literal_plain. by apply Forall_app in Hl. Qed.

Lemma clause_shape_plain part g nl :
  clause_shape part g nl -> Forall plain_char part.
Proof.
  assert (Hminus : plain_char "-") by (apply clause_char_plain; right; by left).
  intros [sg1 d1 nl' Hl1 Hnl | sg1 d1 sg2 d2 nl' Hl1 Hl2 Hnl
          | sg1 d1 sg2 d2 m d3 nl' Hl1 Hl2 Hmod Hl3 Hnl];
    apply literal_plain_parts in Hl1 as [? ?];
    try apply literal_plain_parts in Hl2 as [? ?];
    try apply literal_plain_parts in Hl3 as [_ ?];
    apply newline_plain in Hnl.
  - by repeat (apply Forall_app; split).
  - apply Forall_app; split; [done|]. apply Forall_app; split; [done|].
    constructor; [done|]. by repeat (apply Forall_app; split).
  - apply Forall_app; split; [done|]. apply Forall_app; split; [done|].
    constructor; [done|].
    apply Forall_app; split; [done|]. apply Forall_app; split; [done|].
    constructor; [apply clause_char_plain; right; by right|].
    by apply Forall_app.
Qed.

Lemma pad_part_plain zfill part :
  ~ rejected part -> Forall plain_char (pad_part zfill part).
Proof.
  intros Hgood. destruct part as [|c0 part]; [done|].
  destruct (_RANGE_RE_match (c0 :: part)) as [g|] eqn:Hm.
  - destruct (range_match_shape _ _ Hm) as [nl Hshape].
    eapply clause_shape_plain. by apply clause_shape_padded.
  - destruct Hgood. split; [done|by left].
Qed.

(** The clauses of a padded range string are the padded clauses. *)
Lemma clauses_padded zfill parts :
  parts <> [] -> Forall (fun p => ~ rejected p) parts ->
  translate_delete _PADDING_keys (join (T ",") (map (pad_part zfill) parts))
    = join (T ",") (map (pad_part zfill) parts) /\
  clauses (join (T ",") (map (pad_part zfill) parts))
    = map (pad_part zfill) parts.
Proof.
  intros Hne Hall.
  assert (Hplain : Forall (Forall plain_char) (map (pad_part zfill) parts)).
  { apply Forall_fmap. eapply Forall_impl; [exact Hall|].
    intros p Hp. by apply pad_part_plain. }
  assert (Hstrip :
    translate_delete _PADDING_keys (join (T ",") (map (pad_part zfill) parts))
    = join (T ",") (map (pad_part zfill) parts)).
  { apply translate_delete_id.
    apply (join_chars (fun c => c ∉ _PADDING_keys)).
    - intros Hin. by apply is_padding_char_keys in Hin as [? | ?].
    - eapply Forall_impl; [exact Hplain|]. intros p Hp.
      eapply Forall_impl; [exact Hp|]. by intros c [_ Hc]. }
  split; [done|]. unfold clauses. rewrite Hstrip. apply split_join.
  - by destruct parts.
  - eapply Forall_impl; [exact Hplain|]. intros p Hp.
    eapply Forall_impl; [exact Hp|]. by intros c [Hc _].
Qed.

Lemma frameRange_clauses s fs zfill :
  FrameSet_init s = Returned fs ->
  frameRange fs zfill = join (T ",") (map (pad_part zfill) (clauses s)).
Proof.
  intros Hr. apply FrameSet_init_frange in Hr as [Hf Hall].
  unfold frameRange, clauses in *. rewrite Hf.
  rewrite <- (join_split (translate_delete _PADDING_keys s)) at 1.
  by apply padFrameRange_join.
Qed.

(** Padding a padded clause is padding once to the larger width. *)
Lemma pad_literal_twice w1 w2 sg ds :
  literal sg ds ->
  pad_literal w2 (pad_literal w1 (sg ++ ds)) =
  pad_literal (Z.max w1 w2) (sg ++ ds).
Proof.
  intros Hl. rewrite (pad_literal_literal w1) by done.
  rewrite (pad_literal_literal (Z.max w1 w2)) by done. unfold pad_str.
  rewrite pad_literal_literal by (by apply literal_zfill).
  unfold pad_str. by rewrite zfill_zfill.
Qed.

Lemma pad_part_twice w1 w2 part :
  ~ rejected part ->
  pad_part w2 (pad_part w1 part) = pad_part (Z.max w1 w2) part.
Proof.
  intros Hgood. destruct part as [|c0 part]; [done|].
  destruct (_RANGE_RE_match (c0 :: part)) as [g|] eqn:Hm.
  2:{ destruct Hgood. split; [done|by left]. }
  destruct (range_match_shape _ _ Hm) as [nl Hshape].
  pose proof (clause_shape_padded w1 _ _ _ Hshape) as Hshape'.
  rewrite (pad_part_shape w2 _ _ _ (range_match_of_shape _ _ _ Hshape') Hshape').
  rewrite (pad_part_shape (Z.max w1 w2) _ _ _ Hm Hshape).
  clear Hm Hshape' Hgood. unfold pad_groups.
  destruct Hshape as [sg1 d1 nl Hl1 Hnl | sg1 d1 sg2 d2 nl Hl1 Hl2 Hnl
          | sg1 d1 sg2 d2 m d3 nl Hl1 Hl2 Hmod Hl3 Hnl];
    cbn [g_start g_end g_modifier g_chunk option_map modifier_text];
    by rewrite !pad_literal_twice by done.
Qed.

(** ** Set operations *)

Lemma cast_items other fs :
  (forall B, other = OFrameSet B -> _items B = list_to_set (_order B)) ->
  _cast_to_frameset other = Returned fs ->
  py_set other = Returned (_items fs).
Proof.
  intros Hvalid. destruct other as [B|frames|]; simpl; [| |done].
  - intros [= <-]. by rewrite <- Hvalid.
  - intros [= <-]. by rewrite from_iterable_items.
Qed.

Lemma cast_cases other :
  (exists fs, _cast_to_frameset other = Returned fs) \/ other = OOther.
Proof. destruct other; simpl; eauto. Qed.

Lemma from_frozenset_items s : _items (from_frozenset s) = s.
Proof. apply from_frozenset_spec. Qed.

Lemma from_frozenset_order s : _order (from_frozenset s) = sorted (elements s).
Proof. apply from_frozenset_spec. Qed.

Lemma from_frozenset_set s :
  list_to_set (_order (from_frozenset s)) = s.
Proof.
  pose proof (from_frozenset_valid s) as (Hitems & _).
  by rewrite <- Hitems, from_frozenset_items.
Qed.

Lemma from_frozenset_length s :
  length (_order (from_frozenset s)) = size s.
Proof.
  pose proof (from_frozenset_valid s) as (_ & _ & Hlen).
  by rewrite Hlen, from_frozenset_items.
Qed.

Lemma from_frozenset_empty s : _order (from_frozenset s) = [] <-> s = ∅.
Proof.
  split.
  - intros Hnil. pose proof (from_frozenset_length s) as Hlen.
    rewrite Hnil in Hlen. simpl in Hlen. symmetry in Hlen.
    by apply size_empty_iff, leibniz_equiv in Hlen.
  - intros ->. pose proof (from_frozenset_length ∅) as Hlen.
    rewrite size_empty in Hlen. by apply nil_length_inv.
Qed.

(** A call with several operands is the chain of the calls with one. *)
Lemma variadic_chain (op : gset Z -> gset Z -> gset Z) self o others :
  bind (map_set (o :: others)) (fun sets =>
    Returned (from_frozenset (foldl op (_items self) sets))) =
  bind (bind (map_set [o]) (fun sets =>
          Returned (from_frozenset (foldl op (_items self) sets))))
       (fun first =>
          bind (map_set others) (fun sets =>
            Returned (from_frozenset (foldl op (_items first) sets)))).
Proof.
  cbn [map_set]. destruct (py_set o) as [s| |e]; cbn [bind]; [|done..].
  rewrite from_frozenset_items.
  by destruct (map_set others) as [ss| |e].
Qed.

(** ** The frames of a run *)

Lemma x_run_head start stop step :
  step <> 0 -> head (x_run start stop step) = Some start.
Proof.
  intros Hstep. unfold x_run.
  assert (Hq : 0 <= Z.abs (stop - start) / Z.abs step)
    by (apply Z.div_pos; lia).
  replace (Z.to_nat (Z.abs (stop - start) / Z.abs step + 1))
    with (S (Z.to_nat (Z.abs (stop - start) / Z.abs step))) by lia.
  simpl. f_equal. destruct (start <=? stop); lia.
Qed.

Lemma x_run_last start stop step :
  step <> 0 ->
  last (x_run start stop step) =
  Some (if start <=? stop
        then start + Z.abs (stop - start) / Z.abs step * Z.abs step
        else start - Z.abs (stop - start) / Z.abs step * Z.abs step).
Proof.
  intros Hstep. unfold x_run.
  assert (Hq : 0 <= Z.abs (stop - start) / Z.abs step)
    by (apply Z.div_pos; lia).
  replace (Z.to_nat (Z.abs (stop - start) / Z.abs step + 1))
    with (S (Z.to_nat (Z.abs (stop - start) / Z.abs step))) by lia.
  rewrite seq_S, map_app. simpl. rewrite last_snoc. f_equal.
  rewrite Z2Nat.id by done. done.
Qed.

Lemma x_run_elem start stop step f :
  step <> 0 ->
  f ∈ x_run start stop step <->
  Z.min start stop <= f <= Z.max start stop /\ (Z.abs step | f - start).
Proof.
  intros Hstep. split.
  - intros Hf. split; [by eapply x_run_bounds|].
    unfold x_run in Hf. apply list_elem_of_fmap in Hf as (i & -> & _).
    destruct (start <=? stop).
    + exists (Z.of_nat i). lia.
    + exists (- Z.of_nat i). lia.
  - intros [Hb [k Hk]]. unfold x_run. apply list_elem_of_fmap.
    set (s := Z.abs step) in *. assert (Hs : 0 < s) by (unfold s; lia).
    exists (Z.to_nat (Z.abs k)).
    assert (Hle : Z.abs k <= Z.abs (stop - start) / s).
    { apply Z.div_le_lower_bound; [done|].
      destruct (Z.leb_spec start stop); nia. }
    split.
    + destruct (Z.leb_spec start stop); nia.
    + apply elem_of_seq. lia.
Qed.

Lemma x_run_reaches_stop start stop step :
  step <> 0 ->
  last (x_run start stop step) = Some stop <-> (Z.abs step | stop - start).
Proof.
  intros Hstep. rewrite x_run_last by done.
  set (s := Z.abs step). assert (Hs : 0 < s) by (unfold s; lia).
  set (D := Z.abs (stop - start)).
  assert (Hdiv : D / s * s = D <-> (s | stop - start)).
  { rewrite <- Z.divide_abs_r. fold D. split.
    - intros Hq. exists (D / s). lia.
    - intros [k Hk]. rewrite Hk, Z.div_mul by lia. done. }
  rewrite <- Hdiv. unfold D.
  destruct (Z.leb_spec start stop); split; intros Heq; try injection Heq as Heq;
    try f_equal; lia.
Qed.

(** ** A range string of one clause *)

(** A clause the parser reads is, as a range string, its own and only
    clause. *)
Lemma clause_alone part r :
  _parse_frange_part part = Returned r ->
  translate_delete _PADDING_keys part = part /\ clauses part = [part].
Proof.
  intros Hparse.
  assert (Hshape : exists g nl, clause_shape part g nl).
  { unfold _parse_frange_part in Hparse.
    destruct (_RANGE_RE_match part) as [g|] eqn:Hm; [|done].
    destruct (range_match_shape _ _ Hm) as [nl Hs]. eauto. }
  destruct Hshape as (g & nl & Hshape).
  pose proof (clause_shape_plain _ _ _ Hshape) as Hplain.
  assert (Hstrip : translate_delete _PADDING_keys part = part).
  { apply translate_delete_id. eapply Forall_impl; [exact Hplain|].
    by intros x [_ Hx]. }
  split; [done|]. unfold clauses. rewrite Hstrip.
  apply split_no_comma. eapply Forall_impl; [exact Hplain|].
  by intros x [Hx _].
Qed.

Lemma FrameSet_init_clause part start end_ modifier chunk :
  _parse_frange_part part = Returned (start, end_, modifier, chunk) ->
  clause_fits start end_ modifier chunk ->
  0 < chunk /\
  FrameSet_init part =
  Returned (mkFrameSet part
              (list_to_set (concat (clause_batches start end_ modifier chunk)))
              (unique ∅ (concat (clause_batches start end_ modifier chunk))).1).
Proof.
  intros Hparse Hfit.
  pose proof (_parse_frange_part_chunk _ _ _ _ _ Hparse) as Hc.
  split; [done|].
  destruct (clause_alone _ _ Hparse) as [Hstrip Hcl].
  rewrite FrameSet_init_clauses, Hcl, Hstrip.
  cbn [init_parts].
  rewrite (init_part_spec _ _ start end_ modifier chunk) by done.
  cbn [bind].
  rewrite foldl_extend_new_unique by (apply clause_batches_NoDup; lia).
  simpl. f_equal. f_equal. set_solver.
Qed.

(** A clause of which a run does not fit. *)
Lemma FrameSet_init_clause_overflow part start end_ modifier chunk :
  _parse_frange_part part = Returned (start, end_, modifier, chunk) ->
  ~ clause_fits start end_ modifier chunk ->
  FrameSet_init part = Raised OverflowError.
Proof.
  intros Hparse Hfit.
  destruct (clause_alone _ _ Hparse) as [Hstrip Hcl].
  rewrite FrameSet_init_clauses, Hcl. cbn [init_parts].
  by rewrite (init_part_overflow _ _ start end_ modifier chunk).
Qed.

Lemma x_run_subset start stop step f :
  step <> 0 -> f ∈ x_run start stop step -> f ∈ x_run start stop 1.
Proof.
  intros Hstep Hf. apply x_run_elem in Hf as [Hb _]; [|done].
  apply x_run_elem; [done|]. split; [done|]. apply Z.divide_1_l.
Qed.

Lemma staggers_set start stop chunk :
  0 < chunk ->
  list_to_set (concat (map (x_run start stop) (staggers chunk)))
  =@{gset Z} list_to_set (x_run start stop 1).
Proof.
  intros Hc. apply set_eq. intros f. rewrite !elem_of_list_to_set. split.
  - intros Hf. apply list_elem_of_In, in_concat in Hf as (run & Hrun & Hf).
    apply in_map_iff in Hrun as (s & <- & Hs).
    apply x_run_subset with s; [|by apply list_elem_of_In].
    pose proof (staggers_nonzero chunk) as Hnz.
    rewrite Forall_forall in Hnz. apply Hnz. by apply list_elem_of_In.
  - intros Hf. apply list_elem_of_In, in_concat.
    exists (x_run start stop 1). split; [|by apply list_elem_of_In].
    apply in_map_iff. exists 1. split; [done|].
    apply list_elem_of_In. by apply staggers_one.
Qed.

(** ** Frames in order of first occurrence *)

Lemma unique_sublist (seen : gset Z) l : (unique seen l).1 `sublist_of` l.
Proof.
  revert seen. induction l as [|i l IH]; intros seen; simpl; [done|].
  case_bool_decide.
  - apply sublist_cons, IH.
  - specialize (IH ({[i]} ∪ seen)).
    destruct (unique ({[i]} ∪ seen) l) as [out seen']. simpl in *.
    by apply sublist_skip.
Qed.

Lemma unique_all_seen (seen : gset Z) l :
  (forall x, x ∈ l -> x ∈ seen) -> unique seen l = ([], seen).
Proof.
  induction l as [|i l IH]; intros Hall; simpl; [done|].
  rewrite bool_decide_true by (apply Hall; set_solver).
  apply IH. intros x Hx. apply Hall. set_solver.
Qed.

Lemma unique_elem (seen : gset Z) l x :
  x ∈ (unique seen l).1 <-> x ∈ l /\ x ∉ seen.
Proof.
  pose proof (unique_sublist seen l) as Hsub.
  destruct (unique seen l) as [out seen'] eqn:Hu. simpl in *.
  destruct (unique_spec _ _ _ _ Hu) as (H1 & H2 & _ & Hnew). split.
  - intros Hx. split; [by eapply elem_of_sublist|by apply Hnew].
  - intros [Hx Hn].
    assert (Hin : x ∈ seen ∪ list_to_set out) by (rewrite <- H2, H1; set_solver).
    set_solver.
Qed.

Lemma StronglySorted_sublist {A} (R : A -> A -> Prop) l1 l2 :
  l1 `sublist_of` l2 -> StronglySorted R l2 -> StronglySorted R l1.
Proof.
  induction 1 as [|x l1 l2 Hsub IH|x l1 l2 Hsub IH]; intros Hs; [done|..].
  - apply StronglySorted_inv in Hs as [Hs Hx]. constructor; [by apply IH|].
    rewrite Forall_forall in *. intros y Hy. apply Hx.
    by eapply elem_of_sublist.
  - apply StronglySorted_inv in Hs as [Hs _]. by apply IH.
Qed.

(** Sorting first, the frames come out ascending and depend on the set of
    frames only. *)
Lemma unique_sorted (frames : list Z) :
  unique ∅ (sorted frames) =
  (sorted (elements (list_to_set frames : gset Z)), list_to_set frames).
Proof.
  pose proof (unique_sublist ∅ (sorted frames)) as Hsub.
  pose proof (unique_elem ∅ (sorted frames)) as Helem.
  destruct (unique ∅ (sorted frames)) as [out seen'] eqn:Hu. simpl in *.
  destruct (unique_spec _ _ _ _ Hu) as (H1 & _ & Hnd & _).
  f_equal.
  - apply (StronglySorted_unique Z.le).
    + eapply StronglySorted_sublist; [exact Hsub|].
      unfold sorted. apply StronglySorted_merge_sort; apply _.
    + unfold sorted. apply StronglySorted_merge_sort; apply _.
    + apply NoDup_Permutation; [done| |].
      * apply sorted_NoDup, NoDup_elements.
      * intros x. rewrite Helem. unfold sorted.
        rewrite !merge_sort_Permutation, elem_of_elements, elem_of_list_to_set.
        set_solver.
  - rewrite H1, sorted_set. set_solver.
Qed.

Lemma from_iterable_sorted (frames : list Z) :
  from_iterable frames true = from_frozenset (list_to_set frames).
Proof.
  assert (He : list_to_set (elements (list_to_set frames : gset Z))
               =@{gset Z} list_to_set frames)
    by apply leibniz_equiv, list_to_set_elements.
  unfold from_frozenset, from_iterable. rewrite !unique_sorted.
  by rewrite He.
Qed.

Lemma from_iterable_NoDup (frames : list Z) :
  NoDup frames ->
  from_iterable frames false =
  mkFrameSet (framesToFrameRange frames false 0 false)
             (list_to_set frames) frames.
Proof.
  intros Hnd. unfold from_iterable.
  rewrite unique_NoDup by (done || set_solver). f_equal. set_solver.
Qed.

(** ** Splitting a file-sequence string *)

Lemma span_spec p s taken r :
  span p s = (taken, r) ->
  s = taken ++ r /\ Forall (fun c => p c = true) taken /\
  match r with [] => True | c :: _ => p c = false end.
Proof.
  revert taken r. induction s as [|c s IH]; intros taken r; simpl.
  - by intros [= <- <-].
  - destruct (p c) eqn:Hc.
    + destruct (span p s) as [taken' r'] eqn:Hs. intros [= <- <-].
      destruct (IH _ _ eq_refl) as (-> & Hall & Hr).
      split; [done|]. split; [by constructor|done].
    + intros [= <- <-]. split; [done|]. split; [done|]. done.
Qed.

Lemma span_app p taken r :
  Forall (fun c => p c = true) taken ->
  match r with [] => True | c :: _ => p c = false end ->
  span p (taken ++ r) = (taken, r).
Proof.
  intros Hall Hr. induction Hall as [|c taken Hc _ IH]; simpl.
  - destruct r as [|c r]; [done|]. simpl. by rewrite Hr.
  - by rewrite Hc, IH.
Qed.

Lemma pad_not_range c : is_pad_char c = true -> is_range_char c = false.
Proof.
  unfold is_pad_char. intros [Hc|Hc]%orb_true_iff;
    apply Ascii.eqb_eq in Hc; by subst c.
Qed.

Lemma _SPLITTER_RE_match_spec s g1 g2 r :
  _SPLITTER_RE_match s = Some (g1, g2, r) <->
  s = g1 ++ g2 ++ r /\
  Forall (fun c => is_range_char c = true) g1 /\
  Forall (fun c => is_pad_char c = true) g2 /\ g2 <> [] /\
  match r with [] => True | c :: _ => is_pad_char c = false end.
Proof.
  unfold _SPLITTER_RE_match. split.
  - destruct (span is_range_char s) as [a r1] eqn:H1.
    destruct (span is_pad_char r1) as [b r2] eqn:H2.
    apply span_spec in H1 as (-> & Ha & _).
    apply span_spec in H2 as (-> & Hb & Hr).
    destruct b as [|c b]; [done|]. intros [= <- <- <-]. done.
  - intros (-> & H1 & H2 & Hne & Hr).
    rewrite (span_app is_range_char g1 (g2 ++ r)); [|done|].
    + rewrite (span_app is_pad_char g2 r) by done. by destruct g2.
    + destruct g2 as [|c g2]; [done|]. simpl.
      apply Forall_cons in H2 as [Hc _]. by apply pad_not_range.
Qed.

Lemma _SPLITTER_RE_match_none_pad c s :
  _SPLITTER_RE_match (c :: s) = None -> is_pad_char c = false.
Proof.
  intros Hnone. destruct (is_pad_char c) eqn:Hc; [|done].
  unfold _SPLITTER_RE_match in Hnone. simpl in Hnone.
  rewrite (pad_not_range c Hc) in Hnone. simpl in Hnone. rewrite Hc in Hnone.
  by destruct (span is_pad_char s).
Qed.

Lemma _SPLITTER_RE_match_before before rest :
  before <> [] ->
  Forall (fun c => is_pad_char c = false) before ->
  match last before with Some c => is_range_char c = false | None => True end ->
  _SPLITTER_RE_match (before ++ rest) = None.
Proof.
  intros Hne Hpad Hlast.
  assert (Hspan : forall taken r1,
    span is_range_char (before ++ rest) = (taken, r1) ->
    exists c r, r1 = c :: r /\ is_pad_char c = false).
  { induction before as [|c before IH]; [done|].
    apply Forall_cons in Hpad as [Hc Hpad]. intros taken r1. simpl.
    destruct (is_range_char c) eqn:Hrc.
    - destruct before as [|d before]; [simpl in Hlast; congruence|].
      destruct (span is_range_char ((d :: before) ++ rest)) as [t' r'] eqn:Hs.
      intros [= <- <-]. by apply (IH ltac:(done) Hpad Hlast t' r').
    - intros [= <- <-]. eauto. }
  unfold _SPLITTER_RE_match.
  destruct (span is_range_char (before ++ rest)) as [taken r1] eqn:H1.
  destruct (Hspan _ _ eq_refl) as (c & r & -> & Hc). simpl. by rewrite Hc.
Qed.

Lemma _SPLITTER_RE_split_spec s before g1 g2 r :
  _SPLITTER_RE_split s = Some (before, g1, g2, r) <->
  s = before ++ g1 ++ g2 ++ r /\ splits_at before g1 g2 r.
Proof.
  split.
  - revert before. induction s as [|c s IH]; intros before.
    + done.
    + cbn [_SPLITTER_RE_split].
      destruct (_SPLITTER_RE_match (c :: s)) as [[[a b] r']|] eqn:Hm.
      * intros [= <- -> -> ->]. apply _SPLITTER_RE_match_spec in Hm.
        destruct Hm as (Hs & H1 & H2 & Hne & Hr). split; [done|].
        by repeat split.
      * destruct (_SPLITTER_RE_split s) as [[[[b' a] b] r']|] eqn:Hs; [|done].
        intros [= <- -> -> ->].
        destruct (IH _ eq_refl) as (-> & Hb & Hl & H1 & H2 & Hne & Hr).
        split; [done|]. split; [|split; [|done]].
        { constructor; [|done]. by eapply _SPLITTER_RE_match_none_pad. }
        destruct b' as [|d b']; [|exact Hl]. simpl.
        destruct (is_range_char c) eqn:Hc; [|done]. exfalso.
        assert (Hsome : _SPLITTER_RE_match (c :: g1 ++ g2 ++ r)
                        = Some (c :: g1, g2, r)).
        { apply _SPLITTER_RE_match_spec. split; [done|].
          split; [by constructor|done]. }
        simpl in Hm. congruence.
  - intros (-> & Hb & Hl & H1 & H2 & Hne & Hr).
    induction before as [|c before IH].
    + simpl app.
      assert (Hm : _SPLITTER_RE_match (g1 ++ g2 ++ r) = Some (g1, g2, r))
        by (by apply _SPLITTER_RE_match_spec).
      destruct (g1 ++ g2 ++ r); [by vm_compute in Hm|].
      cbn [_SPLITTER_RE_split]. by rewrite Hm.
    + apply Forall_cons in Hb as Hb'. destruct Hb' as [Hc Hb'].
      change ((c :: before) ++ g1 ++ g2 ++ r)
        with (c :: before ++ g1 ++ g2 ++ r).
      cbn [_SPLITTER_RE_split].
      change (c :: before ++ g1 ++ g2 ++ r)
        with ((c :: before) ++ g1 ++ g2 ++ r).
      rewrite _SPLITTER_RE_match_before by done.
      rewrite IH; [done|done|]. destruct before as [|d before]; [done|].
      exact Hl.
Qed.

Lemma _SPLITTER_RE_split_none s :
  _SPLITTER_RE_split s = None <-> Forall (fun c => is_pad_char c = false) s.
Proof.
  split.
  - induction s as [|c s IH]; [done|]. cbn [_SPLITTER_RE_split].
    destruct (_SPLITTER_RE_match (c :: s)) as [[[a b] r']|] eqn:Hm; [done|].
    destruct (_SPLITTER_RE_split s) as [[[[b' a] b] r']|] eqn:Hs; [done|].
    intros _. constructor; [by eapply _SPLITTER_RE_match_none_pad|by apply IH].
  - intros Hall.
    destruct (_SPLITTER_RE_split s) as [[[[before g1] g2] r]|] eqn:Hs; [|done].
    apply _SPLITTER_RE_split_spec in Hs as (-> & _ & _ & _ & H2 & Hne & _).
    destruct g2 as [|c g2]; [done|]. apply Forall_cons in H2 as [Hc _].
    rewrite !Forall_app in Hall. destruct Hall as (_ & _ & Hall & _).
    apply Forall_cons in Hall as [Hc' _]. congruence.
Qed.

(** ** Building a file sequence *)

Lemma is_pad_char_cases c :
  is_pad_char c = true <-> c = "#"%char \/ c = "@"%char.
Proof.
  unfold is_pad_char. rewrite orb_true_iff, !Ascii.eqb_eq. done.
Qed.

Lemma is_pad_char_keys c : is_pad_char c = true <-> c ∈ _PADDING_keys.
Proof.
  rewrite is_pad_char_cases. unfold _PADDING_keys. simpl.
  rewrite !elem_of_cons, elem_of_nil. naive_solver.
Qed.

Lemma count_char_cons c d s :
  count_char c (d :: s) = (if decide (d = c) then 1 else 0) + count_char c s.
Proof.
  unfold count_char. rewrite filter_cons.
  destruct (decide (d = c)); simpl; lia.
Qed.

Lemma count_char_nonneg c s : 0 <= count_char c s.
Proof. unfold count_char. lia. Qed.

Lemma padding_sum_pad padding :
  Forall (fun c => is_pad_char c = true) padding ->
  padding_sum padding =
  Done (4 * count_char "#" padding + count_char "@" padding).
Proof.
  induction 1 as [|c padding Hc _ IH]; [done|].
  cbn [padding_sum]. rewrite IH, !count_char_cons.
  apply is_pad_char_cases in Hc as [-> | ->]; simpl; f_equal; lia.
Qed.

Lemma padding_sum_positive padding :
  padding <> [] -> Forall (fun c => is_pad_char c = true) padding ->
  1 <= 4 * count_char "#" padding + count_char "@" padding.
Proof.
  intros Hne Hall. destruct Hall as [|c padding Hc _]; [done|].
  rewrite !count_char_cons.
  pose proof (count_char_nonneg "#" padding).
  pose proof (count_char_nonneg "@" padding).
  apply is_pad_char_cases in Hc as [-> | ->]; simpl; lia.
Qed.

Lemma padding_sum_cases padding :
  (Forall (fun c => is_pad_char c = true) padding /\
   padding_sum padding =
   Done (4 * count_char "#" padding + count_char "@" padding)) \/
  (exists pre key post,
     padding = pre ++ key :: post /\
     Forall (fun c => is_pad_char c = true) pre /\
     is_pad_char key = false /\ padding_sum padding = KeyError key).
Proof.
  induction padding as [|c padding IH].
  - left. by split.
  - destruct (is_pad_char c) eqn:Hc.
    + destruct IH as [[Hall Hsum] | (pre & key & post & -> & Hpre & Hkey & Hsum)].
      * left. split; [by constructor|]. apply padding_sum_pad. by constructor.
      * right. exists (c :: pre), key, post. split; [done|].
        split; [by constructor|]. split; [done|]. cbn [padding_sum].
        rewrite Hsum. apply is_pad_char_cases in Hc as [-> | ->]; done.
    + right. exists [], c, padding. split; [done|]. split; [done|].
      split; [done|]. cbn [padding_sum]. unfold _PADDING.
      unfold is_pad_char in Hc. apply orb_false_iff in Hc as [-> ->]. done.
Qed.

Lemma FrameSet_init_outcome s :
  (exists fs, FrameSet_init s = Returned fs /\ isFrameRange s = true) \/
  (exists msg, FrameSet_init s = Raised (ParseException msg) /\
               isFrameRange s = false /\
               exists bad, msg = msg_no_match bad \/ msg = msg_zero_chunk bad) \/
  FrameSet_init s = Raised OverflowError.
Proof.
  destruct (FrameSet_init_cases s) as [[Hall (fs & Hfs & _)] |
    (good & bad & rest & Hcl & Hg &
     [(Hb & msg & Hr & _ & Hmsg) | (Hb & Hr)])].
  - left. exists fs. split; [done|]. apply isFrameRange_spec.
    eapply Forall_impl; [exact Hall|]. intros p. apply taken_not_rejected.
  - right. left. exists msg. split; [done|]. split; [|eauto].
    destruct (isFrameRange s) eqn:Hf; [|done].
    apply isFrameRange_spec in Hf. rewrite Hcl in Hf.
    apply Forall_app in Hf as [_ Hf]. apply Forall_cons in Hf as [Hbad _]. done.
  - by right; right.
Qed.

(** What the constructor does once the string is cut in four. *)
Lemma FileSequence_init_parts sequence filename frame_ids padding extension :
  _SPLITTER_RE_split sequence = Some (filename, frame_ids, padding, extension) ->
  FileSequence_init sequence =
  let zfill := 4 * count_char "#" padding + count_char "@" padding in
  match frame_ids with
  | [] =>
      Done (mkFileSequence (directory_of filename) (os_path_split filename).2
                           None padding extension zfill)
  | _ =>
      match FrameSet_init frame_ids with
      | Returned fs =>
          Done (mkFileSequence (directory_of filename)
                               (os_path_split filename).2
                               (Some fs) padding extension zfill)
      | Raised e => Fails e
      | NotImplemented => Fails TypeError
      end
  end.
Proof.
  intros Hsplit. unfold FileSequence_init, directory_of. rewrite Hsplit.
  apply _SPLITTER_RE_split_spec in Hsplit as (_ & _ & _ & _ & Hpad & _).
  destruct (os_path_split filename) as [directory basename]. cbn [fst snd].
  rewrite (padding_sum_pad padding Hpad).
  destruct frame_ids as [|c ids]; [by destruct directory|].
  destruct (FrameSet_init (c :: ids)) as [fs| |e]; cbn [bind];
    by destruct directory.
Qed.

Lemma os_path_splitext_app p :
  (os_path_splitext p).1 ++ (os_path_splitext p).2 = p.
Proof.
  unfold os_path_splitext. destruct (_ <? _); [|by rewrite app_nil_r].
  destruct (forallb _ _); simpl; [by rewrite app_nil_r|apply take_drop].
Qed.

(** What the constructor does with a string without padding characters. *)
Lemma FileSequence_init_solitary sequence :
  Forall (fun c => is_pad_char c = false) sequence ->
  FileSequence_init sequence =
  Done (mkFileSequence (directory_of (os_path_splitext sequence).1)
                       (os_path_split (os_path_splitext sequence).1).2
                       None [] (os_path_splitext sequence).2 0).
Proof.
  intros Hall. unfold FileSequence_init, directory_of.
  rewrite (proj2 (_SPLITTER_RE_split_none sequence) Hall).
  assert (Hex : existsb (fun placeholder => bool_decide (placeholder ∈ sequence))
                        _PADDING_keys = false).
  { apply not_true_is_false. intros Hex. apply existsb_exists in Hex.
    destruct Hex as (c & Hc & Hin). apply bool_decide_eq_true in Hin.
    apply list_elem_of_In, is_pad_char_keys in Hc.
    rewrite Forall_forall in Hall. specialize (Hall c Hin). congruence. }
  rewrite Hex. destruct (os_path_splitext sequence) as [filename extension].
  cbn [fst snd]. destruct (os_path_split filename) as [directory basename].
  cbn [fst snd bind padding_sum]. by destruct directory.
Qed.

Lemma range_chars_stripped ids :
  Forall (fun c => is_range_char c = true) ids ->
  translate_delete _PADDING_keys ids = ids.
Proof.
  intros Hall. apply translate_delete_id.
  eapply Forall_impl; [exact Hall|]. intros c Hc Hin.
  apply is_pad_char_keys, pad_not_range in Hin. congruence.
Qed.

(** ** Padding characters and widths *)

Lemma padding_sum_repeat_hash n :
  padding_sum (repeat "#"%char n) = Done (4 * Z.of_nat n).
Proof.
  induction n as [|n IH]; [done|]. cbn [repeat padding_sum]. rewrite IH.
  simpl _PADDING. f_equal. lia.
Qed.

Lemma padding_sum_repeat_at n :
  padding_sum (repeat "@"%char n) = Done (Z.of_nat n).
Proof.
  induction n as [|n IH]; [done|]. cbn [repeat padding_sum]. rewrite IH.
  simpl _PADDING. f_equal. lia.
Qed.

Lemma padding_sum_getPaddingChars num :
  padding_sum (getPaddingChars num) = Done (if num =? 0 then 1 else Z.max num 0).
Proof.
  unfold getPaddingChars. destruct (Z.eqb_spec num 0) as [->|Hne]; [done|].
  destruct (Z.eqb_spec (num mod 4) 0) as [Hmod|Hmod].
  - rewrite padding_sum_repeat_hash. f_equal.
    apply Z.div_exact in Hmod; [|lia]. lia.
  - rewrite padding_sum_repeat_at. f_equal. lia.
Qed.

(** ** The paths of a file sequence *)

Lemma pad_inj f g width : pad (Some f) width = pad (Some g) width -> f = g.
Proof.
  intros Heq.
  destruct (pad_literal_form f width) as (sg1 & d1 & H1 & _ & <-).
  destruct (pad_literal_form g width) as (sg2 & d2 & H2 & _ & <-).
  by rewrite <- H1, <- H2, Heq.
Qed.

Lemma FileSequence_frame_inj self f g :
  __zfill self <> 0 ->
  FileSequence_frame self f = FileSequence_frame self g -> f = g.
Proof.
  intros Hz. unfold FileSequence_frame.
  destruct (Z.eqb_spec (__zfill self) 0) as [?|_]; [done|].
  intros Heq. do 2 apply app_inv_head in Heq. apply app_inv_tail in Heq.
  by apply (pad_inj f g (__zfill self)).
Qed.

(** ** Paths without a directory and paths under the root *)

Lemma rfind_from_absent c s i found :
  c ∉ s -> rfind_from c s i found = found.
Proof.
  revert i found. induction s as [|d s IH]; intros i found Hc; [done|].
  simpl. apply not_elem_of_cons in Hc as [Hd Hc].
  destruct (Ascii.eqb_spec d c) as [->|_]; [done|]. by apply IH.
Qed.

Lemma os_path_split_no_slash p :
  "/"%char ∉ p -> os_path_split p = ([], p).
Proof.
  intros Hp. unfold os_path_split, rfind. by rewrite rfind_from_absent.
Qed.

Lemma os_path_split_root p :
  "/"%char ∉ p -> os_path_split ("/"%char :: p) = (["/"%char], p).
Proof.
  intros Hp. unfold os_path_split, rfind. cbn [rfind_from].
  rewrite Ascii.eqb_refl, rfind_from_absent by done. done.
Qed.

Lemma rfind_from_lower c s i found :
  found < i -> found <= rfind_from c s i found.
Proof.
  revert i found. induction s as [|d s IH]; intros i found Hi; simpl; [lia|].
  destruct (Ascii.eqb d c).
  - etrans; [|apply IH; lia]. lia.
  - apply IH. lia.
Qed.

Lemma os_path_splitext_root rest :
  (os_path_splitext ("/"%char :: rest)).1 <> [].
Proof.
  unfold os_path_splitext, rfind. cbn [rfind_from]. rewrite Ascii.eqb_refl.
  change (Ascii.eqb "/" ".") with false. cbn iota. change (0 + 1) with 1.
  pose proof (rfind_from_lower "/" rest 1 0 ltac:(lia)) as Hsep.
  destruct (Z.ltb_spec (rfind_from "/" rest 1 0)
                       (rfind_from "." rest 1 (-1))) as [Hlt|_]; [|done].
  destruct (forallb _ _); [done|]. cbn [fst].
  destruct (Z.to_nat (rfind_from "." rest 1 (-1))) as [|n] eqn:Hn; [lia|].
  done.
Qed.

(** What [str] gives for a sequence the constructor built. *)
Lemma FileSequence_str_built sequence seq :
  FileSequence_init sequence = Done seq ->
  (forall fs, __frameSet seq = Some fs -> _order fs <> []) ->
  exists filename tail,
    sequence = filename ++ tail /\
    FileSequence___str__ seq =
      directory_of filename ++ (os_path_split filename).2 ++ tail /\
    (forall rest, sequence = "/"%char :: rest -> filename <> []).
Proof.
  intros Hinit Hframes.
  destruct (_SPLITTER_RE_split sequence) as [[[[before ids] padding] rest]|]
    eqn:Hsplit.
  - rewrite (FileSequence_init_parts _ _ _ _ _ Hsplit) in Hinit.
    apply _SPLITTER_RE_split_spec in Hsplit
      as (Hs & _ & _ & Hids & Hpad & Hne & _).
    exists before, (ids ++ padding ++ rest). split; [done|]. split.
    + cbn zeta in Hinit. destruct ids as [|c ids].
      * injection Hinit as <-. done.
      * destruct (FrameSet_init (c :: ids)) as [fs| |e] eqn:Hfs; [|done..].
        injection Hinit as <-. unfold FileSequence___str__.
        cbn [__dir __basename __frameSet __padding __ext].
        unfold FrameSet___len__, FrameSet___str__.
        specialize (Hframes fs eq_refl).
        destruct (_order fs) as [|f order]; [done|]. simpl Z.eqb. cbn iota.
        apply FrameSet_init_frange in Hfs as [-> _].
        by rewrite range_chars_stripped.
    + intros rest' Hroot ->. rewrite Hroot in Hs. simpl in Hs.
      destruct ids as [|c ids].
      * destruct padding as [|c padding]; [done|]. injection Hs as <- _.
        by apply Forall_cons in Hpad as [Hc _].
      * injection Hs as <- _. by apply Forall_cons in Hids as [Hc _].
  - apply _SPLITTER_RE_split_none in Hsplit.
    rewrite (FileSequence_init_solitary _ Hsplit) in Hinit.
    injection Hinit as <-.
    exists (os_path_splitext sequence).1, (os_path_splitext sequence).2.
    split; [by rewrite os_path_splitext_app|]. split; [done|].
    intros rest ->. apply os_path_splitext_root.
Qed.

(** ** Padding what the run compressor wrote *)

Lemma padFrameRange_clause_shaped zfill part after :
  shaped part -> after_ok after ->
  padFrameRange (part ++ after) zfill =
  pad_part zfill part ++ padFrameRange after zfill.
Proof.
  intros [-> | (g & nl & Hshape)] Hafter; [done|].
  pose proof (range_match_of_shape _ _ _ Hshape) as Hm.
  destruct (pad_match_clause zfill _ _ _ after Hshape Hafter)
    as (groups & Hpad & Hdo).
  rewrite (padFrameRange_match _ _ _ _ Hpad), Hdo.
  rewrite (pad_part_shape zfill _ _ _ Hm Hshape).
  apply clause_shape_body in Hshape as [_ Hnl].
  rewrite padFrameRange_tail by done.
  by repeat (rewrite <- app_assoc || simpl).
Qed.

Lemma padFrameRange_join_shaped zfill parts :
  Forall shaped parts ->
  padFrameRange (join (T ",") parts) zfill =
  join (T ",") (map (pad_part zfill) parts).
Proof.
  induction parts as [|p [|q ps] IH]; intros Hall.
  - done.
  - apply Forall_cons in Hall as [Hp _]. simpl.
    rewrite <- (app_nil_r p) at 1.
    rewrite padFrameRange_clause_shaped by (try done; by left).
    by rewrite padFrameRange_nil, app_nil_r.
  - apply Forall_cons in Hall as [Hp Hall].
    rewrite join_cons_cons. simpl map. rewrite join_cons_cons.
    rewrite padFrameRange_clause_shaped by (try done; right; by eexists).
    f_equal. simpl. rewrite padFrameRange_comma. f_equal. by apply IH.
Qed.

Lemma str_int_digits z :
  0 <= z -> literal [] (str_int z).
Proof.
  intros Hz. destruct (str_int_literal z) as (sg & ds & Hs & Hl & Hsg & _).
  rewrite (Hsg Hz) in *. by rewrite Hs.
Qed.

Lemma pad_nonneg z width :
  0 <= z -> pad (Some z) width = pad_literal width (str_int z).
Proof.
  intros Hz. pose proof (str_int_digits z Hz) as Hl.
  pose proof (pad_literal_literal width [] (str_int z) Hl) as Hp.
  simpl in Hp. by rewrite Hp.
Qed.

(** A token written without padding, padded afterwards, is the token
    written with padding, when none of its numbers is negative. *)
Lemma _build_frange_part_padded start stop stride width :
  (forall x, start = Some x -> 0 <= x) ->
  (forall x, stop = Some x -> 0 <= x) ->
  (forall d, stride = Some d -> 0 <= d) ->
  (stop <> None -> start <> None) ->
  shaped (_build_frange_part start stop stride 0) /\
  pad_part width (_build_frange_part start stop stride 0)
  = _build_frange_part start stop stride width.
Proof.
  intros Hs Hl Hd Hsome. destruct stop as [l|]; [|by split; [left|]].
  destruct start as [s|]; [|by destruct Hsome].
  specialize (Hs s eq_refl). specialize (Hl l eq_refl).
  pose proof (str_int_digits s Hs) as Hls.
  pose proof (str_int_digits l Hl) as Hll.
  assert (Hp0 : forall z, pad (Some z) 0 = str_int z)
    by (intros z; unfold pad; simpl; apply zfill_zero).
  assert (Hsingle :
    shaped (pad (Some s) 0) /\
    pad_part width (pad (Some s) 0) = pad (Some s) width).
  { rewrite Hp0.
    assert (Hshape : clause_shape (str_int s)
              (RangeGroups (str_int s) None None None) []).
    { pose proof (shape_single [] (str_int s) [] Hls eq_refl) as H.
      simpl in H. by rewrite app_nil_r in H. }
    split; [right; eauto|].
    rewrite (pad_part_shape width _ _ _
               (range_match_of_shape _ _ _ Hshape) Hshape).
    cbn [g_start g_end]. rewrite !app_nil_r. by rewrite pad_nonneg. }
  unfold _build_frange_part. destruct stride as [d|]; [|done].
  case_bool_decide; [done|]. specialize (Hd d eq_refl).
  pose proof (str_int_digits d Hd) as Hld.
  rewrite !Hp0.
  destruct (Z.abs d =? 1).
  - assert (Hshape : clause_shape (str_int s ++ T "-" ++ str_int l)
              (RangeGroups (str_int s) (Some (str_int l)) None None) []).
    { pose proof (shape_range [] (str_int s) [] (str_int l) [] Hls Hll eq_refl)
        as Hsh. simpl in Hsh. by rewrite app_nil_r in Hsh. }
    split; [right; eauto|].
    rewrite (pad_part_shape width _ _ _
               (range_match_of_shape _ _ _ Hshape) Hshape).
    cbn [g_start g_end]. unfold modifier_text. cbn [g_modifier g_chunk].
    rewrite !app_nil_r. by rewrite !pad_nonneg.
  - assert (Hshape : clause_shape
              (str_int s ++ T "-" ++ str_int l ++ T "x" ++ str_int d)
              (RangeGroups (str_int s) (Some (str_int l)) (Some "x"%char)
                           (Some (str_int d))) []).
    { pose proof (shape_modified [] (str_int s) [] (str_int l) "x"%char
                    (str_int d) [] Hls Hll eq_refl Hld eq_refl) as Hsh.
      simpl in Hsh. by rewrite app_nil_r in Hsh. }
    split; [right; eauto|].
    rewrite (pad_part_shape width _ _ _
               (range_match_of_shape _ _ _ Hshape) Hshape).
    cbn [g_start g_end]. unfold modifier_text. cbn [g_modifier g_chunk].
    rewrite !app_nil_r. rewrite !pad_nonneg by done.
    by repeat (rewrite <- app_assoc || simpl).
Qed.

Lemma run_step_zfill width st f :
  nonneg_state st -> 0 <= f ->
  (run_step width st f).1 = (run_step 0 st f).1 /\
  nonneg_state (run_step 0 st f).1 /\
  Forall2 (fun t0 tw => shaped t0 /\ pad_part width t0 = tw)
          (run_step 0 st f).2 (run_step width st f).2.
Proof.
  intros (H1 & H2 & H3 & H4 & H5 & H6) Hf. unfold run_step.
  destruct (curr_start st) as [s|] eqn:Hs.
  - specialize (H1 s eq_refl). specialize (H6 ltac:(done)). cbv zeta.
    destruct (_ =? _); [|destruct (_ =? _)%nat]; cbn [fst snd].
    + split; [done|]. split; [|constructor].
      repeat split; cbn; try done; intros x [= <-]; try done.
      destruct (curr_stride st) as [d|]; simpl; [by apply H4|lia].
    + split; [done|]. split.
      * repeat split; cbn; try done; intros x [= <-]; try done. lia.
      * constructor; [|constructor].
        apply _build_frange_part_padded; try done; by intros x [= <-].
    + split; [done|]. split.
      * repeat split; cbn; try done; by intros x [= <-].
      * constructor; [|constructor].
        apply _build_frange_part_padded; try done.
        -- by intros x [= <-].
        -- intros d [= <-].
           destruct (curr_stride st) as [d|]; simpl; [by apply H4|lia].
  - cbn [fst snd]. split; [done|]. split; [|constructor].
    repeat split; cbn; try done; by intros x [= <-].
Qed.

Lemma run_loop_zfill width frames st :
  nonneg_state st -> Forall (fun f => 0 <= f) frames ->
  (run_loop width st frames).1 = (run_loop 0 st frames).1 /\
  nonneg_state (run_loop 0 st frames).1 /\
  Forall2 (fun t0 tw => shaped t0 /\ pad_part width t0 = tw)
          (run_loop 0 st frames).2 (run_loop width st frames).2.
Proof.
  intros Hst Hall. revert st Hst.
  induction Hall as [|f frames Hf _ IH]; intros st Hst;
    [split; [done|]; split; [done|constructor]|].
  cbn [run_loop].
  destruct (run_step_zfill width st f Hst Hf) as (Hs1 & Hn1 & Ho1).
  destruct (run_step width st f) as [stw outw].
  destruct (run_step 0 st f) as [st0 out0]. cbn [fst snd] in *. subst stw.
  destruct (IH st0 Hn1) as (Hs2 & Hn2 & Ho2).
  destruct (run_loop width st0 frames) as [stw2 outw2].
  destruct (run_loop 0 st0 frames) as [st02 out02]. cbn [fst snd] in *.
  split; [done|]. split; [done|]. by apply Forall2_app.
Qed.

Lemma Forall2_padded width toks0 toksw :
  Forall2 (fun t0 tw => shaped t0 /\ pad_part width t0 = tw) toks0 toksw ->
  Forall shaped toks0 /\ map (pad_part width) toks0 = toksw.
Proof.
  induction 1 as [|t0 tw toks0 toksw [Hs Hp] _ [IH1 IH2]]; [done|].
  split; [by constructor|]. simpl. by rewrite Hp, IH2.
Qed.

Lemma framesToFrameRanges_zfill width frames :
  Forall (fun f => 0 <= f) frames ->
  Forall shaped (framesToFrameRanges frames 0) /\
  map (pad_part width) (framesToFrameRanges frames 0)
  = framesToFrameRanges frames width.
Proof.
  intros Hall.
  assert (Hinit : nonneg_state run_init) by (by repeat split).
  destruct (run_loop_zfill width frames run_init Hinit Hall)
    as (Hs & (H1 & H2 & H3 & H4 & H5 & H6) & Hout).
  unfold framesToFrameRanges.
  destruct (run_loop width run_init frames) as [stw outw].
  destruct (run_loop 0 run_init frames) as [st0 out0]. cbn [fst snd] in *.
  subst stw. apply Forall2_padded, Forall2_app; [done|].
  unfold run_flush. destruct (_ =? _)%nat.
  - constructor; [|constructor; [|constructor]];
      apply _build_frange_part_padded; done.
  - constructor; [|constructor].
    apply _build_frange_part_padded; done.
Qed.

Lemma sorted_nonneg frames :
  Forall (fun f => 0 <= f) frames -> Forall (fun f => 0 <= f) (sorted frames).
Proof. unfold sorted. by rewrite merge_sort_Permutation. Qed.

Lemma unique_nonneg (seen : gset Z) frames :
  Forall (fun f => 0 <= f) frames ->
  Forall (fun f => 0 <= f) (unique seen frames).1.
Proof.
  rewrite !Forall_forall. intros Hall x Hx.
  apply Hall. eapply elem_of_sublist; [exact Hx|apply unique_sublist].
Qed.

(** ** Empty clauses *)

Lemma init_parts_nonempty st parts :
  init_parts st (filter (fun p => p <> []) parts) = init_parts st parts.
Proof.
  revert st. induction parts as [|p parts IH]; intros st; [done|].
  rewrite filter_cons. destruct (decide (p <> [])) as [Hp|Hp].
  - simpl. destruct (init_part st p) as [st'| |e]; simpl; [apply IH|done..].
  - apply dec_stable in Hp. subst p. simpl. apply IH.
Qed.

Lemma split_chars (P : ascii -> Prop) s :
  Forall P s -> Forall (Forall P) (split "," s).
Proof.
  induction 1 as [|c s Hc _ IH]; simpl; [by repeat constructor|].
  destruct (Ascii.eqb c ","); [by constructor|].
  destruct (split "," s) as [|p ps]; [by repeat constructor|].
  apply Forall_cons in IH as [Hp Hps]. constructor; [by constructor|done].
Qed.

Lemma split_no_commas s :
  Forall (Forall (fun c => c <> ","%char)) (split "," s).
Proof.
  induction s as [|c s IH]; simpl; [by repeat constructor|].
  destruct (Ascii.eqb_spec c ",") as [->|Hc]; [by constructor|].
  destruct (split "," s) as [|p ps]; [by repeat constructor|].
  apply Forall_cons in IH as [Hp Hps]. constructor; [by constructor|done].
Qed.

Lemma translate_delete_chars d s :
  Forall (fun c => c ∉ d) (translate_delete d s).
Proof.
  unfold translate_delete. apply Forall_forall. intros c Hc.
  by apply list_elem_of_filter in Hc as [Hc _].
Qed.

Lemma clauses_plain s : Forall (Forall plain_char) (clauses s).
Proof.
  unfold clauses.
  pose proof (split_no_commas (translate_delete _PADDING_keys s)) as H1.
  pose proof (split_chars (fun c => c ∉ _PADDING_keys) _
                (translate_delete_chars _PADDING_keys s)) as H2.
  rewrite Forall_forall in *. intros p Hp.
  specialize (H1 p Hp). specialize (H2 p Hp).
  rewrite Forall_forall in *. intros c Hc. split; [by apply H1|by apply H2].
Qed.

(** The clauses of a string joined from plain parts are the parts. *)
Lemma clauses_join_plain parts :
  parts <> [] -> Forall (Forall plain_char) parts ->
  translate_delete _PADDING_keys (join (T ",") parts) = join (T ",") parts /\
  clauses (join (T ",") parts) = parts.
Proof.
  intros Hne Hplain.
  assert (Hstrip : translate_delete _PADDING_keys (join (T ",") parts)
                   = join (T ",") parts).
  { apply translate_delete_id.
    apply (join_chars (fun c => c ∉ _PADDING_keys)).
    - intros Hin. by apply is_padding_char_keys in Hin as [? | ?].
    - eapply Forall_impl; [exact Hplain|]. intros p Hp.
      eapply Forall_impl; [exact Hp|]. by intros c [_ Hc]. }
  split; [done|]. unfold clauses. rewrite Hstrip. apply split_join; [done|].
  eapply Forall_impl; [exact Hplain|]. intros p Hp.
  eapply Forall_impl; [exact Hp|]. by intros c [Hc _].
Qed.

(** ** The pieces of a file sequence *)

Lemma lstrip_chars (P : ascii -> Prop) c s :
  Forall P s -> Forall P (lstrip c s).
Proof.
  induction 1 as [|d s Hd Hs IH]; simpl; [done|].
  destruct (Ascii.eqb d c); [done|by constructor].
Qed.

Lemma os_path_split_chars (P : ascii -> Prop) p :
  Forall P p -> Forall P (os_path_split p).1 /\ Forall P (os_path_split p).2.
Proof.
  intros Hp. unfold os_path_split. cbn [fst snd]. split; [|by apply Forall_drop].
  destruct (_ && _).
  - unfold rstrip. apply Forall_reverse, lstrip_chars, Forall_reverse.
    by apply Forall_take.
  - by apply Forall_take.
Qed.

Lemma directory_of_cases filename :
  directory_of filename = [] \/
  exists directory, directory_of filename = directory ++ T "/" /\
                    (os_path_split filename).1 = directory.
Proof.
  unfold directory_of. destruct (os_path_split filename).1; [by left|].
  right. eauto.
Qed.

Lemma name_chars filename :
  Forall (fun c => is_pad_char c = false) filename ->
  Forall (fun c => is_pad_char c = false)
         (directory_of filename ++ (os_path_split filename).2).
Proof.
  intros Hall.
  destruct (os_path_split_chars (fun c => is_pad_char c = false) filename Hall)
    as [Hd Hb].
  apply Forall_app. split; [|done].
  destruct (directory_of_cases filename) as [-> | (d & -> & Heq)]; [done|].
  apply Forall_app. split; [by rewrite <- Heq|]. by repeat constructor.
Qed.

Lemma name_ends_plain filename :
  ends_plain filename ->
  ends_plain (directory_of filename ++ (os_path_split filename).2).
Proof.
  unfold ends_plain. intros Hends. rewrite last_app.
  destruct (last (os_path_split filename).2) as [c|] eqn:Hlast.
  - unfold os_path_split in Hlast. cbn [snd] in Hlast.
    rewrite <- (take_drop (Z.to_nat (rfind "/" filename + 1)) filename) in Hends.
    rewrite last_app, Hlast in Hends. done.
  - destruct (directory_of_cases filename) as [-> | (d & -> & _)]; [done|].
    change (T "/") with ["/"%char]. by rewrite last_snoc.
Qed.

(** What the constructor has built, in each of its two cases. *)
Lemma FileSequence_init_built sequence seq :
  FileSequence_init sequence = Done seq ->
  exists filename tail,
    sequence = filename ++ tail /\
    __dir seq = directory_of filename /\
    __basename seq = (os_path_split filename).2 /\
    (built_solitary seq /\ tail = __ext seq /\
     Forall (fun c => is_pad_char c = false) sequence \/
     built_with_padding seq).
Proof.
  intros Hinit.
  destruct (_SPLITTER_RE_split sequence) as [[[[before ids] padding] rest]|]
    eqn:Hsplit.
  - rewrite (FileSequence_init_parts _ _ _ _ _ Hsplit) in Hinit.
    apply _SPLITTER_RE_split_spec in Hsplit
      as (Hs & Hb & Hl & Hids & Hpad & Hne & Hr).
    exists before, (ids ++ padding ++ rest). split; [done|].
    assert (Hbuilt : forall frameSet,
      match frameSet with
      | None => True
      | Some fs => Forall (fun c => is_range_char c = true) (_frange fs) /\
                   FrameSet_init (_frange fs) = Returned fs
      end ->
      built_with_padding
        (mkFileSequence (directory_of before) (os_path_split before).2
           frameSet padding rest
           (4 * count_char "#" padding + count_char "@" padding))).
    { intros frameSet Hfs. unfold built_with_padding.
      cbn [__dir __basename __padding __ext __zfill __frameSet].
      split; [by apply name_chars|]. split; [by apply name_ends_plain|].
      done. }
    cbn zeta in Hinit. destruct ids as [|c ids].
    + injection Hinit as <-. split; [done|]. split; [done|]. right.
      by apply Hbuilt.
    + destruct (FrameSet_init (c :: ids)) as [fs| |e] eqn:Hfs; [|done..].
      injection Hinit as <-. split; [done|]. split; [done|]. right.
      apply Hbuilt.
      assert (Hfr : _frange fs = c :: ids).
      { apply FrameSet_init_frange in Hfs as [-> _].
        by apply range_chars_stripped. }
      by rewrite Hfr.
  - apply _SPLITTER_RE_split_none in Hsplit.
    rewrite (FileSequence_init_solitary _ Hsplit) in Hinit.
    injection Hinit as <-.
    exists (os_path_splitext sequence).1, (os_path_splitext sequence).2.
    split; [by rewrite os_path_splitext_app|]. split; [done|].
    split; [done|]. left. split; [|done]. unfold built_solitary.
    cbn [__dir __basename __padding __ext __zfill __frameSet].
    split; [|done]. rewrite app_assoc. apply Forall_app.
    rewrite <- (os_path_splitext_app sequence) in Hsplit.
    apply Forall_app in Hsplit as [Hf He]. split; [by apply name_chars|done].
Qed.

Lemma clause_char_range c : clause_char c -> is_range_char c = true.
Proof.
  unfold is_range_char. intros [Hd | [-> | Hm]].
  - rewrite Hd. by rewrite !orb_true_r.
  - done.
  - unfold is_modifier in Hm.
    apply orb_true_iff in Hm as [Hm | Hm];
      [apply orb_true_iff in Hm as [Hm | Hm]|];
      apply Ascii.eqb_eq in Hm; by subst c.
Qed.

(** A padded clause of a run of range characters is one too. *)
Lemma pad_part_range_chars zfill part :
  ~ rejected part ->
  Forall (fun c => is_range_char c = true) part ->
  Forall (fun c => is_range_char c = true) (pad_part zfill part).
Proof.
  intros Hgood Hall. destruct part as [|c0 part]; [done|].
  destruct (_RANGE_RE_match (c0 :: part)) as [g|] eqn:Hm.
  2:{ destruct Hgood. split; [done|by left]. }
  destruct (range_match_shape _ _ Hm) as [nl Hshape].
  assert (Hnl : nl = []).
  { destruct (clause_shape_body _ _ _ Hshape) as [Hpart Hend].
    apply re_at_end_cases in Hend as [-> | ->]; [done|].
    rewrite Hpart in Hall. apply Forall_app in Hall as [_ Hall].
    by apply Forall_cons in Hall as [Hc _]. }
  subst nl. apply (clause_shape_padded zfill) in Hshape.
  eapply Forall_impl; [by eapply clause_shape_chars|].
  apply clause_char_range.
Qed.

(** The sequence the loop of [split] builds for one clause. *)
Lemma piece_with_padding seq frange :
  built_with_padding seq ->
  Forall (fun c => is_range_char c = true) frange ->
  FileSequence_init (__dir seq ++ __basename seq ++ frange
                     ++ __padding seq ++ __ext seq) =
  match frange with
  | [] =>
      Done (mkFileSequence (directory_of (__dir seq ++ __basename seq))
              (os_path_split (__dir seq ++ __basename seq)).2
              None (__padding seq) (__ext seq) (__zfill seq))
  | _ =>
      match FrameSet_init frange with
      | Returned fs =>
          Done (mkFileSequence (directory_of (__dir seq ++ __basename seq))
                  (os_path_split (__dir seq ++ __basename seq)).2
                  (Some fs) (__padding seq) (__ext seq) (__zfill seq))
      | Raised e => Fails e
      | NotImplemented => Fails TypeError
      end
  end.
Proof.
  intros (Hname & Hends & Hne & Hpad & Hext & Hz & _) Hfr.
  assert (Hsplit : _SPLITTER_RE_split
            ((__dir seq ++ __basename seq) ++ frange
             ++ __padding seq ++ __ext seq)
          = Some (__dir seq ++ __basename seq, frange,
                  __padding seq, __ext seq)).
  { apply _SPLITTER_RE_split_spec. split; [done|]. by repeat split. }
  rewrite <- app_assoc in Hsplit.
  rewrite (FileSequence_init_parts _ _ _ _ _ Hsplit). cbn zeta.
  by rewrite <- Hz.
Qed.

Lemma split_pieces_clauses seq parts :
  built_with_padding seq ->
  Forall taken parts ->
  Forall (Forall (fun c => is_range_char c = true)) parts ->
  exists pieces,
    split_pieces seq (map (pad_part (__zfill seq)) parts) = Done pieces /\
    length pieces = length parts /\
    Forall (fun piece =>
              __dir piece = directory_of (__dir seq ++ __basename seq) /\
              __basename piece
              = (os_path_split (__dir seq ++ __basename seq)).2 /\
              __padding piece = __padding seq /\ __ext piece = __ext seq /\
              __zfill piece = __zfill seq) pieces /\
    forall st st',
      init_parts st parts = Returned st' ->
      st'.1 = st.1 ∪ ⋃ (map FileSequence_frames pieces).
Proof.
  intros Hbuilt Hgood Hrange.
  induction Hgood as [|p parts Hp _ IH].
  - exists []. repeat split; [done|]. intros st st' [= <-]. simpl.
    set_solver.
  - apply Forall_cons in Hrange as [Hpr Hrange].
    destruct (IH Hrange) as (pieces & Hpieces & Hlen & Hattrs & Hframes).
    pose proof (pad_part_range_chars (__zfill seq) p
                  (taken_not_rejected p Hp) Hpr) as Hpr'.
    cbn [map split_pieces].
    rewrite (piece_with_padding seq _ Hbuilt Hpr').
    destruct Hp as [-> | (a & b & m & c & Hparse & Hfit)].
    + change (pad_part (__zfill seq) []) with (@nil ascii). rewrite Hpieces.
      eexists. split; [done|]. split; [by rewrite length_cons, Hlen|].
      split; [by constructor|].
      intros st st' Hst. simpl in Hst. rewrite (Hframes _ _ Hst).
      cbn [map FileSequence_frames __frameSet]. rewrite union_list_cons.
      set_solver.
    + pose proof (_parse_frange_part_chunk _ _ _ _ _ Hparse) as Hc.
      destruct (_parse_frange_part_padded (__zfill seq) _ _ Hparse)
        as [Hne Hparse'].
      destruct (FrameSet_init_clause _ _ _ _ _ Hparse' Hfit) as [_ Hfs].
      destruct (pad_part (__zfill seq) p) as [|c1 p'] eqn:Hp';
        [done|].
      rewrite Hfs, Hpieces. eexists. split; [done|].
      split; [by rewrite length_cons, Hlen|]. split; [by constructor|].
      intros [items order] st' Hst. cbn [init_parts] in Hst.
      rewrite (init_part_spec _ _ a b m c) in Hst by done.
      cbn [bind] in Hst. rewrite (Hframes _ _ Hst).
      rewrite foldl_extend_new_unique by (apply clause_batches_NoDup; lia).
      cbn [map FileSequence_frames __frameSet _items fst].
      rewrite union_list_cons. set_solver.
Qed.

Lemma split_frameRange fs zfill :
  FrameSet_init (_frange fs) = Returned fs ->
  split "," (frameRange fs zfill)
  = map (pad_part zfill) (clauses (_frange fs)).
Proof.
  intros Hfs. rewrite (frameRange_clauses _ fs zfill Hfs).
  pose proof (FrameSet_init_frange _ fs Hfs) as [_ Hall].
  destruct (clauses_padded zfill (clauses (_frange fs))
              (split_nonempty _ _) Hall) as [Hstrip Hcl].
  unfold clauses in Hcl at 1. by rewrite Hstrip in Hcl.
Qed.

(** ** The grammar of the specification and the pattern of the code *)

Lemma INT_literal a : INT a <-> exists sg ds, a = sg ++ ds /\ literal sg ds.
Proof.
  split.
  - intros [[Hne Hds] | (ds & -> & Hne & Hds)].
    + exists [], a. split; [done|]. split; [by left|done].
    + exists (T "-"), ds. split; [done|]. split; [by right|done].
  - intros (sg & ds & -> & [-> | ->] & Hne & Hds).
    + by left.
    + right. by exists ds.
Qed.

Lemma UINT_literal c : UINT c <-> literal [] c.
Proof.
  unfold UINT, literal. split; [intros [? ?]; split; [by left|done]|].
  by intros (_ & ? & ?).
Qed.

Lemma MODIFIER_spec m : MODIFIER m <-> is_modifier m = true.
Proof.
  unfold MODIFIER, is_modifier. rewrite !orb_true_iff, !Ascii.eqb_eq. tauto.
Qed.

Lemma int_digits_nonneg ds :
  Forall (fun c => is_digit c = true) ds -> 0 <= int_digits ds.
Proof.
  unfold int_digits. intros Hds.
  assert (Hacc : forall acc, 0 <= acc ->
            0 <= fold_left (fun acc c => 10 * acc + digit_val c) ds acc);
    [|by apply Hacc].
  induction Hds as [|c ds Hc _ IH]; intros acc Hacc; simpl; [done|].
  apply IH. unfold is_digit in Hc. apply andb_true_iff in Hc as [Hlo Hhi].
  apply Nat.leb_le in Hlo, Hhi. unfold digit_val. lia.
Qed.

Lemma UINT_nonneg c : UINT c -> 0 <= int c.
Proof.
  intros [Hne Hds]. rewrite int_unsigned by done. by apply int_digits_nonneg.
Qed.

(** A clause of the grammar is a clause of the pattern without the final
    newline, and stands for what its groups stand for. *)
Lemma spec_clause_shape part r :
  spec_clause part r <->
  exists g, clause_shape part g [] /\ r = clause_value g.
Proof.
  split.
  - intros [a (sg1 & d1 & -> & Hl1)%INT_literal
           | a b (sg1 & d1 & -> & Hl1)%INT_literal
                 (sg2 & d2 & -> & Hl2)%INT_literal
           | a b m c (sg1 & d1 & -> & Hl1)%INT_literal
                     (sg2 & d2 & -> & Hl2)%INT_literal
                     Hm%MODIFIER_spec Hl3%UINT_literal].
    + exists (RangeGroups (sg1 ++ d1) None None None).
      split; [|reflexivity].
      pose proof (shape_single sg1 d1 [] Hl1 eq_refl) as Hs.
      by rewrite app_nil_r in Hs.
    + exists (RangeGroups (sg1 ++ d1) (Some (sg2 ++ d2)) None None).
      split; [|reflexivity].
      pose proof (shape_range sg1 d1 sg2 d2 [] Hl1 Hl2 eq_refl) as Hs.
      rewrite app_nil_r in Hs. by rewrite <- app_assoc.
    + exists (RangeGroups (sg1 ++ d1) (Some (sg2 ++ d2)) (Some m) (Some c)).
      split; [|reflexivity].
      pose proof (shape_modified sg1 d1 sg2 d2 m c [] Hl1 Hl2 Hm Hl3 eq_refl)
        as Hs.
      rewrite app_nil_r in Hs. by rewrite <- !app_assoc.
  - intros (g & Hs & ->).
    inversion Hs as [sg1 d1 nl' Hl1 Hnl | sg1 d1 sg2 d2 nl' Hl1 Hl2 Hnl
                    | sg1 d1 sg2 d2 m d3 nl' Hl1 Hl2 Hm Hl3 Hnl]; subst.
    + rewrite app_nil_r. apply spec_single. apply INT_literal. eauto.
    + rewrite app_nil_r.
      replace (sg1 ++ d1 ++ "-"%char :: sg2 ++ d2)
        with ((sg1 ++ d1) ++ "-"%char :: (sg2 ++ d2))
        by (by rewrite <- app_assoc).
      apply spec_range; apply INT_literal; eauto.
    + rewrite app_nil_r.
      replace (sg1 ++ d1 ++ "-"%char :: sg2 ++ d2 ++ m :: d3)
        with ((sg1 ++ d1) ++ "-"%char :: (sg2 ++ d2) ++ m :: d3)
        by (by rewrite <- !app_assoc).
      apply (spec_modified (sg1 ++ d1) (sg2 ++ d2) m d3).
      * apply INT_literal. eauto.
      * apply INT_literal. eauto.
      * by apply MODIFIER_spec.
      * by apply UINT_literal.
Qed.

(** The final newline the pattern leaves out is there only when the
    clause holds a newline. *)
Lemma clause_shape_newline part g nl :
  clause_shape part g nl -> newline ∉ part -> nl = [].
Proof.
  intros Hs Hno.
  destruct Hs as [sg1 d1 nl Hl1 Hnl | sg1 d1 sg2 d2 nl Hl1 Hl2 Hnl
                 | sg1 d1 sg2 d2 m d3 nl Hl1 Hl2 Hm Hl3 Hnl];
    apply re_at_end_cases in Hnl as [-> | ->]; try done;
    exfalso; apply Hno; unfold newline;
    repeat (rewrite elem_of_app || rewrite elem_of_cons); tauto.
Qed.

Lemma clause_value_chunk part g nl :
  clause_shape part g nl -> 0 <= (clause_value g).2.
Proof.
  intros [sg1 d1 nl' Hl1 Hnl | sg1 d1 sg2 d2 nl' Hl1 Hl2 Hnl
         | sg1 d1 sg2 d2 m d3 nl' Hl1 Hl2 Hm Hl3 Hnl]; simpl; [lia..|].
  by apply UINT_nonneg, UINT_literal.
Qed.

(** What the range-part parser does with a clause of the pattern. *)
Lemma _parse_frange_part_shape part g nl :
  clause_shape part g nl ->
  _parse_frange_part part =
  if (clause_value g).2 =? 0
  then Raised (ParseException (msg_zero_chunk part))
  else Returned (clause_value g).
Proof.
  intros Hs. pose proof (clause_value_chunk _ _ _ Hs) as Hc.
  unfold _parse_frange_part. rewrite (range_match_of_shape _ _ _ Hs).
  unfold clause_value in *. cbn [snd] in *.
  destruct (g_chunk g) as [c|]; [|done]. by rewrite Z.abs_eq.
Qed.

(** On a clause without a newline the parser returns exactly for the
    clauses of the grammar whose chunk is not zero. *)
Lemma _parse_frange_part_spec part r :
  newline ∉ part ->
  _parse_frange_part part = Returned r <-> spec_clause part r /\ r.2 <> 0.
Proof.
  intros Hno. split.
  - intros Hp.
    assert (Hshape : exists g nl, clause_shape part g nl).
    { unfold _parse_frange_part in Hp.
      destruct (_RANGE_RE_match part) as [g|] eqn:Hm; [|done].
      destruct (range_match_shape _ _ Hm) as [nl Hs]. eauto. }
    destruct Hshape as (g & nl & Hs).
    pose proof (clause_shape_newline _ _ _ Hs Hno) as ->.
    rewrite (_parse_frange_part_shape _ _ _ Hs) in Hp.
    destruct (Z.eqb_spec (clause_value g).2 0) as [|Hz]; [done|].
    injection Hp as <-. split; [|done]. apply spec_clause_shape. eauto.
  - intros [(g & Hs & ->)%spec_clause_shape Hz].
    rewrite (_parse_frange_part_shape _ _ _ Hs).
    by destruct (Z.eqb_spec (clause_value g).2 0).
Qed.

(** On a clause without a newline, what the parser rejects is what the
    specification calls malformed. *)
Lemma rejected_spec part :
  newline ∉ part -> rejected part <-> spec_malformed part.
Proof.
  intros Hno. unfold rejected, spec_malformed. split.
  - intros [Hne Hbad]. split; [done|].
    intros r (g & Hs & ->)%spec_clause_shape.
    rewrite (range_match_of_shape _ _ _ Hs) in Hbad.
    destruct Hbad as [? | (g' & c & [= <-] & Hc & Hz)]; [done|].
    unfold clause_value. cbn [snd]. by rewrite Hc.
  - intros [Hne Hbad]. split; [done|].
    destruct (_RANGE_RE_match part) as [g|] eqn:Hm; [|by left]. right.
    destruct (range_match_shape _ _ Hm) as [nl Hs].
    pose proof (clause_shape_newline _ _ _ Hs Hno) as ->.
    assert (Hz : (clause_value g).2 = 0).
    { apply Hbad. apply spec_clause_shape. eauto. }
    unfold clause_value in Hz. cbn [snd] in Hz.
    destruct (g_chunk g) as [c|] eqn:Hc; [|done]. by exists g, c.
Qed.

(** On a clause without a newline, what the constructor takes is a
    clause of the grammar whose chunk is not zero and whose runs fit. *)
Lemma taken_spec part :
  newline ∉ part -> taken part <-> spec_taken part.
Proof.
  intros Hno. unfold taken, spec_taken. split.
  - intros [-> | (a & b & m & c & Hp & Hfit)]; [by left|right].
    apply _parse_frange_part_spec in Hp as [Hs Hz]; [|done].
    by exists a, b, m, c.
  - intros [-> | (a & b & m & c & Hs & Hz & Hfit)]; [by left|right].
    exists a, b, m, c. split; [|done].
    by apply _parse_frange_part_spec.
Qed.

Lemma clauses_chars (P : ascii -> Prop) s :
  Forall P s -> Forall (Forall P) (clauses s).
Proof.
  intros Hs. unfold clauses. apply split_chars. unfold translate_delete.
  apply Forall_forall. intros c [_ Hc]%list_elem_of_filter.
  rewrite Forall_forall in Hs. by apply Hs.
Qed.

Lemma clauses_no_newline s :
  newline ∉ s -> Forall (fun part => newline ∉ part) (clauses s).
Proof.
  intros Hno.
  pose proof (clauses_chars (fun c => c <> newline) s) as Hall.
  rewrite Forall_forall in *. intros part Hpart Hin.
  assert (Hs : Forall (fun c => c <> newline) s).
  { apply Forall_forall. by intros c Hc ->. }
  specialize (Hall Hs part Hpart). rewrite Forall_forall in Hall.
  by apply (Hall newline).
Qed.

(** The outcome of the constructor on a range string without a newline,
    in the words of the specification. *)
Lemma FrameSet_init_raises_spec s :
  newline ∉ s ->
  (exists msg, FrameSet_init s = Raised (ParseException msg)) <->
  exists good bad rest,
    clauses s = good ++ bad :: rest /\
    Forall spec_taken good /\ spec_malformed bad.
Proof.
  intros Hno. pose proof (clauses_no_newline s Hno) as Hall.
  rewrite FrameSet_init_raises_iff.
  split; intros (good & bad & rest & Hcl & Hg & Hb);
    exists good, bad, rest; (split; [done|]);
    rewrite Hcl in Hall; apply Forall_app in Hall as [Hng Hnb];
    apply Forall_cons in Hnb as [Hnb _].
  - split; [|by apply rejected_spec].
    rewrite Forall_forall in *. intros p Hp. apply taken_spec; auto.
  - split; [|by apply rejected_spec].
    rewrite Forall_forall in *. intros p Hp. apply taken_spec; auto.
Qed.

Lemma FrameSet_init_returns_spec s :
  newline ∉ s ->
  (exists fs, FrameSet_init s = Returned fs) <-> Forall spec_taken (clauses s).
Proof.
  intros Hno. pose proof (clauses_no_newline s Hno) as Hall.
  rewrite FrameSet_init_returns_iff. rewrite !Forall_forall in *.
  split; intros Ht p Hp; apply taken_spec; auto.
Qed.

(** ** Copies *)

(** The frame set of a list that is written as it is parsed. *)
Lemma copy_from_iterable frames sort :
  Forall frame_fits frames -> Z.of_nat (length frames) <= LONG_MAX ->
  copy (from_iterable frames sort) = Returned (from_iterable frames sort).
Proof.
  intros Hfits Hmax.
  destruct (from_iterable_eq frames sort) as (order & Hnd & Ho & ->).
  unfold copy. simpl. apply FrameSet_init_compressed; [done|..].
  - pose proof (unique_sublist ∅ (if sort then sorted frames else frames))
      as Hsub. rewrite <- Ho in Hsub.
    rewrite Forall_forall in *. intros x Hx. apply Hfits.
    eapply elem_of_sublist in Hx; [|exact Hsub].
    destruct sort; [|done].
    unfold sorted in Hx. by rewrite merge_sort_Permutation in Hx.
  - pose proof (unique_sublist ∅ (if sort then sorted frames else frames))
      as Hsub. rewrite <- Ho in Hsub. apply sublist_length in Hsub.
    assert (length (if sort then sorted frames else frames) = length frames).
    { destruct sort; [|done]. unfold sorted.
      by rewrite merge_sort_Permutation. }
    lia.
Qed.

(** A frame set the constructor built is built again from its range
    string. *)
Lemma copy_constructed s fs :
  FrameSet_init s = Returned fs -> copy fs = Returned fs.
Proof.
  intros Hfs. unfold copy.
  destruct (FrameSet_init_frange _ _ Hfs) as [-> _]. rewrite <- Hfs.
  apply FrameSet_init_stripped. by rewrite translate_delete_idem.
Qed.

(** ** Pickling *)

Lemma getstate_at self fs h :
  h !! self = Some (instance_of fs) ->
  FrameSet___getstate__ self h = (Returned (StateTuple [_frange fs]), h).
Proof.
  intros Hself. unfold FrameSet___getstate__, Heap.bind.
  by rewrite (get_frange_at _ _ _ _ Hself eq_refl).
Qed.

(** [__setstate__] with a string: the receiver is initialized in place,
    and when the string does not parse it is left with the new range
    string and with the members and the order it had. *)
Lemma setstate_string_at self s h i :
  h !! self = Some i ->
  FrameSet___setstate__ self (StateString s) h =
  match FrameSet_init s with
  | Returned fs => (Unpickled, <[self := instance_of fs]> h)
  | NotImplemented =>
      (Unpickled,
       <[self := mkInstance (Some (translate_delete _PADDING_keys s))
                            (slot_items i) (slot_order i)]> h)
  | Raised e =>
      (UnpicklingRaised e,
       <[self := mkInstance (Some (translate_delete _PADDING_keys s))
                            (slot_items i) (slot_order i)]> h)
  end.
Proof.
  intros Hi. unfold FrameSet___setstate__.
  rewrite (init_str_at _ s _ _ Hi). by destruct (FrameSet_init s).
Qed.

Lemma setstate_tuple_at self s rest h i :
  h !! self = Some i ->
  FrameSet___setstate__ self (StateTuple (s :: rest)) h =
  FrameSet___setstate__ self (StateString s) h.
Proof. done. Qed.



(** * The properties of the specification *)

(** C1. Pair tie-break of the run compressor: when the input ends with
    two frames in the open run, they are flushed as two single-frame
    tokens after whatever was yielded before; every token yielded is either
    the token of one input frame or the token of a run of at least three
    neighbouring input frames with one stride; two frames alone compress
    to the two numbers joined by a comma; [5, 9] gives "5,9" and
    [5, 9, 13] gives "5-13x4". *)
Theorem C1_pair_tie_break :
  (forall zfill frames st out,
      run_loop zfill run_init frames = (st, out) ->
      curr_count st = 2%nat ->
      exists pre a b,
        frames = pre ++ [a; b] /\
        framesToFrameRanges frames zfill =
          out ++ [pad (Some a) zfill; pad (Some b) zfill]) /\
  (forall zfill frames,
      frames <> [] ->
      Forall (token_of zfill frames) (framesToFrameRanges frames zfill)) /\
  (forall zfill a b,
      framesToFrameRange [a; b] false zfill false =
      pad (Some a) zfill ++ T "," ++ pad (Some b) zfill) /\
  framesToFrameRange [5; 9] true 0 false = T "5,9" /\
  framesToFrameRange [5; 9; 13] true 0 false = T "5-13x4".
Proof.
  split; [|split; [|split; [|split]]].
  - intros zfill frames st out Hloop Hc.
    destruct (run_flush_pair zfill frames st out Hloop Hc) as (pre & a & b & ? & ?).
    exists pre, a, b. by rewrite <- !single_token_pad.
  - apply framesToFrameRanges_tokens.
  - apply framesToFrameRange_two.
  - vm_compute. reflexivity.
  - vm_compute. reflexivity.
Qed.

(** The frames 1,2,3,7,9: "1-3" is yielded in the loop and the pair 7,9
    is flushed as two tokens. *)
Lemma C1_pair_tie_break_witness :
  exists pre a b,
    [1; 2; 3; 7; 9] = pre ++ [a; b] /\
    framesToFrameRanges [1; 2; 3; 7; 9] 0 =
      [T "1-3"] ++ [pad (Some a) 0; pad (Some b) 0].
Proof.
  exact (proj1 C1_pair_tie_break 0 [1; 2; 3; 7; 9] _ _ eq_refl eq_refl).
Defined.

(** C2 as stated fails: the order of "1-10:2" starts with the odd frame
    1, so it does not begin with even frames followed by the odd ones. *)
Lemma C2_counterexample :
  ~ (exists fs evens odds,
        FrameSet_init (T "1-10:2") = Returned fs /\
        _order fs = evens ++ odds /\ evens <> [] /\
        Forall Z.Even evens /\ Forall Z.Odd odds).
Proof.
  intros (fs & evens & odds & Hfs & Ho & Hne & Hev & _).
  assert (Horder : _order fs = [1; 3; 5; 7; 9; 2; 4; 6; 8; 10])
    by (apply (Returned_order _ _ _ Hfs); vm_compute; reflexivity).
  rewrite Horder in Ho. destruct evens as [|e evens]; [done|].
  injection Ho as <- _. apply Forall_cons in Hev as [[k Hk] _]. lia.
Qed.

(** C2, amended.  A staggered clause hands the constructor the runs of
    stride [chunk], [chunk - 1], ..., [1] in that order, and each run adds
    only the frames not seen before, so the order grows by the
    concatenation of the runs without the frames seen already and without
    later repeats; this when the chunk converts to a C long and every one
    of the runs fits, and otherwise the clause raises [OverflowError].
    The order of "1-10:2" begins with the stride-2 run from the first
    frame, 1,3,5,7,9 (the odd frames), and goes on with the even frames
    not yet seen; its members are 1 to 10. *)
Theorem C2_staggered_clause :
  (forall st part start end_ chunk,
      _parse_frange_part part = Returned (start, end_, Some ":"%char, chunk) ->
      (in_long chunk /\ Forall (run_fits start end_) (staggers chunk) ->
       init_part st part =
       Returned (foldl extend_new st
                   (map (x_run start end_) (staggers chunk)))) /\
      (~ (in_long chunk /\ Forall (run_fits start end_) (staggers chunk)) ->
       init_part st part = Raised OverflowError)) /\
  (forall items order start end_ chunk,
      foldl extend_new (items, order) (map (x_run start end_) (staggers chunk)) =
      (items ∪ list_to_set (concat (map (x_run start end_) (staggers chunk))),
       order ++
       (unique items (concat (map (x_run start end_) (staggers chunk)))).1)) /\
  staggers 3 = [3; 2; 1] /\
  order_of (FrameSet_init (T "1-10:2")) = Some [1; 3; 5; 7; 9; 2; 4; 6; 8; 10] /\
  items_of (FrameSet_init (T "1-10:2")) =
    Some (list_to_set [1; 2; 3; 4; 5; 6; 7; 8; 9; 10]).
Proof.
  split; [|split; [|split; [|split]]].
  - intros st part start end_ chunk Hparse.
    pose proof (_parse_frange_part_chunk _ _ _ _ _ Hparse) as Hc.
    assert (Hfit : clause_fits start end_ (Some ":"%char) chunk <->
                   in_long chunk /\
                   Forall (run_fits start end_) (staggers chunk)).
    { rewrite staggers_fit by done. unfold clause_fits.
      by repeat case_bool_decide. }
    split; intros H.
    + apply (init_part_spec st part start end_ (Some ":"%char) chunk);
        [done|]. by apply Hfit.
    + apply (init_part_overflow st part start end_ (Some ":"%char) chunk);
        [done|]. by rewrite Hfit.
  - intros items order start end_ chunk. apply foldl_extend_new_unique.
    apply Forall_fmap. eapply Forall_impl; [apply staggers_nonzero|].
    intros s Hs. by apply x_run_NoDup.
  - reflexivity.
  - vm_compute. reflexivity.
  - destruct (FrameSet_init (T "1-10:2")) as [fs| |] eqn:Hfs;
      try (vm_compute in Hfs; discriminate).
    simpl. f_equal. rewrite (proj1 (FrameSet_init_valid _ _ Hfs)).
    rewrite (Returned_order _ _ [1; 3; 5; 7; 9; 2; 4; 6; 8; 10] Hfs)
      by (vm_compute; reflexivity).
    set_solver.
Qed.

(** The clause "1-10:2" on a fresh frame set. *)
Lemma C2_staggered_clause_witness :
  init_part (∅, []) (T "1-10:2") =
  Returned (foldl extend_new (∅, []) (map (x_run 1 10) (staggers 2))).
Proof.
  apply (proj1 C2_staggered_clause (∅, []) (T "1-10:2") 1 10 2).
  - reflexivity.
  - split; [vm_compute; split; discriminate|].
    repeat constructor; vm_compute; discriminate.
Defined.

(** C3 on the code.  The frame sets of "1-3" and of "1,2,3" have the same
    members in the same order and compare equal, yet their hashes differ,
    because [__hash__] also hashes the source text; and the frame sets of
    "-1" and of "-2", whose members differ, compare equal, because
    [__eq__] compares hashes and the interpreter hashes -1 and -2 alike.
    Frame sets with the same members and order do compare equal, whatever
    the hash function and the source text. *)
Theorem C3_equality_and_hash_on_code :
  (exists A B,
      FrameSet_init (T "1-3") = Returned A /\
      FrameSet_init (T "1,2,3") = Returned B /\
      _items A = _items B /\ _order A = _order B /\
      @FrameSet___eq__ CPython27.hash A (OFrameSet B) = Returned true /\
      @FrameSet___hash__ CPython27.hash A <> @FrameSet___hash__ CPython27.hash B) /\
  (exists A B,
      FrameSet_init (T "-1") = Returned A /\
      FrameSet_init (T "-2") = Returned B /\
      _items A <> _items B /\ _order A <> _order B /\
      @FrameSet___eq__ CPython27.hash A (OFrameSet B) = Returned true) /\
  (forall (H : PyHash) frange1 frange2 items order,
      FrameSet___eq__ (mkFrameSet frange1 items order)
                      (OFrameSet (mkFrameSet frange2 items order))
      = Returned true).
Proof.
  split; [|split].
  - destruct (FrameSet_init (T "1-3")) as [A| |] eqn:HA; try (vm_compute in HA; discriminate).
    destruct (FrameSet_init (T "1,2,3")) as [B| |] eqn:HB; try (vm_compute in HB; discriminate).
    exists A, B. split; [done|]. split; [done|].
    assert (HoA : _order A = [1; 2; 3])
      by (apply (Returned_order _ _ _ HA); vm_compute; reflexivity).
    assert (HoB : _order B = [1; 2; 3])
      by (apply (Returned_order _ _ _ HB); vm_compute; reflexivity).
    assert (Hi : _items A = _items B).
    { rewrite (proj1 (FrameSet_init_valid _ _ HA)),
        (proj1 (FrameSet_init_valid _ _ HB)). by rewrite HoA, HoB. }
    split; [done|]. split; [congruence|].
    split; [apply eq_same_content; congruence|].
    vm_compute in HA. vm_compute in HB.
    injection HA as <-. injection HB as <-.
    vm_compute. discriminate.
  - eexists _, _. split; [vm_compute; reflexivity|].
    split; [vm_compute; reflexivity|]. simpl.
    split; [|split].
    + intros Heq. vm_compute in Heq. discriminate.
    + discriminate.
    + vm_compute. reflexivity.
  - intros H frange1 frange2 items order. by apply eq_same_content.
Qed.

(** C4 as stated fails: [union] given an object that cannot be iterated
    raises [TypeError] and does not return [NotImplemented]. *)
Lemma C4_counterexample :
  union (from_iterable [1; 2; 3] false) [OOther] = Raised TypeError /\
  union (from_iterable [1; 2; 3] false) [OOther] <> NotImplemented.
Proof. split; [reflexivity | discriminate]. Qed.

(** C4, amended.  Given an operand that is neither a frame set nor
    iterable, [symmetric_difference], [isdisjoint], [issubset],
    [issuperset], the comparisons [==], [<], [<=], [>=], [>] and the
    operators [&], [-], [|], [^] (also reflected) return [NotImplemented];
    the variadic [union], [intersection] and [difference] raise
    [TypeError]. *)
Theorem C4_not_applicable `{PyHash} (self : FrameSet) :
  symmetric_difference self OOther = NotImplemented /\
  isdisjoint self OOther = NotImplemented /\
  issubset self OOther = NotImplemented /\
  issuperset self OOther = NotImplemented /\
  FrameSet___eq__ self OOther = NotImplemented /\
  FrameSet___lt__ self OOther = NotImplemented /\
  FrameSet___le__ self OOther = NotImplemented /\
  FrameSet___ge__ self OOther = NotImplemented /\
  FrameSet___gt__ self OOther = NotImplemented /\
  FrameSet___and__ self OOther = NotImplemented /\
  FrameSet___rand__ self OOther = NotImplemented /\
  FrameSet___sub__ self OOther = NotImplemented /\
  FrameSet___rsub__ self OOther = NotImplemented /\
  FrameSet___or__ self OOther = NotImplemented /\
  FrameSet___ror__ self OOther = NotImplemented /\
  FrameSet___xor__ self OOther = NotImplemented /\
  FrameSet___rxor__ self OOther = NotImplemented /\
  (forall others,
      OOther ∈ others ->
      union self others = Raised TypeError /\
      intersection self others = Raised TypeError /\
      difference self others = Raised TypeError).
Proof.
  repeat (split; [reflexivity|]).
  intros others Hin. unfold union, intersection, difference.
  destruct (map_set_cases others) as [[Hall _] | [_ ->]]; [|done].
  rewrite Forall_forall in Hall. by destruct (Hall _ Hin).
Qed.

(** An iterable and an integer handed to the variadic operations. *)
Lemma C4_not_applicable_witness :
  union (from_iterable [1; 2; 3] false) [OIterable [4]; OOther] = Raised TypeError /\
  intersection (from_iterable [1; 2; 3] false) [OIterable [4]; OOther] = Raised TypeError /\
  difference (from_iterable [1; 2; 3] false) [OIterable [4]; OOther] = Raised TypeError.
Proof.
  apply (@C4_not_applicable CPython27.hash (from_iterable [1; 2; 3] false)).
  set_solver.
Defined.

(** C5. Algebra laws: the union and the difference of two valid frame
    sets have the union and the difference of their members; the
    intersection taken either way round compares equal; whatever the order
    of the operands, the order of the result of union, intersection,
    difference and symmetric_difference (and of the operators) is
    ascending. *)
Theorem C5_algebra_laws `{PyHash} (A B : FrameSet) :
  FrameSet_valid A -> FrameSet_valid B ->
  (exists U, union A [OFrameSet B] = Returned U /\
             _items U = _items A ∪ _items B) /\
  (exists I J, intersection A [OFrameSet B] = Returned I /\
               intersection B [OFrameSet A] = Returned J /\
               FrameSet___eq__ I (OFrameSet J) = Returned true) /\
  (exists D, difference A [OFrameSet B] = Returned D /\
             _items D = _items A ∖ _items B) /\
  (forall others R,
      union A others = Returned R \/ intersection A others = Returned R \/
      difference A others = Returned R ->
      ascending (_order R)) /\
  (forall other R,
      symmetric_difference A other = Returned R \/
      FrameSet___and__ A other = Returned R \/
      FrameSet___sub__ A other = Returned R \/
      FrameSet___rsub__ A other = Returned R \/
      FrameSet___or__ A other = Returned R \/
      FrameSet___xor__ A other = Returned R ->
      ascending (_order R)).
Proof.
  intros (HA & _ & _) (HB & _ & _). repeat split.
  - eexists. split; [apply union_pair|].
    rewrite (proj1 (from_frozenset_spec _)). by rewrite <- HB.
  - eexists _, _. split; [apply intersection_pair|].
    split; [apply intersection_pair|].
    rewrite <- HA, <- HB.
    replace (_items B ∩ _items A) with (_items A ∩ _items B) by set_solver.
    by apply eq_same_content.
  - eexists. split; [apply difference_pair|].
    rewrite (proj1 (from_frozenset_spec _)). by rewrite <- HB.
  - intros others R [HR | [HR | HR]];
      apply variadic_result in HR as [s ->]; apply from_frozenset_spec.
  - intros other R [HR | [HR | [HR | [HR | [HR | HR]]]]];
      apply cast_result in HR as [s ->]; apply from_frozenset_spec.
Qed.

(** The union of the frame sets of 9,1,5 and of 5,2. *)
Lemma C5_algebra_laws_witness :
  exists U, union (from_iterable [9; 1; 5] false)
                  [OFrameSet (from_iterable [5; 2] false)] = Returned U /\
            _items U = _items (from_iterable [9; 1; 5] false)
                       ∪ _items (from_iterable [5; 2] false).
Proof.
  exact (proj1 (@C5_algebra_laws CPython27.hash
                  (from_iterable [9; 1; 5] false) (from_iterable [5; 2] false)
                  (from_iterable_valid _ _) (from_iterable_valid _ _))).
Defined.

(** C6. Every frame set the constructor, [from_iterable], the set
    operations, the operators, [normalize] or [copy] return satisfies the
    invariant: the members are the set of the frames of the order and the
    order has as many frames as there are members, with none repeated;
    [normalize] returns one whenever the members are C longs other than
    the least and the greatest and no more than the greatest C long in
    number.  On a heap of instances, the constructor, [from_iterable],
    [union], [intersection], [difference], [symmetric_difference], the
    operators, [normalize] and [copy], called on an instance or with
    instances as operands, leave every instance that exists as it was, the
    receiver among them, and what they return is an instance at an address
    that was free before the call, holding the frame set computed. *)
Theorem C6_invariant_and_immutability :
  (forall s fs, FrameSet_init s = Returned fs -> FrameSet_valid fs) /\
  (forall fs, FrameSet_valid fs -> FrameSet_valid (FrameSet_init_copy fs)) /\
  (forall frames sort, FrameSet_valid (from_iterable frames sort)) /\
  (forall self others fs,
      union self others = Returned fs \/
      intersection self others = Returned fs \/
      difference self others = Returned fs ->
      FrameSet_valid fs) /\
  (forall self other fs,
      symmetric_difference self other = Returned fs \/
      FrameSet___and__ self other = Returned fs \/
      FrameSet___sub__ self other = Returned fs \/
      FrameSet___rsub__ self other = Returned fs \/
      FrameSet___or__ self other = Returned fs \/
      FrameSet___xor__ self other = Returned fs ->
      FrameSet_valid fs) /\
  (forall self,
      (forall fs, normalize self = Returned fs -> FrameSet_valid fs) /\
      (set_Forall frame_fits (_items self) ->
       Z.of_nat (size (_items self)) <= LONG_MAX ->
       exists fs, normalize self = Returned fs /\ FrameSet_valid fs)) /\
  (forall self fs, copy self = Returned fs -> FrameSet_valid fs) /\
  (forall h self fs,
      h !! self = Some (instance_of fs) ->
      (forall s,
          returns_new h (FrameSet_init s) (Heap.construct (ArgStr s) h)) /\
      returns_new h (Returned (FrameSet_init_copy fs))
                  (Heap.construct (ArgFrameSet self) h) /\
      (forall frames sort,
          returns_new h (Returned (from_iterable frames sort))
                      (Heap.from_iterable frames sort h)) /\
      (forall others os,
          Forall2 (operand_in h) others os ->
          returns_new h (union fs os) (Heap.union self others h) /\
          returns_new h (intersection fs os)
                      (Heap.intersection self others h) /\
          returns_new h (difference fs os) (Heap.difference self others h)) /\
      (forall other o,
          operand_in h other o ->
          returns_new h (symmetric_difference fs o)
                      (Heap.symmetric_difference self other h) /\
          returns_new h (FrameSet___and__ fs o)
                      (Heap.FrameSet___and__ self other h) /\
          returns_new h (FrameSet___sub__ fs o)
                      (Heap.FrameSet___sub__ self other h) /\
          returns_new h (FrameSet___rsub__ fs o)
                      (Heap.FrameSet___rsub__ self other h) /\
          returns_new h (FrameSet___or__ fs o)
                      (Heap.FrameSet___or__ self other h) /\
          returns_new h (FrameSet___xor__ fs o)
                      (Heap.FrameSet___xor__ self other h)) /\
      returns_new h (normalize fs) (Heap.normalize self h) /\
      returns_new h (copy fs) (Heap.copy self h)).
Proof.
  split; [|split; [|split; [|split; [|split; [|split; [|split]]]]]].
  - apply FrameSet_init_valid.
  - by intros [frange items order].
  - apply from_iterable_valid.
  - intros self others fs [HR | [HR | HR]];
      apply variadic_result in HR as [s ->]; apply from_frozenset_valid.
  - intros self other fs [HR | [HR | [HR | [HR | [HR | HR]]]]];
      apply cast_result in HR as [s ->]; apply from_frozenset_valid.
  - intros self. split.
    + intros fs HR. by apply FrameSet_init_valid in HR.
    + intros Hfits Hmax. rewrite normalize_fits by done.
      eexists. split; [done|]. apply from_frozenset_valid.
  - intros self fs HR. by apply FrameSet_init_valid in HR.
  - intros h self fs Hself.
    split; [intros s; apply construct_str_new|].
    split.
    { rewrite (construct_copy _ _ _ Hself).
      rewrite <- (app_nil_r h) at 2 3. apply returns_new_last. }
    split.
    { intros frames sort. rewrite from_iterable_heap.
      rewrite <- (app_nil_r h) at 2 3. apply returns_new_last. }
    split.
    { intros others os Hall.
      split; [|split]; by apply variadic_heap. }
    split.
    { intros other o Ho.
      split; [by apply (binary_heap (fun a b => (a ∖ b) ∪ (b ∖ a)))|].
      split; [by apply (binary_heap (∩))|].
      split; [by apply (binary_heap (∖))|].
      split; [by apply (binary_heap_reflected (∖))|].
      split; [by apply (binary_heap (∪))|].
      by apply (binary_heap (fun a b => (a ∖ b) ∪ (b ∖ a))). }
    split; [by apply normalize_heap|by apply copy_heap].
Qed.

(** The frame set of "3,1", a union, and a heap with the instance of the
    frames 3 and 1, on which [normalize] is called: the instance stays and
    the result, the frame set of "1,3", is at the next address. *)
Lemma C6_invariant_and_immutability_witness :
  FrameSet_valid (mkFrameSet (T "3,1") (list_to_set [3; 1]) [3; 1]) /\
  FrameSet_valid (from_frozenset ({[3]} ∪ {[7]})) /\
  returns_new [instance_of (from_iterable [3; 1] false)]
              (normalize (from_iterable [3; 1] false))
              (Heap.normalize 0 [instance_of (from_iterable [3; 1] false)]).
Proof.
  split; [|split].
  - apply (proj1 C6_invariant_and_immutability (T "3,1")).
    vm_compute. reflexivity.
  - apply (proj1 (proj2 (proj2 (proj2 C6_invariant_and_immutability)))
             (from_iterable [3] false) [OIterable [7]]).
    left. reflexivity.
  - apply (proj2 (proj2 (proj2 (proj2 (proj2 (proj2 (proj2
             C6_invariant_and_immutability))))))
             [instance_of (from_iterable [3; 1] false)] 0%nat
             (from_iterable [3; 1] false)).
    reflexivity.
Defined.

(** C7 as stated fails twice.  The range string "1-10x2" followed by a
    newline has a clause that fails the grammar, and the constructor
    returns a frame set for it; and in "9223372036854775807,x" the clause
    "x" fails the grammar, and the constructor raises [OverflowError] for
    the clause before it and no [ParseException]. *)
Lemma C7_counterexample :
  (Exists spec_malformed (clauses (T "1-10x2" ++ [newline])) /\
   exists fs, FrameSet_init (T "1-10x2" ++ [newline]) = Returned fs) /\
  (Exists spec_malformed (clauses (T "9223372036854775807,x")) /\
   FrameSet_init (T "9223372036854775807,x") = Raised OverflowError).
Proof.
  split; split.
  - apply Exists_cons_hd. split; [done|].
    intros r (g & Hs & _)%spec_clause_shape.
    apply clause_shape_chars in Hs. rewrite Forall_forall in Hs.
    assert (Hc : clause_char newline) by (apply Hs; set_solver).
    by destruct Hc as [Hc | [Hc | Hc]].
  - eexists. vm_compute. reflexivity.
  - apply Exists_cons_tl, Exists_cons_hd. split; [done|].
    intros r (g & Hs & _)%spec_clause_shape.
    apply range_match_of_shape in Hs. vm_compute in Hs. done.
  - vm_compute. reflexivity.
Qed.

(** C7, amended.  On a range string without a newline, parsing raises
    [ParseException] exactly when the first clause the constructor does
    not take is one that fails the grammar or has a chunk of zero; so,
    when every clause is either such a clause or a clause of the grammar
    whose runs fit a C long, exactly when some clause fails the grammar or
    has a chunk of zero.  "1-10x0" is rejected for its chunk.  The
    constructor returns a frame set, or raises [ParseException], or raises
    [OverflowError]; the message of the exception quotes the first
    rejected clause.  A call of the constructor that raises returns no
    instance and leaves every instance that exists as it was; the instance
    it had begun holds its range string alone.  No set operation,
    operator or comparison raises [ParseException], and neither do
    [normalize] and [invertedFrameRange]. *)
Theorem C7_malformed_range :
  FrameSet_init (T "1-10x0") =
    Raised (ParseException (msg_zero_chunk (T "1-10x0"))) /\
  (forall s,
      newline ∉ s ->
      ((exists msg, FrameSet_init s = Raised (ParseException msg)) <->
       exists good bad rest,
         clauses s = good ++ bad :: rest /\
         Forall spec_taken good /\ spec_malformed bad) /\
      (Forall (fun part => spec_taken part \/ spec_malformed part)
              (clauses s) ->
       (exists msg, FrameSet_init s = Raised (ParseException msg)) <->
       Exists spec_malformed (clauses s))) /\
  (forall s,
      (exists fs, FrameSet_init s = Returned fs) \/
      (exists msg, FrameSet_init s = Raised (ParseException msg)) \/
      FrameSet_init s = Raised OverflowError) /\
  (forall s msg,
      newline ∉ s ->
      FrameSet_init s = Raised (ParseException msg) ->
      exists good bad rest tail,
        clauses s = good ++ bad :: rest /\
        Forall spec_taken good /\ spec_malformed bad /\
        msg = T "Could not parse " ++ [dquote] ++ bad ++ [dquote] ++ tail) /\
  (forall s e h,
      FrameSet_init s = Raised e ->
      Heap.construct (ArgStr s) h =
      (Raised e,
       h ++ [mkInstance (Some (translate_delete _PADDING_keys s)) None None])) /\
  (forall (H : PyHash) self others other zfill msg,
      union self others <> Raised (ParseException msg) /\
      intersection self others <> Raised (ParseException msg) /\
      difference self others <> Raised (ParseException msg) /\
      symmetric_difference self other <> Raised (ParseException msg) /\
      FrameSet___and__ self other <> Raised (ParseException msg) /\
      FrameSet___sub__ self other <> Raised (ParseException msg) /\
      FrameSet___rsub__ self other <> Raised (ParseException msg) /\
      FrameSet___or__ self other <> Raised (ParseException msg) /\
      FrameSet___xor__ self other <> Raised (ParseException msg) /\
      isdisjoint self other <> Raised (ParseException msg) /\
      issubset self other <> Raised (ParseException msg) /\
      issuperset self other <> Raised (ParseException msg) /\
      FrameSet___eq__ self other <> Raised (ParseException msg) /\
      FrameSet___lt__ self other <> Raised (ParseException msg) /\
      FrameSet___le__ self other <> Raised (ParseException msg) /\
      FrameSet___ge__ self other <> Raised (ParseException msg) /\
      FrameSet___gt__ self other <> Raised (ParseException msg) /\
      normalize self <> Raised (ParseException msg) /\
      invertedFrameRange self zfill <> Raised (ParseException msg)).
Proof.
  split; [|split; [|split; [|split; [|split]]]].
  - vm_compute. reflexivity.
  - intros s Hno. split; [by apply FrameSet_init_raises_spec|].
    intros Hall. rewrite FrameSet_init_raises_spec by done. split.
    + intros (good & bad & rest & Hcl & _ & Hb). rewrite Hcl.
      apply Exists_app. right. by apply Exists_cons_hd.
    + intros Hex. pose proof (clauses_no_newline s Hno) as Hnl.
      destruct (FrameSet_init_cases s) as [[Ht _] |
        (good & bad & rest & Hcl & Hg & Hbad)].
      * exfalso. apply Exists_exists in Hex as (p & Hp & Hm).
        rewrite Forall_forall in Ht, Hnl.
        apply (taken_not_rejected p); [by apply Ht|].
        apply rejected_spec; [by apply Hnl|done].
      * exists good, bad, rest. split; [done|].
        rewrite Hcl in Hnl, Hall.
        apply Forall_app in Hnl as [Hng Hnb].
        apply Forall_cons in Hnb as [Hnb _].
        apply Forall_app in Hall as [_ Hab].
        apply Forall_cons in Hab as [Hab _].
        split.
        { rewrite Forall_forall in *. intros p Hp. apply taken_spec; auto. }
        destruct Hbad as [(Hb & _) | (Hb & _)]; [by apply rejected_spec|].
        exfalso. destruct Hab as [Ht | Hm].
        -- apply (overflowing_not_taken bad Hb). by apply taken_spec.
        -- apply (overflowing_not_rejected bad Hb). by apply rejected_spec.
  - intros s. destruct (FrameSet_init_cases s)
      as [[_ (fs & Hr & _)] |
          (good & bad & rest & _ & _ & [(_ & msg & Hr & _) | (_ & Hr)])];
      eauto.
  - intros s msg Hno He. pose proof (clauses_no_newline s Hno) as Hnl.
    destruct (FrameSet_init_cases s)
      as [[_ (fs & Hr & _)] |
          (good & bad & rest & Hs & Hg &
           [(Hb & msg' & Hr & _ & Hm) | (Hb & Hr)])];
      [congruence| |congruence].
    rewrite Hr in He. injection He as <-.
    rewrite Hs in Hnl. apply Forall_app in Hnl as [Hng Hnb].
    apply Forall_cons in Hnb as [Hnb _].
    assert (Hgood : Forall spec_taken good).
    { rewrite Forall_forall in *. intros p Hp. apply taken_spec; auto. }
    apply rejected_spec in Hb; [|done].
    destruct Hm as [-> | ->].
    + exists good, bad, rest, (T ": did not match " ++ _RANGE_RE_pattern). done.
    + exists good, bad, rest, (T ": chunk cannot be 0"). done.
  - intros s e h He. rewrite construct_str. by rewrite He.
  - intros H self others other zfill msg.
    repeat (split; [first [apply variadic_no_parse_error
                          | apply cast_no_parse_error
                          | by destruct other] |]).
    split.
    + by destruct (normalize_outcome self) as [(fs & -> & _) | ->].
    + unfold invertedFrameRange.
      destruct (inverted_frames_outcome (sorted (elements (_items self))))
        as [[result ->] | ->]; [|done].
      cbn [bind]. by destruct result.
Qed.

(** "1-5,7-x,9": the second clause is the first rejected one. *)
Lemma C7_malformed_range_witness :
  exists good bad rest tail,
    clauses (T "1-5,7-x,9") = good ++ bad :: rest /\
    Forall spec_taken good /\ spec_malformed bad /\
    msg_no_match (T "7-x") =
    T "Could not parse " ++ [dquote] ++ bad ++ [dquote] ++ tail.
Proof.
  apply (proj1 (proj2 (proj2 (proj2 C7_malformed_range))) (T "1-5,7-x,9")).
  - unfold newline. vm_compute. intros Hin.
    repeat (apply elem_of_cons in Hin as [Hin | Hin]; [discriminate Hin|]).
    by apply elem_of_nil in Hin.
  - vm_compute. reflexivity.
Defined.

(** C8. Negative and reversed ranges: the expander walks from [start]
    towards [stop] whatever the sign of the step, of which only the
    magnitude counts, and with step 1 it starts at [start] and ends at
    [stop]; it returns this run when what it hands to [xrange] converts
    to C longs and the run is no longer than the greatest of them, and
    raises [OverflowError] otherwise; "5--1" parses to 5,4,3,2,1,0,-1 and
    "-4--2" to -4,-3,-2. *)
Theorem C8_direction_from_bounds :
  (forall start stop step,
      step <> 0 ->
      (run_fits start stop step ->
       xfrange start stop step = Returned (x_run start stop step)) /\
      (~ run_fits start stop step ->
       xfrange start stop step = Raised OverflowError) /\
      (forall f, f ∈ x_run start stop step ->
                 Z.min start stop <= f <= Z.max start stop)) /\
  (forall start stop step,
      xfrange start stop (- step) = xfrange start stop step) /\
  (forall start stop,
      head (x_run start stop 1) = Some start /\
      last (x_run start stop 1) = Some stop) /\
  order_of (FrameSet_init (T "5--1")) = Some [5; 4; 3; 2; 1; 0; -1] /\
  order_of (FrameSet_init (T "-4--2")) = Some [-4; -3; -2].
Proof.
  split; [|split; [|split; [|split]]].
  - intros start stop step Hstep.
    split; [by apply xfrange_run|]. split; [by apply xfrange_overflow|].
    intros f. by apply x_run_bounds.
  - apply xfrange_sign.
  - apply x_run_ends.
  - vm_compute. reflexivity.
  - vm_compute. reflexivity.
Qed.

(** From 5 down to -1 with step 1. *)
Lemma C8_direction_from_bounds_witness :
  xfrange 5 (-1) 1 = Returned (x_run 5 (-1) 1).
Proof.
  apply (proj1 C8_direction_from_bounds 5 (-1) 1); [lia|].
  vm_compute. repeat split; discriminate.
Defined.

(** C9. The padding formatter, on a range string all of whose clauses
    the range-part parser accepts: every clause comes out with its one or
    two frame numbers zero-filled to the width, the sign of a negative
    number in front and not counted; commas, the "-" separator, the
    modifier and the chunk are as they were.  So is the range of every
    frame set the constructor builds.  "1-100" at width 5 gives
    "00001-00100", "1-100x5" gives "00001-00100x5" and "-3-5" at width 3
    gives "-003-005". *)
Theorem C9_padding_formatter :
  (forall frange zfill,
      Forall accepted_clause (split "," frange) ->
      padFrameRange frange zfill =
      join (T ",") (map (pad_part zfill) (split "," frange))) /\
  (forall s fs zfill,
      FrameSet_init s = Returned fs ->
      frameRange fs zfill = join (T ",") (map (pad_part zfill) (clauses s))) /\
  (forall part zfill g,
      _RANGE_RE_match part = Some g ->
      pad_part zfill part =
      pad_literal zfill (g_start g) ++
      match g_end g with
      | Some e => T "-" ++ pad_literal zfill e ++ modifier_text g
      | None => []
      end ++
      drop (length (clause_body g)) part) /\
  (forall width ds,
      pad_literal width (T "-" ++ ds) = T "-" ++ zfill ds width) /\
  padFrameRange (T "1-100") 5 = T "00001-00100" /\
  padFrameRange (T "1-100x5") 5 = T "00001-00100x5" /\
  padFrameRange (T "-3-5") 3 = T "-003-005".
Proof.
  split; [|split; [|split; [|split; [|split; [|split]]]]].
  - intros frange zfill Hall. rewrite <- (join_split frange) at 1.
    apply padFrameRange_join. eapply Forall_impl; [exact Hall|].
    apply accepted_not_malformed.
  - intros s fs zfill Hr. apply FrameSet_init_frange in Hr as [Hf Hall].
    unfold frameRange, clauses in *. rewrite Hf.
    rewrite <- (join_split (translate_delete _PADDING_keys s)) at 1.
    by apply padFrameRange_join.
  - intros part zfill g Hm. unfold pad_part. by rewrite Hm.
  - reflexivity.
  - vm_compute. reflexivity.
  - vm_compute. reflexivity.
  - vm_compute. reflexivity.
Qed.

(** A range string with a negative start, an empty clause, a stride and
    a single frame; and a staggered clause between negative frames. *)
Lemma C9_padding_formatter_witness :
  padFrameRange (T "-3-5,,1-100x5,7") 4 =
  join (T ",") (map (pad_part 4) (split "," (T "-3-5,,1-100x5,7"))) /\
  pad_part 4 (T "-10--2:3") =
  T "-0010" ++ (T "-" ++ T "-0002" ++ T ":3") ++ [].
Proof.
  split.
  - apply (proj1 C9_padding_formatter (T "-3-5,,1-100x5,7") 4).
    repeat (constructor; [first [by left | right; eexists; reflexivity]|]).
    constructor.
  - apply (proj1 (proj2 (proj2 C9_padding_formatter)) (T "-10--2:3") 4
             (RangeGroups (T "-10") (Some (T "-2")) (Some ":"%char) (Some (T "3")))).
    vm_compute. reflexivity.
Defined.

(** C10. Padding characters are deleted wherever they occur before a
    range string is parsed or tested: inserting any run of "#" and "@"
    anywhere changes neither the frame set built nor the answer of
    [isFrameRange]; a string is parsed as its stripped form; a string of
    padding characters alone gives the empty frame set and is a frame
    range; "1#-10@" parses as "1-10" and is a frame range. *)
Theorem C10_padding_characters_deleted :
  (forall s1 p s2,
      Forall is_padding_char p ->
      FrameSet_init (s1 ++ p ++ s2) = FrameSet_init (s1 ++ s2) /\
      isFrameRange (s1 ++ p ++ s2) = isFrameRange (s1 ++ s2)) /\
  (forall s,
      FrameSet_init s = FrameSet_init (translate_delete _PADDING_keys s) /\
      isFrameRange s = isFrameRange (translate_delete _PADDING_keys s)) /\
  (forall p,
      Forall is_padding_char p ->
      FrameSet_init p = Returned (mkFrameSet [] ∅ []) /\
      isFrameRange p = true) /\
  FrameSet_init (T "1#-10@") = FrameSet_init (T "1-10") /\
  order_of (FrameSet_init (T "1#-10@")) = Some [1; 2; 3; 4; 5; 6; 7; 8; 9; 10] /\
  isFrameRange (T "1#-10@") = true.
Proof.
  split; [|split; [|split; [|split; [|split]]]].
  - intros s1 p s2 Hp. split.
    + by apply FrameSet_init_stripped, translate_delete_insert.
    + by apply isFrameRange_stripped, translate_delete_insert.
  - intros s. split.
    + apply FrameSet_init_stripped. by rewrite translate_delete_idem.
    + apply isFrameRange_stripped. by rewrite translate_delete_idem.
  - intros p Hp. unfold FrameSet_init, isFrameRange.
    by rewrite translate_delete_padding.
  - apply FrameSet_init_stripped. reflexivity.
  - vm_compute. reflexivity.
  - vm_compute. reflexivity.
Qed.

(** "1-#@#10", and a string of padding characters alone. *)
Lemma C10_padding_characters_deleted_witness :
  (FrameSet_init (T "1-" ++ T "#@#" ++ T "10") = FrameSet_init (T "1-" ++ T "10") /\
   isFrameRange (T "1-" ++ T "#@#" ++ T "10") = isFrameRange (T "1-" ++ T "10")) /\
  (FrameSet_init (T "##@") = Returned (mkFrameSet [] ∅ []) /\
   isFrameRange (T "##@") = true).
Proof.
  split.
  - apply (proj1 C10_padding_characters_deleted (T "1-") (T "#@#") (T "10")).
    repeat (constructor; [first [by left | by right]|]). constructor.
  - apply (proj1 (proj2 (proj2 C10_padding_characters_deleted)) (T "##@")).
    repeat (constructor; [first [by left | by right]|]). constructor.
Defined.

(** * Further properties of the module *)

(** X1. Compressing duplicate-free frames and parsing the result gives
    the frames back: the members are the frames and the order is the order
    given, or the ascending order when the compressor is asked to sort,
    whatever the padding width; this for frames that are C longs other
    than the least and the greatest, no more of them than the greatest C
    long.  The frame 9223372036854775807 alone is compressed to a string
    on which the constructor raises [OverflowError].  (With a repeated
    frame and no [compress] a frame can be lost: 1,3,1 is written as
    "1".) *)
Theorem X1_compress_parse_round_trip :
  (forall frames sort zfill,
      NoDup frames -> Forall frame_fits frames ->
      Z.of_nat (length frames) <= LONG_MAX ->
      FrameSet_init (framesToFrameRange frames sort zfill false) =
      Returned (mkFrameSet (framesToFrameRange frames sort zfill false)
                           (list_to_set frames)
                           (if sort then sorted frames else frames))) /\
  FrameSet_init (framesToFrameRange [9223372036854775807] false 0 false) =
    Raised OverflowError /\
  framesToFrameRange [1; 3; 1] false 0 false = T "1".
Proof.
  split; [|split; vm_compute; reflexivity].
  intros frames [|] zfill Hnd Hfits Hmax.
  - rewrite framesToFrameRange_sorted, <- sorted_set.
    apply FrameSet_init_compressed.
    + by apply sorted_NoDup.
    + unfold sorted. by rewrite merge_sort_Permutation.
    + unfold sorted. by rewrite merge_sort_Permutation.
  - by apply FrameSet_init_compressed.
Qed.

(** The frames 9,3,6,-1,-2,-3 at width 3, unsorted. *)
Lemma X1_compress_parse_round_trip_witness :
  FrameSet_init (framesToFrameRange [9; 3; 6; -1; -2; -3] false 3 false) =
  Returned (mkFrameSet (framesToFrameRange [9; 3; 6; -1; -2; -3] false 3 false)
                       (list_to_set [9; 3; 6; -1; -2; -3])
                       [9; 3; 6; -1; -2; -3]).
Proof.
  apply (proj1 X1_compress_parse_round_trip [9; 3; 6; -1; -2; -3] false 3).
  - apply NoDup_ListNoDup. repeat constructor; simpl; intuition lia.
  - repeat constructor; vm_compute; reflexivity.
  - vm_compute. discriminate.
Defined.

(** X2. With [compress] the compressor loses no value: parsing its
    result gives a frame set whose members are the frames handed over, in
    order of first occurrence, or in ascending order when asked to sort;
    this for frames that are C longs other than the least and the
    greatest, no more of them than the greatest C long. *)
Theorem X2_compress_flag_lossless (frames : list Z) (sort : bool) (zfill : Z) :
  Forall frame_fits frames -> Z.of_nat (length frames) <= LONG_MAX ->
  exists fs,
    FrameSet_init (framesToFrameRange frames sort zfill true) = Returned fs /\
    _items fs = list_to_set frames /\
    _order fs = (if sort then sorted (unique ∅ frames).1
                 else (unique ∅ frames).1).
Proof.
  intros Hfits Hmax.
  pose proof (unique_sublist ∅ frames) as Hsub.
  destruct (unique ∅ frames) as [order items] eqn:Hu.
  destruct (unique_spec _ _ _ _ Hu) as (Hitems & Hitems' & Hnd & _).
  assert (Hset : list_to_set order =@{gset Z} list_to_set frames)
    by (rewrite Hitems in Hitems'; set_solver).
  assert (Htext : framesToFrameRange frames sort zfill true =
                  framesToFrameRange order sort zfill false)
    by (unfold framesToFrameRange; by rewrite Hu).
  cbn [fst] in Hsub.
  assert (Hofits : Forall frame_fits order).
  { rewrite Forall_forall in *. intros x Hx. apply Hfits.
    by eapply elem_of_sublist. }
  assert (Homax : Z.of_nat (length order) <= LONG_MAX).
  { apply sublist_length in Hsub. lia. }
  rewrite Htext. simpl. destruct sort.
  - rewrite framesToFrameRange_sorted.
    rewrite (FrameSet_init_compressed zfill (sorted order)).
    + eexists. split; [done|]. simpl. by rewrite sorted_set.
    + by apply sorted_NoDup.
    + unfold sorted. by rewrite merge_sort_Permutation.
    + unfold sorted. by rewrite merge_sort_Permutation.
  - rewrite (FrameSet_init_compressed zfill order) by done.
    eexists. split; [done|]. done.
Qed.

(** The frames 4,2,4,0,2, sorted, at width 2. *)
Lemma X2_compress_flag_lossless_witness :
  exists fs,
    FrameSet_init (framesToFrameRange [4; 2; 4; 0; 2] true 2 true)
    = Returned fs /\
    _items fs = list_to_set [4; 2; 4; 0; 2] /\
    _order fs = sorted (unique ∅ [4; 2; 4; 0; 2]).1.
Proof.
  apply (X2_compress_flag_lossless [4; 2; 4; 0; 2] true 2).
  - repeat constructor; vm_compute; reflexivity.
  - vm_compute. discriminate.
Defined.

(** X3. A frame set the constructor built is reproduced by [copy], and
    so is one built by [from_iterable] (so also by a set operation) from
    C longs other than the least and the greatest, while the frame set of
    9223372036854775807 alone is not: [copy] raises [OverflowError].  On a
    heap, [__getstate__] gives the range string in a tuple and leaves the
    heap as it is, and [__setstate__] writes the receiver in place: with
    the state of a frame set that [copy] reproduces the receiver becomes
    that frame set; with a string that does not parse it raises what the
    constructor raises and the receiver is left with the new range string
    and the members and order it had; an empty tuple raises [IndexError]
    and a state that is no tuple, string or dictionary [ValueError], the
    heap unchanged; a dictionary without the key [_items] raises
    [KeyError] after the range string is written; and a dictionary state
    is taken as it is, so that what it leaves need not be a valid frame
    set. *)
Theorem X3_copy_reproduces :
  (forall s fs, FrameSet_init s = Returned fs -> copy fs = Returned fs) /\
  (forall frames sort,
      Forall frame_fits frames -> Z.of_nat (length frames) <= LONG_MAX ->
      copy (from_iterable frames sort) = Returned (from_iterable frames sort)) /\
  copy (from_iterable [9223372036854775807] false) = Raised OverflowError /\
  (forall h a fs,
      h !! a = Some (instance_of fs) ->
      FrameSet___getstate__ a h = (Returned (StateTuple [_frange fs]), h) /\
      (copy fs = Returned fs ->
       forall h' b i,
         h' !! b = Some i ->
         FrameSet___setstate__ b (StateTuple [_frange fs]) h' =
         (Unpickled, <[b := instance_of fs]> h'))) /\
  (forall self h i s e,
      h !! self = Some i -> FrameSet_init s = Raised e ->
      FrameSet___setstate__ self (StateString s) h =
      (UnpicklingRaised e,
       <[self := mkInstance (Some (translate_delete _PADDING_keys s))
                            (slot_items i) (slot_order i)]> h)) /\
  (forall self h,
      FrameSet___setstate__ self (StateTuple []) h = (UnpicklingIndexError, h) /\
      FrameSet___setstate__ self StateOther h = (UnpicklingRaised ValueError, h)) /\
  (forall self h i v order,
      h !! self = Some i ->
      FrameSet___setstate__ self
        (StateDict (mkStateDict None None None (Some v) None (Some order))) h =
      (UnpicklingKeyError (T "_items"),
       <[self := mkInstance (Some v) (slot_items i) (slot_order i)]> h)) /\
  (exists d fs,
      ~ FrameSet_valid fs /\
      forall self h i,
        h !! self = Some i ->
        FrameSet___setstate__ self (StateDict d) h =
        (Unpickled, <[self := instance_of fs]> h)).
Proof.
  split; [apply copy_constructed|].
  split; [apply copy_from_iterable|].
  split; [vm_compute; reflexivity|].
  split; [|split; [|split; [|split]]].
  - intros h a fs Ha. split; [by apply getstate_at|].
    intros Hcopy h' b i Hb. rewrite (setstate_tuple_at _ _ _ _ _ Hb).
    rewrite (setstate_string_at _ _ _ _ Hb). unfold copy in Hcopy.
    by rewrite Hcopy.
  - intros self h i s e Hi He. rewrite (setstate_string_at _ _ _ _ Hi).
    by rewrite He.
  - done.
  - intros self h i v order Hi. unfold FrameSet___setstate__. simpl.
    by rewrite (alter_at _ _ _ _ Hi).
  - exists (mkStateDict (Some (T "1-3")) (Some [7]) (Some [9; 9]) None None None),
           (mkFrameSet (T "1-3") (list_to_set [7]) [9; 9]).
    split.
    + intros (_ & Hnd & _). simpl in Hnd.
      apply NoDup_cons in Hnd as [Hin _]. apply Hin. by left.
    + intros self h i Hi. unfold FrameSet___setstate__.
      cbn [key___frange key___set key___list]. unfold Heap.bind.
      rewrite (set_frange_at _ _ _ _ Hi).
      pose proof (lookup_insert_at h self i
                    (mkInstance (Some (T "1-3")) (slot_items i) (slot_order i))
                    Hi) as H1.
      rewrite (set_items_at _ _ _ _ H1). cbn [slot_frange slot_order].
      pose proof (lookup_insert_at _ self _
                    (mkInstance (Some (T "1-3")) (Some (list_to_set [7]))
                                (slot_order i)) H1) as H2.
      rewrite (set_order_at _ _ _ _ H2). cbn [slot_frange slot_items].
      by rewrite !list_insert_insert_eq.
Qed.

(** The frame set of "10-1x3,2#". *)
Lemma X3_copy_reproduces_witness :
  exists fs, FrameSet_init (T "10-1x3,2#") = Returned fs /\
             copy fs = Returned fs.
Proof.
  destruct (FrameSet_init (T "10-1x3,2#")) as [fs| |] eqn:Hfs;
    try (vm_compute in Hfs; discriminate).
  exists fs. split; [done|].
  exact (proj1 X3_copy_reproduces (T "10-1x3,2#") fs Hfs).
Defined.

(** X4. [normalize] returns the frame set of the same members in
    ascending order, the one a set operation builds from them, and
    normalizing that again changes nothing; this for members that are C
    longs other than the least and the greatest, no more of them than the
    greatest C long.  On the frame set of 9223372036854775807 alone it
    raises [OverflowError]. *)
Theorem X4_normalize :
  (forall self,
      set_Forall frame_fits (_items self) ->
      Z.of_nat (size (_items self)) <= LONG_MAX ->
      exists n,
        normalize self = Returned n /\
        n = from_frozenset (_items self) /\
        _items n = _items self /\
        ascending (_order n) /\
        normalize n = Returned n) /\
  normalize (from_iterable [9223372036854775807] false) = Raised OverflowError.
Proof.
  split; [|vm_compute; reflexivity].
  intros self Hfits Hmax.
  exists (from_frozenset (_items self)).
  destruct (from_frozenset_spec (_items self)) as (Hi & Ho & Hasc).
  split; [by apply normalize_fits|]. split; [done|]. split; [done|].
  split; [done|].
  rewrite normalize_fits; rewrite Hi; done.
Qed.

(** The frame set of 8,2,5. *)
Lemma X4_normalize_witness :
  exists n,
    normalize (from_iterable [8; 2; 5] false) = Returned n /\
    n = from_frozenset (_items (from_iterable [8; 2; 5] false)) /\
    _items n = _items (from_iterable [8; 2; 5] false) /\
    ascending (_order n) /\
    normalize n = Returned n.
Proof.
  apply (proj1 X4_normalize (from_iterable [8; 2; 5] false)).
  - intros x Hx. rewrite from_iterable_items in Hx.
    apply elem_of_list_to_set in Hx.
    repeat (apply elem_of_cons in Hx as [-> | Hx]; [vm_compute; done|]).
    by apply elem_of_nil in Hx.
  - vm_compute. discriminate.
Defined.

(** X5. The inverted range, parsed, is the frame set of the gaps: the
    frames that are not members but lie between two members, in ascending
    order; the inverted range is the empty string exactly when there is no
    gap; this for members that are C longs no further apart than the
    greatest C long.  For the members -2 and 9223372036854775807 the
    method raises [OverflowError]. *)
Theorem X5_inverted_range :
  (forall self zfill,
      set_Forall in_long (_items self) ->
      (forall a b, a ∈ _items self -> b ∈ _items self -> b - a <= LONG_MAX) ->
      exists range inv,
        invertedFrameRange self zfill = Returned range /\
        FrameSet_init range = Returned inv /\
        (forall x, x ∈ _items inv <-> is_gap (_items self) x) /\
        ascending (_order inv) /\
        (range = [] <-> forall x, ~ is_gap (_items self) x)) /\
  invertedFrameRange (from_iterable [-2; 9223372036854775807] false) 0 =
    Raised OverflowError.
Proof.
  split; [|vm_compute; reflexivity].
  intros self zfill Hlong Hnear.
  destruct (inverted_frames_gaps (_items self) Hlong Hnear)
    as (result & Hr & Hasc & Hgaps & Hfits & Hmax).
  unfold invertedFrameRange. rewrite Hr. cbn [bind].
  assert (Hinit :
    FrameSet_init (match result with
                   | [] => []
                   | _ => framesToFrameRange result false zfill false
                   end) =
    Returned (mkFrameSet (match result with
                          | [] => []
                          | _ => framesToFrameRange result false zfill false
                          end)
                (list_to_set result) result)).
  { destruct result as [|g gs] eqn:Hg; [done|].
    apply FrameSet_init_compressed; [by apply ascending_NoDup|done..]. }
  exists (match result with
          | [] => []
          | _ => framesToFrameRange result false zfill false
          end).
  eexists. split; [by destruct result|]. split; [exact Hinit|]. simpl.
  split; [|split; [done|]].
  - intros x. by rewrite elem_of_list_to_set.
  - split.
    + intros Hempty x Hx%Hgaps. rewrite Hempty in Hinit.
      unfold FrameSet_init in Hinit. simpl in Hinit.
      injection Hinit as _ Ho. rewrite <- Ho in Hx. by apply elem_of_nil in Hx.
    + intros Hnone. destruct result as [|g gs]; [done|].
      exfalso. apply (Hnone g), Hgaps. set_solver.
Qed.

(** The frame set of "1-9x4,20": its inverted range is "2-4,6-8,10-19". *)
Lemma X5_inverted_range_witness :
  exists range inv,
    invertedFrameRange (from_iterable [1; 5; 9; 20] false) 0 = Returned range /\
    FrameSet_init range = Returned inv /\
    (forall x, x ∈ _items inv
               <-> is_gap (_items (from_iterable [1; 5; 9; 20] false)) x) /\
    ascending (_order inv) /\
    (range = []
     <-> forall x, ~ is_gap (_items (from_iterable [1; 5; 9; 20] false)) x).
Proof.
  apply (proj1 X5_inverted_range (from_iterable [1; 5; 9; 20] false) 0).
  - intros x Hx. rewrite from_iterable_items in Hx.
    apply elem_of_list_to_set in Hx.
    repeat (apply elem_of_cons in Hx as [-> | Hx]; [vm_compute; done|]).
    by apply elem_of_nil in Hx.
  - intros a b Ha Hb. rewrite from_iterable_items in Ha, Hb.
    apply elem_of_list_to_set in Ha, Hb.
    repeat (apply elem_of_cons in Ha as [-> | Ha]);
      try (by apply elem_of_nil in Ha);
      repeat (apply elem_of_cons in Hb as [-> | Hb]);
      try (by apply elem_of_nil in Hb); vm_compute; discriminate.
Defined.

(** X6. Position and frame of a valid frame set are inverse to each
    other: [index] of a member is a position at which [frame] gives the
    member back, [index] of a frame that is no member raises
    [ValueError], and [index] of what [frame] gives at a position is that
    position, counted from the front. *)
Theorem X6_index_frame_inverse (self : FrameSet) :
  FrameSet_valid self ->
  (forall f, f ∈ _items self ->
     exists i, FrameSet_index self f = Found i /\
               0 <= i < FrameSet___len__ self /\
               FrameSet_frame self i = Found f) /\
  (forall f, f ∉ _items self ->
     FrameSet_index self f = ValueError_not_in_tuple /\
     hasFrame self f = false) /\
  (forall i f, FrameSet_frame self i = Found f ->
     hasFrame self f = true /\
     FrameSet_index self f =
       Found (if i <? 0 then i + FrameSet___len__ self else i)).
Proof.
  intros (Hitems & Hnd & _).
  assert (Hmem : forall f, f ∈ _items self <-> f ∈ _order self)
    by (intros f; rewrite Hitems; apply elem_of_list_to_set).
  assert (Hback : forall i f,
    0 <= i < FrameSet___len__ self -> FrameSet_frame self i = Found f ->
    f ∈ _order self /\ FrameSet_index self f = Found i).
  { intros i f Hi Hf. unfold FrameSet_frame, FrameSet___len__ in *.
    destruct (tuple_getitem_in_range (_order self) i Hi) as (x & Hx & Hget).
    rewrite Hget in Hf. injection Hf as ->.
    assert (Hin : f ∈ _order self) by (by eapply list_elem_of_lookup_2).
    split; [done|].
    destruct (tuple_index_found (_order self) f Hin) as (j & Hj & Hjx & _).
    unfold FrameSet_index. rewrite Hj. f_equal.
    rewrite (NoDup_lookup_first _ _ _ Hnd Hx j Hjx). lia. }
  split; [|split].
  - intros f Hf%Hmem.
    destruct (tuple_index_found (_order self) f Hf) as (i & Hi & Hix & _).
    exists (Z.of_nat i). split; [done|].
    assert (Hlen : (i < length (_order self))%nat)
      by (by eapply lookup_lt_Some).
    unfold FrameSet___len__. split; [lia|].
    destruct (tuple_getitem_in_range (_order self) (Z.of_nat i))
      as (x & Hx & Hget); [lia|].
    unfold FrameSet_frame. rewrite Hget. rewrite Nat2Z.id in Hx. congruence.
  - intros f Hf. split.
    + apply tuple_index_missing. by rewrite <- Hmem.
    + unfold hasFrame, FrameSet___contains__. by rewrite bool_decide_false.
  - intros i f Hf.
    assert (Hrange : - FrameSet___len__ self <= i < FrameSet___len__ self).
    { unfold FrameSet_frame, FrameSet___len__ in *.
      destruct (Z.lt_ge_cases i (- Z.of_nat (length (_order self))));
        [|destruct (Z.lt_ge_cases i (Z.of_nat (length (_order self))));
          [lia|]];
        exfalso;
        assert (Herr : tuple_getitem (_order self) i = IndexError)
          by (apply tuple_getitem_out_of_range; lia);
        congruence. }
    destruct (Z.ltb_spec i 0).
    + unfold FrameSet_frame, FrameSet___len__ in *.
      rewrite tuple_getitem_negative in Hf by lia.
      destruct (Hback (i + Z.of_nat (length (_order self))) f) as [Hin Hidx];
        [unfold FrameSet___len__; lia | done |].
      split; [|done]. unfold hasFrame, FrameSet___contains__.
      apply bool_decide_true. by apply Hmem.
    + destruct (Hback i f) as [Hin Hidx]; [lia | done |].
      split; [|done]. unfold hasFrame, FrameSet___contains__.
      apply bool_decide_true. by apply Hmem.
Qed.

(** The frame set of 7,3,5: the member 5 and the position -1. *)
Lemma X6_index_frame_inverse_witness :
  (exists i, FrameSet_index (from_iterable [7; 3; 5] false) 5 = Found i /\
             0 <= i < FrameSet___len__ (from_iterable [7; 3; 5] false) /\
             FrameSet_frame (from_iterable [7; 3; 5] false) i = Found 5) /\
  (hasFrame (from_iterable [7; 3; 5] false) 5 = true /\
   FrameSet_index (from_iterable [7; 3; 5] false) 5 =
     Found (if -1 <? 0
            then -1 + FrameSet___len__ (from_iterable [7; 3; 5] false)
            else -1)).
Proof.
  pose proof (X6_index_frame_inverse (from_iterable [7; 3; 5] false)
                (from_iterable_valid _ _)) as (H1 & _ & H3).
  split.
  - apply H1. vm_compute. reflexivity.
  - apply H3. vm_compute. reflexivity.
Defined.

(** X7. Positions: [frame] (and indexing) takes the positions from
    [-len] to [len - 1], a negative one counting from the end, and raises
    [IndexError] exactly outside them; [start] and [end] are the first and
    the last frame of the order and raise [IndexError] exactly on the
    empty frame set; reversed iteration is iteration read backwards. *)
Theorem X7_positions (self : FrameSet) :
  (forall i, FrameSet_frame self i = IndexError <->
             i < - FrameSet___len__ self \/ FrameSet___len__ self <= i) /\
  (forall i, - FrameSet___len__ self <= i < 0 ->
             FrameSet_frame self i =
             FrameSet_frame self (i + FrameSet___len__ self)) /\
  (forall i, 0 <= i < FrameSet___len__ self ->
             exists f, _order self !! Z.to_nat i = Some f /\
                       FrameSet___getitem__ self i = Found f) /\
  (FrameSet_start self = IndexError <-> _order self = []) /\
  (FrameSet_end self = IndexError <-> _order self = []) /\
  (forall f, FrameSet_start self = Found f <-> head (_order self) = Some f) /\
  (forall f, FrameSet_end self = Found f <-> last (_order self) = Some f) /\
  (forall f, head (FrameSet___reversed__ self) = Some f <->
             FrameSet_end self = Found f).
Proof.
  assert (Hstart : forall f, FrameSet_start self = Found f <->
                             head (_order self) = Some f).
  { intros f. unfold FrameSet_start, tuple_getitem.
    destruct (_order self) as [|x t]; simpl; [done|].
    split; congruence. }
  assert (Hend : forall f, FrameSet_end self = Found f <->
                           last (_order self) = Some f).
  { intros f. unfold FrameSet_end.
    destruct (decide (_order self = [])) as [Hnil|Hne].
    - rewrite Hnil. done.
    - assert (Hlen : (0 < length (_order self))%nat)
        by (destruct (_order self); [done|simpl; lia]).
      rewrite tuple_getitem_negative by lia.
      destruct (tuple_getitem_in_range (_order self)
                  (-1 + Z.of_nat (length (_order self))))
        as (x & Hx & ->); [lia|].
      rewrite last_lookup.
      replace (Z.to_nat (-1 + Z.of_nat (length (_order self))))
        with (pred (length (_order self))) in Hx by lia.
      rewrite Hx. split; congruence. }
  split; [apply tuple_getitem_out_of_range|].
  split; [intros i Hi; by apply tuple_getitem_negative|].
  split; [intros i Hi; by apply tuple_getitem_in_range|].
  split; [|split; [|split; [done|split; [done|]]]].
  - unfold FrameSet_start. rewrite tuple_getitem_out_of_range.
    destruct (_order self); simpl; split; try done; lia.
  - unfold FrameSet_end. rewrite tuple_getitem_out_of_range.
    destruct (_order self); simpl; split; try done; lia.
  - intros f. rewrite Hend. unfold FrameSet___reversed__.
    by rewrite head_reverse.
Qed.

(** The frame set of 7,3,5 at position -2. *)
Lemma X7_positions_witness :
  FrameSet_frame (from_iterable [7; 3; 5] false) (-2) =
  FrameSet_frame (from_iterable [7; 3; 5] false)
                 (-2 + FrameSet___len__ (from_iterable [7; 3; 5] false)).
Proof.
  apply (proj1 (proj2 (X7_positions (from_iterable [7; 3; 5] false))) (-2)).
  vm_compute. split; [discriminate|reflexivity].
Defined.

(** X8. [isFrameRange] is true exactly when the range-part parser
    rejects no clause of the string.  So it is true for every string the
    constructor returns a frame set for and false for every string on
    which the constructor raises [ParseException]; where it is true the
    constructor returns or raises [OverflowError]; and on a string that
    has no clause of which a run does not fit a C long it predicts the
    constructor: true exactly when the constructor returns, false exactly
    when it raises [ParseException].  On "9223372036854775807" it is true
    and on "9223372036854775807,1-x" false, and on both the constructor
    raises [OverflowError]. *)
Theorem X8_isFrameRange_predicts :
  (forall s,
      isFrameRange s = true <-> Forall (fun p => ~ rejected p) (clauses s)) /\
  (forall s fs, FrameSet_init s = Returned fs -> isFrameRange s = true) /\
  (forall s msg,
      FrameSet_init s = Raised (ParseException msg) -> isFrameRange s = false) /\
  (forall s,
      isFrameRange s = true ->
      (exists fs, FrameSet_init s = Returned fs) \/
      FrameSet_init s = Raised OverflowError) /\
  (forall s,
      Forall (fun p => ~ overflowing p) (clauses s) ->
      (isFrameRange s = true <-> exists fs, FrameSet_init s = Returned fs) /\
      (isFrameRange s = false <->
       exists msg, FrameSet_init s = Raised (ParseException msg))) /\
  isFrameRange (T "9223372036854775807") = true /\
  FrameSet_init (T "9223372036854775807") = Raised OverflowError /\
  isFrameRange (T "9223372036854775807,1-x") = false /\
  FrameSet_init (T "9223372036854775807,1-x") = Raised OverflowError.
Proof.
  split; [apply isFrameRange_spec|].
  split.
  { intros s fs Hfs.
    destruct (FrameSet_init_outcome s)
      as [(fs' & _ & Ht) | [(msg & Hr & _) | Hr]]; [done|congruence..]. }
  split.
  { intros s msg Hmsg.
    destruct (FrameSet_init_outcome s)
      as [(fs' & Hr & _) | [(msg' & _ & Hf & _) | Hr]]; [congruence|done|].
    congruence. }
  split.
  { intros s Ht.
    destruct (FrameSet_init_outcome s)
      as [(fs' & Hr & _) | [(msg' & _ & Hf & _) | Hr]];
      [left; by eexists|congruence|by right]. }
  split; [|repeat split; vm_compute; reflexivity].
  intros s Hall.
  destruct (FrameSet_init_outcome s)
    as [(fs' & Hr & Ht) | [(msg' & Hr & Hf & _) | Hr]].
  - rewrite Ht, Hr. split; [by split; [eexists|]|].
    split; [done|]. by intros [msg [=]].
  - rewrite Hf, Hr. split; [|by split; [eexists|]].
    split; [done|]. by intros [fs [=]].
  - exfalso. apply FrameSet_init_overflows_iff in Hr
      as (good & bad & rest & Hcl & _ & Hb).
    rewrite Hcl in Hall. apply Forall_app in Hall as [_ Hall].
    by apply Forall_cons in Hall as [Hall _].
Qed.

(** "1-5,x" is no frame range, and the constructor raises on it. *)
Lemma X8_isFrameRange_predicts_witness :
  isFrameRange (T "1-5,x") = false.
Proof.
  apply (proj1 (proj2 (proj2 X8_isFrameRange_predicts)) (T "1-5,x")
           (msg_no_match (T "x"))).
  vm_compute. reflexivity.
Defined.

(** X9. Two range strings joined by a comma: the constructor accepts the
    joined string exactly when it accepts both, and the frame set is then
    that of the first string followed by the frames of the second that the
    first does not have; the range string kept is the two kept strings
    joined by the comma. *)
Theorem X9_comma_joins (a b : text) :
  ((exists fs, FrameSet_init (a ++ T "," ++ b) = Returned fs) <->
   (exists A, FrameSet_init a = Returned A) /\
   (exists B, FrameSet_init b = Returned B)) /\
  (forall A B,
     FrameSet_init a = Returned A -> FrameSet_init b = Returned B ->
     FrameSet_init (a ++ T "," ++ b) =
     Returned (mkFrameSet (_frange A ++ T "," ++ _frange B)
                          (_items A ∪ _items B)
                          (_order A ++
                           filter (fun f => f ∉ _items A) (_order B)))).
Proof.
  split.
  - by rewrite !FrameSet_init_returns_iff, clauses_comma, Forall_app.
  - intros A B HA HB.
    assert (Ha : Forall taken (clauses a))
      by (apply FrameSet_init_returns_iff; eauto).
    assert (Hb : Forall taken (clauses b))
      by (apply FrameSet_init_returns_iff; eauto).
    destruct (FrameSet_init_batches a Ha) as (ba & Hnda & Hra & Hia).
    destruct (FrameSet_init_batches b Hb) as (bb & Hndb & Hrb & Hib).
    rewrite HA in Hia. injection Hia as ->.
    rewrite HB in Hib. injection Hib as ->. cbn [_frange _items _order].
    rewrite FrameSet_init_clauses, clauses_comma, init_parts_app, Hra.
    cbn [bind]. rewrite Hrb, <- foldl_app.
    rewrite foldl_extend_new_unique by (apply Forall_app; done).
    cbn [bind]. rewrite concat_app, unique_app.
    pose proof (unique_seen ∅ (concat ba)) as Hseen.
    destruct (unique ∅ (concat ba)) as [o1 s1] eqn:Hu1. simpl in Hseen.
    pose proof (unique_seen_filter (list_to_set (concat ba)) ∅ (concat bb))
      as Hfil.
    replace (list_to_set (concat ba) ∪ ∅) with s1 in Hfil by set_solver.
    destruct (unique s1 (concat bb)) as [o2 s2] eqn:Hu2. simpl in Hfil.
    cbn [fst]. f_equal. f_equal.
    + unfold translate_delete. rewrite !filter_app. done.
    + set_solver.
    + by rewrite Hfil.
Qed.

(** The strings 5-1 and 2-7x2: the second adds 7 only. *)
Lemma X9_comma_joins_witness :
  let A := mkFrameSet (T "5-1") (list_to_set [5; 4; 3; 2; 1]) [5; 4; 3; 2; 1] in
  let B := mkFrameSet (T "2-7x2") (list_to_set [2; 4; 6]) [2; 4; 6] in
  FrameSet_init (T "5-1" ++ T "," ++ T "2-7x2") =
  Returned (mkFrameSet (_frange A ++ T "," ++ _frange B)
                       (_items A ∪ _items B)
                       (_order A ++ filter (fun f => f ∉ _items A) (_order B))).
Proof.
  intros A B.
  apply (proj2 (X9_comma_joins (T "5-1") (T "2-7x2")) A B);
    vm_compute; reflexivity.
Defined.

(** X10. The strict comparisons of frame sets: [<] is irreflexive,
    asymmetric and transitive; [>] and [>=] are [<] and [<=] with the
    operands exchanged; [<] implies [<=]; [<=] both ways holds exactly
    when the members are the same; and of two frame sets with the same
    members in different orders one is [<] the other. *)
Theorem X10_comparisons (A B C : FrameSet) :
  FrameSet___lt__ A (OFrameSet A) = Returned false /\
  FrameSet___gt__ A (OFrameSet B) = FrameSet___lt__ B (OFrameSet A) /\
  FrameSet___ge__ A (OFrameSet B) = FrameSet___le__ B (OFrameSet A) /\
  (FrameSet___lt__ A (OFrameSet B) = Returned true ->
   FrameSet___lt__ B (OFrameSet A) = Returned false /\
   FrameSet___le__ A (OFrameSet B) = Returned true) /\
  (FrameSet___lt__ A (OFrameSet B) = Returned true ->
   FrameSet___lt__ B (OFrameSet C) = Returned true ->
   FrameSet___lt__ A (OFrameSet C) = Returned true) /\
  (FrameSet___le__ A (OFrameSet B) = Returned true /\
   FrameSet___le__ B (OFrameSet A) = Returned true <->
   _items A = _items B) /\
  (_items A = _items B -> _order A <> _order B ->
   FrameSet___lt__ A (OFrameSet B) = Returned true \/
   FrameSet___lt__ B (OFrameSet A) = Returned true).
Proof.
  unfold FrameSet___lt__, FrameSet___gt__, FrameSet___ge__, FrameSet___le__,
    tuple_gt. cbn [_cast_to_frameset bind].
  split; [|split; [|split; [|split; [|split; [|split]]]]].
  - rewrite bool_decide_false by set_solver.
    rewrite bool_decide_true by done. by rewrite tuple_lt_irrefl.
  - f_equal. f_equal. f_equal. apply bool_decide_ext. split; congruence.
  - done.
  - intros [= Hlt]. apply orb_true_iff in Hlt as [Hsub|Heq].
    + apply bool_decide_eq_true in Hsub. split; f_equal.
      * rewrite bool_decide_false by set_solver.
        rewrite bool_decide_false by set_solver. done.
      * apply bool_decide_true. set_solver.
    + apply andb_true_iff in Heq as [Heq Hord].
      apply bool_decide_eq_true in Heq. split; f_equal.
      * rewrite bool_decide_false by set_solver.
        rewrite bool_decide_true by done. by rewrite tuple_lt_asym.
      * apply bool_decide_true. set_solver.
  - intros [= Hab] [= Hbc]. f_equal.
    apply orb_true_iff in Hab as [Hab|Hab]; [apply bool_decide_eq_true in Hab|
      apply andb_true_iff in Hab as [Hab Hoab];
      apply bool_decide_eq_true in Hab];
    (apply orb_true_iff in Hbc as [Hbc|Hbc]; [apply bool_decide_eq_true in Hbc|
      apply andb_true_iff in Hbc as [Hbc Hobc];
      apply bool_decide_eq_true in Hbc]).
    + rewrite bool_decide_true by set_solver. done.
    + rewrite bool_decide_true by (by rewrite <- Hbc). done.
    + rewrite bool_decide_true by (by rewrite Hab). done.
    + rewrite (bool_decide_true (_items A = _items C)) by congruence.
      rewrite (tuple_lt_trans _ _ _ Hoab Hobc). apply orb_true_r.
  - split.
    + intros [[= Hab] [= Hba]]. apply bool_decide_eq_true in Hab, Hba.
      set_solver.
    + intros Heq. rewrite !bool_decide_true by set_solver. done.
  - intros Heq Hne. rewrite !(bool_decide_false (_ ⊂ _)) by set_solver.
    rewrite !bool_decide_true by done. simpl.
    destruct (tuple_lt_total _ _ Hne) as [-> | ->]; [by left|by right].
Qed.

(** The frame sets of 1,2 then 2,1 then 1,2,3. *)
Lemma X10_comparisons_witness :
  FrameSet___lt__ (from_iterable [1; 2] false)
                  (OFrameSet (from_iterable [1; 2; 3] false)) = Returned true.
Proof.
  apply (proj1 (proj2 (proj2 (proj2 (proj2
           (X10_comparisons (from_iterable [1; 2] false)
                            (from_iterable [2; 1] false)
                            (from_iterable [1; 2; 3] false))))))).
  - vm_compute. reflexivity.
  - vm_compute. reflexivity.
Defined.

(** X11. [pad] never loses the number and never shortens it: the padded
    string reads back (with [int]) as the number, its length is the
    larger of the width and the length of the unpadded string, and
    zero-filling a padded string again is zero-filling once to the larger
    of the two widths. *)
Theorem X11_pad (number width : Z) :
  int (pad (Some number) width) = number /\
  Z.of_nat (length (pad (Some number) width)) =
    Z.max (Z.of_nat (length (str_int number))) width /\
  (forall width', pad_str (pad (Some number) width) width' =
                  pad (Some number) (Z.max width width')).
Proof.
  split; [|split].
  - destruct (pad_literal_form number width) as (sg & ds & -> & _ & Hint).
    done.
  - apply zfill_length.
  - intros width'. apply zfill_zfill.
Qed.

(** X12. At a width of 1 or less (0 is the default of [frameRange]) the
    padding formatter returns every string as it is, whether or not it is
    a range string; so [frameRange] is then the range string kept by the
    frame set. *)
Theorem X12_padding_nothing (width : Z) :
  width <= 1 ->
  (forall frange, padFrameRange frange width = frange) /\
  (forall self, frameRange self width = _frange self).
Proof.
  intros Hw. split.
  - intros frange. by apply sub_loop_unchanged.
  - intros self. by apply sub_loop_unchanged.
Qed.

(** The width 0 on a string that is no range string. *)
Lemma X12_padding_nothing_witness :
  padFrameRange (T "a1-x,,-07-y3") 0 = T "a1-x,,-07-y3".
Proof.
  apply (proj1 (X12_padding_nothing 0 ltac:(lia)) (T "a1-x,,-07-y3")).
Defined.

(** X13. Padding changes no frame: the padded range of a frame set the
    constructor built is again a range string the constructor accepts,
    and the frame set built from it has the same members in the same
    order (and the padded string as its range). *)
Theorem X13_padding_keeps_frames (s : text) (fs : FrameSet) (zfill : Z) :
  FrameSet_init s = Returned fs ->
  FrameSet_init (frameRange fs zfill) =
  Returned (mkFrameSet (frameRange fs zfill) (_items fs) (_order fs)).
Proof.
  intros Hr. rewrite (frameRange_clauses s fs zfill Hr).
  pose proof (FrameSet_init_frange s fs Hr) as [_ Hall].
  assert (Hne : clauses s <> []) by apply split_nonempty.
  destruct (clauses_padded zfill (clauses s) Hne Hall) as [Hstrip Hcl].
  rewrite FrameSet_init_clauses, Hcl, Hstrip, init_parts_padded by done.
  rewrite FrameSet_init_clauses in Hr.
  destruct (init_parts (∅, []) (clauses s)) as [[items order]| |e];
    simpl in *; [|done..].
  by injection Hr as <-.
Qed.

(** The string 10-1x3,-2#, padded to four digits. *)
Lemma X13_padding_keeps_frames_witness :
  let fs := mkFrameSet (T "10-1x3,-2") (list_to_set [10; 7; 4; 1; -2])
                       [10; 7; 4; 1; -2] in
  FrameSet_init (frameRange fs 4) =
  Returned (mkFrameSet (frameRange fs 4) (_items fs) (_order fs)).
Proof.
  intros fs. apply (X13_padding_keeps_frames (T "10-1x3,-2#") fs 4).
  vm_compute. reflexivity.
Defined.

(** X14. Padding twice is padding once to the larger width: for a frame
    set the constructor built, the padding formatter applied to its range
    padded to one width gives its range padded to the larger of the two
    widths; in particular padding to the same width again changes
    nothing. *)
Theorem X14_padding_twice (s : text) (fs : FrameSet) (w1 w2 : Z) :
  FrameSet_init s = Returned fs ->
  padFrameRange (frameRange fs w1) w2 = frameRange fs (Z.max w1 w2) /\
  padFrameRange (frameRange fs w1) w1 = frameRange fs w1.
Proof.
  intros Hr.
  pose proof (FrameSet_init_frange s fs Hr) as [_ Hall].
  assert (Htwice : forall w,
    padFrameRange (frameRange fs w1) w = frameRange fs (Z.max w1 w)).
  { intros w. rewrite !(frameRange_clauses s fs _ Hr).
    rewrite padFrameRange_join.
    - f_equal. rewrite map_map. apply map_ext_Forall.
      eapply Forall_impl; [exact Hall|]. intros p Hp.
      by apply pad_part_twice.
    - apply Forall_fmap. eapply Forall_impl; [exact Hall|]. intros p Hp.
      by apply pad_part_not_malformed. }
  split; [apply Htwice|]. rewrite Htwice. by rewrite Z.max_id.
Qed.

(** The string 8-10,7 padded to three and then to five digits. *)
Lemma X14_padding_twice_witness :
  let fs := mkFrameSet (T "8-10,7") (list_to_set [8; 9; 10; 7])
                       [8; 9; 10; 7] in
  padFrameRange (frameRange fs 3) 5 = frameRange fs (Z.max 3 5).
Proof.
  intros fs. apply (X14_padding_twice (T "8-10,7") fs 3 5).
  vm_compute. reflexivity.
Defined.

(** X15. The binary operators and the methods of the same name agree:
    for an operand that is an iterable of frames, or a frame set whose
    members are the frames of its order, [|], [&], [-] and [^] return what
    [union], [intersection], [difference] and [symmetric_difference]
    return for that one operand. *)
Theorem X15_operators_are_methods (self : FrameSet) (other : operand) :
  other <> OOther ->
  (forall B, other = OFrameSet B -> _items B = list_to_set (_order B)) ->
  FrameSet___or__ self other = union self [other] /\
  FrameSet___and__ self other = intersection self [other] /\
  FrameSet___sub__ self other = difference self [other] /\
  FrameSet___xor__ self other = symmetric_difference self other.
Proof.
  intros Hcast Hvalid.
  destruct (cast_cases other) as [[fs Hfs]|]; [|done].
  pose proof (cast_items other fs Hvalid Hfs) as Hset.
  unfold FrameSet___or__, FrameSet___and__, FrameSet___sub__, FrameSet___xor__,
    union, intersection, difference, symmetric_difference.
  cbn [map_set]. rewrite Hfs, Hset. done.
Qed.

(** The frame set of 1-5 and the list 4,4,9. *)
Lemma X15_operators_are_methods_witness :
  FrameSet___or__ (from_iterable [1; 2; 3; 4; 5] false) (OIterable [4; 4; 9])
  = union (from_iterable [1; 2; 3; 4; 5] false) [OIterable [4; 4; 9]].
Proof.
  apply (X15_operators_are_methods (from_iterable [1; 2; 3; 4; 5] false)
           (OIterable [4; 4; 9])).
  - discriminate.
  - intros B HB. discriminate HB.
Defined.

(** X16. [union], [intersection] and [difference] with several operands
    are the chain of the calls with one operand each, errors included;
    with no operand each of them returns the frame set of the members of
    the receiver in ascending order, which is what [normalize] returns
    when the members are C longs other than the least and the greatest, no
    more of them than the greatest C long.  On the frame set of
    9223372036854775807 alone [union] without operand returns and
    [normalize] raises [OverflowError]. *)
Theorem X16_variadic_chain (self : FrameSet) :
  (forall o others,
     union self (o :: others) =
       bind (union self [o]) (fun first => union first others) /\
     intersection self (o :: others) =
       bind (intersection self [o]) (fun first => intersection first others) /\
     difference self (o :: others) =
       bind (difference self [o]) (fun first => difference first others)) /\
  union self [] = Returned (from_frozenset (_items self)) /\
  intersection self [] = Returned (from_frozenset (_items self)) /\
  difference self [] = Returned (from_frozenset (_items self)) /\
  (set_Forall frame_fits (_items self) ->
   Z.of_nat (size (_items self)) <= LONG_MAX ->
   union self [] = normalize self /\
   intersection self [] = normalize self /\
   difference self [] = normalize self) /\
  (exists fs,
      union (from_iterable [9223372036854775807] false) [] = Returned fs) /\
  normalize (from_iterable [9223372036854775807] false) = Raised OverflowError.
Proof.
  split; [|split; [done|split; [done|split; [done|split; [|split]]]]].
  - intros o others. unfold union, intersection, difference.
    split; [|split]; apply variadic_chain.
  - intros Hfits Hmax. by rewrite normalize_fits.
  - by eexists.
  - vm_compute. reflexivity.
Qed.

(** The frame set of 6,2,4 and no operand. *)
Lemma X16_variadic_chain_witness :
  union (from_iterable [6; 2; 4] false) []
  = normalize (from_iterable [6; 2; 4] false).
Proof.
  refine (proj1 (proj1 (proj2 (proj2 (proj2 (proj2
            (X16_variadic_chain (from_iterable [6; 2; 4] false)))))) _ _)).
  - intros x Hx. rewrite from_iterable_items in Hx.
    apply elem_of_list_to_set in Hx.
    repeat (apply elem_of_cons in Hx as [-> | Hx]; [vm_compute; done|]).
    by apply elem_of_nil in Hx.
  - vm_compute. discriminate.
Defined.

(** X17. How the tests and the operations fit together, for an operand
    that is an iterable or a frame set whose members are the frames of
    its order: [isdisjoint] holds exactly when [&] gives the empty frame
    set, [issubset] exactly when [-] does, [issuperset] exactly when the
    reflected [-] does; [^] is [|] without [&]; and the lengths of [|] and
    of [&] add up to the length of the operand's frame set plus the number
    of members of the receiver. *)
Theorem X17_tests_and_operations (self : FrameSet) (other : operand) :
  other <> OOther ->
  exists B U I D R X,
    _cast_to_frameset other = Returned B /\
    FrameSet___or__ self other = Returned U /\
    FrameSet___and__ self other = Returned I /\
    FrameSet___sub__ self other = Returned D /\
    FrameSet___rsub__ self other = Returned R /\
    FrameSet___xor__ self other = Returned X /\
    (isdisjoint self other = Returned true <-> _order I = []) /\
    (issubset self other = Returned true <-> _order D = []) /\
    (issuperset self other = Returned true <-> _order R = []) /\
    FrameSet___sub__ U (OFrameSet I) = Returned X /\
    (FrameSet___len__ U + FrameSet___len__ I =
     Z.of_nat (size (_items self)) + Z.of_nat (size (_items B))).
Proof.
  intros Hcast. destruct (cast_cases other) as [[B HB]|]; [|done].
  unfold FrameSet___or__, FrameSet___and__, FrameSet___sub__,
    FrameSet___rsub__, FrameSet___xor__, isdisjoint, issubset, issuperset.
  rewrite HB. cbn [bind _cast_to_frameset].
  eexists B, _, _, _, _, _. repeat (split; [reflexivity|]).
  rewrite !from_frozenset_empty, !from_frozenset_items.
  unfold FrameSet___len__. rewrite !from_frozenset_length.
  split; [|split; [|split; [|split]]].
  - split.
    + intros [= Hd]. apply bool_decide_eq_true in Hd. set_solver.
    + intros He. f_equal. apply bool_decide_true. set_solver.
  - split.
    + intros [= Hd]. apply bool_decide_eq_true in Hd. set_solver.
    + intros He. f_equal. apply bool_decide_true.
      intros x Hx. destruct (decide (x ∈ _items B)); [done|]. set_solver.
  - split.
    + intros [= Hd]. apply bool_decide_eq_true in Hd. set_solver.
    + intros He. f_equal. apply bool_decide_true.
      intros x Hx. destruct (decide (x ∈ _items self)); [done|]. set_solver.
  - f_equal. f_equal. apply leibniz_equiv. intros x.
    destruct (decide (x ∈ _items self)), (decide (x ∈ _items B)); set_solver.
  - assert (Hu : _items self ∪ _items B
                 = (_items self ∖ _items B) ∪ _items B).
    { apply leibniz_equiv. intros x.
      destruct (decide (x ∈ _items B)); set_solver. }
    assert (Hs : _items self
                 = (_items self ∖ _items B) ∪ (_items self ∩ _items B)).
    { apply leibniz_equiv. intros x.
      destruct (decide (x ∈ _items B)); set_solver. }
    pose proof (size_union (C:=gset Z) (_items self ∖ _items B) (_items B)
                  ltac:(set_solver)) as Hsu.
    pose proof (size_union (C:=gset Z) (_items self ∖ _items B)
                  (_items self ∩ _items B) ltac:(set_solver)) as Hss.
    rewrite <- Hu in Hsu. rewrite <- Hs in Hss. lia.
Qed.

(** The frame set of 1-5 and the list 4,4,9. *)
Lemma X17_tests_and_operations_witness :
  exists B U I D R X,
    _cast_to_frameset (OIterable [4; 4; 9]) = Returned B /\
    FrameSet___or__ (from_iterable [1; 2; 3; 4; 5] false) (OIterable [4; 4; 9])
      = Returned U /\
    FrameSet___and__ (from_iterable [1; 2; 3; 4; 5] false) (OIterable [4; 4; 9])
      = Returned I /\
    FrameSet___sub__ (from_iterable [1; 2; 3; 4; 5] false) (OIterable [4; 4; 9])
      = Returned D /\
    FrameSet___rsub__ (from_iterable [1; 2; 3; 4; 5] false)
                      (OIterable [4; 4; 9]) = Returned R /\
    FrameSet___xor__ (from_iterable [1; 2; 3; 4; 5] false) (OIterable [4; 4; 9])
      = Returned X /\
    (isdisjoint (from_iterable [1; 2; 3; 4; 5] false) (OIterable [4; 4; 9])
       = Returned true <-> _order I = []) /\
    (issubset (from_iterable [1; 2; 3; 4; 5] false) (OIterable [4; 4; 9])
       = Returned true <-> _order D = []) /\
    (issuperset (from_iterable [1; 2; 3; 4; 5] false) (OIterable [4; 4; 9])
       = Returned true <-> _order R = []) /\
    FrameSet___sub__ U (OFrameSet I) = Returned X /\
    (FrameSet___len__ U + FrameSet___len__ I =
     Z.of_nat (size (_items (from_iterable [1; 2; 3; 4; 5] false)))
     + Z.of_nat (size (_items B))).
Proof.
  apply (X17_tests_and_operations (from_iterable [1; 2; 3; 4; 5] false)
           (OIterable [4; 4; 9])).
  discriminate.
Defined.

(** X18. The frame expander [xfrange] hands [start], [stop] moved one
    further and the step with the sign of the direction to [xrange]: when
    one of them does not convert to a C long it raises [OverflowError],
    whatever the step; else a zero step raises [ValueError]; else it
    raises [OverflowError] when there are more frames than the greatest C
    long, and otherwise returns the frames between [start] and [stop]
    (both included) whose distance from [start] is a multiple of the
    magnitude of the step, beginning with [start]; there are
    [|stop - start| / |step| + 1] of them, and the last is [stop] exactly
    when the magnitude of the step divides the distance. *)
Theorem X18_xfrange (start stop step : Z) :
  (~ xfrange_args_fit start stop step ->
   xfrange start stop step = Raised OverflowError) /\
  (xfrange_args_fit start stop 0 ->
   xfrange start stop 0 = Raised ValueError) /\
  (step <> 0 -> xfrange_args_fit start stop step ->
   LONG_MAX < Z.abs (stop - start) / Z.abs step + 1 ->
   xfrange start stop step = Raised OverflowError) /\
  (step <> 0 -> xfrange_args_fit start stop step ->
   Z.abs (stop - start) / Z.abs step + 1 <= LONG_MAX ->
   exists frames,
     xfrange start stop step = Returned frames /\
     (forall f, f ∈ frames <->
        Z.min start stop <= f <= Z.max start stop /\
        (Z.abs step | f - start)) /\
     head frames = Some start /\
     Z.of_nat (length frames) = Z.abs (stop - start) / Z.abs step + 1 /\
     (last frames = Some stop <-> (Z.abs step | stop - start))).
Proof.
  split; [apply xfrange_args_overflow|].
  split; [apply xfrange_zero|].
  split.
  - intros Hstep Hargs Hlen. apply xfrange_overflow; [done|].
    intros [_ Hle]. lia.
  - intros Hstep Hargs Hlen. exists (x_run start stop step).
    split; [by apply xfrange_run|].
    split; [intros f; by apply x_run_elem|].
    split; [by apply x_run_head|].
    split; [by apply x_run_length|by apply x_run_reaches_stop].
Qed.

(** From 10 down to 1 in steps of 4: 10, 6, 2. *)
Lemma X18_xfrange_witness :
  exists frames,
    xfrange 10 1 (-4) = Returned frames /\
    (forall f, f ∈ frames <->
       Z.min 10 1 <= f <= Z.max 10 1 /\ (Z.abs (-4) | f - 10)) /\
    head frames = Some 10 /\
    Z.of_nat (length frames) = Z.abs (1 - 10) / Z.abs (-4) + 1 /\
    (last frames = Some 1 <-> (Z.abs (-4) | 1 - 10)).
Proof.
  apply (proj2 (proj2 (proj2 (X18_xfrange 10 1 (-4))))).
  - discriminate.
  - vm_compute. repeat split; discriminate.
  - vm_compute. discriminate.
Defined.

(** X19. The three modifiers on one range.  Of four clauses that the
    range-part parser reads as the same start, end and chunk with the
    modifiers "x", "y", ":" and none, the chunk being a C long and the
    runs of stride chunk and of stride 1 fitting, the plain clause gives
    every frame from start to end; "x" gives every chunk-th of them; "y"
    gives, in the same order, exactly those "x" leaves out, so that the
    two are disjoint and together make up the plain range; and ":" has the
    same members as the plain range.  On the clause
    "9223372036854775807-9223372036854775807:1", whose run does not fit,
    the constructor raises [OverflowError]. *)
Theorem X19_modifiers :
  (forall px py ps pf start end_ chunk,
      _parse_frange_part px = Returned (start, end_, Some "x"%char, chunk) ->
      _parse_frange_part py = Returned (start, end_, Some "y"%char, chunk) ->
      _parse_frange_part ps = Returned (start, end_, Some ":"%char, chunk) ->
      _parse_frange_part pf = Returned (start, end_, None, 1) ->
      in_long chunk -> run_fits start end_ chunk -> run_fits start end_ 1 ->
      exists X Y S F,
        FrameSet_init px = Returned X /\ FrameSet_init py = Returned Y /\
        FrameSet_init ps = Returned S /\ FrameSet_init pf = Returned F /\
        _order F = x_run start end_ 1 /\
        _order X = x_run start end_ chunk /\
        _order Y = filter (fun f => f ∉ _items X) (_order F) /\
        _items X ∪ _items Y = _items F /\
        _items X ## _items Y /\
        _items S = _items F) /\
  FrameSet_init (T "9223372036854775807-9223372036854775807:1") =
    Raised OverflowError.
Proof.
  split; [|vm_compute; reflexivity].
  intros px py ps pf start end_ chunk Hx Hy Hs Hf Hlong Hwide Hone.
  assert (Hfx : clause_fits start end_ (Some "x"%char) chunk)
    by (unfold clause_fits; by repeat case_bool_decide).
  assert (Hfy : clause_fits start end_ (Some "y"%char) chunk)
    by (unfold clause_fits; by repeat case_bool_decide).
  assert (Hfs : clause_fits start end_ (Some ":"%char) chunk)
    by (unfold clause_fits; by repeat case_bool_decide).
  assert (Hff : clause_fits start end_ None 1)
    by (unfold clause_fits; by repeat case_bool_decide).
  destruct (FrameSet_init_clause _ _ _ _ _ Hx Hfx) as [Hc ->].
  destruct (FrameSet_init_clause _ _ _ _ _ Hy Hfy) as [_ ->].
  destruct (FrameSet_init_clause _ _ _ _ _ Hs Hfs) as [_ ->].
  destruct (FrameSet_init_clause _ _ _ _ _ Hf Hff) as [_ ->].
  eexists _, _, _, _. repeat (split; [reflexivity|]).
  unfold clause_batches. cbn [bool_decide decide_rel]. simpl concat.
  rewrite !app_nil_r. cbn [_order _items].
  assert (Hsub : forall f, f ∈ x_run start end_ chunk ->
                           f ∈ x_run start end_ 1)
    by (intros f; apply x_run_subset; lia).
  rewrite (unique_NoDup ∅ (x_run start end_ chunk))
    by (try apply x_run_NoDup; set_solver || lia).
  rewrite (unique_NoDup ∅ (x_run start end_ 1))
    by (try apply x_run_NoDup; set_solver || lia).
  rewrite (unique_NoDup ∅ (filter _ _))
    by (try (apply NoDup_filter, x_run_NoDup; lia); set_solver).
  cbn [fst]. split; [done|]. split; [done|]. split; [|split; [|split]].
  - by apply filter_not_elem_ext.
  - apply set_eq. intros f.
    rewrite elem_of_union, !elem_of_list_to_set, list_elem_of_filter,
      elem_of_list_to_set.
    destruct (decide (f ∈ x_run start end_ chunk)); naive_solver.
  - intros f. rewrite !elem_of_list_to_set, list_elem_of_filter,
      elem_of_list_to_set. naive_solver.
  - by apply staggers_set.
Qed.

(** The clauses 1-10x3, 1-10y3, 1-10:3 and 1-10. *)
Lemma X19_modifiers_witness :
  exists X Y S F,
    FrameSet_init (T "1-10x3") = Returned X /\
    FrameSet_init (T "1-10y3") = Returned Y /\
    FrameSet_init (T "1-10:3") = Returned S /\
    FrameSet_init (T "1-10") = Returned F /\
    _order F = x_run 1 10 1 /\
    _order X = x_run 1 10 3 /\
    _order Y = filter (fun f => f ∉ _items X) (_order F) /\
    _items X ∪ _items Y = _items F /\
    _items X ## _items Y /\
    _items S = _items F.
Proof.
  apply (proj1 X19_modifiers (T "1-10x3") (T "1-10y3") (T "1-10:3")
           (T "1-10") 1 10 3);
    first [ vm_compute; reflexivity
          | vm_compute; repeat split; discriminate ].
Defined.

(** X20. The generator [unique]: it yields, in the order of the input and
    each once, the items of the input that are not in [seen]; when it has
    run, [seen] holds the input as well; run again with the same set over
    the same input it yields nothing; and over chained iterables it is the
    run over the first followed by the run over the second with the set
    the first run left. *)
Theorem X20_unique (seen : gset Z) (l l' : list Z) :
  NoDup (unique seen l).1 /\
  (unique seen l).1 `sublist_of` l /\
  (forall x, x ∈ (unique seen l).1 <-> x ∈ l /\ x ∉ seen) /\
  (unique seen l).2 = seen ∪ list_to_set l /\
  unique (unique seen l).2 l = ([], (unique seen l).2) /\
  unique seen (l ++ l') =
  ((unique seen l).1 ++ (unique (unique seen l).2 l').1,
   (unique (unique seen l).2 l').2).
Proof.
  split; [|split; [|split; [|split; [|split]]]].
  - destruct (unique seen l) as [out seen'] eqn:Hu.
    by destruct (unique_spec _ _ _ _ Hu) as (_ & _ & Hnd & _).
  - apply unique_sublist.
  - apply unique_elem.
  - apply unique_seen.
  - apply unique_all_seen. intros x Hx. rewrite unique_seen. set_solver.
  - rewrite unique_app. destruct (unique seen l) as [o1 s1]. simpl.
    by destruct (unique s1 l') as [o2 s2].
Qed.

(** X21. [from_iterable]: with [sort] set the frame set depends on the
    set of the frames only, being the one built from that set; without it
    a duplicate-free list is kept as the order; building from the order of
    a frame set made by [from_iterable] gives that frame set again; and a
    valid frame set compares equal to the list of its own frames, whatever
    the hash function. *)
Theorem X21_from_iterable :
  (forall frames, from_iterable frames true
                  = from_frozenset (list_to_set frames)) /\
  (forall frames frames',
     list_to_set frames =@{gset Z} list_to_set frames' ->
     from_iterable frames true = from_iterable frames' true) /\
  (forall frames, NoDup frames ->
     _order (from_iterable frames false) = frames) /\
  (forall frames sort,
     from_iterable (_order (from_iterable frames sort)) false
     = from_iterable frames sort) /\
  (forall (H : PyHash) self, FrameSet_valid self ->
     FrameSet___eq__ self (OIterable (_order self)) = Returned true).
Proof.
  split; [|split; [|split; [|split]]].
  - apply from_iterable_sorted.
  - intros frames frames' Heq. by rewrite !from_iterable_sorted, Heq.
  - intros frames Hnd. by rewrite from_iterable_NoDup.
  - intros frames sort.
    destruct (from_iterable_eq frames sort) as (order & Hnd & _ & ->).
    cbn [_order]. by apply from_iterable_NoDup.
  - intros H self (Hitems & Hnd & _). unfold FrameSet___eq__. cbn [bind].
    rewrite from_iterable_NoDup by done. cbn [_items _order].
    rewrite <- Hitems. by rewrite Z.eqb_refl.
Qed.

(** The lists 3,1,3,2 and 2,2,1,3 sorted, and the list 3,1,2 as it is. *)
Lemma X21_from_iterable_witness :
  from_iterable [3; 1; 3; 2] true = from_iterable [2; 2; 1; 3] true /\
  _order (from_iterable [3; 1; 2] false) = [3; 1; 2] /\
  @FrameSet___eq__ CPython27.hash (from_iterable [3; 1; 2] false)
     (OIterable (_order (from_iterable [3; 1; 2] false))) = Returned true.
Proof.
  split; [|split].
  - apply (proj1 (proj2 X21_from_iterable) [3; 1; 3; 2] [2; 2; 1; 3]).
    apply set_eq. intros x. rewrite !elem_of_list_to_set.
    rewrite !elem_of_cons, !elem_of_nil. intuition lia.
  - apply (proj1 (proj2 (proj2 X21_from_iterable)) [3; 1; 2]).
    apply NoDup_ListNoDup. repeat constructor; simpl; intuition lia.
  - apply (proj2 (proj2 (proj2 (proj2 X21_from_iterable))) CPython27.hash
             (from_iterable [3; 1; 2] false)).
    apply from_iterable_valid.
Defined.

(** X22. How a file-sequence string is cut: [_SPLITTER_RE.split] finds a
    match exactly when the string holds a padding character, and then the
    four parts are the only way to write the string as a part without
    padding characters that does not end in a range character, a run of
    range characters (the frame range), a run of at least one padding
    character, and a rest that does not begin with a padding character.
    So range characters that end the name go to the frame range. *)
Theorem X22_sequence_split (sequence : text) :
  (_SPLITTER_RE_split sequence = None <->
   Forall (fun c => is_pad_char c = false) sequence) /\
  (forall before frame_ids padding rest,
     _SPLITTER_RE_split sequence = Some (before, frame_ids, padding, rest) <->
     sequence = before ++ frame_ids ++ padding ++ rest /\
     splits_at before frame_ids padding rest).
Proof.
  split; [apply _SPLITTER_RE_split_none|].
  intros before frame_ids padding rest. apply _SPLITTER_RE_split_spec.
Qed.

(** X23. The constructor of [FileSequence] raises in one case only: the
    string holds a padding character, the run of range characters before
    it is not empty, and the [FrameSet] constructor raises on that run;
    the exception is then the one of the [FrameSet] constructor, its
    [ParseException] or [OverflowError].  It never raises its own "Failed
    to parse FileSequence" exception, and never [KeyError].  On
    "a.9223372036854775807#.exr" it raises [OverflowError]. *)
Theorem X23_FileSequence_init_errors (sequence : text) :
  FileSequence_init sequence <> Fails (ParseException (msg_failed sequence)) /\
  (forall key, FileSequence_init sequence <> KeyError key) /\
  (forall e, FileSequence_init sequence = Fails e <->
     exists before frame_ids padding rest,
       _SPLITTER_RE_split sequence = Some (before, frame_ids, padding, rest) /\
       frame_ids <> [] /\ FrameSet_init frame_ids = Raised e) /\
  (forall e, FileSequence_init sequence = Fails e ->
     (exists msg, e = ParseException msg) \/ e = OverflowError) /\
  FileSequence_init (T "a.9223372036854775807#.exr") = Fails OverflowError.
Proof.
  assert (Hcases :
    (exists seq, FileSequence_init sequence = Done seq) \/
    (exists before frame_ids padding rest e,
       _SPLITTER_RE_split sequence = Some (before, frame_ids, padding, rest) /\
       frame_ids <> [] /\
       FrameSet_init frame_ids = Raised e /\
       ((exists bad, e = ParseException (msg_no_match bad) \/
                     e = ParseException (msg_zero_chunk bad)) \/
        e = OverflowError) /\
       FileSequence_init sequence = Fails e)).
  { destruct (_SPLITTER_RE_split sequence) as [[[[before ids] padding] rest]|]
      eqn:Hsplit.
    - rewrite (FileSequence_init_parts _ _ _ _ _ Hsplit). cbn zeta.
      destruct ids as [|c ids].
      + left. by eexists.
      + destruct (FrameSet_init_outcome (c :: ids))
          as [(fs & Hr & Hf) | [(msg & Hr & Hf & bad & Hmsg) | Hr]];
          rewrite Hr.
        * left. by eexists.
        * right. exists before, (c :: ids), padding, rest, (ParseException msg).
          repeat (split; [done|]). split; [|done]. left. exists bad.
          by destruct Hmsg as [-> | ->]; [left|right].
        * right. exists before, (c :: ids), padding, rest, OverflowError.
          repeat (split; [done|]). split; [by right|done].
    - left. apply _SPLITTER_RE_split_none in Hsplit.
      rewrite (FileSequence_init_solitary _ Hsplit). by eexists. }
  split; [|split; [|split; [|split]]].
  - destruct Hcases as [(seq & ->) |
      (before & ids & padding & rest & e & _ & _ & _ & He & ->)]; [done|].
    intros [= ->]. by destruct He as [(bad & [[=] | [=]]) | [=]].
  - intros key.
    destruct Hcases as [(seq & ->) |
      (before & ids & padding & rest & e & _ & _ & _ & _ & ->)]; done.
  - intros e. split.
    + destruct Hcases as [(seq & ->) |
        (before & ids & padding & rest & e' & Hs & Hne & Hr & _ & ->)];
        [done|].
      intros [= <-]. by exists before, ids, padding, rest.
    + intros (before & ids & padding & rest & Hs & Hne & Hr).
      rewrite (FileSequence_init_parts _ _ _ _ _ Hs). cbn zeta.
      destruct ids as [|c ids]; [done|]. by rewrite Hr.
  - intros e.
    destruct Hcases as [(seq & ->) |
      (before & ids & padding & rest & e' & _ & _ & _ & He & ->)]; [done|].
    intros [= <-]. destruct He as [(bad & [-> | ->]) | ->]; eauto.
  - vm_compute. reflexivity.
Qed.

(** "a.1-x#.exr": the constructor of the frame set raises on "1-x". *)
Lemma X23_FileSequence_init_errors_witness :
  (exists msg, ParseException (msg_no_match (T "1-x")) = ParseException msg) \/
  ParseException (msg_no_match (T "1-x")) = OverflowError.
Proof.
  apply (proj1 (proj2 (proj2 (proj2
           (X23_FileSequence_init_errors (T "a.1-x#.exr")))))).
  vm_compute. reflexivity.
Defined.

(** X24. What the constructor of [FileSequence] builds.  From a string
    without padding characters: a sequence without frame set and without
    padding, of width 0 and length 1, that iterates over its own name
    only, starts and ends at 0, has an empty frame range and an empty
    inverted range and gives its name at every index.  From a string with
    a padding character, cut in four: the padding and the extension are
    the third and fourth part, the width is four times the number of "#"
    plus the number of "@" and is at least 1, there is no frame set when
    the second part is empty, and otherwise the frame set is the one built
    from the second part, which it keeps as its range. *)
Theorem X24_FileSequence_built (sequence : text) (seq : FileSequence) :
  FileSequence_init sequence = Done seq ->
  (Forall (fun c => is_pad_char c = false) sequence ->
   __frameSet seq = None /\ __padding seq = [] /\ __zfill seq = 0 /\
   FileSequence___len__ seq = 1 /\
   FileSequence___iter__ seq = [FileSequence___str__ seq] /\
   FileSequence_start seq = Found 0 /\ FileSequence_end seq = Found 0 /\
   FileSequence_frameRange seq = [] /\
   FileSequence_invertedFrameRange seq = Returned [] /\
   (forall idx, FileSequence_index seq idx = Found (FileSequence___str__ seq))) /\
  (forall before frame_ids padding rest,
     _SPLITTER_RE_split sequence = Some (before, frame_ids, padding, rest) ->
     __padding seq = padding /\ __ext seq = rest /\
     __zfill seq = 4 * count_char "#" padding + count_char "@" padding /\
     1 <= __zfill seq /\
     (frame_ids = [] -> __frameSet seq = None) /\
     (frame_ids <> [] ->
      exists fs, __frameSet seq = Some fs /\
                 FrameSet_init frame_ids = Returned fs /\
                 _frange fs = frame_ids /\
                 FileSequence_frameRange seq
                 = padFrameRange frame_ids (__zfill seq))).
Proof.
  intros Hinit. split.
  - intros Hall. rewrite (FileSequence_init_solitary _ Hall) in Hinit.
    injection Hinit as <-.
    unfold FileSequence___len__, FileSequence___iter__, FileSequence_start,
      FileSequence_end, FileSequence_frameRange,
      FileSequence_invertedFrameRange, FileSequence_index.
    cbn [__frameSet __padding __zfill]. done.
  - intros before ids padding rest Hsplit.
    rewrite (FileSequence_init_parts _ _ _ _ _ Hsplit) in Hinit.
    apply _SPLITTER_RE_split_spec in Hsplit
      as (_ & _ & _ & Hids & Hpad & Hne & _).
    pose proof (padding_sum_positive padding Hne Hpad) as Hpos.
    cbn zeta in Hinit. destruct ids as [|c ids].
    + injection Hinit as <-. cbn [__frameSet __padding __zfill __ext].
      repeat (split; [done|]). done.
    + destruct (FrameSet_init (c :: ids)) as [fs| |e] eqn:Hfs; [|done..].
      injection Hinit as <-. cbn [__frameSet __padding __zfill __ext].
      repeat (split; [done|]). intros _. exists fs.
      assert (Hfr : _frange fs = c :: ids).
      { apply FrameSet_init_frange in Hfs as [-> _].
        by apply range_chars_stripped. }
      unfold FileSequence_frameRange, frameRange. cbn [__frameSet __zfill].
      by rewrite Hfr.
Qed.

(** The string foo.1-3x2@#.exr: the width is 5. *)
Lemma X24_FileSequence_built_witness :
  exists seq,
    FileSequence_init (T "foo.1-3x2@#.exr") = Done seq /\
    __padding seq = T "@#" /\ __ext seq = T ".exr" /\
    __zfill seq = 4 * count_char "#" (T "@#") + count_char "@" (T "@#") /\
    1 <= __zfill seq.
Proof.
  destruct (FileSequence_init (T "foo.1-3x2@#.exr")) as [seq| |] eqn:Hinit;
    try (vm_compute in Hinit; discriminate).
  exists seq. split; [done|].
  destruct (proj2 (X24_FileSequence_built (T "foo.1-3x2@#.exr") seq Hinit)
              (T "foo.") (T "1-3x2") (T "@#") (T ".exr")
              ltac:(vm_compute; reflexivity)) as (H1 & H2 & H3 & H4 & _).
  done.
Defined.

(** X25. Padding characters and widths: the sum over a padding string is
    four times the number of "#" plus the number of "@" when the string
    holds nothing else, and raises [KeyError] with the first other
    character otherwise; the padding characters [getPaddingChars] gives
    for a width of 1 or more add up to that width, those it gives for 0
    add up to 1, and for a negative width it gives none.  [setPadding]
    returns exactly for a string of padding characters, and then changes
    the padding and the width only. *)
Theorem X25_padding_widths :
  (forall padding,
     (Forall (fun c => is_pad_char c = true) padding /\
      padding_sum padding =
      Done (4 * count_char "#" padding + count_char "@" padding)) \/
     (exists pre key post,
        padding = pre ++ key :: post /\
        Forall (fun c => is_pad_char c = true) pre /\
        is_pad_char key = false /\ padding_sum padding = KeyError key)) /\
  (forall num, 1 <= num -> padding_sum (getPaddingChars num) = Done num) /\
  padding_sum (getPaddingChars 0) = Done 1 /\
  (forall num, num < 0 -> getPaddingChars num = []) /\
  (forall num, Forall (fun c => is_pad_char c = true) (getPaddingChars num)) /\
  (forall self padding seq,
     FileSequence_setPadding self padding = Done seq <->
     Forall (fun c => is_pad_char c = true) padding /\
     seq = mkFileSequence (__dir self) (__basename self) (__frameSet self)
             padding (__ext self)
             (4 * count_char "#" padding + count_char "@" padding)).
Proof.
  split; [apply padding_sum_cases|]. split; [|split; [done|split; [|split]]].
  - intros num Hnum. rewrite padding_sum_getPaddingChars.
    destruct (Z.eqb_spec num 0); [lia|]. f_equal. lia.
  - intros num Hnum. unfold getPaddingChars.
    destruct (Z.eqb_spec num 0); [lia|].
    destruct (num mod 4 =? 0).
    + assert (num / 4 < 0) by (apply Z.div_lt_upper_bound; lia).
      by replace (Z.to_nat (num / 4)) with 0%nat by lia.
    + by replace (Z.to_nat num) with 0%nat by lia.
  - intros num. unfold getPaddingChars.
    destruct (num =? 0); [by repeat constructor|].
    destruct (num mod 4 =? 0); apply Forall_forall;
      intros c Hc%list_elem_of_In%repeat_spec; by subst c.
  - intros self padding seq. unfold FileSequence_setPadding.
    destruct (padding_sum_cases padding)
      as [[Hall ->] | (pre & key & post & -> & Hpre & Hkey & ->)].
    + split; [by intros [= <-]|]. by intros [_ ->].
    + split; [done|]. intros [Hall _]. apply Forall_app in Hall as [_ Hall].
      apply Forall_cons in Hall as [Hk _]. congruence.
Qed.

(** The widths 8 and 3. *)
Lemma X25_padding_widths_witness :
  padding_sum (getPaddingChars 8) = Done 8 /\
  padding_sum (getPaddingChars 3) = Done 3.
Proof.
  split.
  - apply (proj1 (proj2 X25_padding_widths) 8). lia.
  - apply (proj1 (proj2 X25_padding_widths) 3). lia.
Defined.

(** X26. The paths of a file sequence: iteration yields as many paths as
    [len] says; with a frame set and a width other than 0, the path at an
    index within the length is the path iteration yields at that
    position, an index raises [IndexError] exactly outside [-len] to
    [len - 1], different frames have different paths, and so a frame set
    without repeated frames gives no path twice. *)
Theorem X26_FileSequence_paths (seq : FileSequence) :
  Z.of_nat (length (FileSequence___iter__ seq)) = FileSequence___len__ seq /\
  (forall fs, __frameSet seq = Some fs -> __zfill seq <> 0 ->
     (forall idx, 0 <= idx < FileSequence___len__ seq ->
        exists path,
          FileSequence___iter__ seq !! Z.to_nat idx = Some path /\
          FileSequence_index seq idx = Found path) /\
     (forall idx, FileSequence_index seq idx = IndexError <->
        idx < - FileSequence___len__ seq \/ FileSequence___len__ seq <= idx) /\
     (forall f g, FileSequence_frame seq f = FileSequence_frame seq g -> f = g) /\
     (NoDup (_order fs) -> NoDup (FileSequence___iter__ seq))).
Proof.
  split.
  - unfold FileSequence___iter__, FileSequence___len__.
    destruct (__frameSet seq) as [fs|]; [|done].
    destruct (__zfill seq =? 0); [done|]. by rewrite length_map.
  - intros fs Hfs Hz.
    unfold FileSequence___iter__, FileSequence___len__, FileSequence_index.
    rewrite Hfs. destruct (Z.eqb_spec (__zfill seq) 0) as [?|_]; [done|].
    unfold FrameSet___getitem__, FrameSet_frame, FrameSet___len__,
      FrameSet___iter__.
    split; [|split; [|split]].
    + intros idx Hidx.
      destruct (tuple_getitem_in_range (_order fs) idx Hidx) as (f & Hf & ->).
      exists (FileSequence_frame seq f). split; [|done].
      by rewrite list_lookup_fmap, Hf.
    + intros idx. rewrite <- tuple_getitem_out_of_range.
      destruct (tuple_getitem (_order fs) idx); split; done.
    + intros f g. by apply FileSequence_frame_inj.
    + intros Hnd. apply NoDup_fmap_2_strong; [|done].
      intros f g _ _. by apply FileSequence_frame_inj.
Qed.

(** The sequence built from a.1-3#.exr, at index 1. *)
Lemma X26_FileSequence_paths_witness :
  let seq := mkFileSequence [] (T "a.")
               (Some (mkFrameSet (T "1-3") (list_to_set [1; 2; 3]) [1; 2; 3]))
               (T "#") (T ".exr") 4 in
  exists path,
    FileSequence___iter__ seq !! Z.to_nat 1 = Some path /\
    FileSequence_index seq 1 = Found path.
Proof.
  intros seq.
  apply (proj1 (proj2 (X26_FileSequence_paths seq)
                  (mkFrameSet (T "1-3") (list_to_set [1; 2; 3]) [1; 2; 3])
                  eq_refl ltac:(discriminate)) 1).
  vm_compute. split; [discriminate|reflexivity].
Defined.

(** X27. Printing a file sequence that was built from a string: when the
    string has no slash, and the frame set, if there is one, has a frame,
    [str] gives the string back.  When the string begins with its only
    slash, [str] gives it with the slash doubled. *)
Theorem X27_FileSequence_str (sequence : text) (seq : FileSequence) :
  FileSequence_init sequence = Done seq ->
  (forall fs, __frameSet seq = Some fs -> _order fs <> []) ->
  ("/"%char ∉ sequence -> FileSequence___str__ seq = sequence) /\
  (forall rest, sequence = "/"%char :: rest -> "/"%char ∉ rest ->
     FileSequence___str__ seq = "/"%char :: sequence).
Proof.
  intros Hinit Hframes.
  destruct (FileSequence_str_built sequence seq Hinit Hframes)
    as (filename & tail & Hseq & Hstr & Hroot).
  rewrite Hstr. unfold directory_of. split.
  - intros Hslash.
    rewrite os_path_split_no_slash by (rewrite Hseq in Hslash; set_solver).
    by rewrite Hseq.
  - intros rest Hrest Hslash. specialize (Hroot rest Hrest).
    destruct filename as [|c b]; [done|].
    rewrite Hrest in Hseq. injection Hseq as <- ->.
    rewrite os_path_split_root by set_solver. by rewrite Hrest.
Qed.

(** The strings a.1-3#.exr and /a.1-3#.exr. *)
Lemma X27_FileSequence_str_witness :
  let fs := mkFrameSet (T "1-3") (list_to_set [1; 2; 3]) [1; 2; 3] in
  FileSequence___str__
    (mkFileSequence [] (T "a.") (Some fs) (T "#") (T ".exr") 4)
  = T "a.1-3#.exr" /\
  FileSequence___str__
    (mkFileSequence (T "//") (T "a.") (Some fs) (T "#") (T ".exr") 4)
  = "/"%char :: T "/a.1-3#.exr".
Proof.
  intros fs. split.
  - apply (X27_FileSequence_str (T "a.1-3#.exr")
             (mkFileSequence [] (T "a.") (Some fs) (T "#") (T ".exr") 4)).
    + vm_compute. reflexivity.
    + intros fs' [= <-]. discriminate.
    + refine (bool_decide_eq_true_1 _ _). vm_compute. reflexivity.
  - apply (proj2 (X27_FileSequence_str (T "/a.1-3#.exr")
             (mkFileSequence (T "//") (T "a.") (Some fs) (T "#") (T ".exr") 4)
             ltac:(vm_compute; reflexivity)
             ltac:(intros fs' [= <-]; discriminate)) (T "a.1-3#.exr")).
    + reflexivity.
    + refine (bool_decide_eq_true_1 _ _). vm_compute. reflexivity.
Defined.

(** X28. Compressing with a width and padding afterwards: for frames
    none of which is negative, the padding formatter applied to the range
    compressed without padding gives the range compressed with the width.
    For a negative frame the two differ, because [pad] counts the sign
    in the width and the padding formatter does not: -5 at width 3 is
    compressed to -05 and padded to -005. *)
Theorem X28_compress_then_pad :
  (forall frames sort width compress,
     Forall (fun f => 0 <= f) frames ->
     padFrameRange (framesToFrameRange frames sort 0 compress) width
     = framesToFrameRange frames sort width compress) /\
  framesToFrameRange [-5] true 3 false = T "-05" /\
  padFrameRange (framesToFrameRange [-5] true 0 false) 3 = T "-005".
Proof.
  split; [|split; vm_compute; reflexivity].
  intros frames sort width compress Hall. unfold framesToFrameRange.
  assert (Hall' : Forall (fun f => 0 <= f)
                    (if compress then (unique ∅ frames).1 else frames))
    by (destruct compress; [by apply unique_nonneg|done]).
  destruct (if compress then (unique ∅ frames).1 else frames)
    as [|f [|g rest]] eqn:Hframes; [done| |].
  - apply Forall_cons in Hall' as [Hf _].
    destruct (_build_frange_part_padded (Some f) (Some f) None width)
      as [Hshape Hpad]; try done; try (by intros x [= <-]).
    change (pad (Some f) 0) with (_build_frange_part (Some f) (Some f) None 0).
    change (pad (Some f) width)
      with (_build_frange_part (Some f) (Some f) None width).
    rewrite <- Hpad.
    apply (padFrameRange_join_shaped width
             [_build_frange_part (Some f) (Some f) None 0]).
    by constructor.
  - assert (Hs : Forall (fun f => 0 <= f)
                   (if sort then sorted (f :: g :: rest) else f :: g :: rest))
      by (destruct sort; [by apply sorted_nonneg|done]).
    destruct (framesToFrameRanges_zfill width _ Hs) as [Hshaped <-].
    by apply padFrameRange_join_shaped.
Qed.

(** The frames 0, 5, 10, 11 at width 3. *)
Lemma X28_compress_then_pad_witness :
  padFrameRange (framesToFrameRange [0; 5; 10; 11] true 0 false) 3
  = framesToFrameRange [0; 5; 10; 11] true 3 false.
Proof.
  apply (proj1 X28_compress_then_pad [0; 5; 10; 11] true 3 false).
  repeat constructor; lia.
Defined.

(** X29. Empty clauses count for nothing: the range string of a frame
    set the constructor built, with its empty clauses (leading, trailing
    and doubled commas) taken out, gives a frame set with the same
    members in the same order; and a string of commas and padding
    characters only gives the empty frame set. *)
Theorem X29_empty_clauses :
  (forall s fs,
     FrameSet_init s = Returned fs ->
     FrameSet_init (join (T ",") (filter (fun p => p <> []) (clauses s))) =
     Returned (mkFrameSet (join (T ",") (filter (fun p => p <> []) (clauses s)))
                          (_items fs) (_order fs))) /\
  (forall s,
     Forall (fun c => c = ","%char \/ is_padding_char c) s ->
     FrameSet_init s =
     Returned (mkFrameSet (translate_delete _PADDING_keys s) ∅ [])).
Proof.
  split.
  - intros s fs Hfs. rewrite FrameSet_init_clauses in Hfs.
    rewrite <- (init_parts_nonempty _ (clauses s)) in Hfs.
    destruct (filter (fun p => p <> []) (clauses s)) as [|p ps] eqn:Hparts.
    { simpl in Hfs. by injection Hfs as <-. }
    assert (Hplain : Forall (Forall plain_char) (p :: ps)).
    { rewrite <- Hparts. apply Forall_forall. intros q Hq.
      apply list_elem_of_filter in Hq as [_ Hq].
      pose proof (clauses_plain s) as Hall. rewrite Forall_forall in Hall.
      by apply Hall. }
    destruct (clauses_join_plain (p :: ps) ltac:(done) Hplain) as [Hstrip Hcl].
    rewrite FrameSet_init_clauses, Hcl, Hstrip.
    destruct (init_parts (∅, []) (p :: ps)) as [[items order]| |e];
      simpl in *; [|done..].
    by injection Hfs as <-.
  - intros s Hall. rewrite FrameSet_init_clauses.
    assert (Hempty : Forall (fun p => p = []) (clauses s)).
    { unfold clauses.
      assert (Hcommas : Forall (fun c => c = ","%char)
                          (translate_delete _PADDING_keys s)).
      { unfold translate_delete. apply Forall_forall. intros c Hc.
        apply list_elem_of_filter in Hc as [Hkey Hc].
        rewrite Forall_forall in Hall. destruct (Hall c Hc) as [?|Hp]; [done|].
        destruct Hkey. by apply is_padding_char_keys. }
      induction Hcommas as [|c r -> _ IH]; simpl; [by repeat constructor|].
      by constructor. }
    assert (Hparts : forall st, init_parts st (clauses s) = Returned st).
    { intros st. induction Hempty as [|p ps -> _ IH]; [done|]. simpl. exact IH. }
    by rewrite Hparts.
Qed.

(** The string ,5-7,,#2, has the frames of 5-7,2. *)
Lemma X29_empty_clauses_witness :
  let fs := mkFrameSet (T ",5-7,,2,") (list_to_set [5; 6; 7; 2]) [5; 6; 7; 2] in
  FrameSet_init
    (join (T ",") (filter (fun p => p <> []) (clauses (T ",5-7,,#2,")))) =
  Returned (mkFrameSet
    (join (T ",") (filter (fun p => p <> []) (clauses (T ",5-7,,#2,"))))
    (_items fs) (_order fs)).
Proof.
  intros fs. apply (proj1 X29_empty_clauses (T ",5-7,,#2,") fs).
  vm_compute. reflexivity.
Defined.

(** X30. [split] on a file sequence the constructor built never raises.
    It returns one sequence for each clause of the range of the frame set
    (one when there is none), each with the padding and the width of the
    sequence; the frames of the pieces together are the frames of the
    sequence; and when the string had no slash each piece has the
    directory, the name and the extension of the sequence. *)
Theorem X30_FileSequence_split (sequence : text) (seq : FileSequence) :
  FileSequence_init sequence = Done seq ->
  exists pieces,
    FileSequence_split seq = Done pieces /\
    length pieces =
      match __frameSet seq with
      | Some fs => length (clauses (_frange fs))
      | None => 1%nat
      end /\
    ⋃ (map FileSequence_frames pieces) = FileSequence_frames seq /\
    Forall (fun piece => __padding piece = __padding seq /\
                         __zfill piece = __zfill seq) pieces /\
    ("/"%char ∉ sequence ->
     Forall (fun piece => __dir piece = __dir seq /\
                          __basename piece = __basename seq /\
                          __ext piece = __ext seq) pieces).
Proof.
  intros Hinit.
  destruct (FileSequence_init_built sequence seq Hinit)
    as (filename & tail & Hseq & Hdir & Hbase & Hbuilt).
  assert (Hflat : "/"%char ∉ sequence ->
    __dir seq = [] /\ __basename seq = filename /\
    directory_of (__dir seq ++ __basename seq) = [] /\
    (os_path_split (__dir seq ++ __basename seq)).2 = filename).
  { intros Hslash.
    assert (Hf : "/"%char ∉ filename) by (rewrite Hseq in Hslash; set_solver).
    rewrite Hdir, Hbase. unfold directory_of.
    rewrite !(os_path_split_no_slash filename) by done. cbn [fst snd app].
    by rewrite !(os_path_split_no_slash filename). }
  unfold FileSequence_split, FileSequence_frameRange, FileSequence_frames.
  destruct Hbuilt as [[(Hchars & Hpad & Hfs & Hz) [Htail Hall]] | Hbuilt].
  - rewrite Hfs. cbn [split split_pieces]. rewrite Hpad. cbn [app].
    rewrite (FileSequence_init_solitary _ Hchars).
    eexists. split; [done|]. split; [done|].
    split; [cbn; set_solver|]. split; [by repeat constructor|].
    intros Hslash. destruct (Hflat Hslash) as (Hd & Hb & _).
    assert (Hsame : __dir seq ++ __basename seq ++ __ext seq = sequence)
      by (by rewrite Hd, Hb, <- Htail).
    rewrite Hsame. rewrite (FileSequence_init_solitary _ Hall) in Hinit.
    injection Hinit as <-. by repeat constructor.
  - destruct (__frameSet seq) as [fs|] eqn:Hfs.
    + pose proof Hbuilt as (_ & _ & _ & _ & _ & _ & Hframe).
      rewrite Hfs in Hframe. destruct Hframe as [Hrange Hfsinit].
      rewrite (split_frameRange fs _ Hfsinit).
      pose proof (FrameSet_init_returned _ fs Hfsinit) as [Hgood _].
      assert (Hparts : Forall (Forall (fun c => is_range_char c = true))
                         (clauses (_frange fs))).
      { unfold clauses. rewrite range_chars_stripped by done.
        by apply split_chars. }
      destruct (split_pieces_clauses seq _ Hbuilt Hgood Hparts)
        as (pieces & Hpieces & Hlen & Hattrs & Hframes).
      exists pieces. split; [done|]. split; [done|]. split; [|split].
      * rewrite FrameSet_init_clauses in Hfsinit.
        destruct (init_parts (∅, []) (clauses (_frange fs)))
          as [[items order]| |e] eqn:Hparts'; [|done..].
        cbn [bind] in Hfsinit. injection Hfsinit as Hfsinit.
        rewrite <- Hfsinit. cbn [_items].
        specialize (Hframes _ _ Hparts'). cbn [fst] in Hframes.
        rewrite Hframes. set_solver.
      * eapply Forall_impl; [exact Hattrs|]. by intros piece (_ & _ & ? & _ & ?).
      * intros Hslash. destruct (Hflat Hslash) as (Hd & Hb & Hd' & Hb').
        eapply Forall_impl; [exact Hattrs|].
        intros piece (-> & -> & _ & -> & _). by rewrite Hd', Hb', Hd, Hb.
    + cbn [split split_pieces].
      rewrite (piece_with_padding seq [] Hbuilt ltac:(done)).
      eexists. split; [done|]. split; [done|].
      split; [cbn; set_solver|]. split; [by repeat constructor|].
      intros Hslash. destruct (Hflat Hslash) as (Hd & Hb & Hd' & Hb').
      constructor; [|constructor]. cbn [__dir __basename __ext].
      by rewrite Hd', Hb', Hd, Hb.
Qed.

(** The sequence built from a.1-3,7#.exr: two pieces. *)
Lemma X30_FileSequence_split_witness :
  let seq := mkFileSequence [] (T "a.")
               (Some (mkFrameSet (T "1-3,7") (list_to_set [1; 2; 3; 7])
                                 [1; 2; 3; 7]))
               (T "#") (T ".exr") 4 in
  exists pieces,
    FileSequence_split seq = Done pieces /\
    length pieces = 2%nat /\
    ⋃ (map FileSequence_frames pieces) = FileSequence_frames seq.
Proof.
  intros seq.
  destruct (X30_FileSequence_split (T "a.1-3,7#.exr") seq
              ltac:(vm_compute; reflexivity))
    as (pieces & Hsplit & Hlen & Hframes & _).
  exists pieces. split; [done|]. split; [|done]. exact Hlen.
Defined.
